(* ===== verification/_CoqProject ===== *)
-Q . S2P
Prelude.v
Format.v
ZkvmCommon.v
Guest.v
Job.v
Http.v
Json.v
Effects.v
Environment.v
Runner.v
Invariant.v
RunnerSafe.v
Lifecycle.v
Liveness.v
Proxy.v
ProxyFacts.v
Submit.v
Startup.v
Concurrency.v
Traces.v
Submission.v
Nonce.v
Cost.v
Carried.v
Completes.v
Fair.v
Signals.v
Process.v
Restart.v
Shutdown.v
SocketAddr.v
Boot.v
TxConfig.v
Rpc.v
Cli.v
Codec.v
Reference.v
Scenario.v
Race.v
Witnesses.v
