(* ===== verification/Prelude.v ===== *)
(** * The private data availability proxy: a verification development

    The program (src/) is a proxy in front of a Celestia node. A client submits
    blobs through it; the proxy has a zkVM encrypt each blob's data and prove that
    it did, and forwards the proof in place of the data. On the way back it
    verifies the proof and decrypts. Its parts, and the files that model them:

    - zkVM/common/src/lib.rs, the layout of the public values, its parser and the
      cipher: ZkvmCommon.v (hexadecimal text and [Debug] rendering: Format.v).
    - zkVM/sp1/program-chacha/src/main.rs, the program that is proved: Guest.v
      ([guest_main]; [guest_execute] is a run seen from the host).
    - service/src/internal/job.rs, error.rs and the types of util.rs, the data of
      a job and its state machine: Job.v.
    - service/src/internal/runner.rs, the job runner: Runner.v, a definition per
      method. [get_verifiable_encryption] answers a request for a job,
      [job_worker] starts a task per message, [prove] is one step of a job,
      [finalize_job] and [send_job_with_new_status] are the two transactions.
    - service/src/main.rs, the proxy: Proxy.v ([handle_request],
      [inbound_handler], [outbound_handler]) and the start of the process:
      Boot.v ([boot], the configuration; SocketAddr.v, the addresses it parses
      and writes), Startup.v ([prepare_clients], [restart_jobs]), Signals.v
      ([wait_shutdown_signals] of util.rs) and Process.v ([accept], the accept
      loop; [hook_turn], the hook; the ends of the process and its restarts).
    - zkVM/sp1/src/bin/cli.rs and vkey.rs, the commands: Cli.v ([cli_main],
      [vkey_main]).
    - service/src/rpc/, the declared JSON-RPC interface: TxConfig.v
      ([TxConfig_serialize] and the setters) and Rpc.v (the two traits as
      records of operations, and the servers).

    ** How effects are modelled

    Handlers are programs ([prog], Effects.v): trees of the operations they
    perform on the world, with what they do for each answer; a panic is an outcome
    of its own. [Store] (Environment.v) is what the service can observe: the three
    sled trees, the job channel, the started tasks, the process environment, the
    four [OnceCell]s, and the messages sent to the node. [op_post] states the
    documented behaviour of each operation, including how it may fail: [Faults]
    says whether the database may fail; whether the construction, set-up and
    verification of the SP1 client and the random number generator may; and
    whether the client may give up on a proof. [no_faults] is none of them,
    [only_refusals] the last alone. [Env] is any environment, [EnvLaws f] the
    hypothesis that it behaves so; [run] executes a program alone in it, [trace]
    is what it performs on the way, and Concurrency.v interleaves tasks operation by operation under an
    arbitrary schedule. A client that disconnects is a task that is not scheduled
    again. Process.v adds what happens around the tasks: connections are
    accepted, signals come, the process ends in one of four ways, and another one
    starts on a past state of the database.

    Code that is not in the repository is a class of parameters with named laws:
    [Sha2], [ChaCha20] (a synchronous stream cipher whose stream may end),
    [ZkvmIo], [Sp1Types] and [Sp1Facts] (with [Sp1Laws]: completeness and
    soundness of the proof system for the embedded guest), [Bincode],
    [HttpTypes], [Payload] (serde_json and celestia_types), [System] (files,
    sockets and databases at the start), [CliClient], [VkeyClient] and serde's
    [Serializer]. No law assumes that SHA-256 is injective: statements that
    identify data do so up to its SHA-256.
    Reference.v instantiates all of them at once by concrete functions and proves
    their laws (the codecs in Codec.v); Scenario.v builds closed states from it
    and Witnesses.v applies the theorems there.

    ** What is proved

    Two program logics carry the proofs. [wp] (Environment.v) is the weakest
    precondition of a program run alone, and [wpt] that of a program together
    with the operations it performs. [safe] (Invariant.v) checks each
    operation of a program in any state that satisfies the invariant [inv],
    without assuming that the state stays put between two operations, so it holds
    for every interleaving; RunnerSafe.v and ProxyFacts.v check every method of
    the runner and the proxy. [quiet] and [lucky] (Lifecycle.v, Liveness.v) are
    derived rules for programs that leave the jobs alone and for programs that
    must succeed when nothing fails.

    - Secrecy: what is sent to the node, over all lives of the process, under
      every interleaving and alone (C1, C2, C3), with a nonce of its own for every
      encrypted input (C5; [chacha_nonce_reuse] in ZkvmCommon.v says why that
      matters), the rejection of unauthorized requests and the forwarding of
      other ones (C30, C31).
    - Integrity: a proof that is answered belongs to the requested data (C4); the
      trees only hold valid statuses (C6); what is decrypted comes from a verified
      proof, and whatever can be opened is (C16); what such a proof shows (C15).
    - The life of a job: [job_step] (Lifecycle.v) is its abstract state machine,
      and a request and a worker step refine it (C11 to C13, C19 to C21).
    - Progress: a queued job always has a message or a task (C7, Carried.v), and
      under every fair schedule without end it gets its final status (C8, Fair.v),
      also when the prover network gives up on requests it accepted; Completes.v
      shows that any finite schedule can be continued so. When nothing fails a new
      job completes (C9), a submit waits or is forwarded (C17, C18), a client that
      repeats its submit gets it through (C10, Submission.v), and what was
      submitted is read back (C14). Traces.v shows that a task that is scheduled
      without interruption does what [run] says.
    - Cost: under every schedule the proofs that are paid for are bounded by the
      requests and the tasks started (C23, Cost.v).
    - The start of the process: what it needs (C38) and what that means while it
      serves (C39), the clients it prepares (C27) and the jobs it restarts (C26).
      Its end: the worker's last operations (C28) and the end by a signal, among
      whatever else happens (C29, Shutdown.v; Signals.v has the hook).
    - Where the code falls short: two requests can start one job twice (C22), a
      job whose task died waits for ever (C21), a restart with an unfinished job
      panics (C24), and so does every later one (C25, Restart.v).
    - The guest and its output: C32 to C34.
    - The command line, whose own checks cannot fail (C35), and the
      serialized transaction options (C36, C37).

    ** Bounds

    [job_worker] takes fuel, a bound on the messages it receives; C28 shows that
    one more than the jobs before the shutdown message is enough, C29 that more
    than the messages it has got when the hook has its turn are, and C8 that no
    more than the turns so far and the messages at the start are needed ([enough]),
    more making no difference. [prove_times], [ask_times] and [rounds] repeat a
    handler a given number of times; C9 shows that one worker step is enough for a
    local prover and two for the prover network. A schedule is a finite list, or in
    Fair.v a sequence without end in which every task has its turn again and
    again; every theorem about schedules holds for all of them. [digits] (SocketAddr.v) takes the most digits a number of its width
    has. No other definition has fuel. A [u8] is the standard library's [byte],
    an array [[u8; n]] carries its length.

    ** What is left out

    Logging; TLS handshakes and the parsing of HTTP (an accepted stream is the
    requests that come through it); the
    compression settings of a proof request ([groth16]). A [OnceCell] whose
    initializer runs in two tasks at once runs only one of them in the code; here
    both may run and the first to finish wins, which allows more results. (In the
    code the second task waits for the first; no initializer uses another cell,
    so that wait ends with it.) A panic of a spawned task ends that task and
    leaves the process running, as tokio does; a panic of [main] ends the
    process. service/src/rpc is not part of the service's binary (main.rs does
    not declare it); its servers are modelled as they are, unwritten.
    The names of the methods on the wire, by which generated code finds them, are
    left out too. [str::parse] for numbers and addresses and the text of an address
    (Boot.v, SocketAddr.v) are those of Rust's standard library.
    zkVM/sp1/build.rs only hands compiler flags to the build of the guest. The
    lines the command-line prover prints before a panic are not kept. *)

From Stdlib Require Export Strings.Byte.
From stdpp Require Export base tactics countable gmap strings list pretty.

(** ** Notations *)

Declare Scope pda_scope.
Delimit Scope pda_scope with pda.

(** ** Bytes *)

(** A Rust [u8]. The standard library's [Byte.byte] has exactly 256 values, so
    the width is in the type. *)
Abbreviation u8 := Byte.byte.

(** [Vec<u8>], [&[u8]] and sled's [IVec]. *)
Abbreviation bytes := (list Byte.byte).

#[global] Instance byte_eq_dec : EqDecision Byte.byte := Byte.byte_eq_dec.

#[global] Program Instance byte_countable : Countable Byte.byte :=
  inj_countable Byte.to_N Byte.of_N _.
Next Obligation. intros b; apply Byte.of_to_N. Qed.

(** One byte of a [String]. *)
Abbreviation char := Ascii.ascii.

(** Bitwise exclusive or of two bytes. *)
Definition byte_xor (a b : u8) : u8 :=
  match Byte.to_bits a, Byte.to_bits b with
  | (a0, (a1, (a2, (a3, (a4, (a5, (a6, a7))))))),
    (b0, (b1, (b2, (b3, (b4, (b5, (b6, b7))))))) =>
      Byte.of_bits (xorb a0 b0, (xorb a1 b1, (xorb a2 b2, (xorb a3 b3,
        (xorb a4 b4, (xorb a5 b5, (xorb a6 b6, xorb a7 b7)))))))
  end.

(** ** Results and panics *)

(** Rust's [Result<A, E>]. *)
Inductive result (A E : Type) : Type :=
| Ok (a : A)
| Err (e : E).
Arguments Ok {A E} a.
Arguments Err {A E} e.

(** A computation that returns or panics: [unwrap], [expect], an
    out-of-range slice, an explicit [panic!]. *)
Inductive outcome (A : Type) : Type :=
| Returned (a : A)
| Panicked (msg : string).
Arguments Returned {A} a.
Arguments Panicked {A} msg.

Definition outcome_bind {A B} (m : outcome A) (f : A -> outcome B) : outcome B :=
  match m with
  | Returned a => f a
  | Panicked msg => Panicked msg
  end.

Definition result_map {A B E} (f : A -> B) (r : result A E) : result B E :=
  match r with Ok a => Ok (f a) | Err e => Err e end.

Definition result_map_err {A E F} (f : E -> F) (r : result A E) : result A F :=
  match r with Ok a => Ok a | Err e => Err (f e) end.

(** [Result::ok]. *)
Definition result_ok {A E} (r : result A E) : option A :=
  match r with Ok a => Some a | Err _ => None end.

Definition is_ok {A E} (r : result A E) : bool :=
  match r with Ok _ => true | Err _ => false end.

(** [r.expect(msg)]: the panic message shows the error, rendered by [dbg]. *)
Definition expect {A E} (dbg : E -> string) (msg : string) (r : result A E) : outcome A :=
  match r with
  | Ok a => Returned a
  | Err e => Panicked (msg +:+ ": " +:+ dbg e)
  end.

Notation "'letp' x := m 'in' k" := (outcome_bind m (fun x => k))
  (at level 10, x binder, m at level 100, k at level 200) : pda_scope.

(** ** Fixed-size arrays *)

(** Rust's [[u8; n]]: a byte string together with the check that it has [n]
    bytes. The check is a boolean equation, so two arrays with the same bytes
    are equal. *)
Record array (n : nat) : Type := Array {
  arr_bytes :> bytes;
  arr_len : (length arr_bytes =? n) = true;
}.
Arguments Array {n} _ _.
Arguments arr_bytes {n} _.
Arguments arr_len {n} _.

(** [<[u8; n]>::try_from(Vec<u8>)] and [try_into]: the vector comes back as the
    error when its length is wrong. *)
Definition array_try_from (n : nat) (v : bytes) : result (array n) bytes :=
  match bool_dec (length v =? n) true with
  | left H => Ok (Array v H)
  | right _ => Err v
  end.

(** [[0u8; n]]. *)
Program Definition array_zero (n : nat) : array n := Array (replicate n x00) _.
Next Obligation. intros n. rewrite length_replicate. apply Nat.eqb_refl. Qed.

(** [dst.copy_from_slice(src)] panics unless both have the same length; the
    destination then holds the bytes of the source. *)
Definition copy_from_slice {n} (dst : array n) (src : bytes) : outcome (array n) :=
  match array_try_from n src with
  | Ok a => Returned a
  | Err _ => Panicked "copy_from_slice: source slice length does not match destination slice length"
  end.

(** [data.split_at(mid)] panics when [mid > data.len()]. *)
Definition split_at {A} (data : list A) (mid : nat) : outcome (list A * list A) :=
  if decide (mid <= length data)
  then Returned (take mid data, drop mid data)
  else Panicked "split_at: mid > len".

(** [data[lo..hi]] panics when [lo > hi] or [hi > data.len()]. *)
Definition slice {A} (data : list A) (lo hi : nat) : outcome (list A) :=
  if decide (lo <= hi /\ hi <= length data)
  then Returned (take (hi - lo) (drop lo data))
  else Panicked "slice index out of range".

(** [str::starts_with]. *)
Fixpoint starts_with (pre s : string) : bool :=
  match pre, s with
  | EmptyString, _ => true
  | String a pre', String b s' => bool_decide (a = b) && starts_with pre' s'
  | String _ _, EmptyString => false
  end.

(** ** Tactics *)

(** Splits the innermost [match] of the goal or of a hypothesis and simplifies
    the equations it leaves. *)
Ltac case_matches := repeat (case_match; simplify_eq/=; try done).

(** Closes goals about constructors of [result] and [outcome]. *)
Ltac outcome_done := intros; simplify_eq/=; eauto; try congruence.

(** ** Lemmas on bytes *)

Lemma to_bits_of_bits_xor (a b : u8) :
  byte_xor (byte_xor a b) b = a.
Proof.
  unfold byte_xor.
  destruct (Byte.to_bits a) as (a0&a1&a2&a3&a4&a5&a6&a7) eqn:Ea.
  destruct (Byte.to_bits b) as (b0&b1&b2&b3&b4&b5&b6&b7) eqn:Eb.
  rewrite Byte.to_bits_of_bits.
  rewrite !xorb_assoc_reverse, !xorb_nilpotent, !xorb_false_r, <- Ea.
  apply Byte.of_bits_to_bits.
Qed.

Lemma byte_xor_cancel (a b k : u8) :
  byte_xor (byte_xor a k) (byte_xor b k) = byte_xor a b.
Proof.
  unfold byte_xor.
  destruct (Byte.to_bits a) as (a0&a1&a2&a3&a4&a5&a6&a7).
  destruct (Byte.to_bits b) as (b0&b1&b2&b3&b4&b5&b6&b7).
  destruct (Byte.to_bits k) as (k0&k1&k2&k3&k4&k5&k6&k7).
  rewrite !Byte.to_bits_of_bits.
  assert (forall x y z, xorb (xorb x z) (xorb y z) = xorb x y) as E by (by intros [] [] []).
  by rewrite !E.
Qed.

Lemma byte_xor_comm (a b : u8) : byte_xor a b = byte_xor b a.
Proof.
  unfold byte_xor.
  destruct (Byte.to_bits a) as (a0&a1&a2&a3&a4&a5&a6&a7).
  destruct (Byte.to_bits b) as (b0&b1&b2&b3&b4&b5&b6&b7).
  rewrite (xorb_comm a0), (xorb_comm a1), (xorb_comm a2), (xorb_comm a3),
    (xorb_comm a4), (xorb_comm a5), (xorb_comm a6), (xorb_comm a7).
  done.
Qed.

#[global] Instance byte_xor_inj_l (b : u8) : Inj (=) (=) (fun a => byte_xor a b).
Proof.
  intros a a' H. rewrite <- (to_bits_of_bits_xor a b), <- (to_bits_of_bits_xor a' b).
  by rewrite H.
Qed.

(** ** Lemmas on arrays *)

Lemma array_length {n} (a : array n) : length a = n.
Proof. by apply Nat.eqb_eq, arr_len. Qed.

Lemma array_eq {n} (a b : array n) : arr_bytes a = arr_bytes b -> a = b.
Proof.
  destruct a as [xs Hx], b as [ys Hy]; simpl; intros ->.
  f_equal. apply (Eqdep_dec.UIP_dec bool_dec).
Qed.

#[global] Instance array_eq_dec n : EqDecision (array n).
Proof.
  intros a b. destruct (decide (arr_bytes a = arr_bytes b)) as [H|H].
  - left. by apply array_eq.
  - right. by intros ->.
Defined.

Lemma array_try_from_ok n (v : bytes) (H : length v = n) :
  exists a, array_try_from n v = Ok a /\ arr_bytes a = v.
Proof.
  unfold array_try_from. destruct (bool_dec _ _) as [E|E]; [by eexists|].
  by rewrite H, Nat.eqb_refl in E.
Qed.

Lemma array_try_from_inv n (v : bytes) a :
  array_try_from n v = Ok a -> arr_bytes a = v /\ length v = n.
Proof.
  unfold array_try_from. destruct (bool_dec _ _) as [E|E]; [|done].
  intros [= <-]. split; [done|]. by apply Nat.eqb_eq.
Qed.

Lemma array_try_from_err n (v : bytes) (H : length v <> n) :
  array_try_from n v = Err v.
Proof.
  unfold array_try_from. destruct (bool_dec _ _) as [E|E]; [|done].
  by pose proof (proj1 (Nat.eqb_eq _ _) E).
Qed.

Lemma array_try_from_bytes {n} (a : array n) : array_try_from n a = Ok a.
Proof.
  destruct (array_try_from_ok n a (array_length a)) as (b & -> & Hb).
  by rewrite (array_eq b a Hb).
Qed.

Lemma copy_from_slice_ok {n} (dst : array n) (src : bytes) (H : length src = n) :
  exists a, copy_from_slice dst src = Returned a /\ arr_bytes a = src.
Proof.
  unfold copy_from_slice.
  destruct (array_try_from_ok n src H) as (a & -> & Ha). by exists a.
Qed.

Lemma copy_from_slice_bytes {n} (dst a : array n) : copy_from_slice dst a = Returned a.
Proof. unfold copy_from_slice. by rewrite array_try_from_bytes. Qed.

(** ** Lemmas on lists *)

(** Three consecutive pieces that cover a list. *)
Lemma take_three {A} (l : list A) a b c (H : length l = a + b + c) :
  (take a l ++ take b (drop a l)) ++ take c (drop (a + b) l) = l.
Proof.
  rewrite <- app_assoc, (take_ge (drop (a + b) l)) by (rewrite length_drop; lia).
  rewrite <- (take_drop a l) at 4. f_equal.
  rewrite <- (take_drop b (drop a l)) at 2. by rewrite drop_drop.
Qed.

Create HintDb pda.
Create Rewrite HintDb pda_len.
#[export] Hint Resolve array_length : pda.
#[export] Hint Rewrite @array_length @length_app @length_take @length_drop : pda_len.
