(* ===== verification/Format.v ===== *)
(** Text produced by the program: the hexadecimal rendering of byte strings
    that zkVM/common/src/lib.rs and service/src/internal/job.rs share, and the
    pieces of [core::fmt] the hand-written [Debug] implementations use. *)

From S2P Require Import Prelude.

Local Open Scope string_scope.

(** The digit [core::fmt] prints for a nibble under [{:x}]. *)
Definition hex_digit (n : N) : char :=
  if bool_decide (n < 10)%N then Ascii.ascii_of_N (48 + n) else Ascii.ascii_of_N (87 + n).

(** [format!("{:02x}", b)]: lower case, padded with zeros to two digits. *)
Definition fmt_02x (b : u8) : string :=
  String (hex_digit (Byte.to_N b / 16)) (String (hex_digit (Byte.to_N b mod 16)) EmptyString).

(** [bytes.iter().map(|b| format!("{:02x}", b)).collect()]. *)
Definition bytes_to_hex (b : bytes) : string :=
  foldr String.app EmptyString (fmt_02x <$> b).

(** [f.debug_struct(name).field(..)...finish()] without the alternate flag;
    each field's value is already rendered. *)
Definition debug_struct (name : string) (fields : list (string * string)) : string :=
  match fields with
  | [] => name
  | _ => name +:+ " { " +:+
         String.concat ", " ((fun f => fst f +:+ ": " +:+ snd f) <$> fields) +:+ " }"
  end.

(** The [Debug] rendering of a [str] that holds nothing to escape. *)
Definition debug_plain_str (s : string) : string :=
  String (Ascii.ascii_of_nat 34) (s +:+ String (Ascii.ascii_of_nat 34) EmptyString).

(** The [Debug] rendering of a [Vec<u8>]. *)
Definition debug_bytes (b : bytes) : string :=
  "[" +:+ String.concat ", " ((fun x => pretty (Byte.to_N x)) <$> b) +:+ "]".

(** A digit of [bytes_to_hex], read back. Reference definition. *)
Definition hex_value (c : char) : option N :=
  let n := Ascii.N_of_ascii c in
  if bool_decide (48 <= n <= 57)%N then Some (n - 48)%N
  else if bool_decide (97 <= n <= 102)%N then Some (n - 87)%N
  else if bool_decide (65 <= n <= 70)%N then Some (n - 55)%N
  else None.

(** Reads pairs of hexadecimal digits. Reference definition. *)
Fixpoint hex_decode (s : string) : option bytes :=
  match s with
  | EmptyString => Some []
  | String hi (String lo s') =>
      h ← hex_value hi; l ← hex_value lo; b ← Byte.of_N (16 * h + l); rest ← hex_decode s';
      Some (b :: rest)
  | String _ EmptyString => None
  end.

Lemma hex_digit_value b :
  hex_value (hex_digit (Byte.to_N b / 16)) = Some (Byte.to_N b / 16)%N /\
  hex_value (hex_digit (Byte.to_N b mod 16)) = Some (Byte.to_N b mod 16)%N.
Proof. by destruct b. Qed.

Lemma fmt_02x_decode b s : hex_decode (fmt_02x b +:+ s) = (fun r => b :: r) <$> hex_decode s.
Proof.
  destruct (hex_digit_value b) as [Hhi Hlo]. simpl. rewrite Hhi, Hlo. simpl.
  rewrite <- N.div_mod', Byte.of_to_N.
  change (EmptyString +:+ s) with s. by destruct (hex_decode s).
Qed.

Lemma bytes_to_hex_cons b l : bytes_to_hex (b :: l) = fmt_02x b +:+ bytes_to_hex l.
Proof. done. Qed.

Lemma bytes_to_hex_decode b : hex_decode (bytes_to_hex b) = Some b.
Proof.
  induction b as [|x b IH]; [done|].
  rewrite bytes_to_hex_cons, fmt_02x_decode, IH. done.
Qed.

Lemma bytes_to_hex_length b : String.length (bytes_to_hex b) = 2 * length b.
Proof.
  induction b as [|x b IH]; [done|]. rewrite bytes_to_hex_cons.
  change (S (S (String.length (bytes_to_hex b))) = 2 * S (length b)). lia.
Qed.

#[global] Instance bytes_to_hex_inj : Inj (=) (=) bytes_to_hex.
Proof.
  intros a b H. apply (inj Some). by rewrite <- !bytes_to_hex_decode, H.
Qed.

(** Every byte string is rendered in two characters per byte and recovered
    from its rendering, so two byte strings never print alike. *)
Theorem bytes_to_hex_roundtrip b :
  hex_decode (bytes_to_hex b) = Some b /\ String.length (bytes_to_hex b) = 2 * length b.
Proof. split; [apply bytes_to_hex_decode|apply bytes_to_hex_length]. Qed.
