(* ===== verification/ZkvmCommon.v ===== *)
(** zkVM/common/src/lib.rs: the layout of the public values, the cipher shared
    by the zkVM guest and the service, and the parser of the guest's output.
    The [sha2] and [chacha20] crates are classes; [ChaCha20Laws] states what
    their documentation promises. *)

From S2P Require Import Prelude Format.

Definition KEY_LEN : nat := 32.
Definition HASH_LEN : nat := 32.
Definition NONCE_LEN : nat := 12.
Definition HEADER_LEN : nat := HASH_LEN + NONCE_LEN + HASH_LEN.

(** ** The crates *)

(** [Sha256::digest] of the [sha2] crate. *)
Class Sha2 := { sha256 : bytes -> array HASH_LEN }.

(** [ChaCha20::new] and [StreamCipher::apply_keystream] of the [chacha20]
    crate. A cipher is consumed as it encrypts; [apply_keystream] panics when
    the key stream would end inside the buffer. *)
Class ChaCha20 := {
  Cipher : Type;
  chacha20_new : array KEY_LEN -> array NONCE_LEN -> Cipher;
  apply_keystream : Cipher -> bytes -> outcome (bytes * Cipher);
}.

(** The documented behaviour of a synchronous stream cipher: the bytes of the
    buffer are combined by exclusive or with a stream that depends only on the
    key, the nonce and the position; past the end of the stream
    [apply_keystream] panics. A key and nonce give at least 2^32 - 1 blocks of
    64 bytes. *)
Class ChaCha20Laws `{ChaCha20} := {
  keystream : array KEY_LEN -> array NONCE_LEN -> nat -> u8;
  keystream_bytes : N;
  keystream_blocks : (64 * (2 ^ 32 - 1) <= keystream_bytes)%N;
  apply_keystream_xor key nonce b :
    (N.of_nat (length b) <= keystream_bytes)%N ->
    exists c, apply_keystream (chacha20_new key nonce) b
              = Returned (imap (fun i x => byte_xor x (keystream key nonce i)) b, c);
  apply_keystream_end key nonce b :
    (keystream_bytes < N.of_nat (length b))%N ->
    exists msg, apply_keystream (chacha20_new key nonce) b = Panicked msg;
}.

(** A buffer the key stream reaches to the end of. *)
Definition in_keystream `{ChaCha20Laws} (b : bytes) : Prop :=
  (N.of_nat (length b) <= keystream_bytes)%N.

Section Common.
  Context `{Sha2, ChaCha20}.

(** [chacha]: encrypts or decrypts a buffer in place; the result is the
    buffer afterwards. *)
Definition chacha (key : array KEY_LEN) (nonce : array NONCE_LEN) (buffer : bytes)
    : outcome bytes :=
  let cipher := chacha20_new key nonce in
  outcome_bind (apply_keystream cipher buffer) (fun r => Returned (fst r)).
End Common.

(** ** The guest's output *)

Record ZkvmOutput : Type := {
  privkey_hash : array HASH_LEN;
  nonce : array NONCE_LEN;
  plaintext_hash : array HASH_LEN;
  ciphertext : bytes;
}.

Open Scope pda_scope.

(** [ZkvmOutput::from_bytes]. The outcome keeps the panics of [split_at], of
    slicing and of [copy_from_slice] apart from the error the function returns. *)
Definition from_bytes (data : bytes) : outcome (result ZkvmOutput string) :=
  if length data <? HEADER_LEN then Returned (Err "Input too short for header"%string)
  else
    letp parts := split_at data HEADER_LEN in
    let header := fst parts in
    letp s1 := slice header 0 HASH_LEN in
    letp privkey_hash := copy_from_slice (array_zero HASH_LEN) s1 in
    letp s2 := slice header HASH_LEN (HASH_LEN + NONCE_LEN) in
    letp nonce := copy_from_slice (array_zero NONCE_LEN) s2 in
    letp s3 := slice header (HASH_LEN + NONCE_LEN) HEADER_LEN in
    letp plaintext_hash := copy_from_slice (array_zero HASH_LEN) s3 in
    Returned (Ok {| privkey_hash := privkey_hash; nonce := nonce;
                    plaintext_hash := plaintext_hash; ciphertext := snd parts |}).

(** The byte layout a [ZkvmOutput] stands for. Reference definition. *)
Definition output_bytes (o : ZkvmOutput) : bytes :=
  privkey_hash o ++ nonce o ++ plaintext_hash o ++ ciphertext o.

(** [Debug for ZkvmOutput]: the ciphertext is shown as its SHA-256. *)
Definition ZkvmOutput_fmt `{Sha2} (o : ZkvmOutput) : string :=
  let privkey_hash_hex := bytes_to_hex (privkey_hash o) in
  let nonce_hex := bytes_to_hex (nonce o) in
  let plaintext_hash_hex := bytes_to_hex (plaintext_hash o) in
  let ciphertext_hash_hex := bytes_to_hex (sha256 (ciphertext o)) in
  debug_struct "ZkvmOutput"
    [("privkey_hash", debug_plain_str privkey_hash_hex);
     ("nonce", debug_plain_str nonce_hex);
     ("plaintext_hash", debug_plain_str plaintext_hash_hex);
     ("ciphertext_sha256", debug_plain_str ciphertext_hash_hex)]%string.

(** [random_nonce]: [rng] is the answer of [OsRng.try_fill_bytes] for the
    buffer it is given. *)
Definition random_nonce (rng : array NONCE_LEN -> result (array NONCE_LEN) string)
    : outcome (array NONCE_LEN) :=
  match rng (array_zero NONCE_LEN) with
  | Ok nonce => Returned nonce
  | Err e => Panicked ("Rng->buffer: " +:+ e)
  end.

(** ** The cipher *)

Section CipherFacts.
  Context `{ChaCha20Laws}.

#[local] Instance in_keystream_dec b : Decision (in_keystream b).
Proof. unfold in_keystream. apply _. Defined.

Lemma chacha_xor key nonce b (Hb : in_keystream b) :
  chacha key nonce b = Returned (imap (fun i x => byte_xor x (keystream key nonce i)) b).
Proof.
  unfold chacha. by destruct (apply_keystream_xor key nonce b Hb) as (c & ->).
Qed.

Lemma chacha_end key nonce b (Hb : ~ in_keystream b) :
  exists msg, chacha key nonce b = Panicked msg.
Proof.
  destruct (apply_keystream_end key nonce b) as (msg & E); [unfold in_keystream in *; lia|].
  exists msg. unfold chacha. by rewrite E.
Qed.

Lemma chacha_returned key nonce b c :
  chacha key nonce b = Returned c ->
  in_keystream b /\ c = imap (fun i x => byte_xor x (keystream key nonce i)) b.
Proof.
  destruct (decide (in_keystream b)) as [Hb|Hb].
  - rewrite chacha_xor by done. by intros [= <-].
  - by destruct (chacha_end key nonce b Hb) as (msg & ->).
Qed.

Lemma chacha_xor_xor key nonce b :
  imap (fun i x => byte_xor x (keystream key nonce i))
    (imap (fun i x => byte_xor x (keystream key nonce i)) b) = b.
Proof.
  apply list_eq. intros i. rewrite !list_lookup_imap.
  destruct (b !! i) as [x|]; simpl; [|done]. by rewrite to_bits_of_bits_xor.
Qed.

Lemma chacha_undo key nonce b c :
  chacha key nonce b = Returned c -> length c = length b /\ chacha key nonce c = Returned b.
Proof.
  intros [Hb ->]%chacha_returned. split; [apply length_imap|].
  rewrite chacha_xor; [by rewrite chacha_xor_xor|].
  unfold in_keystream. by rewrite length_imap.
Qed.

(** Two buffers encrypted under one key and nonce have the same exclusive or
    as their ciphertexts: what reusing a nonce would reveal. *)
Theorem chacha_nonce_reuse key nonce b1 b2 c1 c2 :
  chacha key nonce b1 = Returned c1 -> chacha key nonce b2 = Returned c2 ->
  zip_with byte_xor c1 c2 = zip_with byte_xor b1 b2.
Proof.
  intros [_ ->]%chacha_returned [_ ->]%chacha_returned.
  apply list_eq. intros i. rewrite !lookup_zip_with, !list_lookup_imap.
  destruct (b1 !! i) as [x|], (b2 !! i) as [y|]; simpl; try done.
  by rewrite byte_xor_cancel.
Qed.
End CipherFacts.

(** ** Parsing the guest's output *)

Lemma split_at_ok {A} (l : list A) n (H : n <= length l) :
  split_at l n = Returned (take n l, drop n l).
Proof. unfold split_at. by rewrite decide_True. Qed.

Lemma slice_ok {A} (l : list A) lo hi (H1 : lo <= hi) (H2 : hi <= length l) :
  slice l lo hi = Returned (take (hi - lo) (drop lo l)).
Proof. unfold slice. by rewrite decide_True. Qed.

Lemma output_bytes_length o : length (output_bytes o) = HEADER_LEN + length (ciphertext o).
Proof. unfold output_bytes. autorewrite with pda_len. unfold HEADER_LEN. lia. Qed.

Lemma output_bytes_inj o1 o2 : output_bytes o1 = output_bytes o2 -> o1 = o2.
Proof.
  destruct o1 as [a1 b1 c1 d1], o2 as [a2 b2 c2 d2]. unfold output_bytes; simpl.
  intros [Ha H]%app_inj_1; [|by rewrite !array_length].
  apply app_inj_1 in H as [Hb H]; [|by rewrite !array_length].
  apply app_inj_1 in H as [Hc Hd]; [|by rewrite !array_length].
  by rewrite (array_eq _ _ Ha), (array_eq _ _ Hb), (array_eq _ _ Hc), Hd.
Qed.

(** Performs the leftmost [copy_from_slice]; its length condition is left. *)
Ltac copy_step :=
  match goal with
  | |- context [copy_from_slice ?dst ?src] =>
      destruct (copy_from_slice_ok dst src) as (? & -> & ?)
  end.

(** A header and the bytes after it, cut where [from_bytes] cuts them. *)
Lemma from_bytes_long data (H : HEADER_LEN <= length data) :
  exists o, from_bytes data = Returned (Ok o) /\ output_bytes o = data.
Proof.
  assert (length (take HEADER_LEN data) = HEADER_LEN) as Hh
    by (rewrite length_take; lia).
  unfold from_bytes. destruct (Nat.ltb_spec (length data) HEADER_LEN) as [?|_]; [lia|].
  rewrite split_at_ok by done. cbn [outcome_bind fst snd].
  set (h := take HEADER_LEN data) in *.
  do 3 (rewrite slice_ok by (rewrite ?Hh; compute; lia); cbn [outcome_bind];
        copy_step; [rewrite length_take, length_drop, Hh; done|]; cbn [outcome_bind]).
  eexists; split; [done|]. unfold output_bytes.
  cbn [privkey_hash nonce plaintext_hash ciphertext].
  repeat match goal with E : arr_bytes _ = _ |- _ => rewrite E; clear E end.
  rewrite !app_assoc, drop_0.
  etrans; [|apply (take_drop HEADER_LEN)]. f_equal. fold h.
  by apply take_three.
Qed.

(** C34: [from_bytes] never panics. It fails exactly on inputs shorter than the
    header, and what it accepts is the concatenation of the parsed fields: no
    byte is lost, duplicated or moved. *)
Theorem from_bytes_spec data :
  match from_bytes data with
  | Returned (Ok o) => output_bytes o = data
  | Returned (Err e) => length data < HEADER_LEN /\ e = "Input too short for header"%string
  | Panicked _ => False
  end.
Proof.
  destruct (decide (HEADER_LEN <= length data)) as [H|H].
  - by destruct (from_bytes_long data H) as (o & -> & Ho).
  - unfold from_bytes. destruct (Nat.ltb_spec (length data) HEADER_LEN); [|lia]. done.
Qed.

Lemma from_bytes_output o : from_bytes (output_bytes o) = Returned (Ok o).
Proof.
  destruct (from_bytes_long (output_bytes o)) as (o' & -> & Ho).
  { rewrite output_bytes_length. lia. }
  do 2 f_equal. by apply output_bytes_inj.
Qed.

(** Parsing the byte layout of an output gives the output back. *)
Theorem from_bytes_roundtrip o : from_bytes (output_bytes o) = Returned (Ok o).
Proof. apply from_bytes_output. Qed.
