(* ===== verification/Guest.v ===== *)
(** zkVM/sp1/program-chacha/src/main.rs: the program the zkVM proves. Its input
    and output streams belong to the [sp1_zkvm] crate and are a class; the laws
    say that the vectors come back in the order the host wrote them and that
    commitments are appended to the public values. *)

From S2P Require Import Prelude Format ZkvmCommon.

Open Scope pda_scope.

(** [SP1Stdin] on the host, [sp1_zkvm::io] in the guest. *)
Class ZkvmIo := {
  SP1Stdin : Type;
  stdin_new : SP1Stdin;
  write_slice : SP1Stdin -> bytes -> SP1Stdin;
  Io : Type;
  io_start : SP1Stdin -> Io;
  read_vec : Io -> outcome (bytes * Io);
  commit_slice : Io -> bytes -> Io;
  io_public_values : Io -> bytes;
}.

Class ZkvmIoLaws `{ZkvmIo} := {
  stdin_buffers : SP1Stdin -> list bytes;
  pending : Io -> list bytes;
  stdin_new_buffers : stdin_buffers stdin_new = [];
  write_slice_buffers s b : stdin_buffers (write_slice s b) = stdin_buffers s ++ [b];
  start_pending s : pending (io_start s) = stdin_buffers s;
  start_public s : io_public_values (io_start s) = [];
  read_vec_cons io v rest :
    pending io = v :: rest ->
    exists io', read_vec io = Returned (v, io') /\ pending io' = rest /\
                io_public_values io' = io_public_values io;
  read_vec_nil io : pending io = [] -> exists msg, read_vec io = Panicked msg;
  commit_pending io b : pending (commit_slice io b) = pending io;
  commit_public io b : io_public_values (commit_slice io b) = io_public_values io ++ b;
}.

Section Guest.
  Context `{Sha2, ChaCha20, ZkvmIo}.

(** [main] of the guest: the streams after the run, or the panic that leaves
    the run without a proof. *)
Definition guest_main (io : Io) : outcome Io :=
    letp '(key, io) := read_vec io in
    letp '(nonce, io) := read_vec io in
    letp '(buffer, io) := read_vec io in
    let key_hash := sha256 key in
    let io := commit_slice io key_hash in
    letp nonce := expect debug_bytes "nonce=12B" (array_try_from NONCE_LEN nonce) in
    let io := commit_slice io nonce in
    let plaintext_hash := sha256 buffer in
    let io := commit_slice io plaintext_hash in
    letp key := expect debug_bytes "key=32B" (array_try_from KEY_LEN key) in
    letp buffer := chacha key nonce buffer in
    Returned (commit_slice io buffer).

(** The input the host prepares: key, nonce, plaintext, each a slice. *)
Definition guest_stdin (key nonce plaintext : bytes) : SP1Stdin :=
  write_slice (write_slice (write_slice stdin_new key) nonce) plaintext.

(** A run of the guest, seen from the host: the public values it commits to. *)
Definition guest_execute (stdin : SP1Stdin) : outcome bytes :=
  letp io := guest_main (io_start stdin) in Returned (io_public_values io).

(** The output the guest promises for well-formed inputs. Specification. *)
Definition sealed (key : array KEY_LEN) (nonce : array NONCE_LEN) (plaintext ct : bytes)
    : ZkvmOutput :=
  {| privkey_hash := sha256 key; nonce := nonce;
     plaintext_hash := sha256 plaintext; ciphertext := ct |}.

End Guest.

Section GuestFacts.
  Context `{Sha2, ChaCha20Laws, ZkvmIoLaws}.

Lemma guest_stdin_buffers key nonce plaintext :
  stdin_buffers (guest_stdin key nonce plaintext) = [key; nonce; plaintext].
Proof. unfold guest_stdin. by rewrite !write_slice_buffers, stdin_new_buffers. Qed.

(** Reads the next pending vector of the stream in the goal. *)
Ltac read_step :=
  match goal with
  | P : pending ?io = _ :: _ |- context [read_vec ?io] =>
      let io' := fresh "io" in let P' := fresh "P" in let V := fresh "V" in
      destruct (read_vec_cons io _ _ P) as (io' & -> & P' & V); cbn [outcome_bind]
  end.

(** The stream in the goal is empty: the read panics. *)
Ltac read_end :=
  match goal with
  | P : pending ?io = [] |- context [read_vec ?io] =>
      destruct (read_vec_nil io P) as (msg & ->); by exists msg
  end.

(** The whole run, for any input: a missing vector or a wrong length is a
    panic, and everything else has no way to fail. *)
Lemma guest_execute_unfold stdin :
  match stdin_buffers stdin with
  | key :: nonce :: plaintext :: _ =>
      guest_execute stdin =
        letp n := expect debug_bytes "nonce=12B" (array_try_from NONCE_LEN nonce) in
        letp k := expect debug_bytes "key=32B" (array_try_from KEY_LEN key) in
        letp ct := chacha k n plaintext in
        Returned (sha256 key ++ n ++ sha256 plaintext ++ ct)
  | _ => exists msg, guest_execute stdin = Panicked msg
  end.
Proof.
  unfold guest_execute, guest_main.
  pose proof (start_pending stdin) as P. pose proof (start_public stdin) as V.
  destruct (stdin_buffers stdin) as [|key [|nonce [|plaintext rest]]];
    repeat read_step; try read_end.
  destruct (array_try_from NONCE_LEN nonce) as [n|e] eqn:En; [|done]. cbn.
  destruct (array_try_from KEY_LEN key) as [k|e] eqn:Ek; [|done]. cbn.
  destruct (chacha k n plaintext) as [ct|msg]; [|done]. cbn.
  rewrite !commit_public. f_equal.
  by rewrite V2, V1, V0, V, app_nil_l, <- !app_assoc.
Qed.

Lemma guest_execute_eq key nonce plaintext :
  guest_execute (guest_stdin key nonce plaintext) =
    letp n := expect debug_bytes "nonce=12B" (array_try_from NONCE_LEN nonce) in
    letp k := expect debug_bytes "key=32B" (array_try_from KEY_LEN key) in
    letp ct := chacha k n plaintext in
    Returned (sha256 key ++ n ++ sha256 plaintext ++ ct).
Proof.
  pose proof (guest_execute_unfold (guest_stdin key nonce plaintext)) as E.
  by rewrite guest_stdin_buffers in E.
Qed.

Lemma guest_execute_sealed (key : array KEY_LEN) (nonce : array NONCE_LEN) plaintext
    (Hp : in_keystream plaintext) :
  exists ct, chacha key nonce plaintext = Returned ct /\
    guest_execute (guest_stdin key nonce plaintext)
    = Returned (output_bytes (sealed key nonce plaintext ct)).
Proof.
  eexists. split; [by apply chacha_xor|].
  rewrite guest_execute_eq, !array_try_from_bytes. cbn [expect outcome_bind].
  by rewrite chacha_xor by done.
Qed.

(** Whatever a run commits to parses, and is the sealing of its inputs. *)
Lemma guest_execute_inv key nonce plaintext pv :
  guest_execute (guest_stdin key nonce plaintext) = Returned pv ->
  exists (k : array KEY_LEN) (n : array NONCE_LEN) ct,
    arr_bytes k = key /\ arr_bytes n = nonce /\ chacha k n plaintext = Returned ct /\
    pv = output_bytes (sealed k n plaintext ct).
Proof.
  rewrite guest_execute_eq. intros E.
  destruct (array_try_from NONCE_LEN nonce) as [n|e] eqn:En; [|done].
  destruct (array_try_from KEY_LEN key) as [k|e] eqn:Ek; [|done]. cbn in E.
  destruct (chacha k n plaintext) as [ct|msg] eqn:Ec; [|done]. injection E as <-.
  apply array_try_from_inv in En as [<- _], Ek as [<- _]. by exists k, n, ct.
Qed.

(** A run on any input at all reads exactly the first three vectors: whatever
    a proof shows was computed from a key, a nonce and a plaintext. *)
Lemma guest_execute_any stdin pv :
  guest_execute stdin = Returned pv ->
  exists key nonce plaintext rest,
    stdin_buffers stdin = key :: nonce :: plaintext :: rest /\
    guest_execute (guest_stdin key nonce plaintext) = Returned pv.
Proof.
  intros E. pose proof (guest_execute_unfold stdin) as Hu.
  destruct (stdin_buffers stdin) as [|key [|n [|plaintext rest]]];
    try (destruct Hu as [msg Hu]; congruence).
  exists key, n, plaintext, rest. by rewrite guest_execute_eq, <- Hu.
Qed.

(** C32: The guest runs to completion, so a proof can exist, exactly when the
    nonce has 12 bytes, the key has 32, and the key stream covers the
    plaintext; on all other inputs it panics. *)
Theorem guest_execute_total key nonce plaintext :
  (exists pv, guest_execute (guest_stdin key nonce plaintext) = Returned pv) <->
  length nonce = NONCE_LEN /\ length key = KEY_LEN /\ in_keystream plaintext.
Proof.
  split.
  - intros [pv (k & n & ct & <- & <- & Hct & _)%guest_execute_inv].
    apply chacha_returned in Hct as [Hct _]. by rewrite !array_length.
  - intros (Hn & Hk & Hp).
    destruct (array_try_from_ok _ _ Hn) as (n & _ & <-).
    destruct (array_try_from_ok _ _ Hk) as (k & _ & <-).
    destruct (guest_execute_sealed k n plaintext Hp) as (ct & _ & ->). by eexists.
Qed.

(** What a verifier of a proof learns from its public values, whatever input
    the prover used: they parse into the hashes of some key and plaintext, and
    decrypting the ciphertext with that key gives that plaintext. *)
Lemma guest_output_decrypts key nonce_in plaintext pv :
  guest_execute (guest_stdin key nonce_in plaintext) = Returned pv ->
  exists (k : array KEY_LEN) o, arr_bytes k = key /\ from_bytes pv = Returned (Ok o) /\
    privkey_hash o = sha256 k /\ plaintext_hash o = sha256 plaintext /\
    arr_bytes (nonce o) = nonce_in /\
    chacha k (nonce o) (ciphertext o) = Returned plaintext.
Proof.
  intros (k & n & ct & Hk & Hn & Hct & ->)%guest_execute_inv.
  exists k, (sealed k n plaintext ct). split_and!; try done.
  - apply from_bytes_output.
  - by apply chacha_undo in Hct as [_ ?].
Qed.

(** C33: End to end: parsing the public values of a run and decrypting with the
    same key gives the plaintext back, under the nonce the guest was given,
    next to the hashes of the key and the plaintext. *)
Theorem guest_decrypts (key : array KEY_LEN) (n : array NONCE_LEN) plaintext
    (Hp : in_keystream plaintext) :
  exists pv o, guest_execute (guest_stdin key n plaintext) = Returned pv /\
    from_bytes pv = Returned (Ok o) /\
    nonce o = n /\ privkey_hash o = sha256 key /\ plaintext_hash o = sha256 plaintext /\
    chacha key (nonce o) (ciphertext o) = Returned plaintext.
Proof.
  destruct (guest_execute_sealed key n plaintext Hp) as (ct & Hct & ->).
  do 2 eexists. split; [done|]. split; [apply from_bytes_output|].
  apply chacha_undo in Hct as [_ ?]. by split_and!.
Qed.
End GuestFacts.
