(* ===== verification/Job.v ===== *)
(** service/src/internal/job.rs, error.rs and the types of util.rs: jobs, their
    states and the service's errors, with the text they print. What belongs to
    [sp1_sdk] is the class [Sp1Types]; the documented encoding of [bincode] is
    the class [Bincode] and its laws. *)

From S2P Require Import Prelude Format.

Local Open Scope string_scope.

(** [SuccNetJobId = [u8; 32]]: a request id of the prover network. *)
Definition SuccNetJobId : Type := array 32.

(** [SuccNetProgramId = [u8; 32]]: the SHA2-256 of a zkVM program's ELF. *)
Definition SuccNetProgramId : Type := array 32.

(** The types of [sp1_sdk] the service handles without looking inside. *)
Class Sp1Types := {
  SP1ProofWithPublicValues : Type;
  public_values : SP1ProofWithPublicValues -> bytes;
  SP1ProvingKey : Type;
  SP1VerifyingKey : Type;
  SP1EnvProver : Type;
  SP1NetworkProver : Type;
  FulfillmentStrategy : Type;
  from_str_name : string -> option FulfillmentStrategy;
  (** The fields of the [SP1NetworkError] variants the service skips with [{ .. }] or [_]. *)
  ErrorFields : Type;
}.

(** [sp1_sdk::network::Error]: the variants the service matches on, with no
    wildcard. *)
Inductive SP1NetworkError `{Sp1Types} : Type :=
| SimulationFailed
| RequestUnexecutable (fields : ErrorFields)
| RequestUnfulfillable (fields : ErrorFields)
| RequestTimedOut (fields : ErrorFields)
| RpcError (fields : ErrorFields)
| Other (fields : ErrorFields).

(** An [anyhow::Error] of the SP1 client, by what [downcast_ref::<SP1NetworkError>]
    makes of it; [OtherError] keeps its [Display] text. *)
Inductive AnyhowError `{Sp1Types} : Type :=
| Sp1Network (e : SP1NetworkError)
| OtherError (text : string).

Definition downcast_ref `{Sp1Types} (e : AnyhowError) : option SP1NetworkError :=
  match e with Sp1Network n => Some n | OtherError _ => None end.

(** [Display] of the two third-party errors. *)
Class Sp1Display `{Sp1Types} := {
  network_error_display : SP1NetworkError -> string;
}.

Definition anyhow_display `{Sp1Display} (e : AnyhowError) : string :=
  match e with
  | Sp1Network n => network_error_display n
  | OtherError text => text
  end.

(** ** error.rs *)

Inductive PdaRunnerError : Type :=
| InternalError (s : string)
| ZkClientError (s : string)
| DaClientError (s : string)
| InvalidParameter (s : string).

(** [Display], from the [#[error(..)]] attributes. *)
Definition PdaRunnerError_display (e : PdaRunnerError) : string :=
  match e with
  | InternalError s => "Service: " +:+ s
  | ZkClientError s => "ZK Prover: " +:+ s
  | DaClientError s => "Data Availability Node: " +:+ s
  | InvalidParameter s => "Invalid parameter: " +:+ s
  end.

(** [Debug for PdaRunnerError]. *)
Definition PdaRunnerError_fmt (e : PdaRunnerError) : string :=
  match e with
  | InternalError s => "InternalError(" +:+ s +:+ ")"
  | ZkClientError s => "ZkClientError(" +:+ s +:+ ")"
  | DaClientError s => "DaClientError(" +:+ s +:+ ")"
  | InvalidParameter s => "InvalidParameter(" +:+ s +:+ ")"
  end.

(** ** job.rs *)

Record Anchor : Type := { anchor_data : bytes }.

Record Input : Type := { input_data : bytes }.

Record Job : Type := { anchor : Anchor; input : Input }.

(** [AsRef<[u8]> for Anchor]. *)
Definition Anchor_as_ref (a : Anchor) : bytes := anchor_data a.

(** [bytes_to_hex]: job.rs has its own copy of zkvm_common's. *)
Definition job_bytes_to_hex (b : bytes) : string := foldr String.app EmptyString (fmt_02x <$> b).

(** [Debug for Anchor]. *)
Definition Anchor_fmt (a : Anchor) : string :=
  let anchor_hex := job_bytes_to_hex (anchor_data a) in
  debug_struct "Anchor" [("data (hex)", debug_plain_str anchor_hex)].

(** The derived [Debug] of [Input] and [Job]. *)
Definition Input_fmt (i : Input) : string :=
  debug_struct "Input" [("data", debug_bytes (input_data i))].

Definition Job_fmt (j : Job) : string :=
  debug_struct "Job" [("anchor", Anchor_fmt (anchor j)); ("input", Input_fmt (input j))].

(** [JobStatus]: the state machine of a job. [Failed(e, None)] is permanent,
    [Failed(e, Some(s))] is retried from the status [s]. *)
Inductive JobStatus `{Sp1Types} : Type :=
| LocalZkProofPending
| RemoteZkProofRequesting
| RemoteZkProofPending (request_id : SuccNetJobId)
| ZkProofFinished (proof : SP1ProofWithPublicValues)
| Failed (e : PdaRunnerError) (retry : option JobStatus).

(** [Debug for JobStatus]: the variant's name only. *)
Definition JobStatus_fmt `{Sp1Types} (s : JobStatus) : string :=
  match s with
  | LocalZkProofPending => "LocalZkProofPending"
  | RemoteZkProofRequesting => "RemoteZkProofRequesting"
  | RemoteZkProofPending _ => "RemoteZkProofPending"
  | ZkProofFinished _ => "ZkProofFinished"
  | Failed _ _ => "Failed"
  end.

(** The statuses the queue and the finished tree are meant to hold. Specification. *)
Definition is_pending `{Sp1Types} (st : JobStatus) : bool :=
  match st with
  | LocalZkProofPending | RemoteZkProofRequesting | RemoteZkProofPending _ => true
  | _ => false
  end.

Definition is_final `{Sp1Types} (st : JobStatus) : bool :=
  match st with
  | ZkProofFinished _ | Failed _ None => true
  | Failed _ (Some retry) => is_pending retry
  | _ => false
  end.

(** [SP1ProofSetup] and its conversion from the pair [setup] returns. *)
Record SP1ProofSetup `{Sp1Types} : Type := { pk : SP1ProvingKey; vk : SP1VerifyingKey }.

Definition SP1ProofSetup_from `{Sp1Types} (tuple : SP1ProvingKey * SP1VerifyingKey)
    : SP1ProofSetup :=
  {| pk := fst tuple; vk := snd tuple |}.

(** ** bincode *)

(** [bincode::serialize] and [bincode::deserialize] at a type; the error is kept
    as its [Display] text. *)
Class Bincode (T : Type) := {
  serialize : T -> result bytes string;
  deserialize : bytes -> result T string;
}.

(** What was serialized deserializes to itself. *)
Class BincodeLaws (T : Type) `{Bincode T} : Prop := {
  deserialize_serialize x b : serialize x = Ok b -> deserialize b = Ok x;
}.

(** Serializing never fails. *)
Class BincodeTotal (T : Type) `{Bincode T} : Prop := {
  serialize_total x : exists b, serialize x = Ok b;
}.

Lemma serialize_inj {T} `{BincodeLaws T} (x y : T) b :
  serialize x = Ok b -> serialize y = Ok b -> x = y.
Proof.
  intros Hx%deserialize_serialize Hy%deserialize_serialize. congruence.
Qed.
