(* ===== verification/Http.v ===== *)
(** The HTTP messages service/src/main.rs passes between its client and the
    Celestia node: the fields the service reads or writes. Header maps, URIs and
    the remaining message parts belong to the [hyper] and [http] crates and are
    the class [HttpTypes]; [HttpLaws] is what their documentation promises. *)

From S2P Require Import Prelude.

Local Open Scope string_scope.

Class HttpTypes := {
  (** [http::HeaderMap], with [get(..).and_then(|h| h.to_str().ok())],
      [remove] and the empty map of [Response::new]. *)
  HeaderMap : Type;
  header_get : HeaderMap -> string -> option string;
  header_remove : HeaderMap -> string -> HeaderMap;
  header_empty : HeaderMap;
  (** [http::Uri], with [path_and_query().map(|x| x.as_str())] and [parse]. *)
  Uri : Type;
  path_and_query : Uri -> option string;
  uri_parse : string -> result Uri string;
  (** The parts of a message the service passes along: version, method, extensions. *)
  RequestRest : Type;
  ResponseRest : Type;
  response_rest_new : ResponseRest;
}.

Class HttpLaws `{HttpTypes} : Prop := {
  header_remove_same h k : header_get (header_remove h k) k = None;
  header_remove_other h k k' : k <> k' -> header_get (header_remove h k) k' = header_get h k';
  header_empty_get k : header_get header_empty k = None;
}.

Section Messages.
  Context `{HttpTypes}.

(** [Request<B>] and its [parts]. *)
Record Request (B : Type) : Type := {
    req_uri : Uri;
    req_headers : HeaderMap;
    req_rest : RequestRest;
    req_body : B;
  }.

(** [Response<B>]; a [StatusCode] is its number. *)
Record Response (B : Type) : Type := {
    resp_status : N;
    resp_headers : HeaderMap;
    resp_rest : ResponseRest;
    resp_body : B;
  }.

End Messages.

Arguments req_uri {_ B} _.
Arguments req_headers {_ B} _.
Arguments req_rest {_ B} _.
Arguments req_body {_ B} _.
Arguments resp_status {_ B} _.
Arguments resp_headers {_ B} _.
Arguments resp_rest {_ B} _.
Arguments resp_body {_ B} _.
Arguments Build_Request {_ B} _ _ _ _.
Arguments Build_Response {_ B} _ _ _ _.

(** [StatusCode::ACCEPTED], [UNAUTHORIZED] and [INTERNAL_SERVER_ERROR]. *)
Definition ACCEPTED : N := 202.
Definition UNAUTHORIZED : N := 401.
Definition INTERNAL_SERVER_ERROR : N := 500.

(** [Request<IncomingBody>] and [Response<IncomingBody>]: the body is what
    [collect().await] makes of it. *)
Abbreviation Incoming := (result bytes string).
