(* ===== verification/Json.v ===== *)
(** The JSON values and the Celestia blobs service/src/main.rs reads and writes.
    [serde_json] and [celestia_types] are the class [Payload]; [PayloadLaws] is
    what their documentation promises about the accessors the service uses. *)

From S2P Require Import Prelude.

Local Open Scope string_scope.

Class Payload := {
  (** [serde_json::Value]. *)
  Value : Type;
  from_slice : bytes -> result Value string;
  (** [to_vec]; [to_string] gives the same bytes. *)
  to_vec : Value -> result bytes string;
  (** [get(key)], and the assignment through [get_mut(key)]: it replaces a
      field that is present. *)
  json_get : Value -> string -> option Value;
  json_set : Value -> string -> Value -> Value;
  as_str : Value -> option string;
  as_array : Value -> option (list Value);
  json_array : list Value -> Value;
  json_object : list (string * Value) -> Value;
  json_string : string -> Value;
  json_number : N -> Value;
  (** [celestia_types::Blob]: its fields, the assignment [blob.data = ..],
      [Blob::new] at the latest app version, and its JSON form. *)
  Blob : Type;
  Namespace : Type;
  blob_namespace : Blob -> Namespace;
  blob_data : Blob -> bytes;
  blob_with_data : Blob -> bytes -> Blob;
  blob_new : Namespace -> bytes -> result Blob string;
  blob_from_value : Value -> result Blob string;
  blob_to_value : Blob -> result Value string;
  blobs_from_value : Value -> result (list Blob) string;
  blobs_to_value : list Blob -> result Value string;
}.

Class PayloadLaws `{Payload} : Prop := {
  json_get_set v k x y : json_get v k = Some x -> json_get (json_set v k y) k = Some y;
  json_get_set_ne v k k' y : k <> k' -> json_get (json_set v k y) k' = json_get v k';
  as_array_json_array l : as_array (json_array l) = Some l;
  blob_with_data_data b d : blob_data (blob_with_data b d) = d;
  blob_with_data_namespace b d : blob_namespace (blob_with_data b d) = blob_namespace b;
  blob_new_ok n d b : blob_new n d = Ok b -> blob_namespace b = n /\ blob_data b = d;
  blob_json b v : blob_to_value b = Ok v -> blob_from_value v = Ok b;
  blobs_json l v : blobs_to_value l = Ok v -> blobs_from_value v = Ok l;
}.

(** Writes JSON text with ['] for the double quote. *)
Fixpoint json_text (s : string) : string :=
  match s with
  | EmptyString => EmptyString
  | String c s' =>
      String (if bool_decide (c = Ascii.ascii_of_nat 39) then Ascii.ascii_of_nat 34 else c)
             (json_text s')
  end.

(** The UTF-8 bytes of a string. *)
Definition str_bytes (s : string) : bytes := String.list_byte_of_string s.
