(* ===== verification/Effects.v ===== *)
(** Effectful code. A handler of the service is a [prog]: a tree of the
    operations it performs on the world outside its own memory, in order, with
    what it does for each answer. [run] executes a [prog] in any environment
    that answers the operations; [op_post] is the documented behaviour of the
    operations (sled's trees and transactions, tokio's channel and cells, the
    process environment, the SP1 client, the HTTP client), the hypothesis on
    environments; [wp] computes what a [prog] guarantees under it. *)

From S2P Require Import Prelude ZkvmCommon Guest Job Http.

Local Open Scope string_scope.

(** The parameters that are not operations: the crates and their types. *)
Class Platform := {
  #[global] platform_sp1 :: Sp1Types;
  #[global] platform_display :: Sp1Display;
  #[global] platform_sha2 :: Sha2;
  #[global] platform_chacha :: ChaCha20;
  #[global] platform_io :: ZkvmIo;
  #[global] platform_http :: HttpTypes;
  #[global] platform_anchor :: Bincode Anchor;
  #[global] platform_job :: Bincode Job;
  #[global] platform_status :: Bincode JobStatus;
  #[global] platform_setup :: Bincode SP1ProofSetup;
  #[global] platform_proof :: Bincode SP1ProofWithPublicValues;
  (** [include_bytes!] of the compiled guest. *)
  CHACHA_ELF : bytes;
  (** [<[u8; 32]>::from_hex] of the [hex] crate, its error as [Debug] text. *)
  from_hex : string -> result (array KEY_LEN) string;
}.

(** ** Operations *)

(** The three trees of the sled database. *)
Inductive Tree : Type := ConfigDb | QueueDb | FinishedDb.

#[global] Instance Tree_eq_dec : EqDecision Tree.
Proof. solve_decision. Defined.

(** A step of a sled transaction's closure. *)
Inductive TxOp : Type :=
| TxRemove (t : Tree) (k : bytes)
| TxInsert (t : Tree) (k v : bytes).

(** tokio's [OnceCell]s: two statics and two fields of the runner. *)
Inductive Cell : Type := CHACHA_ID | CHACHA_SETUP | ZK_CLIENT_LOCAL | ZK_CLIENT_REMOTE.

Section Programs.
  Context `{Platform}.

Definition cell_type (c : Cell) : Type :=
    match c with
    | CHACHA_ID => SuccNetProgramId
    | CHACHA_SETUP => SP1ProofSetup
    | ZK_CLIENT_LOCAL => SP1EnvProver
    | ZK_CLIENT_REMOTE => SP1NetworkProver
    end.

Inductive Op : Type :=
  | SledGet (t : Tree) (k : bytes)
  | SledInsert (t : Tree) (k v : bytes)
  | SledTransaction (body : list TxOp)
  | SledFlush (t : Tree)
  | SledIter (t : Tree)
  | ChanSend (m : option Job)
  | ChanRecv
  | SpawnProve (job : Job)
  | ProcessExit (code : Z)
  | EnvVar (name : string)
  | OsRngFill (buf : array NONCE_LEN)
  | CellGet (c : Cell)
  | CellInit (c : Cell) (v : cell_type c)
  | BuildLocal
  | BuildRemote
  | SetupLocal (c : SP1EnvProver) (elf : bytes)
  | SetupRemote (c : SP1NetworkProver) (elf : bytes)
  | ProveLocal (c : SP1EnvProver) (key : SP1ProvingKey) (stdin : SP1Stdin)
  | RequestRemote (c : SP1NetworkProver) (key : SP1ProvingKey) (stdin : SP1Stdin)
      (strategy : FulfillmentStrategy) (skip_simulation : bool) (timeout : N)
  | WaitProof (c : SP1NetworkProver) (id : SuccNetJobId) (timeout : option N)
  | Verify (c : SP1EnvProver) (proof : SP1ProofWithPublicValues) (key : SP1VerifyingKey)
  | DaRequest (req : Request bytes).

(** The type of an operation's answer; third-party errors as text. *)
Definition ans (o : Op) : Type :=
    match o with
    | SledGet _ _ => result (option bytes) string
    | SledInsert _ _ _ | SledTransaction _ | SledFlush _ => result unit string
    | SledIter _ => list (result (bytes * bytes) string)
    | ChanSend _ => result unit string
    | ChanRecv => option (option Job)
    | SpawnProve _ | ProcessExit _ => unit
    | EnvVar _ => result string string
    | OsRngFill _ => result (array NONCE_LEN) string
    | CellGet c => option (cell_type c)
    | CellInit c _ => cell_type c
    | BuildLocal => outcome SP1EnvProver
    | BuildRemote => outcome SP1NetworkProver
    | SetupLocal _ _ | SetupRemote _ _ => result (SP1ProvingKey * SP1VerifyingKey) string
    | ProveLocal _ _ _ | WaitProof _ _ _ => result SP1ProofWithPublicValues AnyhowError
    | RequestRemote _ _ _ _ _ _ => result SuccNetJobId AnyhowError
    | Verify _ _ _ => result unit string
    | DaRequest _ => result (Response Incoming) string
    end.

(** A program that returns an [A], panics, or performs an operation and goes on
    with its answer. *)
Inductive prog (A : Type) : Type :=
  | Ret (a : A)
  | Panic (msg : string)
  | Vis (o : Op) (k : ans o -> prog A).

End Programs.

Arguments Ret {_ A} a.
Arguments Panic {_ A} msg.
Arguments Vis {_ A} o k.

Section Combinators.
  Context `{Platform}.

Definition op (o : Op) : prog (ans o) := Vis o Ret.

Fixpoint bind {A B} (p : prog A) (f : A -> prog B) : prog B :=
    match p with
    | Ret a => f a
    | Panic msg => Panic msg
    | Vis o k => Vis o (fun x => bind (k x) f)
    end.

(** [m?]: goes on with the value of [Ok], returns early with an [Err]. *)
Definition bindR {A B E} (p : prog (result A E)) (f : A -> prog (result B E)) : prog (result B E) :=
    bind p (fun r => match r with Ok a => f a | Err e => Ret (Err e) end).

(** [op(..).map_err(|e| f(e))]. *)
Definition map_err {A E F} (f : E -> F) (p : prog (result A E)) : prog (result A F) :=
    bind p (fun r => Ret (result_map_err f r)).

(** A pure computation that may panic. *)
Definition lift {A} (o : outcome A) : prog A :=
    match o with Returned a => Ret a | Panicked msg => Panic msg end.

(** [OnceCell::get_or_init] and [get_or_try_init]. *)
Definition get_or_init (c : Cell) (init : prog (cell_type c)) : prog (cell_type c) :=
    bind (op (CellGet c)) (fun o =>
      match o with
      | Some v => Ret v
      | None => bind init (fun v => op (CellInit c v))
      end).

Definition get_or_try_init {E} (c : Cell) (init : prog (result (cell_type c) E))
      : prog (result (cell_type c) E) :=
    bind (op (CellGet c)) (fun o =>
      match o with
      | Some v => Ret (Ok v)
      | None => bindR init (fun v => bind (op (CellInit c v)) (fun v' => Ret (Ok v')))
      end).

(** [std::env::var(name).expect(msg)]. *)
Definition env_expect (name msg : string) : prog string :=
    bind (op (EnvVar name)) (fun r => lift (expect id msg r)).

Lemma bindR_ret {A B E} (r : result A E) (f : A -> prog (result B E)) :
  bindR (Ret r) f = match r with Ok a => f a | Err e => Ret (Err e) end.
Proof. done. Qed.

End Combinators.

Notation "'let*' x := p 'in' q" := (bind p (fun x => q))
  (at level 10, x binder, p at level 100, q at level 200) : pda_scope.
Notation "'let?' x := p 'in' q" := (bindR p (fun x => q))
  (at level 10, x binder, p at level 100, q at level 200) : pda_scope.
Notation "p ';;' q" := (bind p (fun _ => q))
  (at level 100, q at level 200, right associativity) : pda_scope.
