(* ===== verification/Environment.v ===== *)
(** The world a [prog] runs in. [Store] is what the service can observe of it;
    [op_post] states, operation by operation, the documented behaviour of the
    libraries; [Env] is any environment with that behaviour, and [run] executes
    a program in it. [wp] is the weakest precondition calculus in which the
    theorems about handlers are proved. *)

From S2P Require Import Prelude ZkvmCommon Guest Job Http Effects.

Local Open Scope string_scope.

(** ** What the service observes *)

Record Store `{Platform} : Type := {
  config_db : gmap bytes bytes;
  queue_db : gmap bytes bytes;
  finished_db : gmap bytes bytes;
  inbox : list (option Job);       (* sent and not yet received, oldest first *)
  inbox_open : bool;               (* the receiver has not been dropped *)
  spawned : list Job;              (* the tasks [prove(job)] started, oldest first *)
  env_vars : gmap string string;
  cell_id : option SuccNetProgramId;
  cell_setup : option SP1ProofSetup;
  cell_local : option SP1EnvProver;
  cell_remote : option SP1NetworkProver;
  exited : option Z;
  forwarded : list (Request bytes);   (* sent to the Celestia node, oldest first *)
}.

Section Stores.
  Context `{Platform}.

Definition tree (s : Store) (t : Tree) : gmap bytes bytes :=
    match t with
    | ConfigDb => config_db s
    | QueueDb => queue_db s
    | FinishedDb => finished_db s
    end.

Definition set_trees (s : Store) (c q f : gmap bytes bytes) : Store :=
    {| config_db := c; queue_db := q; finished_db := f;
       inbox := inbox s; inbox_open := inbox_open s; spawned := spawned s;
       env_vars := env_vars s; cell_id := cell_id s; cell_setup := cell_setup s;
       cell_local := cell_local s; cell_remote := cell_remote s; exited := exited s; forwarded := forwarded s |}.

Definition set_tree (s : Store) (t : Tree) (m : gmap bytes bytes) : Store :=
    match t with
    | ConfigDb => set_trees s m (queue_db s) (finished_db s)
    | QueueDb => set_trees s (config_db s) m (finished_db s)
    | FinishedDb => set_trees s (config_db s) (queue_db s) m
    end.

Definition set_tasks (s : Store) (i : list (option Job)) (sp : list Job) (x : option Z) : Store :=
    {| config_db := config_db s; queue_db := queue_db s; finished_db := finished_db s;
       inbox := i; inbox_open := inbox_open s; spawned := sp;
       env_vars := env_vars s; cell_id := cell_id s; cell_setup := cell_setup s;
       cell_local := cell_local s; cell_remote := cell_remote s; exited := x;
       forwarded := forwarded s |}.

Definition cell_get (s : Store) (c : Cell) : option (cell_type c) :=
    match c with
    | CHACHA_ID => cell_id s
    | CHACHA_SETUP => cell_setup s
    | ZK_CLIENT_LOCAL => cell_local s
    | ZK_CLIENT_REMOTE => cell_remote s
    end.

Definition set_cells (s : Store) (i : option SuccNetProgramId) (p : option SP1ProofSetup)
      (l : option SP1EnvProver) (r : option SP1NetworkProver) : Store :=
    {| config_db := config_db s; queue_db := queue_db s; finished_db := finished_db s;
       inbox := inbox s; inbox_open := inbox_open s; spawned := spawned s;
       env_vars := env_vars s; cell_id := i; cell_setup := p;
       cell_local := l; cell_remote := r; exited := exited s; forwarded := forwarded s |}.

Definition cell_put (s : Store) (c : Cell) (v : cell_type c) : Store :=
    match c return cell_type c -> Store with
    | CHACHA_ID => fun v => set_cells s (Some v) (cell_setup s) (cell_local s) (cell_remote s)
    | CHACHA_SETUP => fun v => set_cells s (cell_id s) (Some v) (cell_local s) (cell_remote s)
    | ZK_CLIENT_LOCAL => fun v => set_cells s (cell_id s) (cell_setup s) (Some v) (cell_remote s)
    | ZK_CLIENT_REMOTE => fun v => set_cells s (cell_id s) (cell_setup s) (cell_local s) (Some v)
    end v.

Definition forward (s : Store) (req : Request bytes) : Store :=
    {| config_db := config_db s; queue_db := queue_db s; finished_db := finished_db s;
       inbox := inbox s; inbox_open := inbox_open s; spawned := spawned s;
       env_vars := env_vars s; cell_id := cell_id s; cell_setup := cell_setup s;
       cell_local := cell_local s; cell_remote := cell_remote s; exited := exited s;
       forwarded := forwarded s ++ [req] |}.

(** The effect of a committed transaction. *)
Definition tx_step (s : Store) (o : TxOp) : Store :=
    match o with
    | TxRemove t k => set_tree s t (delete k (tree s t))
    | TxInsert t k v => set_tree s t (<[k := v]> (tree s t))
    end.

Definition tx_apply (s : Store) (body : list TxOp) : Store := foldl tx_step s body.

Lemma tx_channel body (s : Store) :
  inbox_open (tx_apply s body) = inbox_open s /\ inbox (tx_apply s body) = inbox s.
Proof.
  unfold tx_apply. revert s. induction body as [|x body IH]; intros s; simpl; [done|].
  destruct (IH (tx_step s x)) as [-> ->]. by destruct x as [[]|[]].
Qed.

End Stores.

(** ** What the SP1 client promises *)

(** The facts about its own data the SP1 client's answers come with. *)
Class Sp1Facts `{Platform} := {
  (** [setup] of an ELF gives these keys. *)
  setup_of : bytes -> SP1ProvingKey * SP1VerifyingKey -> Prop;
  (** An input the client takes: within its limits, and the guest runs to its end. *)
  provable : SP1ProvingKey -> SP1Stdin -> Prop;
  (** The proof was made with the proving key on the input. *)
  proof_of : SP1ProvingKey -> SP1Stdin -> SP1ProofWithPublicValues -> Prop;
  (** The network accepted this request. *)
  requested : SuccNetJobId -> SP1ProvingKey -> SP1Stdin -> Prop;
  (** [verify] accepts the proof under the verifying key. *)
  verified : SP1ProofWithPublicValues -> SP1VerifyingKey -> Prop;
}.

(** Completeness and soundness of the proof system, for the embedded guest: a
    proof shows the public values of a run of the guest on its input, it
    verifies, and what verifies shows the public values of some run. The
    verifying key is a function of the ELF. *)
Class Sp1Laws `{Sp1Facts} : Prop := {
  proof_of_values keys stdin p :
    setup_of CHACHA_ELF keys -> proof_of (fst keys) stdin p ->
    guest_execute stdin = Returned (public_values p);
  proof_of_verified keys stdin p :
    setup_of CHACHA_ELF keys -> proof_of (fst keys) stdin p -> verified p (snd keys);
  setup_of_vk elf keys keys' :
    setup_of elf keys -> setup_of elf keys' -> snd keys = snd keys';
  verified_sound keys p :
    setup_of CHACHA_ELF keys -> verified p (snd keys) ->
    exists stdin, guest_execute stdin = Returned (public_values p);
}.

(** What may go wrong outside the program: the database; the SP1 client's
    construction, setup and verification, and the random number generator; and
    the client's work on a proof, where it may give up on an input it takes or a
    request it accepted (a timeout, an unfulfilled request, a lost connection). *)
Record Faults : Type := { io_errors : bool; client_errors : bool; refusals : bool }.

(** Nothing fails. *)
Definition no_faults : Faults :=
  {| io_errors := false; client_errors := false; refusals := false |}.

(** Only the SP1 client's work on a proof fails. *)
Definition only_refusals : Faults :=
  {| io_errors := false; client_errors := false; refusals := true |}.

Section Behaviour.
  Context `{Sp1Facts}.

(** Whether an operation can go on: [recv] waits for a message. *)
Definition enabled (o : Op) (s : Store) : Prop :=
    match o with ChanRecv => inbox s <> [] | _ => True end.

(** The behaviour of the libraries. Operations fail only as [f] allows; a failed
    insert may or may not have happened, a failed transaction has not. *)
Definition op_post (f : Faults) (o : Op) (s s' : Store) : ans o -> Prop :=
    let failed {A} (r : result A string) := io_errors f = true /\ is_ok r = false in
    let client {A Er} (r : result A Er) (served : Prop) :=
      is_ok r = false -> client_errors f = true \/ ~ served in
    let prover {A Er} (r : result A Er) (served : Prop) :=
      is_ok r = false -> client_errors f = true \/ refusals f = true \/ ~ served in
    let built {A} (r : outcome A) := client_errors f = false -> exists a, r = Returned a in
    match o return ans o -> Prop with
    | SledGet t k => fun r => s' = s /\ (r = Ok (tree s t !! k) \/ failed r)
    | SledInsert t k v => fun r =>
        (r = Ok tt /\ s' = set_tree s t (<[k := v]> (tree s t))) \/
        (failed r /\ (s' = s \/ s' = set_tree s t (<[k := v]> (tree s t))))
    | SledTransaction body => fun r =>
        (r = Ok tt /\ s' = tx_apply s body) \/ (failed r /\ s' = s)
    | SledFlush t => fun r => s' = s /\ (r = Ok tt \/ failed r)
    | SledIter t => fun l => s' = s /\
        omap result_ok l ⊆+ map_to_list (tree s t) /\
        (io_errors f = false -> omap result_ok l ≡ₚ map_to_list (tree s t))
    | ChanSend m => fun r =>
        if inbox_open s
        then r = Ok tt /\ s' = set_tasks s (inbox s ++ [m]) (spawned s) (exited s)
        else is_ok r = false /\ s' = s
    | ChanRecv => fun m => exists x rest, inbox s = x :: rest /\ m = Some x /\
        s' = set_tasks s rest (spawned s) (exited s)
    | SpawnProve job => fun _ => s' = set_tasks s (inbox s) (spawned s ++ [job]) (exited s)
    | ProcessExit code => fun _ => s' = set_tasks s (inbox s) (spawned s) (Some code)
    | EnvVar name => fun r => s' = s /\
        match env_vars s !! name with Some v => r = Ok v | None => is_ok r = false end
    | OsRngFill _ => fun r => s' = s /\ client r True
    | CellGet c => fun v => s' = s /\ v = cell_get s c
    | CellInit c v => fun v' =>
        match cell_get s c with
        | Some v0 => s' = s /\ v' = v0
        | None => s' = cell_put s c v /\ v' = v
        end
    | BuildLocal => fun r => s' = s /\ built r
    | BuildRemote => fun r => s' = s /\ built r
    | DaRequest req => fun _ => s' = forward s req
    | SetupLocal _ elf | SetupRemote _ elf => fun r => s' = s /\ client r True /\
        (forall keys, r = Ok keys -> setup_of elf keys)
    | ProveLocal _ key stdin => fun r => s' = s /\ prover r (provable key stdin) /\
        (forall p, r = Ok p -> proof_of key stdin p)
    | RequestRemote _ key stdin _ _ _ => fun r => s' = s /\ prover r (provable key stdin) /\
        (forall id, r = Ok id -> requested id key stdin)
    | WaitProof _ id _ => fun r => s' = s /\ prover r (exists key stdin, requested id key stdin) /\
        (forall p key stdin, r = Ok p -> requested id key stdin -> proof_of key stdin p)
    | Verify _ p key => fun r => s' = s /\ client r (verified p key) /\
        (is_ok r = true -> verified p key)
    end.

(** Operations that send nothing to the Celestia node. *)
Definition is_local (o : Op) : bool := match o with DaRequest _ => false | _ => true end.

Lemma op_local f o s s' x :
  is_local o = true -> op_post f o s s' x ->
  forwarded s' = forwarded s.
Proof.
  intros Ho. destruct o; try done; simpl.
  all: try (by intros ->); try (by intros [-> _]); try (by intros (-> & _)).
  - destruct t; by intros [[_ ->]|[_ [->| ->]]].
  - intros [[_ ->]|[_ ->]]; [|done].
    unfold tx_apply. revert s. induction body as [|[t k|t k v] body IH]; intros s; simpl; [done|..];
      rewrite IH; by destruct t.
  - destruct (inbox_open s); by intros [_ ->].
  - by intros (? & ? & _ & _ & ->).
  - destruct (cell_get s c); intros [-> _]; [done|by destruct c].
Qed.
End Behaviour.

(** An environment: its state, its answers, and how the service sees it. *)
Class Env `{Platform} := {
  World : Type;
  handle : forall o : Op, World -> World * ans o;
  view : World -> Store;
}.

Class EnvLaws `{Sp1Facts} {E : Env} (f : Faults) : Prop := {
  handle_post o w : enabled o (view w) ->
    op_post f o (view w) (view (fst (handle o w))) (snd (handle o w));
}.

Section Run.
  Context `{Env}.

(** Executes a program alone. *)
Fixpoint run {A} (p : prog A) (w : World) : World * outcome A :=
    match p with
    | Ret a => (w, Returned a)
    | Panic msg => (w, Panicked msg)
    | Vis o k => let r := handle o w in run (k (snd r)) (fst r)
    end.

Lemma run_bind {A B} (p : prog A) (f : A -> prog B) w :
  run (bind p f) w =
  match run p w with
  | (w', Returned a) => run (f a) w'
  | (w', Panicked msg) => (w', Panicked msg)
  end.
Proof. revert w. induction p as [a|msg|o k IH]; intros w; simpl; auto. Qed.

(** The operations that [run] performs, in order. *)
Fixpoint trace {A} (p : prog A) (w : World) : list Op :=
    match p with
    | Vis o k => let r := handle o w in o :: trace (k (snd r)) (fst r)
    | _ => []
    end.
End Run.

(** ** Weakest preconditions *)

Section Wp.
  Context `{Sp1Facts} (f : Faults).

(** Every run of [p] from [s] goes on until it ends, and ends in [Q]. *)
Fixpoint wp {A} (p : prog A) (Q : Store -> outcome A -> Prop) (s : Store) : Prop :=
    match p with
    | Ret a => Q s (Returned a)
    | Panic msg => Q s (Panicked msg)
    | Vis o k => enabled o s /\
        forall s' x, op_post f o s s' x -> wp (k x) Q s'
    end.

Lemma wp_mono {A} (p : prog A) (Q R : Store -> outcome A -> Prop) s :
  (forall s' r, Q s' r -> R s' r) -> wp p Q s -> wp p R s.
Proof.
  intros HQ. revert s. induction p as [a|msg|o k IH]; intros s; simpl; auto.
  intros [He Hk]. split; [done|]. intros s' x Hp. apply IH. by apply Hk.
Qed.

Lemma wp_bind {A B} (p : prog A) (g : A -> prog B) Q s :
  wp p (fun s' r => match r with
                    | Returned a => wp (g a) Q s'
                    | Panicked msg => Q s' (Panicked msg)
                    end) s ->
  wp (bind p g) Q s.
Proof.
  revert s. induction p as [a|msg|o k IH]; intros s; simpl; auto.
  intros [He Hk]. split; [done|]. intros s' x Hp. apply IH. by apply Hk.
Qed.

Lemma wp_and {A} (p : prog A) (Q R : Store -> outcome A -> Prop) s :
  wp p Q s -> wp p R s -> wp p (fun s' r => Q s' r /\ R s' r) s.
Proof.
  revert s. induction p as [a|msg|o k IH]; intros s; simpl; auto.
  intros [He Hk] [_ Hk']. split; [done|]. auto.
Qed.

Lemma wp_op (o : Op) {B} (g : ans o -> prog B) Q s :
  enabled o s -> (forall s' x, op_post f o s s' x -> wp (g x) Q s') -> wp (bind (op o) g) Q s.
Proof. intros He Hg. by split. Qed.

Lemma wp_bindR_map_err {A B Er Fr} (h : Er -> Fr) (p : prog (result A Er))
    (g : A -> prog (result B Fr)) Q s :
  wp (bind p (fun r => match result_map_err h r with
                       | Ok a => g a
                       | Err e => Ret (Err e)
                       end)) Q s ->
  wp (bindR (map_err h p) g) Q s.
Proof.
  unfold bindR, map_err. revert s. induction p as [r|msg|o k IH]; intros s; simpl; auto.
  intros [He Hk]. split; auto.
Qed.

(** [wp] is sound: it describes what [run] does in every environment. *)
Lemma wp_run {E : Env} {L : EnvLaws f} {A} (p : prog A) Q w :
  wp p Q (view w) -> Q (view (fst (run p w))) (snd (run p w)).
Proof.
  revert w. induction p as [a|msg|o k IH]; intros w; simpl; auto.
  intros [He Hk]. apply IH, Hk, (handle_post o w He).
Qed.
End Wp.

(** ** What a program performs *)

Section Traces.
  Context `{Sp1Facts} (f : Faults).

(** [wp] with the operations performed so far, which [Q] is told. *)
Fixpoint wpt {A} (p : prog A) (Q : list Op -> Store -> outcome A -> Prop) (l : list Op) (s : Store) : Prop :=
    match p with
    | Ret a => Q l s (Returned a)
    | Panic msg => Q l s (Panicked msg)
    | Vis o k => enabled o s /\
        forall s' x, op_post f o s s' x -> wpt (k x) Q (l ++ [o]) s'
    end.

Lemma wpt_mono {A} (p : prog A) (Q R : list Op -> Store -> outcome A -> Prop) l s :
  (forall l' s' r, Q l' s' r -> R l' s' r) -> wpt p Q l s -> wpt p R l s.
Proof.
  intros HQ. revert l s. induction p as [a|msg|o k IH]; intros l s; simpl; auto.
  intros [He Hk]. split; [done|]. intros s' x Hp. apply IH. by apply Hk.
Qed.

Lemma wpt_bind {A B} (p : prog A) (g : A -> prog B) Q l s :
  wpt p (fun l' s' r => match r with
                        | Returned a => wpt (g a) Q l' s'
                        | Panicked msg => Q l' s' (Panicked msg)
                        end) l s ->
  wpt (bind p g) Q l s.
Proof.
  revert l s. induction p as [a|msg|o k IH]; intros l s; simpl; auto.
  intros [He Hk]. split; [done|]. intros s' x Hp. apply IH. by apply Hk.
Qed.

(** What [wp] shows holds whatever was performed; what was performed stays. *)
Lemma wp_wpt {A} (p : prog A) (Q : Store -> outcome A -> Prop) l s :
  wp f p Q s -> wpt p (fun l' s' r => l `prefix_of` l' /\ Q s' r) l s.
Proof.
  revert l s. induction p as [a|msg|o k IH]; intros l s; simpl; [by split..|].
  intros [He Hk]. split; [done|]. intros s' x Hp. eapply wpt_mono; [|by apply IH, Hk].
  intros l' s'' r [Hl HQ]. split; [|done]. etrans; [|exact Hl]. by apply prefix_app_r.
Qed.

Lemma wpt_run {E : Env} {L : EnvLaws f} {A} (p : prog A) Q l w :
  wpt p Q l (view w) -> Q (l ++ trace p w)%list (view (fst (run p w))) (snd (run p w)).
Proof.
  revert l w. induction p as [a|msg|o k IH]; intros l w; simpl; [by rewrite app_nil_r..|].
  intros [He Hk]. specialize (IH _ (l ++ [o])%list _ (Hk _ _ (handle_post o w He))).
  by rewrite <- app_assoc in IH.
Qed.
End Traces.

(** One step through a [wp] goal: an operation or a pure result. *)
Ltac wp_op_step o :=
  apply (wp_op _ o); [done|let s := fresh "s" in let x := fresh "x" in intros s x].

Ltac wp_step :=
  lazymatch goal with
  | |- wp _ (bind (op ?o) _) _ _ => wp_op_step o
  | |- wp _ (bindR (map_err _ (op ?o)) _) _ _ => apply wp_bindR_map_err; wp_op_step o
  | |- wp _ (bindR (Ret _) _) _ _ => rewrite bindR_ret; cbn [result_map_err]
  | |- wp _ (map_err _ (op ?o)) _ _ => apply (wp_op _ o); [done|let s := fresh "s" in let x := fresh "x" in intros s x]
  | |- wp _ (op ?o) _ _ => split; [done|let s := fresh "s" in let x := fresh "x" in intros s x]
  end.
