(* ===== verification/Runner.v ===== *)
(** service/src/internal/runner.rs: the job runner. One definition per method of
    [PdaRunner], in the order of the source's calls; logging is left out. The
    database trees, the job channel and the [OnceCell]s the struct holds are
    reached through operations, so the record keeps the configuration only. *)

From S2P Require Import Prelude Format ZkvmCommon Guest Job Http Effects.

Open Scope pda_scope.
Local Open Scope string_scope.

(** [PdaRunnerConfig]: the timeout in seconds. *)
Record PdaRunnerConfig : Type := { zk_proof_gen_timeout_remote : N }.

Record PdaRunner : Type := { config : PdaRunnerConfig }.

Section Runner.
  Context `{Platform}.

(** [PdaRunner::new]. *)
Definition PdaRunner_new (config : PdaRunnerConfig) : PdaRunner := {| config := config |}.

(** [util::random_nonce]. *)
Definition util_random_nonce : prog (array NONCE_LEN) :=
  let* r := op (OsRngFill (array_zero NONCE_LEN)) in
  lift (expect id "Rng->buffer" r).

(** [get_program_id]. *)
Definition get_program_id : prog SuccNetProgramId :=
  get_or_init CHACHA_ID (Ret (sha256 CHACHA_ELF)).

(** [get_zk_client_local]: [ProverClient::from_env] panics when the environment
    does not configure a prover; the cell then stays empty. *)
Definition get_zk_client_local : prog SP1EnvProver :=
  get_or_init ZK_CLIENT_LOCAL (let* client := op BuildLocal in lift client).

(** [get_zk_client_remote]: [build] panics without the network's private key. *)
Definition get_zk_client_remote : prog SP1NetworkProver :=
  get_or_init ZK_CLIENT_REMOTE (let* client := op BuildRemote in lift client).

(** [finalize_job]: the closure of the transaction runs before the commit, so
    its [expect] panics without an effect. *)
Definition finalize_job (job_key : bytes) (job_status : JobStatus)
    : prog (result unit PdaRunnerError) :=
  let* status_bytes := lift (expect id "Always given serializable job status" (serialize job_status)) in
  let? _ := map_err InternalError
    (op (SledTransaction [TxRemove QueueDb job_key; TxInsert FinishedDb job_key status_bytes])) in
  Ret (Ok tt).

(** [send_job_with_new_status]. *)
Definition send_job_with_new_status (job_key : bytes) (update_status : JobStatus) (job : Job)
    : prog (result unit PdaRunnerError) :=
  let* status_bytes := lift (expect id "Always given serializable job status" (serialize update_status)) in
  let? _ := map_err InternalError
    (op (SledTransaction [TxRemove FinishedDb job_key; TxInsert QueueDb job_key status_bytes])) in
  map_err InternalError (op (ChanSend (Some job))).

(** [get_verifiable_encryption]. *)
Definition get_verifiable_encryption (job : Job)
    : prog (result (option SP1ProofWithPublicValues) PdaRunnerError) :=
  let? job_key := Ret (result_map_err InternalError (serialize (anchor job))) in
  (* Check DB for finished jobs *)
  let? finished := map_err InternalError (op (SledGet FinishedDb job_key)) in
  match finished with
  | Some proof_data =>
      let? job_status := Ret (result_map_err InternalError (deserialize (T := JobStatus) proof_data)) in
      match job_status with
      | ZkProofFinished proof => Ret (Ok (Some proof))
      | Failed error None => Ret (Err (InternalError (PdaRunnerError_fmt error)))
      | Failed error (Some retry_status) =>
          let* sent := send_job_with_new_status job_key retry_status job in
          match sent with
          | Ok _ => Ret (Err (InternalError ("Retrying! Previous error: " +:+ PdaRunnerError_fmt error)))
          | Err e => Ret (Err (InternalError
              ("PLEASE REPORT! Internal error, cannot retry: " +:+ PdaRunnerError_fmt e)))
          end
      | _ => Ret (Err (InternalError "PLEASE REPORT! Finished DB is in invalid state"))
      end
  | None =>
  (* Check DB for pending jobs *)
  let? pending := map_err InternalError (op (SledGet QueueDb job_key)) in
  match pending with
  | Some queue_data =>
      let? job_status := Ret (result_map_err InternalError (deserialize (T := JobStatus) queue_data)) in
      match job_status with
      | LocalZkProofPending | RemoteZkProofRequesting | RemoteZkProofPending _ => Ret (Ok None)
      | _ => Ret (Err (InternalError
          ("0x" +:+ bytes_to_hex job_key +:+ " - Job queue is in invalid state")))
      end
  | None =>
  let* prover_type := env_expect "SP1_PROVER" "Missing SP1_PROVER env var" in
  let? initial_status :=
    Ret (if String.eqb prover_type "network" then Ok RemoteZkProofRequesting
         else if String.eqb prover_type "cuda" || String.eqb prover_type "cpu"
                 || String.eqb prover_type "mock" then Ok LocalZkProofPending
         else Err (InternalError ("SP1_PROVER is unkown: " +:+ prover_type))) in
  let? status_bytes := Ret (result_map_err InternalError (serialize initial_status)) in
  let? _ := map_err InternalError (op (SledInsert QueueDb job_key status_bytes)) in
  let? _ := map_err InternalError (op (ChanSend (Some job))) in
  Ret (Ok None)
  end
  end.

(** The setup both [get_proof_setup_local] and [get_proof_setup_remote] compute:
    read from the config database, or generated and stored there. [setup_op] is
    the blocking task that generates it. *)
Definition init_proof_setup (zk_program_elf_sha2 : SuccNetProgramId)
    (setup_op : prog (result (SP1ProvingKey * SP1VerifyingKey) string))
    : prog (result SP1ProofSetup PdaRunnerError) :=
  let? precomputed_proof_setup := map_err InternalError (op (SledGet ConfigDb zk_program_elf_sha2)) in
  match precomputed_proof_setup with
  | Some precomputed => Ret (result_map_err InternalError (deserialize precomputed))
  | None =>
      let? keys := map_err InternalError setup_op in
      let new_proof_setup := SP1ProofSetup_from keys in
      let? setup_bytes := Ret (result_map_err InternalError (serialize new_proof_setup)) in
      let? _ := map_err InternalError (op (SledInsert ConfigDb zk_program_elf_sha2 setup_bytes)) in
      Ret (Ok new_proof_setup)
  end.

Definition get_proof_setup_local (zk_program_elf_sha2 : SuccNetProgramId)
    (zk_client_handle : SP1EnvProver) : prog (result SP1ProofSetup PdaRunnerError) :=
  get_or_try_init CHACHA_SETUP
    (init_proof_setup zk_program_elf_sha2 (op (SetupLocal zk_client_handle CHACHA_ELF))).

Definition get_proof_setup_remote (zk_program_elf_sha2 : SuccNetProgramId)
    (zk_client_handle : SP1NetworkProver) : prog (result SP1ProofSetup PdaRunnerError) :=
  get_or_try_init CHACHA_SETUP
    (init_proof_setup zk_program_elf_sha2 (op (SetupRemote zk_client_handle CHACHA_ELF))).

(** [handle_zk_client_error]: the error the caller reports and the status the
    job is finalized with. *)
Definition handle_zk_client_error (zk_client_error : SP1NetworkError) (job : Job) (job_key : bytes)
    : prog PdaRunnerError :=
  let shown := network_error_display zk_client_error in
  let '(e, job_status) :=
    match zk_client_error with
    | SimulationFailed | RequestUnexecutable _ =>
        let e := ZkClientError ("ZKP program critical failure: " +:+ shown +:+ " occurred for "
                   +:+ Job_fmt job +:+ " PLEASE REPORT!") in
        (e, Failed e None)
    | RequestUnfulfillable _ =>
        let e := ZkClientError ("ZKP network failure: " +:+ shown +:+ " occurred for "
                   +:+ Job_fmt job +:+ " PLEASE REPORT!") in
        (e, Failed e None)
    | RequestTimedOut _ =>
        let e := ZkClientError ("ZKP network: " +:+ shown +:+ " occurred for "
                   +:+ Job_fmt job +:+ " - callback to start the job over") in
        (e, Failed e (Some RemoteZkProofRequesting))
    | RpcError _ | Other _ =>
        let e := ZkClientError ("ZKP network failure: " +:+ shown +:+ " occurred for "
                   +:+ Job_fmt job +:+ " PLEASE REPORT!") in
        (e, Failed e (Some RemoteZkProofRequesting))
    end in
  let* finalized := finalize_job job_key job_status in
  match finalized with
  | Ok _ => Ret e
  | Err internal_err => Ret internal_err
  end.

(** The closure [map_err] is given after each call of an SP1 client. *)
Definition map_client_error {A} (job : Job) (job_key : bytes) (r : result A AnyhowError)
    : prog (result A PdaRunnerError) :=
  match r with
  | Ok a => Ret (Ok a)
  | Err e =>
      match downcast_ref e with
      | Some down => let* e' := handle_zk_client_error down job job_key in Ret (Err e')
      | None => Ret (Err (ZkClientError ("Unhandled Error: " +:+ anyhow_display e +:+ " PLEASE REPORT")))
      end
  end.

(** The encryption key from the process environment. *)
Definition read_encryption_key : prog (array KEY_LEN) :=
  let* text := env_expect "ENCRYPTION_KEY" "Missing ENCRYPTION_KEY env var" in
  lift (expect id "ENCRYPTION_KEY must be 32 bytes, hex encoded (ex: `1234...abcd`)" (from_hex text)).

(** The input of the guest: key, fresh nonce, plaintext. *)
Definition prepare_stdin (job : Job) : prog SP1Stdin :=
  let stdin := stdin_new in
  let* key := read_encryption_key in
  let stdin := write_slice stdin key in
  let* nonce := util_random_nonce in
  let stdin := write_slice stdin nonce in
  let input_plaintext := input_data (input job) in
  Ret (write_slice stdin input_plaintext).

(** [zk_proof_local]. *)
Definition zk_proof_local (program_id : SuccNetProgramId) (job : Job) (job_key : bytes)
    : prog (result SP1ProofWithPublicValues PdaRunnerError) :=
  let* zk_client_handle := get_zk_client_local in
  let? proof_setup := get_proof_setup_local program_id zk_client_handle in
  let* stdin := prepare_stdin job in
  let* r := op (ProveLocal zk_client_handle (pk proof_setup) stdin) in
  let? proof := map_client_error job job_key r in
  Ret (Ok proof).

(** [zk_proof_remote]. *)
Definition zk_proof_remote (self : PdaRunner) (program_id : SuccNetProgramId) (job : Job)
    (job_key : bytes) : prog (result SuccNetJobId PdaRunnerError) :=
  let* zk_client_handle := get_zk_client_remote in
  let? proof_setup := get_proof_setup_remote program_id zk_client_handle in
  let* fs_string := env_expect "SP1_FULFILLMENT_STRATEGY" "Missing SP1_FULFILLMENT_STRATEGY env var" in
  let? strategy := Ret (match from_str_name fs_string with
                        | Some s => Ok s
                        | None => Err (InternalError "SP1_FULFILLMENT_STRATEGY env var malformed")
                        end) in
  let* stdin := prepare_stdin job in
  let* r := op (RequestRemote zk_client_handle (pk proof_setup) stdin strategy false
                  (zk_proof_gen_timeout_remote (config self))) in
  let? request_id := map_client_error job job_key r in
  Ret (Ok request_id).

(** [wait_for_zk_proof]. *)
Definition wait_for_zk_proof (job : Job) (job_key : bytes) (request_id : SuccNetJobId)
    : prog (result SP1ProofWithPublicValues PdaRunnerError) :=
  let* zk_client_handle := get_zk_client_remote in
  let* r := op (WaitProof zk_client_handle request_id None) in
  let? proof := map_client_error job job_key r in
  Ret (Ok proof).

(** [prove]: one step of a job's life. *)
Definition prove (self : PdaRunner) (job : Job) : prog (result unit PdaRunnerError) :=
  let? job_key := Ret (result_map_err InternalError (serialize (anchor job))) in
  let? queued := map_err InternalError (op (SledGet QueueDb job_key)) in
  match queued with
  | Some queue_data =>
      let? job_status := Ret (result_map_err InternalError (deserialize (T := JobStatus) queue_data)) in
      match job_status with
      | RemoteZkProofRequesting =>
          let* program_id := get_program_id in
          let* r := zk_proof_remote self program_id job job_key in
          match r with
          | Ok zk_job_id =>
              let? _ := send_job_with_new_status job_key (RemoteZkProofPending zk_job_id) job in
              Ret (Ok tt)
          | Err _ => Ret (Ok tt)
          end
      | RemoteZkProofPending zk_request_id =>
          let* r := wait_for_zk_proof job job_key zk_request_id in
          match r with
          | Ok zk_proof =>
              let? _ := finalize_job job_key (ZkProofFinished zk_proof) in
              Ret (Ok tt)
          | Err _ => Ret (Ok tt)
          end
      | LocalZkProofPending =>
          let* program_id := get_program_id in
          let* r := zk_proof_local program_id job job_key in
          match r with
          | Ok zk_proof =>
              let? _ := finalize_job job_key (ZkProofFinished zk_proof) in
              Ret (Ok tt)
          | Err _ => Ret (Ok tt)
          end
      | _ => Ret (Ok tt)
      end
  | None => Ret (Ok tt)
  end.

(** [job_worker], for at most [fuel] messages: spawns [prove] for each job and
    shuts the process down on the first [None]. *)
Fixpoint job_worker (fuel : nat) : prog unit :=
  match fuel with
  | O => Ret tt
  | S n =>
      let* m := op ChanRecv in
      match m with
      | Some (Some job) => op (SpawnProve job) ;; job_worker n
      | _ => op (SledFlush QueueDb) ;; op (SledFlush FinishedDb) ;; op (ProcessExit 0)
      end
  end.

(** [shutdown]. *)
Definition shutdown : prog unit := op (ChanSend None) ;; Ret tt.

End Runner.
