(* ===== verification/Invariant.v ===== *)
(** The invariant of the service's shared state, and the proof rule that keeps
    it. [inv] says what the database trees, the job channel and the setup cell
    may hold; [safe] checks a program operation by operation, each in any state
    that satisfies [inv]. Nothing in [safe] assumes that the state stays put
    between two operations, so what it proves holds when other tasks run in
    between (Concurrency.v) as well as alone. *)

From S2P Require Import Prelude Format ZkvmCommon Guest Job Http Effects Environment.
From S2P Require Import Runner.

Open Scope pda_scope.
Local Open Scope string_scope.

Section Invariant.
  Context `{Sp1Facts} (E : gmap string string).

(** The anchor of a job is the SHA-256 of its data. *)
Definition anchored (job : Job) : Prop :=
  anchor_data (anchor job) = sha256 (input_data (input job)).

(** [stdin] is the guest's input for a job with database key [k]: the
    configured encryption key, some nonce, and the job's data. *)
Definition input_for (k : bytes) (stdin : SP1Stdin) : Prop :=
  exists job text key (n : array NONCE_LEN),
    anchored job /\ serialize (anchor job) = Ok k /\
    E !! "ENCRYPTION_KEY" = Some text /\ from_hex text = Ok key /\
    stdin = guest_stdin key n (input_data (input job)).

Definition setup_ok (s : SP1ProofSetup) : Prop := setup_of CHACHA_ELF (pk s, vk s).

(** A status that may wait in the queue under [k]. *)
Definition queue_ok (k : bytes) (st : JobStatus) : Prop :=
  match st with
  | LocalZkProofPending | RemoteZkProofRequesting => True
  | RemoteZkProofPending id =>
      exists s stdin, setup_ok s /\ requested id (pk s) stdin /\ input_for k stdin
  | _ => False
  end.

(** A status that may be stored as finished under [k]. *)
Definition finished_ok (k : bytes) (st : JobStatus) : Prop :=
  match st with
  | ZkProofFinished p =>
      exists s stdin, setup_ok s /\ proof_of (pk s) stdin p /\ input_for k stdin
  | Failed _ None | Failed _ (Some RemoteZkProofRequesting) => True
  | _ => False
  end.

(** An entry of a tree. *)
Definition entry_ok (t : Tree) (k b : bytes) : Prop :=
  match t with
  | ConfigDb => exists s, deserialize b = Ok s /\ setup_ok s
  | QueueDb => (exists a : Anchor, serialize a = Ok k) /\
               exists st, deserialize b = Ok st /\ queue_ok k st
  | FinishedDb => exists st, deserialize b = Ok st /\ finished_ok k st
  end.

Record inv (s : Store) : Prop := {
  inv_env : env_vars s = E;
  inv_entries t k b : tree s t !! k = Some b -> entry_ok t k b;
  inv_setup p : cell_setup s = Some p -> setup_ok p;
  inv_inbox job : Some job ∈ inbox s -> anchored job;
  inv_spawned job : job ∈ spawned s -> anchored job;
}.

(** ** What an operation must respect, and what its answer tells *)

Definition op_guar (o : Op) : Prop :=
  match o with
  | SledInsert t k v => entry_ok t k v
  | SledTransaction body =>
      Forall (fun x => match x with TxInsert t k v => entry_ok t k v | _ => True end) body
  | ChanSend (Some job) | SpawnProve job => anchored job
  | CellInit c v =>
      match c return cell_type c -> Prop with CHACHA_SETUP => setup_ok | _ => fun _ => True end v
  | _ => True
  end.

Definition op_rely (o : Op) : ans o -> Prop :=
  match o return ans o -> Prop with
  | SledGet t k => fun r => forall b, r = Ok (Some b) -> entry_ok t k b
  | SledIter t => fun l => forall k b, Ok (k, b) ∈ l -> entry_ok t k b
  | ChanRecv => fun m => forall job, m = Some (Some job) -> anchored job
  | EnvVar name => fun r => forall v, r = Ok v <-> E !! name = Some v
  | CellGet c =>
      match c return option (cell_type c) -> Prop with
      | CHACHA_SETUP => fun o => forall s, o = Some s -> setup_ok s
      | _ => fun _ => True
      end
  | CellInit c _ =>
      match c return cell_type c -> Prop with CHACHA_SETUP => setup_ok | _ => fun _ => True end
  | SetupLocal _ elf | SetupRemote _ elf => fun r => forall keys, r = Ok keys -> setup_of elf keys
  | ProveLocal _ key stdin => fun r => forall p, r = Ok p -> proof_of key stdin p
  | RequestRemote _ key stdin _ _ _ => fun r => forall id, r = Ok id -> requested id key stdin
  | WaitProof _ id _ => fun r => forall p key stdin,
      r = Ok p -> requested id key stdin -> proof_of key stdin p
  | Verify _ p key => fun r => is_ok r = true -> verified p key
  | _ => fun _ => True
  end.

(** The messages sent to the node are those that may be sent. *)
Definition op_sends (G : Request bytes -> Prop) (o : Op) : Prop :=
  match o with DaRequest req => G req | _ => True end.

(** Operations that may wait for another task. *)
Definition blocking (o : Op) : bool := match o with ChanRecv => true | _ => false end.

(** Every operation of [p] respects the invariant, whatever the answers; if it
    ends, it ends in [Q]. What it sends to the node satisfies [G]; [may_block]
    allows [recv]. *)
Fixpoint safe (G : Request bytes -> Prop) (may_block : bool) {A} (p : prog A)
    (Q : outcome A -> Prop) : Prop :=
  match p with
  | Ret a => Q (Returned a)
  | Panic msg => Q (Panicked msg)
  | Vis o k => (blocking o = true -> may_block = true) /\ op_sends G o /\ op_guar o /\
      forall x, op_rely o x -> safe G may_block (k x) Q
  end.

(** ** Preservation *)

Lemma entries_set_tree s t k v t' k' b :
  (forall t k b, tree s t !! k = Some b -> entry_ok t k b) -> entry_ok t k v ->
  tree (set_tree s t (<[k := v]> (tree s t))) t' !! k' = Some b -> entry_ok t' k' b.
Proof.
  intros Hs Hv Hb. destruct (decide (t = t')) as [<-|Ht].
  - assert (<[k := v]> (tree s t) !! k' = Some b) as Hi by (by destruct t).
    apply lookup_insert_Some in Hi as [[<- <-]|[_ Hi]]; [done|by apply Hs].
  - apply Hs. by destruct t, t'.
Qed.

Lemma inv_set_tree s t k v : inv s -> entry_ok t k v ->
  inv (set_tree s t (<[k := v]> (tree s t))).
Proof.
  intros [He Hs Hc Hi Hsp] Hv. split.
  2: by intros; eapply entries_set_tree.
  all: by destruct t.
Qed.

Lemma inv_delete s t k : inv s -> inv (set_tree s t (delete k (tree s t))).
Proof.
  intros [He Hs Hc Hi Hsp]. split; [by destruct t| |by destruct t..].
  intros t' k' b Hb. apply Hs. destruct (decide (t = t')) as [<-|Ht].
  - assert (delete k (tree s t) !! k' = Some b) as Hd by (by destruct t).
    by apply lookup_delete_Some in Hd as [_ ?].
  - by destruct t, t'.
Qed.

Lemma inv_tx_apply body s : inv s -> op_guar (SledTransaction body) -> inv (tx_apply s body).
Proof.
  unfold tx_apply. revert s. induction body as [|x body IH]; intros s Hs Hg; [done|].
  simpl in Hg. apply Forall_cons in Hg as [Hx Hg]. apply IH; [|done].
  destruct x; simpl; [by apply inv_delete|by apply inv_set_tree].
Qed.

Lemma inv_set_tasks s i sp x : inv s ->
  (forall job, Some job ∈ i -> anchored job) -> (forall job, job ∈ sp -> anchored job) ->
  inv (set_tasks s i sp x).
Proof. intros [He Hs Hc Hi Hsp] ??. by split. Qed.

Lemma inv_cell_put s c v : inv s -> op_guar (CellInit c v) -> inv (cell_put s c v).
Proof.
  intros [He Hs Hc Hi Hsp] Hg. split; [by destruct c| | |by destruct c..].
  - intros t k b Hb. apply (Hs t). by destruct c, t.
  - intros p. destruct c; simpl in *; try apply Hc. by intros [= <-].
Qed.

(** An operation that respects the invariant keeps it, and its answer says
    what [op_rely] promises. *)
Lemma op_inv f o s s' x : inv s -> op_guar o -> op_post f o s s' x -> inv s' /\ op_rely o x.
Proof.
  intros Hs Hg. pose proof Hs as [He Ht Hc Hi Hsp].
  destruct o; simpl; try (by intros ->); try (by intros [-> ?]); try (by intros (-> & _ & ?)); try (by intros (-> & ? & _)).
  - intros [-> [->|[_ Hr]]]; split; try done; [intros b' [= Hb]; by eapply Ht|by intros b' ->].
  - intros [[-> ->]|[_ [->| ->]]]; split; try done; by apply inv_set_tree.
  - intros [[-> ->]|[_ ->]]; split; try done. by apply inv_tx_apply.
  - intros (-> & Hsub & _). split; [done|]. intros k b' Hin.
    apply (Ht t). apply elem_of_map_to_list.
    eapply elem_of_submseteq; [|exact Hsub].
    apply list_elem_of_omap. by exists (Ok (k, b')).
  - destruct (inbox_open s); intros [_ ->]; split; try done.
    apply inv_set_tasks; try done. intros job. rewrite elem_of_app, list_elem_of_singleton.
    intros [?|<-]; [by apply Hi|done].
  - intros (m & rest & Hin & -> & ->). split.
    + apply inv_set_tasks; try done. intros job Hj. apply Hi. rewrite Hin. by right.
    + intros job [= ->]. apply Hi. rewrite Hin. by left.
  - intros ->. split; [|done]. apply inv_set_tasks; try done.
    intros j. rewrite elem_of_app, list_elem_of_singleton. intros [?| ->]; [by apply Hsp|done].
  - intros [-> Hv]. split; [done|]. intros v. rewrite <- He.
    destruct (env_vars s !! name); [naive_solver|]. split; [by intros ->|done].
  - intros [-> ->]. split; [done|]. by destruct c.
  - destruct (cell_get s c) as [v0|] eqn:Ec; intros [-> ->]; split;
      solve [done | by apply inv_cell_put | destruct c; naive_solver].
Qed.

Lemma queue_ok_pending k st : queue_ok k st -> is_pending st = true.
Proof. by destruct st. Qed.

Lemma finished_ok_final k st : finished_ok k st -> is_final st = true.
Proof. destruct st as [| | | |e [[]|]]; by simpl. Qed.

  (** ** Rules *)

Lemma safe_mono G mb mb' {A} (p : prog A) (Q R : outcome A -> Prop) :
  (mb = true -> mb' = true) -> (forall r, Q r -> R r) -> safe G mb p Q -> safe G mb' p R.
Proof.
  intros Hmb HQ. induction p as [a|msg|o k IH]; simpl; auto.
  intros (Hb & Hn & Hg & Hk). split; [auto|]. split; [done|]. split; [done|]. intros x Hx. by apply IH, Hk.
Qed.

Lemma safe_bind G mb {A B} (p : prog A) (f : A -> prog B) Q :
  safe G mb p (fun r => match r with
                      | Returned a => safe G mb (f a) Q
                      | Panicked msg => Q (Panicked msg)
                      end) ->
  safe G mb (bind p f) Q.
Proof.
  induction p as [a|msg|o k IH]; simpl; auto.
  intros (Hb & Hn & Hg & Hk). split; [auto|]. split; [done|]. split; [done|]. intros x Hx. by apply IH, Hk.
Qed.

(** A rule for calling a program already checked. *)
Lemma safe_call G mb {A B} (p : prog A) (f : A -> prog B) (R : outcome A -> Prop) Q :
  safe G mb p R ->
  (forall a, R (Returned a) -> safe G mb (f a) Q) ->
  (forall msg, Q (Panicked msg)) ->
  safe G mb (bind p f) Q.
Proof.
  intros Hp Hf Hm. apply safe_bind. eapply safe_mono; [done| |exact Hp].
  intros [a|msg] Hr; auto.
Qed.

Lemma safe_callR G mb {A B Er} (p : prog (result A Er)) (f : A -> prog (result B Er))
    (R : outcome (result A Er) -> Prop) Q :
  safe G mb p R ->
  (forall a, R (Returned (Ok a)) -> safe G mb (f a) Q) ->
  (forall e, Q (Returned (Err e))) ->
  (forall msg, Q (Panicked msg)) ->
  safe G mb (bindR p f) Q.
Proof.
  intros Hp Hf He Hm. eapply safe_call; [exact Hp| |done]. intros [a|e] Hr; simpl; auto.
Qed.

Lemma safe_op G mb (o : Op) {B} (f : ans o -> prog B) Q :
  (blocking o = true -> mb = true) -> op_sends G o -> op_guar o ->
  (forall x, op_rely o x -> safe G mb (f x) Q) ->
  safe G mb (bind (op o) f) Q.
Proof. intros. cbn [bind op safe]. auto. Qed.

Lemma safe_bindR_map_err G mb {A B Er F} (g : Er -> F) (p : prog (result A Er))
    (f : A -> prog (result B F)) Q :
  safe G mb (bind p (fun r => match result_map_err g r with
                            | Ok a => f a
                            | Err e => Ret (Err e)
                            end)) Q ->
  safe G mb (bindR (map_err g p) f) Q.
Proof.
  unfold bindR, map_err. induction p as [r|msg|o k IH]; simpl; auto.
  intros (Hb & Hn & Hg & Hk). split_and!; auto.
Qed.

(** An operation keeps the log of sent messages good. *)
Lemma op_sends_ok G f o s s' x :
  op_sends G o -> op_post f o s s' x -> Forall G (forwarded s) -> Forall G (forwarded s').
Proof.
  intros Hg Hx Hs. destruct (is_local o) eqn:Ho; [by rewrite (op_local f o s s' x Ho Hx)|].
  destruct o; try done. simpl in *. subst. simpl. apply Forall_app. by split; [|constructor].
Qed.

(** A safe program that never waits, run alone, keeps the invariant. *)
Lemma safe_wp G f {A} (p : prog A) Q s :
  inv s -> safe G false p Q -> wp f p (fun s' r => inv s' /\ Q r) s.
Proof.
  revert s. induction p as [a|msg|o k IH]; intros s Hs; simpl; auto.
  intros (Hb & Hn & Hg & Hk). split.
  - destruct o; try done. by specialize (Hb eq_refl).
  - intros s' x Hp. destruct (op_inv f o s s' x Hs Hg Hp) as [Hs' Hx]. by apply IH, Hk.
Qed.
End Invariant.
