(* ===== verification/RunnerSafe.v ===== *)
(** Every method of the runner respects the invariant of Invariant.v, operation
    by operation, and what each returns is related to the job it was given. *)

From S2P Require Import Prelude Format ZkvmCommon Guest Job Http Effects Environment.
From S2P Require Import Runner Invariant.

Open Scope pda_scope.
Local Open Scope string_scope.

(** The laws of [bincode] the runner relies on. *)
Class RunnerCodecs `{Platform} : Prop := {
  #[global] codec_status :: BincodeLaws JobStatus;
  #[global] codec_setup :: BincodeLaws SP1ProofSetup;
}.

(** One step through a [safe] goal: an operation, a pure result, an end. *)
Ltac safe_op_step o :=
  apply (safe_op _ _ _ o); [done|done| |let x := fresh "x" in let Hx := fresh "Hx" in intros x Hx].

Ltac safe_step :=
  lazymatch goal with
  | |- safe _ _ _ (bind (op ?o) _) _ => safe_op_step o
  | |- safe _ _ _ (bindR (map_err _ (op ?o)) _) _ => apply safe_bindR_map_err; safe_op_step o
  | |- safe _ _ _ (bindR (Ret (result_map_err _ ?r)) _) _ =>
      rewrite bindR_ret; let E := fresh "Er" in
      destruct r eqn:E; cbn [result_map_err safe]; [|done]
  | |- safe _ _ _ (bindR (Ret _) _) _ => rewrite bindR_ret
  | |- safe _ _ _ (op _) _ =>
      split; [done|split; [done|split; [|let x := fresh "x" in let Hx := fresh "Hx" in intros x Hx]]]
  | |- safe _ _ _ (map_err _ (op _)) _ =>
      split; [done|split; [done|split; [|let x := fresh "x" in let Hx := fresh "Hx" in intros x Hx]]]
  end.

Section RunnerSafe.
  Context `{Sp1Facts, !RunnerCodecs} (E : gmap string string) (G : Request bytes -> Prop).

(** What [prove] and the callers of the runner may rely on about a proof. *)
Definition proof_for (k : bytes) (p : SP1ProofWithPublicValues) : Prop :=
  finished_ok E k (ZkProofFinished p).

Lemma safe_lift_expect mb {A Er} dbg msg (r : result A Er) (Q : outcome A -> Prop) :
  (forall a, r = Ok a -> Q (Returned a)) -> (forall m, Q (Panicked m)) ->
  safe E G mb (lift (expect dbg msg r)) Q.
Proof. intros Ha Hm. destruct r; simpl; auto. Qed.

Lemma safe_env_expect mb name msg Q :
  (forall v, E !! name = Some v -> Q (Returned v)) -> (forall m, Q (Panicked m)) ->
  safe E G mb (env_expect name msg) Q.
Proof.
  intros Hv Hm. unfold env_expect. safe_step; [done|].
  apply safe_lift_expect; [|done]. intros v ->. by apply Hv, Hx.
Qed.

Lemma safe_get_or_init mb c init (Q : outcome (cell_type c) -> Prop) :
  c <> CHACHA_SETUP -> (forall r, Q r) ->
  safe E G mb init (fun _ => True) ->
  safe E G mb (get_or_init c init) Q.
Proof.
  intros Hc HQ Hi. unfold get_or_init. safe_step; [done|]. destruct x; [apply HQ|].
  eapply safe_call; [exact Hi| |done]. intros v _. safe_step; [by destruct c|apply HQ].
Qed.

Lemma safe_get_program_id mb Q : (forall r, Q r) -> safe E G mb get_program_id Q.
Proof. intros. by apply safe_get_or_init. Qed.

Lemma safe_get_zk_client_local mb Q : (forall r, Q r) -> safe E G mb get_zk_client_local Q.
Proof. intros. apply safe_get_or_init; [done..|]. safe_step; [done|]. by destruct x. Qed.

Lemma safe_get_zk_client_remote mb Q : (forall r, Q r) -> safe E G mb get_zk_client_remote Q.
Proof. intros. apply safe_get_or_init; [done..|]. safe_step; [done|]. by destruct x. Qed.

Lemma safe_finalize_job mb k st Q :
  finished_ok E k st -> (forall r, Q r) -> safe E G mb (finalize_job k st) Q.
Proof.
  intros Hst HQ. unfold finalize_job.
  eapply safe_call; [apply (safe_lift_expect _ _ _ _ (fun r =>
    forall v, r = Returned v -> serialize st = Ok v)); naive_solver| |done].
  intros v Hv. specialize (Hv v eq_refl). apply deserialize_serialize in Hv.
  safe_step.
  - repeat constructor. by exists st.
  - destruct x; apply HQ.
Qed.

Lemma safe_send_job mb k st job (a : Anchor) Q :
  serialize a = Ok k -> queue_ok E k st -> anchored job -> (forall r, Q r) ->
  safe E G mb (send_job_with_new_status k st job) Q.
Proof.
  intros Ha Hst Hj HQ. unfold send_job_with_new_status.
  eapply safe_call; [apply (safe_lift_expect _ _ _ _ (fun r =>
    forall v, r = Returned v -> serialize st = Ok v)); naive_solver| |done].
  intros v Hv. specialize (Hv v eq_refl). apply deserialize_serialize in Hv.
  safe_step.
  - repeat constructor; [by exists a|by exists st].
  - destruct x; [|apply HQ]. cbn [result_map_err]. safe_step; [done|]. apply HQ.
Qed.

(** A retry status that a stored failure carries may be queued again. *)
Lemma retry_queue_ok k e st : finished_ok E k (Failed e (Some st)) -> queue_ok E k st.
Proof. by destruct st. Qed.

Lemma safe_get_verifiable_encryption mb job :
  anchored job ->
  safe E G mb (get_verifiable_encryption job) (fun r =>
    forall p, r = Returned (Ok (Some p)) ->
      exists k, serialize (anchor job) = Ok k /\ proof_for k p).
Proof.
  intros Hj. unfold get_verifiable_encryption.
  safe_step. rename a into k. safe_step; [done|].
  destruct x as [[b|]|e]; cbn [result_map_err]; [|clear Hx|done].
  - destruct (Hx b eq_refl) as (st & Hst & Hok). rewrite Hst.
    cbn [result_map_err]. rewrite bindR_ret.
    destruct st as [| | |p|e [retry|]]; try done.
    + intros p' [= <-]. by exists k.
    + eapply (safe_call E G mb _ _ (fun _ => True)); [|by intros []|done].
      eapply safe_send_job; eauto using retry_queue_ok.
  - safe_step; [done|]. destruct x as [[b|]|e]; cbn [result_map_err]; [| |done].
    + rewrite bindR_ret. destruct (deserialize b) as [[]|]; done.
    + eapply (safe_call E G mb _ _ (fun _ => True)); [by apply safe_env_expect| |done].
      intros prover _. rewrite bindR_ret.
      set (init := if String.eqb prover "network" then _ else _).
      assert (forall st, init = Ok st -> queue_ok E k st) as Hinit.
      { subst init. intros st. repeat case_match; by intros [= <-]. }
      destruct init as [st|e]; [|done]. specialize (Hinit st eq_refl).
      rewrite bindR_ret. destruct (serialize st) as [v|e] eqn:Ev; [|done].
      apply deserialize_serialize in Ev. cbn [result_map_err].
      safe_step; [split; [by exists (anchor job)|by exists st]|].
      destruct x as [[]|e]; [|done]. cbn [result_map_err].
      safe_step; [done|]. by destruct x as [[]|e].
Qed.

  (** ** Proof setups *)

Lemma safe_init_proof_setup mb id setup_op :
  safe E G mb setup_op (fun r => forall keys, r = Returned (Ok keys) -> setup_of CHACHA_ELF keys) ->
  safe E G mb (init_proof_setup id setup_op) (fun r => forall s, r = Returned (Ok s) -> setup_ok s).
Proof.
  intros Hop. unfold init_proof_setup. safe_step; [done|].
  destruct x as [[b|]|e]; cbn [result_map_err]; [|clear Hx|done].
  - destruct (Hx b eq_refl) as (s & Hs & Hok). intros s'. rewrite Hs. by intros [= <-].
  - apply safe_bindR_map_err. eapply safe_call; [exact Hop| |done].
    intros [keys|e] Hk; cbn [result_map_err]; [|done]. specialize (Hk keys eq_refl).
    assert (setup_ok (SP1ProofSetup_from keys)) as Hok by (by destruct keys).
    safe_step. rename a into v. apply deserialize_serialize in Er.
    safe_step; [by eexists|]. destruct x as [[]|e]; [|done]. by intros s [= <-].
Qed.

Lemma safe_get_or_try_init_setup mb (init : prog (result SP1ProofSetup PdaRunnerError)) :
  safe E G mb init (fun r => forall s, r = Returned (Ok s) -> setup_ok s) ->
  safe E G mb (get_or_try_init CHACHA_SETUP init)
    (fun r => forall s, r = Returned (Ok s) -> setup_ok s).
Proof.
  intros Hi. unfold get_or_try_init. safe_step; [done|]. destruct x as [s|].
  - intros s' [= <-]. by apply Hx.
  - eapply safe_callR; [exact Hi| |done|done]. intros s Hs. specialize (Hs s eq_refl).
    safe_op_step (CellInit CHACHA_SETUP s); [done|]. by intros s' [= <-].
Qed.

Lemma safe_get_proof_setup_local mb id client :
  safe E G mb (get_proof_setup_local id client) (fun r => forall s, r = Returned (Ok s) -> setup_ok s).
Proof.
  apply safe_get_or_try_init_setup, safe_init_proof_setup. safe_step; [done|].
  intros keys [= ->]. by apply Hx.
Qed.

Lemma safe_get_proof_setup_remote mb id client :
  safe E G mb (get_proof_setup_remote id client) (fun r => forall s, r = Returned (Ok s) -> setup_ok s).
Proof.
  apply safe_get_or_try_init_setup, safe_init_proof_setup. safe_step; [done|].
  intros keys [= ->]. by apply Hx.
Qed.

  (** ** The prover's input and its errors *)

Lemma safe_read_encryption_key mb :
  safe E G mb read_encryption_key (fun r => forall key, r = Returned key ->
    exists text, E !! "ENCRYPTION_KEY" = Some text /\ from_hex text = Ok key).
Proof.
  unfold read_encryption_key.
  eapply safe_call; [apply (safe_env_expect _ _ _ (fun r =>
    forall v, r = Returned v -> E !! "ENCRYPTION_KEY" = Some v)); naive_solver| |done].
  intros text Ht. apply safe_lift_expect; [|done]. naive_solver.
Qed.

Lemma safe_prepare_stdin mb job k :
  anchored job -> serialize (anchor job) = Ok k ->
  safe E G mb (prepare_stdin job) (fun r => forall stdin, r = Returned stdin -> input_for E k stdin).
Proof.
  intros Hj Hk. unfold prepare_stdin.
  eapply safe_call; [apply safe_read_encryption_key| |done].
  intros key Hkey. destruct (Hkey key eq_refl) as (text & Ht & Hx).
  eapply (safe_call _ _ _ _ _ (fun _ => True)); [| |done].
  { unfold util_random_nonce. safe_step; [done|]. by apply safe_lift_expect. }
  intros n _ stdin [= <-]. by exists job, text, key, n.
Qed.

Lemma safe_handle_zk_client_error mb err job k (Q : outcome PdaRunnerError -> Prop) :
  (forall r, Q r) -> safe E G mb (handle_zk_client_error err job k) Q.
Proof.
  intros HQ. unfold handle_zk_client_error.
  destruct err; cbv zeta;
    (eapply (safe_call _ _ _ _ _ (fun _ => True)); [by apply safe_finalize_job| |done]);
    intros [u|e] _; apply HQ.
Qed.

Lemma safe_map_client_error mb {A} job k (r : result A AnyhowError) :
  safe E G mb (map_client_error job k r) (fun o => forall a, o = Returned (Ok a) -> r = Ok a).
Proof.
  unfold map_client_error. destruct r as [a|e]; [by intros a' [= ->]|].
  destruct (downcast_ref e); [|done].
  eapply (safe_call _ _ _ _ _ (fun _ => True)); [by apply safe_handle_zk_client_error|done|done].
Qed.

Lemma safe_zk_proof_local mb pid job k :
  anchored job -> serialize (anchor job) = Ok k ->
  safe E G mb (zk_proof_local pid job k) (fun r => forall p, r = Returned (Ok p) -> proof_for k p).
Proof.
  intros Hj Hk. unfold zk_proof_local.
  eapply (safe_call _ _ _ _ _ (fun _ => True)); [by apply safe_get_zk_client_local| |done].
  intros client _. eapply safe_callR; [apply safe_get_proof_setup_local| |done|done].
  intros s Hs. specialize (Hs s eq_refl).
  eapply safe_call; [by apply safe_prepare_stdin| |done].
  intros stdin Hi. specialize (Hi stdin eq_refl).
  safe_op_step (ProveLocal client (pk s) stdin); [done|].
  eapply safe_callR; [apply safe_map_client_error| |done|done].
  intros p Hp p' [= <-]. specialize (Hp p eq_refl). exists s, stdin.
  split_and!; [done| |done]. by apply Hx.
Qed.

Lemma safe_zk_proof_remote mb self pid job k :
  anchored job -> serialize (anchor job) = Ok k ->
  safe E G mb (zk_proof_remote self pid job k)
    (fun r => forall id, r = Returned (Ok id) -> queue_ok E k (RemoteZkProofPending id)).
Proof.
  intros Hj Hk. unfold zk_proof_remote.
  eapply (safe_call _ _ _ _ _ (fun _ => True)); [by apply safe_get_zk_client_remote| |done].
  intros client _. eapply safe_callR; [apply safe_get_proof_setup_remote| |done|done].
  intros s Hs. specialize (Hs s eq_refl).
  eapply (safe_call _ _ _ _ _ (fun _ => True)); [by apply safe_env_expect| |done].
  intros fs _. safe_step. destruct (from_str_name fs) as [strategy|]; [|done].
  eapply safe_call; [by apply safe_prepare_stdin| |done].
  intros stdin Hi. specialize (Hi stdin eq_refl).
  safe_op_step (RequestRemote client (pk s) stdin strategy false
                  (zk_proof_gen_timeout_remote (config self))); [done|].
  eapply safe_callR; [apply safe_map_client_error| |done|done].
  intros id Hp id' [= <-]. specialize (Hp id eq_refl). exists s, stdin.
  split_and!; [done| |done]. by apply Hx.
Qed.

Lemma safe_wait_for_zk_proof mb job k id :
  queue_ok E k (RemoteZkProofPending id) ->
  safe E G mb (wait_for_zk_proof job k id) (fun r => forall p, r = Returned (Ok p) -> proof_for k p).
Proof.
  intros (s & stdin & Hs & Hr & Hi). unfold wait_for_zk_proof.
  eapply (safe_call _ _ _ _ _ (fun _ => True)); [by apply safe_get_zk_client_remote| |done].
  intros client _. safe_op_step (WaitProof client id None); [done|].
  eapply safe_callR; [apply safe_map_client_error| |done|done].
  intros p Hp p' [= <-]. specialize (Hp p eq_refl). exists s, stdin.
  split_and!; [done| |done]. by eapply Hx.
Qed.

  (** ** The worker *)

(** Finalizing with a proof, from whatever produced it. *)
Lemma safe_finish mb k (r : result SP1ProofWithPublicValues PdaRunnerError) :
  (forall p, r = Ok p -> proof_for k p) ->
  safe E G mb (match r with
             | Ok p => let? _ := finalize_job k (ZkProofFinished p) in Ret (Ok tt)
             | Err _ => Ret (Ok tt)
             end : prog (result unit PdaRunnerError)) (fun _ => True).
Proof.
  intros Hr. destruct r as [p|e]; [|done].
  eapply (safe_callR _ _ _ _ _ (fun _ => True)); [|done..].
  apply safe_finalize_job; [by apply Hr|done].
Qed.

Lemma safe_prove mb self job : anchored job -> safe E G mb (prove self job) (fun _ => True).
Proof.
  intros Hj. unfold prove. safe_step. rename a into k, Er into Hk. safe_step; [done|].
  destruct x as [[b|]|e]; cbn [result_map_err]; [|done..].
  destruct (Hx b eq_refl) as (_ & st & Hst & Hok). rewrite Hst.
  cbn [result_map_err]. rewrite bindR_ret. destruct st as [| |id| |]; [| | |done..].
  - eapply (safe_call _ _ _ _ _ (fun _ => True)); [by apply safe_get_program_id| |done].
    intros pid _. eapply safe_call; [by apply safe_zk_proof_local| |done].
    intros r Hr. apply safe_finish. intros p ->. by apply Hr.
  - eapply (safe_call _ _ _ _ _ (fun _ => True)); [by apply safe_get_program_id| |done].
    intros pid _. eapply safe_call; [by apply safe_zk_proof_remote| |done].
    intros [id|e] Hr; [|done]. specialize (Hr id eq_refl).
    eapply (safe_callR _ _ _ _ _ (fun _ => True)); [|done..]. by eapply safe_send_job.
  - eapply safe_call; [by apply safe_wait_for_zk_proof| |done].
    intros r Hr. apply safe_finish. intros p ->. by apply Hr.
Qed.

Lemma safe_job_worker fuel : safe E G true (job_worker fuel) (fun _ => True).
Proof.
  induction fuel as [|n IH]; [done|]. cbn [job_worker].
  safe_step; [done|]. destruct x as [[job|]|].
  - apply (safe_op _ _ _ (SpawnProve job)); [done|done|by apply Hx|done].
  - safe_step; [done|]. safe_step; [done|]. by safe_step.
  - safe_step; [done|]. safe_step; [done|]. by safe_step.
Qed.

Lemma safe_shutdown mb : safe E G mb shutdown (fun _ => True).
Proof. unfold shutdown. by safe_step. Qed.
End RunnerSafe.

(** ** What a stored proof proves *)

Section Integrity.
  Context `{Sp1Laws, !ChaCha20Laws, !ZkvmIoLaws, !BincodeLaws Anchor} (E : gmap string string).

(** The proof's public values parse; they decrypt, under the configured key, to
    data with the given SHA-256, and show the hash of that key. *)
Definition seals (p : SP1ProofWithPublicValues) (hash : array HASH_LEN) : Prop :=
  exists text key data o,
    E !! "ENCRYPTION_KEY" = Some text /\ from_hex text = Ok key /\
    from_bytes (public_values p) = Returned (Ok o) /\
    privkey_hash o = sha256 key /\ plaintext_hash o = hash /\ sha256 data = hash /\
    chacha key (nonce o) (ciphertext o) = Returned data.

Lemma input_for_seals k p s stdin job :
  setup_ok s -> proof_of (pk s) stdin p -> input_for E k stdin ->
  anchored job -> serialize (anchor job) = Ok k ->
  seals p (sha256 (input_data (input job))).
Proof.
  intros Hs Hp (job' & text & key & n & Hj' & Hk' & Ht & Hx & ->) Hj Hk.
  pose proof (proof_of_values (pk s, vk s) _ p Hs Hp) as Hg.
  apply guest_output_decrypts in Hg as (key' & o & Hkey & Ho & Hph & Hpt & _ & Hd).
  apply array_eq in Hkey as ->.
  assert (anchor job = anchor job') as Ha by (by eapply serialize_inj).
  assert (sha256 (input_data (input job)) = sha256 (input_data (input job'))) as Hsha.
  { apply array_eq. unfold anchored in *. congruence. }
  exists text, key, (input_data (input job')), o. by rewrite Hsha.
Qed.

Lemma proof_for_seals k p job :
  proof_for E k p -> anchored job -> serialize (anchor job) = Ok k ->
  seals p (sha256 (input_data (input job))).
Proof. intros (s & stdin & Hs & Hp & Hi). by eapply input_for_seals. Qed.
End Integrity.
