(* ===== verification/Lifecycle.v ===== *)
(** The life of a job. An abstract state machine per database key ([JobState],
    [job_step]) and the proof that a request and a worker step, run alone,
    refine it: each makes at most one step, for its own job only, and keeps a
    key out of one of the two trees. *)

From S2P Require Import Prelude Format ZkvmCommon Guest Job Http Effects Environment.
From S2P Require Import Runner Invariant RunnerSafe.

Open Scope pda_scope.
Local Open Scope string_scope.

(** ** The abstract machine *)

Section Machine.
  Context `{Platform}.

Inductive JobState : Type :=
| JNone
| JQueued (st : JobStatus)
| JDone (p : SP1ProofWithPublicValues)
| JFailed (e : PdaRunnerError) (retry : option JobStatus)
| JInvalid.

Inductive job_step : JobState -> JobState -> Prop :=
| step_new_local : job_step JNone (JQueued LocalZkProofPending)
| step_new_remote : job_step JNone (JQueued RemoteZkProofRequesting)
| step_accepted id :
    job_step (JQueued RemoteZkProofRequesting) (JQueued (RemoteZkProofPending id))
| step_proved_local p : job_step (JQueued LocalZkProofPending) (JDone p)
| step_proved_remote id p : job_step (JQueued (RemoteZkProofPending id)) (JDone p)
| step_failed st e retry :
    retry = None \/ retry = Some RemoteZkProofRequesting ->
    job_step (JQueued st) (JFailed e retry)
| step_retry e st : job_step (JFailed e (Some st)) (JQueued st).

(** The state of a key, read from the trees as a request reads them. *)
Definition job_state (s : Store) (k : bytes) : JobState :=
  match finished_db s !! k with
  | Some b =>
      match deserialize (T := JobStatus) b with
      | Ok (ZkProofFinished p) => JDone p
      | Ok (Failed e retry) => JFailed e retry
      | _ => JInvalid
      end
  | None =>
      match queue_db s !! k with
      | Some b =>
          match deserialize (T := JobStatus) b with
          | Ok (ZkProofFinished _) | Ok (Failed _ _) | Err _ => JInvalid
          | Ok st => JQueued st
          end
      | None => JNone
      end
  end.

(** No key is both queued and finished. *)
Definition exclusive (s : Store) : Prop :=
  forall k, finished_db s !! k = None \/ queue_db s !! k = None.

(** ** What a program does to the jobs *)

Record same_jobs (s s' : Store) : Prop := {
  same_queue : queue_db s' = queue_db s;
  same_finished : finished_db s' = finished_db s;
  same_inbox : inbox s' = inbox s;
  same_open : inbox_open s' = inbox_open s;
  same_env : env_vars s' = env_vars s;
}.

(** [finalize_job] with status [st] happened. *)
Record finalized (k : bytes) (st : JobStatus) (s s' : Store) : Prop := {
  fin_bytes : exists v, serialize st = Ok v /\ finished_db s' = <[k := v]> (finished_db s);
  fin_queue : queue_db s' = delete k (queue_db s);
  fin_inbox : inbox s' = inbox s;
}.

(** The job was put into the queue with status [st]. *)
Record queued (k : bytes) (st : JobStatus) (s s' : Store) : Prop := {
  que_bytes : exists v, serialize st = Ok v /\ queue_db s' = <[k := v]> (queue_db s);
  que_finished : finished_db s' = delete k (finished_db s);
}.

(** At most one step of the machine at [k], nothing at the other keys. *)
Definition moves (k : bytes) (s s' : Store) : Prop :=
  exclusive s' /\
  (forall k', k' <> k -> job_state s' k' = job_state s k') /\
  (job_state s' k = job_state s k \/ job_step (job_state s k) (job_state s' k)).

(** Operations that leave the jobs alone. *)
Definition op_quiet (o : Op) : bool :=
  match o with
  | SledInsert ConfigDb _ _ => true
  | SledInsert _ _ _ | SledTransaction _ | ChanSend _ | ChanRecv | SpawnProve _
  | ProcessExit _ => false
  | _ => true
  end.

Fixpoint quiet {A} (p : prog A) : Prop :=
  match p with
  | Ret _ | Panic _ => True
  | Vis o k => op_quiet o = true /\ forall x, quiet (k x)
  end.

#[global] Instance same_jobs_preorder : PreOrder same_jobs.
Proof. split; [by intros s|]. intros s1 s2 s3 [] []. split; congruence. Qed.

Lemma quiet_bind {A B} (p : prog A) (g : A -> prog B) :
  quiet p -> (forall a, quiet (g a)) -> quiet (bind p g).
Proof. intros Hp Hg. induction p as [a|msg|o k IH]; simpl in *; [apply Hg|done|].
  destruct Hp as [? Hk]. auto. Qed.

Lemma quiet_bindR {A B Er} (p : prog (result A Er)) (g : A -> prog (result B Er)) :
  quiet p -> (forall a, quiet (g a)) -> quiet (bindR p g).
Proof. intros Hp Hg. apply quiet_bind; [done|]. by intros []. Qed.

Lemma quiet_map_err {A Er Fr} (g : Er -> Fr) (p : prog (result A Er)) :
  quiet p -> quiet (map_err g p).
Proof. intros Hp. by apply quiet_bind. Qed.

Lemma quiet_op o : op_quiet o = true -> quiet (op o).
Proof. by split. Qed.

Lemma quiet_lift {A} (o : outcome A) : quiet (lift o).
Proof. by destruct o. Qed.

Lemma quiet_ret {A} (a : A) : quiet (Ret a).
Proof. done. Qed.
End Machine.

Create HintDb quiet.
#[export] Hint Resolve quiet_bind quiet_bindR quiet_map_err quiet_op quiet_lift quiet_ret : quiet.

(** Decides [quiet] of a program built from quiet pieces. *)
Ltac solve_quiet :=
  repeat first
    [ done
    | apply quiet_bindR; [|intros ?] | apply quiet_bind; [|intros ?]
    | apply quiet_map_err | apply quiet_lift | apply quiet_op; done
    | case_match ].

Section Quiet.
  Context `{Sp1Facts}.

Lemma quiet_get_zk_client_local : quiet get_zk_client_local.
Proof. unfold get_zk_client_local, get_or_init. solve_quiet. Qed.

Lemma quiet_get_zk_client_remote : quiet get_zk_client_remote.
Proof. unfold get_zk_client_remote, get_or_init. solve_quiet. Qed.

Lemma quiet_get_program_id : quiet get_program_id.
Proof. unfold get_program_id, get_or_init. solve_quiet. Qed.

Lemma quiet_get_proof_setup_local id c : quiet (get_proof_setup_local id c).
Proof. unfold get_proof_setup_local, get_or_try_init, init_proof_setup. solve_quiet. Qed.

Lemma quiet_get_proof_setup_remote id c : quiet (get_proof_setup_remote id c).
Proof. unfold get_proof_setup_remote, get_or_try_init, init_proof_setup. solve_quiet. Qed.

Lemma quiet_env_expect n m : quiet (env_expect n m).
Proof. unfold env_expect. solve_quiet. Qed.

Lemma quiet_prepare_stdin job : quiet (prepare_stdin job).
Proof. unfold prepare_stdin, read_encryption_key, util_random_nonce, env_expect. solve_quiet. Qed.

Lemma op_quiet_same f o s s' x : op_quiet o = true -> op_post f o s s' x -> same_jobs s s'.
Proof.
  destruct o; try done; simpl; intros Hq.
  all: try (by intros ->); try (by intros [-> _]); try (by intros (-> & _)).
  - destruct t; [|done..]. by intros [[_ ->]|[_ [->| ->]]].
  - destruct (cell_get s c); intros [-> _]; [done|by destruct c].
Qed.

Lemma wp_quiet_from f {A} (p : prog A) s0 s :
  quiet p -> same_jobs s0 s -> wp f p (fun s' _ => same_jobs s0 s') s.
Proof.
  revert s. induction p as [a|msg|o k IH]; intros s Hp Hs; simpl; [done..|].
  destruct Hp as [Ho Hk]. split; [by destruct o|].
  intros s' x Hx. apply IH; [done|]. etrans; [exact Hs|]. by eapply op_quiet_same.
Qed.

Lemma wp_quiet f {A} (p : prog A) s : quiet p -> wp f p (fun s' _ => same_jobs s s') s.
Proof. intros Hp. by apply wp_quiet_from. Qed.

(** Calling a quiet program. *)
Lemma wp_quiet_call f {A B} (p : prog A) (g : A -> prog B) Q s :
  quiet p ->
  (forall s' a, same_jobs s s' -> wp f (g a) Q s') ->
  (forall s' msg, same_jobs s s' -> Q s' (Panicked msg)) ->
  wp f (bind p g) Q s.
Proof.
  intros Hp Hg Hm. apply wp_bind. eapply wp_mono; [|by apply wp_quiet].
  intros s' [a|msg] Hs; auto.
Qed.

Lemma wp_quiet_callR f {A B Er} (p : prog (result A Er)) (g : A -> prog (result B Er)) Q s :
  quiet p ->
  (forall s' a, same_jobs s s' -> wp f (g a) Q s') ->
  (forall s' e, same_jobs s s' -> Q s' (Returned (Err e))) ->
  (forall s' msg, same_jobs s s' -> Q s' (Panicked msg)) ->
  wp f (bindR p g) Q s.
Proof. intros Hp Hg He Hm. apply wp_quiet_call; [done| |done]. intros s' [a|e] Hs; simpl; auto. Qed.

Lemma wp_call f {A B} (p : prog A) (g : A -> prog B) (R Q : Store -> outcome _ -> Prop) s :
  wp f p R s ->
  (forall s' a, R s' (Returned a) -> wp f (g a) Q s') ->
  (forall s' msg, R s' (Panicked msg) -> Q s' (Panicked msg)) ->
  wp f (bind p g) Q s.
Proof.
  intros Hp Hg Hm. apply wp_bind. eapply wp_mono; [|exact Hp].
  intros s' [a|msg] Hs; auto.
Qed.

Lemma wp_callR f {A B Er} (p : prog (result A Er)) (g : A -> prog (result B Er))
    (R Q : Store -> outcome _ -> Prop) s :
  wp f p R s ->
  (forall s' a, R s' (Returned (Ok a)) -> wp f (g a) Q s') ->
  (forall s' e, R s' (Returned (Err e)) -> Q s' (Returned (Err e))) ->
  (forall s' msg, R s' (Panicked msg) -> Q s' (Panicked msg)) ->
  wp f (bindR p g) Q s.
Proof. intros Hp Hg He Hm. eapply wp_call; [exact Hp| |done]. intros s' [a|e] Hs; simpl; auto. Qed.

  (** ** The two transactions *)

  (** A transaction on the jobs has happened as [T] says, or nothing has. *)
Definition happened {A} (T : Store -> Store -> Prop) (s s' : Store)
    (r : outcome (result A PdaRunnerError)) : Prop :=
    T s s' \/ (same_jobs s s' /\ forall a, r <> Returned (Ok a)).

Lemma wp_finalize_job f k st s :
  wp f (finalize_job k st) (happened (finalized k st) s) s.
Proof.
  unfold finalize_job. destruct (serialize st) as [v|e] eqn:Ev; [|by right].
  cbn. split; [done|]. intros s' x [[-> ->]|[[_ Hx] ->]].
  - left. split; [by exists v|done..].
  - destruct x; [done|]. by right.
Qed.

Lemma wp_send_job f k st job s :
  wp f (send_job_with_new_status k st job)
    (happened (queued k st) s) s.
Proof.
  unfold send_job_with_new_status. destruct (serialize st) as [v|e] eqn:Ev; [|by right].
  cbn. split; [done|]. intros s' x [[-> ->]|[[_ Hx] ->]].
  - cbn. split; [done|]. intros s' x Hx. left. split.
    + exists v. split; [done|]. cbn in Hx. destruct (inbox_open s); by destruct Hx as [_ ->].
    + cbn in Hx. destruct (inbox_open s); by destruct Hx as [_ ->].
  - destruct x; [done|]. by right.
Qed.
End Quiet.

(** ** Refinement *)

Section Refinement.
  Context `{Sp1Facts, !RunnerCodecs} (E : gmap string string).

(** The abstract state a stored status stands for. *)
Definition state_of (st : JobStatus) : JobState :=
  match st with
  | ZkProofFinished p => JDone p
  | Failed e retry => JFailed e retry
  | _ => JQueued st
  end.

Lemma job_state_same s s' k : same_jobs s s' -> job_state s' k = job_state s k.
Proof. intros [Hq Hf _ _ _]. unfold job_state. by rewrite Hf, Hq. Qed.

Lemma exclusive_same s s' : same_jobs s s' -> exclusive s -> exclusive s'.
Proof. intros [] Hx k. destruct (Hx k); [left|right]; congruence. Qed.

Lemma moves_same k s s' : exclusive s -> same_jobs s s' -> moves k s s'.
Proof.
  intros Hx Hs. split; [by eapply exclusive_same|].
  split; [intros ? _|left]; by apply job_state_same.
Qed.

Lemma finalized_state k st s s' :
  finalized k st s s' -> is_final st = true -> job_state s' k = state_of st.
Proof.
  intros [(v & Hv & Hf) _ _] Hst. unfold job_state. rewrite Hf, lookup_insert_eq.
  apply deserialize_serialize in Hv as ->. by destruct st.
Qed.

Lemma moves_finalized k st s s' :
  exclusive s -> finalized k st s s' -> is_final st = true ->
  job_step (job_state s k) (state_of st) -> moves k s s'.
Proof.
  intros Hx Hf Hst Hstep. pose proof (finalized_state _ _ _ _ Hf Hst) as Hk.
  destruct Hf as [(v & Hv & Hf) Hq _]. split_and!.
  - intros k'. rewrite Hf, Hq. destruct (decide (k = k')) as [<-|Hne].
    + right. apply lookup_delete_eq.
    + rewrite lookup_insert_ne, lookup_delete_ne by done. apply Hx.
  - intros k' Hne. unfold job_state.
    by rewrite Hf, Hq, lookup_insert_ne, lookup_delete_ne by done.
  - right. by rewrite Hk.
Qed.

Lemma queued_state k st s s' :
  queued k st s s' -> is_pending st = true -> job_state s' k = JQueued st.
Proof.
  intros [(v & Hv & Hq) Hf] Hst. unfold job_state.
  rewrite Hf, lookup_delete_eq, Hq, lookup_insert_eq.
  apply deserialize_serialize in Hv as ->. by destruct st.
Qed.

Lemma moves_queued k st s s' :
  exclusive s -> queued k st s s' -> is_pending st = true ->
  job_step (job_state s k) (JQueued st) -> moves k s s'.
Proof.
  intros Hx Hf Hst Hstep. pose proof (queued_state _ _ _ _ Hf Hst) as Hk.
  destruct Hf as [(v & Hv & Hq) Hf]. split_and!.
  - intros k'. rewrite Hf, Hq. destruct (decide (k = k')) as [<-|Hne].
    + left. apply lookup_delete_eq.
    + rewrite lookup_insert_ne, lookup_delete_ne by done. apply Hx.
  - intros k' Hne. unfold job_state.
    by rewrite Hf, Hq, lookup_insert_ne, lookup_delete_ne by done.
  - right. by rewrite Hk.
Qed.

(** A queued key in a state where the trees are exclusive. *)
Lemma job_state_queued s k b st :
  exclusive s -> queue_db s !! k = Some b -> deserialize b = Ok st -> is_pending st = true ->
  job_state s k = JQueued st.
Proof.
  intros Hx Hq Hst Hp. unfold job_state. destruct (Hx k) as [-> |]; [|congruence].
  rewrite Hq, Hst. by destruct st.
Qed.

  (** ** The worker's step *)

(** An SP1 client's error ends the job as failed, or leaves it. *)
Definition errs (k : bytes) (s s' : Store) : Prop :=
  exists e retry, (retry = None \/ retry = Some RemoteZkProofRequesting) /\
    finalized k (Failed e retry) s s'.

(** What a call of an SP1 client leaves: an [Ok] comes with the jobs untouched. *)
Definition client_done {A} (k : bytes) (s s' : Store) (o : outcome (result A PdaRunnerError))
    : Prop :=
  same_jobs s s' \/ (errs k s s' /\ forall a, o <> Returned (Ok a)).

Lemma finalized_after k st s s1 s' :
  same_jobs s s1 -> finalized k st s1 s' -> finalized k st s s'.
Proof. intros [] [(v & ? & ?) ? ?]. split; [exists v; split|..]; congruence. Qed.

Lemma client_done_after {A} k s s1 s' (o : outcome (result A PdaRunnerError)) :
  same_jobs s s1 -> client_done k s1 s' o -> client_done k s s' o.
Proof.
  intros Hs [Hs'|[(e & r & Hr & Hf) Ho]]; [left; by etrans|right].
  split; [|done]. exists e, r. split; [done|]. by eapply finalized_after.
Qed.

Lemma wp_handle_zk_client_error f err job k s :
  wp f (handle_zk_client_error err job k) (fun s' _ => errs k s s' \/ same_jobs s s') s.
Proof.
  assert (forall e retry (r : result unit PdaRunnerError -> prog PdaRunnerError),
    retry = None \/ retry = Some RemoteZkProofRequesting -> (forall u, exists x, r u = Ret x) ->
    wp f (bind (finalize_job k (Failed e retry)) r)
      (fun s' _ => errs k s s' \/ same_jobs s s') s) as Hw.
  { intros e retry r Hr Hret. eapply wp_call; [apply wp_finalize_job| |].
    - intros s' a Hh. destruct (Hret a) as [x ->].
      destruct Hh as [Hf|[Hs _]]; [left; by exists e, retry|by right].
    - intros s' msg [Hf|[Hs _]]; [left; by exists e, retry|by right]. }
  unfold handle_zk_client_error.
  destruct err; cbv zeta; (apply Hw; [auto|intros []; by eexists]).
Qed.

Lemma wp_map_client_error f {A} job k (r : result A AnyhowError) s :
  wp f (map_client_error job k r) (client_done k s) s.
Proof.
  unfold map_client_error. destruct r as [a|e]; [by left|].
  destruct (downcast_ref e); [|by left].
  eapply wp_call; [apply wp_handle_zk_client_error|..].
  - intros s' e' [He|Hs]; [by right|by left].
  - intros s' msg [He|Hs]; [by right|by left].
Qed.

(** The end of [zk_proof_local], [zk_proof_remote] and [wait_for_zk_proof]. *)
Lemma wp_client_tail f {A} job k (r : result A AnyhowError) s s1 :
  same_jobs s s1 ->
  wp f (let? a := map_client_error job k r in Ret (Ok a)) (client_done k s) s1.
Proof.
  intros Hs. eapply wp_callR; [apply wp_map_client_error|..]; simpl.
  - intros s' a Hc. eapply client_done_after; [done|]. exact Hc.
  - intros s' e Hc. eapply client_done_after; [done|].
    destruct Hc as [?|[? _]]; [by left|by right].
  - intros s' msg Hc. eapply client_done_after; [done|].
    destruct Hc as [?|[? _]]; [by left|by right].
Qed.

(** One quiet call, when the jobs so far are as in [s]. *)
Ltac quiet_call lem :=
  first [ eapply wp_quiet_callR; [apply lem|intros ? ? ?|intros; left; by etrans|intros; left; by etrans]
        | eapply wp_quiet_call; [apply lem|intros ? ? ?|intros; left; by etrans] ];
  match goal with
  | H1 : same_jobs ?s ?s1, H2 : same_jobs ?s1 ?s2 |- _ =>
      pose proof (transitivity H1 H2); clear H1 H2
  end.

Lemma wp_zk_proof_local f pid job k s s1 :
  same_jobs s s1 -> wp f (zk_proof_local pid job k) (client_done k s) s1.
Proof.
  intros Hs. unfold zk_proof_local.
  quiet_call quiet_get_zk_client_local. quiet_call quiet_get_proof_setup_local.
  quiet_call quiet_prepare_stdin.
  cbn [op bind wp]. split; [done|]. intros s2 r [-> _]. by apply wp_client_tail.
Qed.

Lemma wp_zk_proof_remote f self pid job k s s1 :
  same_jobs s s1 -> wp f (zk_proof_remote self pid job k) (client_done k s) s1.
Proof.
  intros Hs. unfold zk_proof_remote.
  quiet_call quiet_get_zk_client_remote. quiet_call quiet_get_proof_setup_remote.
  quiet_call quiet_env_expect. rewrite bindR_ret. destruct (from_str_name _); [|by left].
  quiet_call quiet_prepare_stdin.
  cbn [op bind wp]. split; [done|]. intros s2 r [-> _]. by apply wp_client_tail.
Qed.

Lemma wp_wait_for_zk_proof f job k id s s1 :
  same_jobs s s1 -> wp f (wait_for_zk_proof job k id) (client_done k s) s1.
Proof.
  intros Hs. unfold wait_for_zk_proof. quiet_call quiet_get_zk_client_remote.
  cbn [op bind wp]. split; [done|]. intros s2 r [-> _]. by apply wp_client_tail.
Qed.

Lemma client_done_moves {A} k st s s' (o : outcome (result A PdaRunnerError)) :
  exclusive s -> job_state s k = JQueued st -> client_done k s s' o -> moves k s s'.
Proof.
  intros Hx Hk [Hs|[(e & retry & Hr & Hf) _]]; [by apply moves_same|].
  eapply moves_finalized; [done|done| |].
  - by destruct Hr as [-> | ->].
  - rewrite Hk. by apply step_failed.
Qed.

(** What follows a successful call: the transaction that records it. *)
Lemma wp_record_finished f k st p s s1 :
  exclusive s -> same_jobs s s1 -> job_state s k = JQueued st ->
  job_step (JQueued st) (JDone p) ->
  wp f (let? _ := finalize_job k (ZkProofFinished p) in Ret (Ok tt))
    (fun s' _ => moves k s s') s1.
Proof.
  intros Hx Hs Hk Hstep.
  assert (forall s' (o : outcome (result unit PdaRunnerError)),
    happened (finalized k (ZkProofFinished p)) s1 s' o -> moves k s s') as Hh.
  { intros s' o [Hf|[Hs' _]]; [|apply moves_same; [done|by etrans]].
    eapply moves_finalized; [done|by eapply finalized_after|done|by rewrite Hk]. }
  eapply wp_callR; [apply wp_finalize_job|..]; intros s' ? Ho; by eapply Hh.
Qed.

Lemma wp_record_accepted f k id job s s1 :
  exclusive s -> same_jobs s s1 -> job_state s k = JQueued RemoteZkProofRequesting ->
  wp f (let? _ := send_job_with_new_status k (RemoteZkProofPending id) job in Ret (Ok tt))
    (fun s' _ => moves k s s') s1.
Proof.
  intros Hx Hs Hk.
  assert (forall s' (o : outcome (result unit PdaRunnerError)),
    happened (queued k (RemoteZkProofPending id)) s1 s' o -> moves k s s') as Hh.
  { intros s' o [[(v & Hv & Hq) Hf]|[Hs' _]]; [|apply moves_same; [done|by etrans]].
    destruct Hs as [Hq0 Hf0 _ _ _].
    apply (moves_queued _ (RemoteZkProofPending id)); [done| |done|].
    - split; [exists v; split; congruence|congruence].
    - rewrite Hk. apply step_accepted. }
  eapply wp_callR; [apply wp_send_job|..]; intros s' ? Ho; by eapply Hh.
Qed.

Lemma wp_prove f self job k s :
  inv E s -> exclusive s -> serialize (anchor job) = Ok k ->
  wp f (prove self job) (fun s' _ => moves k s s') s.
Proof.
  intros Hi Hx Hk. unfold prove. rewrite Hk. cbn [result_map_err]. rewrite bindR_ret.
  assert (moves k s s) as Hm by (by apply moves_same).
  cbn [bindR map_err op bind wp]. split; [done|].
  intros s' x [-> [->|[_ Hx']]]; [|by destruct x].
  cbn [result_map_err bind]. destruct (tree s QueueDb !! k) as [b|] eqn:Hb; [|done].
  destruct (inv_entries E s Hi QueueDb k b Hb) as (_ & st & Hst & Hok).
  rewrite Hst. cbn [result_map_err]. simpl in Hb.
  pose proof (queue_ok_pending _ _ _ Hok) as Hp.
  pose proof (job_state_queued _ _ _ _ Hx Hb Hst Hp) as Hq.
  destruct st as [| |id| |]; try done.
  - eapply wp_quiet_call; [apply quiet_get_program_id| |intros; by apply moves_same].
    intros s1 pid Hs1. eapply wp_call; [by apply wp_zk_proof_local|..].
    + intros s2 [p|e] Hc; [|by eapply client_done_moves].
      destruct Hc as [Hs2|[_ Hc]]; [|by specialize (Hc p)].
      eapply wp_record_finished; eauto using step_proved_local.
    + intros s2 msg Hc. by eapply client_done_moves.
  - eapply wp_quiet_call; [apply quiet_get_program_id| |intros; by apply moves_same].
    intros s1 pid Hs1. eapply wp_call; [by apply wp_zk_proof_remote|..].
    + intros s2 [id|e] Hc; [|by eapply client_done_moves].
      destruct Hc as [Hs2|[_ Hc]]; [|by specialize (Hc id)].
      by apply wp_record_accepted.
    + intros s2 msg Hc. by eapply client_done_moves.
  - eapply wp_call; [by apply wp_wait_for_zk_proof|..].
    + intros s2 [p|e] Hc; [|by eapply client_done_moves].
      destruct Hc as [Hs2|[_ Hc]]; [|by specialize (Hc p)].
      eapply wp_record_finished; eauto using step_proved_remote.
    + intros s2 msg Hc. by eapply client_done_moves.
Qed.
End Refinement.

(** ** The request *)

Section Request.
  Context `{Sp1Facts, !RunnerCodecs} (E : gmap string string).

(** The status a new job starts in, by the [SP1_PROVER] variable. *)
Definition initial_status (prover : string) : option JobStatus :=
  if decide (prover = "network") then Some RemoteZkProofRequesting
  else if decide (prover ∈ ["cuda"; "cpu"; "mock"]) then Some LocalZkProofPending
  else None.

(** The job entered the queue with status [st] and was sent to the worker. *)
Definition enqueued (k : bytes) (st : JobStatus) (job : Job) (s s' : Store) : Prop :=
  queued k st s s' /\ inbox s' = (inbox s ++ [Some job])%list /\ inbox_open s' = inbox_open s.

(** What a request answers and does, by the state of its job. *)
Definition request_post (job : Job) (k : bytes) (s s' : Store)
    (r : outcome (result (option SP1ProofWithPublicValues) PdaRunnerError)) : Prop :=
  match job_state s k with
  | JDone p => r = Returned (Ok (Some p)) /\ same_jobs s s'
  | JFailed e None => r = Returned (Err (InternalError (PdaRunnerError_fmt e))) /\ same_jobs s s'
  | JFailed e (Some st) =>
      r = Returned (Err (InternalError ("Retrying! Previous error: " +:+ PdaRunnerError_fmt e))) /\
      enqueued k st job s s'
  | JQueued _ => r = Returned (Ok None) /\ same_jobs s s'
  | JNone =>
      match E !! "SP1_PROVER" with
      | Some prover =>
          match initial_status prover with
          | Some st => r = Returned (Ok None) /\ enqueued k st job s s'
          | None => r = Returned (Err (InternalError ("SP1_PROVER is unkown: " +:+ prover))) /\
                    same_jobs s s'
          end
      | None => (exists msg, r = Panicked msg) /\ same_jobs s s'
      end
  | JInvalid => False
  end.

Lemma initial_status_code prover :
  (if String.eqb prover "network" then Ok RemoteZkProofRequesting
   else if String.eqb prover "cuda" || String.eqb prover "cpu" || String.eqb prover "mock"
        then Ok LocalZkProofPending
        else Err (InternalError ("SP1_PROVER is unkown: " +:+ prover)))
  = match initial_status prover with
    | Some st => Ok st
    | None => Err (InternalError ("SP1_PROVER is unkown: " +:+ prover))
    end.
Proof.
  unfold initial_status.
  destruct (String.eqb_spec prover "network") as [->|Hn1]; [by rewrite decide_True|].
  rewrite (decide_False (P := prover = "network")) by done.
  destruct (String.eqb_spec prover "cuda") as [->|Hn2]; [reflexivity|].
  destruct (String.eqb_spec prover "cpu") as [->|Hn3]; [reflexivity|].
  destruct (String.eqb_spec prover "mock") as [->|Hn4]; [reflexivity|].
  rewrite decide_False; [reflexivity|]. rewrite !elem_of_cons, elem_of_nil. tauto.
Qed.

Lemma initial_status_pending prover st : initial_status prover = Some st -> is_pending st = true.
Proof. unfold initial_status. repeat case_decide; by intros [= <-]. Qed.

(** The reading of a finished entry agrees with the abstract state. *)
Lemma job_state_finished s k b st :
  inv E s -> finished_db s !! k = Some b -> deserialize b = Ok st ->
  job_state s k = state_of st /\ finished_ok E k st.
Proof.
  intros Hi Hb Hst. destruct (inv_entries E s Hi FinishedDb k b Hb) as (st' & Hst' & Hok).
  rewrite Hst in Hst'. injection Hst' as <-. split; [|done].
  unfold job_state. rewrite Hb, Hst. by destruct st.
Qed.

Lemma job_state_pending s k b st :
  inv E s -> finished_db s !! k = None -> queue_db s !! k = Some b -> deserialize b = Ok st ->
  job_state s k = JQueued st /\ is_pending st = true.
Proof.
  intros Hi Hf Hb Hst. destruct (inv_entries E s Hi QueueDb k b Hb) as (_ & st' & Hst' & Hok).
  rewrite Hst in Hst'. injection Hst' as <-. apply queue_ok_pending in Hok. split; [|done].
  unfold job_state. rewrite Hf, Hb, Hst. by destruct st.
Qed.

Lemma wp_send_job_healthy f k st job s `{!BincodeTotal JobStatus} :
  io_errors f = false -> inbox_open s = true ->
  wp f (send_job_with_new_status k st job)
    (fun s' r => r = Returned (Ok tt) /\ enqueued k st job s s') s.
Proof.
  intros Hio Ho. unfold send_job_with_new_status.
  destruct (serialize_total st) as [v Ev]. rewrite Ev.
  cbn. split; [done|]. intros s' x [[-> ->]|[[? _] _]]; [|congruence].
  cbn. split; [done|]. intros s' x. cbn. rewrite Ho. intros [-> ->].
  split; [done|]. split; [split; [by exists v|done]|done].
Qed.

(** Whatever fails, a request makes at most one step of its own job. *)
Lemma wp_request_moves f job k s :
  inv E s -> exclusive s -> serialize (anchor job) = Ok k ->
  wp f (get_verifiable_encryption job) (fun s' _ => moves k s s') s.
Proof.
  intros Hi Hx Hk. unfold get_verifiable_encryption. rewrite Hk. wp_step.
  assert (moves k s s) as Hm by (by apply moves_same).
  wp_step. intros [-> [->|[_ Hr]]]; [|by destruct x]. cbn [result_map_err].
  destruct (tree s FinishedDb !! k) as [b|] eqn:Hf; simpl in Hf.
  - destruct (inv_entries E s Hi FinishedDb k b Hf) as (st & Hst & _).
    destruct (job_state_finished s k b st Hi Hf Hst) as [Hjs Hok]. rewrite Hst. wp_step.
    destruct st as [| |id|p|e [retry|]]; try done. simpl in Hjs.
    assert (forall s' (o : outcome (result unit PdaRunnerError)),
      happened (queued k retry) s s' o -> moves k s s') as Hh.
    { intros s' o [Hq|[Hs _]]; [|by apply moves_same].
      apply (moves_queued _ retry); [done|done|by destruct retry|].
      rewrite Hjs. apply step_retry. }
    eapply wp_call; [apply wp_send_job| |intros s' msg; apply Hh].
    intros s' [u|e'] Ho; by eapply Hh.
  - wp_step. intros [-> [->|[_ Hr]]]; [|by destruct x]. cbn [result_map_err].
    destruct (tree s QueueDb !! k) as [b|] eqn:Hq; simpl in Hq.
    + wp_step. destruct (deserialize b) as [[]|]; done.
    + assert (job_state s k = JNone) as Hjs by (unfold job_state; by rewrite Hf, Hq).
      apply wp_quiet_call; [apply quiet_env_expect| |intros; by apply moves_same].
      intros s1 prover Hs. wp_step. rewrite initial_status_code.
      destruct (initial_status prover) as [st|] eqn:Hst; [|by apply moves_same].
      wp_step. destruct (serialize st) as [v|e] eqn:Ev; [|by apply moves_same].
      assert (forall s', queue_db s' = <[k := v]> (queue_db s1) ->
        finished_db s' = finished_db s1 -> moves k s s') as Hh.
      { intros s' Hq' Hf'. destruct Hs as [Hsq Hsf _ _ _].
        apply (moves_queued _ st); [done| |by eapply initial_status_pending|].
        - split; [exists v; split; congruence|]. rewrite Hf', Hsf. by rewrite delete_id by done.
        - rewrite Hjs. unfold initial_status in Hst. repeat case_decide; simplify_eq; constructor. }
      cbn [result_map_err]. wp_step. intros [[-> ->]|[[_ Hr] [-> | ->]]].
      * cbn [result_map_err]. wp_step. simpl.
        destruct (inbox_open s1); intros [Hr ->]; destruct x; simpl; by apply Hh.
      * destruct x; [done|]. by apply moves_same.
      * destruct x; [done|]. by apply Hh.
Qed.

(** In a healthy environment a request does what [request_post] says. *)
Lemma wp_request f job k s `{!BincodeTotal JobStatus} :
  io_errors f = false -> inbox_open s = true -> inv E s ->
  serialize (anchor job) = Ok k ->
  wp f (get_verifiable_encryption job) (request_post job k s) s.
Proof.
  intros Hio Ho Hi Hk. unfold get_verifiable_encryption. rewrite Hk. wp_step. wp_step.
  intros [-> [->|[? _]]]; [|congruence]. cbn [result_map_err].
  destruct (tree s FinishedDb !! k) as [b|] eqn:Hf; simpl in Hf.
  - destruct (inv_entries E s Hi FinishedDb k b Hf) as (st & Hst & _).
    destruct (job_state_finished s k b st Hi Hf Hst) as [Hjs Hok].
    rewrite Hst. wp_step. unfold request_post. rewrite Hjs.
    destruct st as [| |id|p|e [retry|]]; simpl; try done.
    eapply wp_call; [by apply wp_send_job_healthy| |by intros ?? [? _]].
    intros s' a [[= ->] He]. done.
  - wp_step. intros [-> [->|[? _]]]; [|congruence]. cbn [result_map_err].
    destruct (tree s QueueDb !! k) as [b|] eqn:Hq; simpl in Hq.
    + destruct (inv_entries E s Hi QueueDb k b Hq) as (_ & st & Hst & _).
      destruct (job_state_pending s k b st Hi Hf Hq Hst) as [Hjs Hp].
      rewrite Hst. wp_step. unfold request_post. rewrite Hjs. by destruct st.
    + assert (job_state s k = JNone) as Hjs by (unfold job_state; by rewrite Hf, Hq).
      unfold request_post. rewrite Hjs.
      eapply (wp_call _ _ _ (fun s' r => s' = s /\
        match E !! "SP1_PROVER" with
        | Some v => r = Returned v
        | None => exists msg, r = Panicked msg
        end)).
      { unfold env_expect. wp_step. intros [-> Hx]. rewrite (inv_env E s Hi) in Hx.
        destruct (E !! _); [by subst|]. destruct x; [done|]. by split; [|eexists]. }
      2:{ intros s' msg [-> Hr]. destruct (E !! _); [done|]. by split; [eexists|]. }
      intros s' prover [-> Hr]. destruct (E !! "SP1_PROVER"); [|by destruct Hr].
      injection Hr as <-. wp_step. rewrite initial_status_code.
      destruct (initial_status prover) as [st|]; [|done].
      destruct (serialize_total st) as [v Ev]. rewrite Ev. wp_step. wp_step.
      intros [[-> ->]|[[? _] _]]; [|congruence]. cbn [result_map_err]. wp_step.
      simpl. rewrite Ho. intros [-> ->]. split; [done|].
      split; [|done]. split; [by exists v|]. simpl. by rewrite delete_id by done.
Qed.
End Request.

(** ** Client errors *)

Section ClientErrors.
  Context `{Sp1Facts, !BincodeTotal JobStatus}.

(** The status to retry from after an error of the SP1 client. *)
Definition retry_after (err : SP1NetworkError) : option JobStatus :=
  match err with
  | SimulationFailed | RequestUnexecutable _ | RequestUnfulfillable _ => None
  | RequestTimedOut _ | RpcError _ | Other _ => Some RemoteZkProofRequesting
  end.

Lemma wp_client_error f err job k s :
  io_errors f = false ->
  wp f (handle_zk_client_error err job k)
    (fun s' r => exists e, r = Returned e /\ finalized k (Failed e (retry_after err)) s s') s.
Proof.
  intros Hio.
  assert (forall e retry (r : result unit PdaRunnerError -> prog PdaRunnerError), r (Ok tt) = Ret e ->
    wp f (bind (finalize_job k (Failed e retry)) r)
      (fun s' r => exists e, r = Returned e /\ finalized k (Failed e retry) s s') s) as Hw.
  { intros e retry r Hr. unfold finalize_job. destruct (serialize_total (Failed e retry)) as [v Hv].
    rewrite Hv. cbn. split; [done|]. intros s' x [[-> ->]|[[? _] _]]; [|congruence].
    cbn. rewrite Hr. exists e. split; [done|]. by split; [exists v|..]. }
  unfold handle_zk_client_error. destruct err; cbv zeta; by apply Hw.
Qed.
End ClientErrors.

(** ** Claims *)

Section LifecycleClaims.
  Context `{Sp1Facts, !RunnerCodecs} {Ev : Env} {f : Faults} {L : EnvLaws f}.
  Context (self : PdaRunner) (E : gmap string string).

(** A handler the service runs for a job. *)
Inductive Command : Type :=
| Ask (job : Job)
| Work (job : Job).

Definition run_command (w : World) (c : Command) : World :=
  match c with
  | Ask job => fst (run (get_verifiable_encryption job) w)
  | Work job => fst (run (prove self job) w)
  end.

Definition command_job (c : Command) : Job := match c with Ask job | Work job => job end.

(** A client that asks [n] times. *)
Fixpoint ask_times (n : nat) (job : Job) : prog (list (result (option SP1ProofWithPublicValues) PdaRunnerError)) :=
  match n with
  | O => Ret []
  | S m =>
      let* r := get_verifiable_encryption job in
      let* rs := ask_times m job in
      Ret (r :: rs)
  end.

(** C11: functional correctness of a request on every branch. With a healthy
    database, the answer and the effect are those of [request_post]: a proof
    or a permanent failure is returned and nothing changes, a retryable
    failure is reported while the job goes back to the queue and to the worker
    exactly once, a pending job is left alone, and a new job enters the queue
    with the status its prover asks for, or is refused for an unknown prover. *)
Theorem request_spec w job k `{!BincodeTotal JobStatus} :
  io_errors f = false -> inbox_open (view w) = true -> inv E (view w) ->
  serialize (anchor job) = Ok k ->
  request_post E job k (view w) (view (fst (run (get_verifiable_encryption job) w)))
    (snd (run (get_verifiable_encryption job) w)).
Proof. intros. by apply (wp_run f _ _ w), wp_request. Qed.

(** C12: refinement. A request, whatever fails under it, makes at most one step
    of the abstract machine for its own job, changes no other job, and leaves
    no key both queued and finished. *)
Theorem request_refines w job k :
  inv E (view w) -> exclusive (view w) -> serialize (anchor job) = Ok k ->
  moves k (view w) (view (fst (run (get_verifiable_encryption job) w))).
Proof. intros. by apply (wp_run f _ (fun s' _ => moves k (view w) s') w), (wp_request_moves E). Qed.

(** C13: refinement. A worker step, whatever fails under it, makes at most one
    step of the abstract machine for its own job, changes no other job, and
    leaves no key both queued and finished. *)
Theorem prove_refines w job k :
  inv E (view w) -> exclusive (view w) -> serialize (anchor job) = Ok k ->
  moves k (view w) (view (fst (run (prove self job) w))).
Proof. intros. by apply (wp_run f _ (fun s' _ => moves k (view w) s') w), (wp_prove E). Qed.

(** C20: error. An error of the SP1 client's own type is never lost: the job
    leaves the queue and its failure is stored, with the text that is reported. A
    failed simulation, an unexecutable and an unfulfillable request are permanent;
    a timeout, an RPC error and any other are retried when the client asks again,
    through the prover network whichever prover the job was started with. *)
Theorem client_error_stored w err job k `{!BincodeTotal JobStatus} :
  io_errors f = false ->
  let r := run (handle_zk_client_error err job k) w in
  exists e, snd r = Returned e /\
    finalized k (Failed e (retry_after err)) (view w) (view (fst r)) /\
    job_state (view (fst r)) k = JFailed e (retry_after err).
Proof.
  intros Hio r. destruct (wp_run f _ _ w (wp_client_error f err job k (view w) Hio))
    as (e & Hr & Hf). exists e. split_and!; [done..|].
  apply (finalized_state _ (Failed e (retry_after err)) (view w)); [done|]. by destruct err.
Qed.

Lemma run_command_inv w c :
  inv E (view w) -> anchored (command_job c) -> inv E (view (run_command w c)).
Proof.
  intros Hi Hj. destruct c as [job|job]; simpl in *.
  - apply (wp_run f _ (fun s' _ => inv E s') w). eapply wp_mono;
      [|by eapply (safe_wp _ (fun _ => True)), safe_get_verifiable_encryption]. naive_solver.
  - apply (wp_run f _ (fun s' _ => inv E s') w). eapply wp_mono;
      [|by eapply (safe_wp _ (fun _ => True)), safe_prove]. naive_solver.
Qed.

Lemma run_command_moves w c k :
  inv E (view w) -> exclusive (view w) -> serialize (anchor (command_job c)) = Ok k ->
  moves k (view w) (view (run_command w c)).
Proof.
  intros Hi Hx Hk. destruct c as [job|job]; simpl in *.
  - by apply (wp_run f _ (fun s' _ => moves k (view w) s') w), (wp_request_moves E).
  - by apply (wp_run f _ (fun s' _ => moves k (view w) s') w), (wp_prove E).
Qed.

Lemma job_step_final js js' : job_step js js' ->
  (forall p, js <> JDone p) /\ (forall e, js <> JFailed e None).
Proof. by inversion 1. Qed.

(** C19: a stored proof is final. However many requests and worker steps run
    one after the other, for this job or any other, and whatever fails under
    them, a job that is done stays done with the same proof. *)
Theorem proof_is_final w cs k p :
  inv E (view w) -> exclusive (view w) ->
  Forall (fun c => anchored (command_job c) /\ exists k', serialize (anchor (command_job c)) = Ok k') cs ->
  job_state (view w) k = JDone p ->
  job_state (view (foldl run_command w cs)) k = JDone p.
Proof.
  revert w. induction cs as [|c cs IH]; intros w Hi Hx Hcs Hd; [done|].
  apply Forall_cons in Hcs as [[Hj [k' Hk']] Hcs]. simpl.
  destruct (run_command_moves w c k' Hi Hx Hk') as (Hx' & Hother & Hown).
  apply IH; [by apply run_command_inv|done|done|].
  destruct (decide (k = k')) as [<-|Hne]; [|by rewrite Hother].
  destruct Hown as [-> |Hs]; [done|]. apply job_step_final in Hs as [Hs _]. by destruct (Hs p).
Qed.

Lemma wp_ask_times n job k st s `{!BincodeTotal JobStatus} :
  io_errors f = false -> inbox_open s = true -> inv E s -> anchored job ->
  serialize (anchor job) = Ok k -> job_state s k = JQueued st ->
  wp f (ask_times n job) (fun s' r => same_jobs s s' /\ r = Returned (replicate n (Ok None))) s.
Proof.
  intros Hio Ho Hi Hj Hk. revert s Ho Hi. induction n as [|n IH]; intros s Ho Hi Hst; [by split|].
  cbn [ask_times]. eapply wp_call.
  - apply wp_and; [by eapply wp_request|].
    by eapply (safe_wp _ (fun _ => True)), safe_get_verifiable_encryption.
  - intros s1 r [Hr [Hi1 _]]. unfold request_post in Hr. rewrite Hst in Hr.
    destruct Hr as [[= ->] Hs].
    eapply wp_call; [apply IH; [by rewrite (same_open _ _ Hs)|done|by rewrite (job_state_same _ _ _ Hs)]|..];
      simpl.
    + intros s2 rs [Hs2 [= ->]]. split; [by etrans|done].
    + by intros s2 msg [_ ?].
  - intros s1 msg [Hr _]. unfold request_post in Hr. rewrite Hst in Hr. by destruct Hr.
Qed.

(** C21: a queued job waits for the worker. However often a client asks, every
    answer is [Ok None] and nothing is sent to the worker again: a job that
    was queued when its task died stays pending until the process restarts. *)
Theorem queued_job_waits w n job k st `{!BincodeTotal JobStatus} :
  io_errors f = false -> inbox_open (view w) = true -> inv E (view w) -> anchored job ->
  serialize (anchor job) = Ok k -> job_state (view w) k = JQueued st ->
  let r := run (ask_times n job) w in
  snd r = Returned (replicate n (Ok None)) /\
  inbox (view (fst r)) = inbox (view w) /\ job_state (view (fst r)) k = JQueued st.
Proof.
  intros Hio Ho Hi Hj Hk Hst r.
  destruct (wp_run f _ _ w (wp_ask_times n job k st (view w) Hio Ho Hi Hj Hk Hst)) as [Hs Hr].
  split; [done|]. split; [apply Hs|]. by rewrite (job_state_same _ _ _ Hs).
Qed.
End LifecycleClaims.
