(* ===== verification/Liveness.v ===== *)
(** Completion. When the database is healthy, the SP1 client answers and the
    environment is configured, a new job reaches a proof: in one worker step
    with a local prover, in two with the prover network. [lucky] is the rule for
    programs that must succeed then. *)

From S2P Require Import Prelude Format ZkvmCommon Guest Job Http Effects Environment.
From S2P Require Import Runner Invariant RunnerSafe Lifecycle.

Open Scope pda_scope.
Local Open Scope string_scope.

Section Lucky.
  Context `{Sp1Facts, !RunnerCodecs, !BincodeTotal SP1ProofSetup} (fl : Faults) (E : gmap string string).
  Context (io_ok : io_errors fl = false) (client_ok : client_errors fl = false).

(** What an answer is when nothing fails, but for what [fl] refuses. *)
Definition op_lucky (o : Op) : ans o -> Prop :=
  match o return ans o -> Prop with
  | SledGet _ _ | SledInsert _ _ _ | SledTransaction _ | SledFlush _ => fun r => is_ok r = true
  | OsRngFill _ => fun r => is_ok r = true
  | SetupLocal _ _ | SetupRemote _ _ => fun r => is_ok r = true
  | BuildLocal => fun r => exists c, r = Returned c
  | BuildRemote => fun r => exists c, r = Returned c
  | ProveLocal _ key stdin => fun r => refusals fl = false -> provable key stdin -> is_ok r = true
  | RequestRemote _ key stdin _ _ _ => fun r => refusals fl = false -> provable key stdin -> is_ok r = true
  | WaitProof _ id _ => fun r => refusals fl = false -> (exists key stdin, requested id key stdin) -> is_ok r = true
  | EnvVar name => fun r => forall v, E !! name = Some v -> r = Ok v
  | Verify _ p key => fun r => verified p key -> is_ok r = true
  | _ => fun _ => True
  end.

(** [p] touches no job, never panics, and ends in [Q] when nothing fails. *)
Fixpoint lucky {A} (p : prog A) (Q : A -> Prop) : Prop :=
  match p with
  | Ret a => Q a
  | Panic _ => False
  | Vis o k => op_quiet o = true /\ op_guar E o /\
      forall x, op_rely E o x -> op_lucky o x -> lucky (k x) Q
  end.

(** The variables the provers read. *)
Record configured : Prop := {
  conf_key : exists text key, E !! "ENCRYPTION_KEY" = Some text /\ from_hex text = Ok key;
  conf_strategy : exists text s,
    E !! "SP1_FULFILLMENT_STRATEGY" = Some text /\ from_str_name text = Some s;
}.

(** An input of the guest for the job. *)
Definition job_stdin (job : Job) (stdin : SP1Stdin) : Prop :=
  exists text key (n : array NONCE_LEN),
    E !! "ENCRYPTION_KEY" = Some text /\ from_hex text = Ok key /\
    stdin = guest_stdin key n (input_data (input job)).

(** The SP1 client takes the job's input, whatever the nonce. *)
Definition accepted (job : Job) : Prop :=
  forall s stdin, setup_ok s -> job_stdin job stdin -> provable (pk s) stdin.

(** An SP1 client without faults answers what it serves. *)
Lemma client_served {A Er} (r : result A Er) (served : Prop) :
  (is_ok r = false -> client_errors fl = true \/ ~ served) -> served -> is_ok r = true.
Proof. intros Hr Hs. destruct r; [done|]. destruct (Hr eq_refl); [congruence|done]. Qed.

Lemma prover_served {A Er} (r : result A Er) (served : Prop) :
  (is_ok r = false -> client_errors fl = true \/ refusals fl = true \/ ~ served) ->
  refusals fl = false -> served -> is_ok r = true.
Proof. intros Hr Hf. apply client_served. intros Hx. destruct (Hr Hx) as [?|[?|?]]; [by left|congruence|by right]. Qed.

Lemma op_post_lucky o s s' x : inv E s -> op_post fl o s s' x -> op_lucky o x.
Proof.
  intros Hi. destruct o; simpl; try done.
  - intros [_ [->|[? _]]]; [done|congruence].
  - intros [[-> _]|[[? _] _]]; [done|congruence].
  - intros [[-> _]|[[? _] _]]; [done|congruence].
  - intros [_ [->|[? _]]]; [done|congruence].
  - intros [_ Hx] v Hv. rewrite (inv_env E s Hi), Hv in Hx. done.
  - intros [_ Hx]. by apply (client_served x True).
  - intros [_ Hx]. by apply Hx.
  - intros [_ Hx]. by apply Hx.
  - intros (_ & Hx & _). by apply (client_served x True).
  - intros (_ & Hx & _). by apply (client_served x True).
  - intros (_ & Hx & _). by apply prover_served.
  - intros (_ & Hx & _). by apply prover_served.
  - intros (_ & Hx & _). by apply prover_served.
  - intros (_ & Hx & _). by apply client_served.
Qed.

Lemma lucky_wp {A} (p : prog A) Q s0 s :
  inv E s -> same_jobs s0 s -> lucky p Q ->
  wp fl p (fun s' r => inv E s' /\ same_jobs s0 s' /\ exists a, r = Returned a /\ Q a) s.
Proof.
  revert s. induction p as [a|msg|o k IH]; intros s Hi Hs Hp; simpl in *; [eauto|done|].
  destruct Hp as (Ho & Hg & Hk). split; [by destruct o|]. intros s' x Hx.
  destruct (op_inv E _ _ _ _ _ Hi Hg Hx) as [Hi' Hr].
  apply IH; [done|etrans; [done|by eapply op_quiet_same]|].
  apply Hk; [done|by eapply (op_post_lucky _ s)].
Qed.

Lemma lucky_mono {A} (p : prog A) (Q R : A -> Prop) :
  (forall a, Q a -> R a) -> lucky p Q -> lucky p R.
Proof.
  intros HQ. induction p as [a|msg|o k IH]; simpl; auto.
  intros (Ho & Hg & Hk). split_and!; auto.
Qed.

Lemma lucky_call {A B} (p : prog A) (f : A -> prog B) R Q :
  lucky p R -> (forall a, R a -> lucky (f a) Q) -> lucky (bind p f) Q.
Proof.
  intros Hp Hf. induction p as [a|msg|o k IH]; simpl in *; auto.
  destruct Hp as (Ho & Hg & Hk). split_and!; auto.
Qed.

Lemma lucky_callR {A B Er} (p : prog (result A Er)) (f : A -> prog (result B Er))
    (R : A -> Prop) Q :
  lucky p (fun r => exists a, r = Ok a /\ R a) ->
  (forall a, R a -> lucky (f a) Q) -> lucky (bindR p f) Q.
Proof. intros Hp Hf. eapply lucky_call; [exact Hp|]. intros r (a & -> & Ha). auto. Qed.

(** Calling a program that succeeds, when the jobs so far are as in [s0]. *)
Lemma wp_lucky_call {A B} (p : prog A) (g : A -> prog B) R Q s0 s :
  inv E s -> same_jobs s0 s -> lucky p R ->
  (forall s' a, inv E s' -> same_jobs s0 s' -> R a -> wp fl (g a) Q s') ->
  wp fl (bind p g) Q s.
Proof.
  intros Hi Hs Hp Hg. eapply wp_call; [by eapply lucky_wp|..]; simpl.
  - intros s' a (Hi' & Hs' & ? & [= <-] & Ha). by apply Hg.
  - by intros s' msg (_ & _ & ? & ? & _).
Qed.

Lemma lucky_op (o : Op) {B} (f : ans o -> prog B) Q :
  op_quiet o = true -> op_guar E o ->
  (forall x, op_rely E o x -> op_lucky o x -> lucky (f x) Q) -> lucky (bind (op o) f) Q.
Proof. by intros. Qed.

Lemma lucky_bindR_map_err {A B Er F} (g : Er -> F) (p : prog (result A Er))
    (f : A -> prog (result B F)) Q :
  lucky (bind p (fun r => match result_map_err g r with
                          | Ok a => f a
                          | Err e => Ret (Err e)
                          end)) Q ->
  lucky (bindR (map_err g p) f) Q.
Proof.
  unfold bindR, map_err. induction p as [r|msg|o k IH]; simpl; auto.
  intros (Hb & Hg & Hk). split_and!; auto.
Qed.

Lemma lucky_get_or_init c init (Q : cell_type c -> Prop) :
  c <> CHACHA_SETUP -> (forall v, Q v) -> lucky init (fun _ => True) ->
  lucky (get_or_init c init) Q.
Proof.
  intros Hc HQ Hi. unfold get_or_init. apply lucky_op; [done..|]. intros [v|] _ _; [apply HQ|].
  eapply lucky_call; [exact Hi|]. intros v _. split; [done|]. split; [by destruct c|].
  intros; apply HQ.
Qed.

Lemma lucky_env_expect name msg v Q :
  E !! name = Some v -> Q v -> lucky (env_expect name msg) Q.
Proof.
  intros Hv HQ. unfold env_expect. apply lucky_op; [done..|]. intros x _ Hx.
  rewrite (Hx v Hv). done.
Qed.

Lemma lucky_get_zk_client_local : lucky get_zk_client_local (fun _ => True).
Proof. apply lucky_get_or_init; [done..|]. apply lucky_op; [done..|]. by intros x _ [c ->]. Qed.

Lemma lucky_get_zk_client_remote : lucky get_zk_client_remote (fun _ => True).
Proof. apply lucky_get_or_init; [done..|]. apply lucky_op; [done..|]. by intros x _ [c ->]. Qed.

Lemma lucky_get_program_id : lucky get_program_id (fun _ => True).
Proof. by apply lucky_get_or_init. Qed.

(** Either setup: the database entry, if any, is readable by the invariant. *)
Lemma lucky_init_proof_setup id setup_op :
  lucky setup_op (fun r => exists keys, r = Ok keys /\ setup_of CHACHA_ELF keys) ->
  lucky (init_proof_setup id setup_op) (fun r => exists s, r = Ok s /\ setup_ok s).
Proof.
  intros Hop. unfold init_proof_setup. apply lucky_bindR_map_err.
  apply (lucky_op (SledGet ConfigDb id)); [done..|]. intros [[b|]|e] Hx' Hl; [| |done].
  - destruct (Hx' b eq_refl) as (s & Hs & Hok). simpl. rewrite Hs. by exists s.
  - cbn [result_map_err]. apply lucky_bindR_map_err. eapply lucky_call; [exact Hop|].
    intros r (keys & -> & Hk). cbn [result_map_err].
    assert (setup_ok (SP1ProofSetup_from keys)) as Hok by (by destruct keys).
    destruct (serialize_total (SP1ProofSetup_from keys)) as [v Hv].
    rewrite Hv. cbn [result_map_err]. rewrite bindR_ret. apply deserialize_serialize in Hv.
    apply lucky_bindR_map_err.
    apply (lucky_op (SledInsert ConfigDb id v)); [done|by eexists|].
    intros [[]|e] _ Hl'; [|done]. by eexists.
Qed.

Lemma lucky_get_or_try_init_setup id setup_op :
  lucky setup_op (fun r => exists keys, r = Ok keys /\ setup_of CHACHA_ELF keys) ->
  lucky (get_or_try_init CHACHA_SETUP (init_proof_setup id setup_op))
    (fun r => exists s, r = Ok s /\ setup_ok s).
Proof.
  intros Hop. unfold get_or_try_init. apply lucky_op; [done..|].
  intros [s|] Hx _; [exists s; split; [done|by apply Hx]|].
  eapply (lucky_callR _ _ setup_ok); [by apply lucky_init_proof_setup|].
  intros s Hs. apply (lucky_op (CellInit CHACHA_SETUP s)); [done..|]. intros s' Hs' _. by exists s'.
Qed.

Lemma lucky_setup_local c :
  lucky (op (SetupLocal c CHACHA_ELF)) (fun r => exists keys, r = Ok keys /\ setup_of CHACHA_ELF keys).
Proof.
  split; [done|]. split; [done|].
  intros [keys|e] Hx Hl; [|done]. exists keys. split; [done|by apply Hx].
Qed.

Lemma lucky_get_proof_setup_local id c :
  lucky (get_proof_setup_local id c) (fun r => exists s, r = Ok s /\ setup_ok s).
Proof. apply lucky_get_or_try_init_setup, lucky_setup_local. Qed.

Lemma lucky_get_proof_setup_remote id c :
  lucky (get_proof_setup_remote id c) (fun r => exists s, r = Ok s /\ setup_ok s).
Proof.
  apply lucky_get_or_try_init_setup. split; [done|]. split; [done|].
  intros [keys|e] Hx Hl; [|done]. exists keys. split; [done|by apply Hx].
Qed.

Lemma lucky_prepare_stdin job : configured -> lucky (prepare_stdin job) (job_stdin job).
Proof.
  intros [(text & key & Ht & Hk) _]. unfold prepare_stdin.
  apply (lucky_call _ _ (eq key)).
  - unfold read_encryption_key. eapply lucky_call; [by eapply (lucky_env_expect _ _ _ (eq text))|].
    intros ? <-. by rewrite Hk.
  - intros ? <-. apply (lucky_call _ _ (fun _ => True)).
    + unfold util_random_nonce. apply lucky_op; [done..|]. by intros [n|e].
    + intros n _. by exists text, key, n.
Qed.

Lemma lucky_zk_proof_local pid job k :
  configured -> accepted job -> refusals fl = false ->
  lucky (zk_proof_local pid job k) (fun r => exists p, r = Ok p /\ True).
Proof.
  intros Hc Ha Hf. unfold zk_proof_local.
  eapply lucky_call; [apply lucky_get_zk_client_local|]. intros client _.
  eapply lucky_callR; [apply lucky_get_proof_setup_local|]. intros s Hs.
  eapply lucky_call; [by apply lucky_prepare_stdin|]. intros stdin Hi.
  apply (lucky_op (ProveLocal client (pk s) stdin)); [done..|]. intros [p|e] _ Hl; [by exists p|].
  by specialize (Hl Hf (Ha s stdin Hs Hi)).
Qed.

Lemma lucky_zk_proof_remote self pid job k :
  configured -> accepted job -> refusals fl = false ->
  lucky (zk_proof_remote self pid job k) (fun r => exists id, r = Ok id /\ True).
Proof.
  intros Hc Ha Hf. unfold zk_proof_remote.
  eapply lucky_call; [apply lucky_get_zk_client_remote|]. intros client _.
  eapply lucky_callR; [apply lucky_get_proof_setup_remote|]. intros s Hs.
  destruct (conf_strategy Hc) as (text & strategy & Ht & Hstr).
  eapply lucky_call; [by eapply (lucky_env_expect _ _ _ (eq text))|]. intros ? <-.
  rewrite Hstr, bindR_ret.
  eapply lucky_call; [by apply lucky_prepare_stdin|]. intros stdin Hi.
  apply (lucky_op (RequestRemote client (pk s) stdin strategy false
    (zk_proof_gen_timeout_remote (config self)))); [done..|].
  intros [p|e] _ Hl; [by exists p|]. by specialize (Hl Hf (Ha s stdin Hs Hi)).
Qed.

Lemma lucky_wait_for_zk_proof job k id :
  queue_ok E k (RemoteZkProofPending id) -> refusals fl = false ->
  lucky (wait_for_zk_proof job k id) (fun r => exists p, r = Ok p /\ True).
Proof.
  intros (s & stdin & _ & Hr & _) Hf. unfold wait_for_zk_proof.
  eapply lucky_call; [apply lucky_get_zk_client_remote|]. intros client _.
  apply (lucky_op (WaitProof client id None)); [done..|]. intros [p|e] _ Hl; [by exists p|].
  simpl in Hl. discriminate Hl; [done|]. by exists (pk s), stdin.
Qed.
End Lucky.

Section Completion.
  Context `{Sp1Facts, !RunnerCodecs, !BincodeTotal SP1ProofSetup, !BincodeTotal JobStatus}.
  Context (E : gmap string string) (self : PdaRunner).

(** A state the service works in. *)
Record healthy (s : Store) : Prop := {
  healthy_inv : inv E s;
  healthy_exclusive : exclusive s;
  healthy_open : inbox_open s = true;
}.

Lemma job_state_queued_inv s k st :
  job_state s k = JQueued st ->
  exists b, queue_db s !! k = Some b /\ deserialize b = Ok st /\ is_pending st = true.
Proof.
  unfold job_state. destruct (finished_db s !! k) as [b|].
  - by destruct (deserialize b) as [[]|].
  - destruct (queue_db s !! k) as [b|]; [|done]. intros Hb. exists b.
    by destruct (deserialize b) as [[]|]; simplify_eq.
Qed.

Lemma wp_finalize_job_healthy k p s :
  wp no_faults (finalize_job k (ZkProofFinished p))
    (fun s' r => r = Returned (Ok tt) /\ finalized k (ZkProofFinished p) s s' /\
                 inbox_open s' = inbox_open s) s.
Proof.
  unfold finalize_job. destruct (serialize_total (ZkProofFinished p)) as [v Hv].
  rewrite Hv. cbn. split; [done|]. intros s' x [[-> ->]|[[? _] _]]; [|done].
  split; [done|]. split; [|done]. split; [by exists v|done..].
Qed.

(** Recording a proof, after quiet work. *)
Lemma wp_record_healthy k p s s1 :
  same_jobs s s1 ->
  wp no_faults (let? _ := finalize_job k (ZkProofFinished p) in Ret (Ok tt))
    (fun s' r => r = Returned (Ok tt) /\ job_state s' k = JDone p /\
                 inbox_open s' = inbox_open s) s1.
Proof.
  intros Hs. eapply wp_callR; [apply wp_finalize_job_healthy|..]; simpl; try by intros ?? [? _].
  intros s' u (_ & Hf & Ho). split; [done|]. split; [|rewrite Ho; apply Hs].
  by apply (finalized_state _ (ZkProofFinished p) s1).
Qed.

  (** What a worker step does to a queued job when nothing fails. *)
Definition prove_post (k : bytes) (job : Job) (st : JobStatus) (s s' : Store)
      (r : outcome (result unit PdaRunnerError)) : Prop :=
    r = Returned (Ok tt) /\ inbox_open s' = inbox_open s /\
    match st with
    | RemoteZkProofRequesting => exists id, job_state s' k = JQueued (RemoteZkProofPending id) /\
        inbox s' = (inbox s ++ [Some job])%list
    | _ => exists p, job_state s' k = JDone p
    end.

Lemma wp_prove_healthy job k st s :
  configured E -> accepted E job -> healthy s -> serialize (anchor job) = Ok k -> job_state s k = JQueued st ->
  wp no_faults (prove self job) (prove_post k job st s) s.
Proof.
  intros Hc Ha [Hi Hx Ho] Hk Hst. unfold prove. rewrite Hk. wp_step.
  destruct (job_state_queued_inv s k st Hst) as (b & Hb & Hd & Hp).
  wp_step. intros [-> [->|[? _]]]; [|done]. cbn [result_map_err tree]. rewrite Hb.
  cbv beta iota. rewrite Hd. wp_step. destruct st as [| |id| |]; try done.
  - eapply (wp_lucky_call no_faults E eq_refl eq_refl _ _ _ _ s); [done|done|apply lucky_get_program_id|].
    intros s1 pid Hi1 Hs1 _.
    eapply (wp_lucky_call no_faults E eq_refl eq_refl _ _ _ _ s); [done|done|by apply lucky_zk_proof_local|].
    intros s2 r _ Hs2 (p & -> & _). eapply wp_mono; [|by apply (wp_record_healthy _ _ s)].
    intros s' r (-> & Hj & Hin). by split_and!; [..|eexists].
  - eapply (wp_lucky_call no_faults E eq_refl eq_refl _ _ _ _ s); [done|done|apply lucky_get_program_id|].
    intros s1 pid Hi1 Hs1 _.
    eapply (wp_lucky_call no_faults E eq_refl eq_refl _ _ _ _ s); [done|done|by apply lucky_zk_proof_remote|].
    intros s2 r _ Hs2 (id & -> & _).
    eapply wp_callR;
      [apply wp_send_job_healthy; [apply _|done|by rewrite (same_open _ _ Hs2)]|..];
      simpl; try by intros ?? [? _].
    intros s3 u (_ & Hq & Hin & Hop). split; [done|].
    split; [by rewrite Hop, (same_open _ _ Hs2)|]. exists id.
    split; [by eapply queued_state|]. by rewrite Hin, (same_inbox _ _ Hs2).
  - destruct (inv_entries E s Hi QueueDb k b Hb) as (_ & st & Hst' & Hok).
    assert (st = RemoteZkProofPending id) as -> by congruence.
    eapply (wp_lucky_call no_faults E eq_refl eq_refl _ _ _ _ s); [done|done|by apply lucky_wait_for_zk_proof|].
    intros s2 r _ Hs2 (p & -> & _). eapply wp_mono; [|by apply (wp_record_healthy _ _ s)].
    intros s' r (-> & Hj & Hin). by split_and!; [..|eexists].
Qed.

Lemma request_post_open job k s s' r :
  request_post E job k s s' r -> inbox_open s' = inbox_open s.
Proof.
  unfold request_post, enqueued.
  repeat case_match; intros; destruct_and?; try done; by eapply same_open.
Qed.

Lemma wp_healthy_request job k s :
  anchored job -> serialize (anchor job) = Ok k -> healthy s ->
  wp no_faults (get_verifiable_encryption job)
    (fun s' r => healthy s' /\ request_post E job k s s' r) s.
Proof.
  intros Hj Hk [Hi Hx Ho].
  eapply wp_mono; [|apply wp_and; [apply wp_and|]].
  2: eapply (safe_wp _ (fun _ => True)), safe_get_verifiable_encryption; [exact Hi|exact Hj].
  2: eapply wp_request_moves; [exact Hi|exact Hx|exact Hk].
  2: by apply wp_request.
  intros s' r [[[Hi' _] (Hx' & _)] Hr]. split; [|done]. split; [done..|].
  by rewrite (request_post_open _ _ _ _ _ Hr).
Qed.

Lemma wp_healthy_prove job k st s :
  configured E -> accepted E job -> anchored job -> serialize (anchor job) = Ok k -> healthy s ->
  job_state s k = JQueued st ->
  wp no_faults (prove self job) (fun s' r => healthy s' /\ prove_post k job st s s' r) s.
Proof.
  intros Hc Ha Hj Hk Hh Hst. pose proof Hh as [Hi Hx Ho].
  eapply wp_mono; [|apply wp_and; [apply wp_and|]].
  2: eapply (safe_wp _ (fun _ => True)), safe_prove; [exact Hi|exact Hj].
  2: eapply wp_prove; [exact Hi|exact Hx|exact Hk].
  2: by apply wp_prove_healthy.
  intros s' r [[[Hi' _] (Hx' & _)] Hr]. split; [|done]. split; [done..|].
  destruct Hr as (_ & Hop & _). congruence.
Qed.

(** The proof of a job that is done. *)
Lemma done_proof s k p : inv E s -> job_state s k = JDone p -> proof_for E k p.
Proof.
  intros Hi Hst. unfold job_state in Hst. destruct (finished_db s !! k) as [b|] eqn:Hb.
  - destruct (inv_entries E s Hi FinishedDb k b Hb) as (st & Hst' & Hok). rewrite Hst' in Hst.
    by destruct st; simplify_eq.
  - destruct (queue_db s !! k) as [b|]; [|done]. by destruct (deserialize b) as [[]|].
Qed.

(** [n] worker steps for a job. *)
Fixpoint prove_times (n : nat) (job : Job) : prog unit :=
  match n with
  | O => Ret tt
  | S m => prove self job ;; prove_times m job
  end.

(** A client that asks, lets the worker make [n] steps, and asks again. *)
Definition ask_again (n : nat) (job : Job) :=
  get_verifiable_encryption job ;; prove_times n job ;; get_verifiable_encryption job.

(** The worker steps a job needs, by the prover it starts with. *)
Definition prover_steps (prover : string) : option nat :=
  match initial_status prover with
  | Some LocalZkProofPending => Some 1
  | Some _ => Some 2
  | None => None
  end.

Lemma wp_last_request job k p s :
  anchored job -> serialize (anchor job) = Ok k -> healthy s -> job_state s k = JDone p ->
  wp no_faults (get_verifiable_encryption job)
    (fun s' r => healthy s' /\ r = Returned (Ok (Some p)) /\ job_state s' k = JDone p) s.
Proof.
  intros Hj Hk Hh Hd. eapply wp_mono; [|by apply wp_healthy_request].
  intros s' r [Hh' Hr]. unfold request_post in Hr. rewrite Hd in Hr. destruct Hr as [-> Hs].
  split_and!; try done. by rewrite (job_state_same _ _ _ Hs).
Qed.

(** One [prove] of [prove_times], from a queued job. *)
Lemma wp_prove_once {A} job k st (q : prog A) Q s :
  configured E -> accepted E job -> anchored job -> serialize (anchor job) = Ok k -> healthy s ->
  job_state s k = JQueued st ->
  (forall s', healthy s' -> prove_post k job st s s' (Returned (Ok tt)) -> wp no_faults q Q s') ->
  wp no_faults (prove self job ;; q) Q s.
Proof.
  intros Hc Ha Hj Hk Hh Hst Hq. eapply wp_call; [by eapply wp_healthy_prove|..].
  - intros s' r [Hh' Hr]. assert (r = Ok tt) as -> by (by destruct Hr as [[= ->] _]). auto.
  - by intros s' msg [_ [? _]].
Qed.

Lemma wp_ask_again job k prover n s :
  configured E -> accepted E job -> anchored job -> serialize (anchor job) = Ok k -> healthy s ->
  job_state s k = JNone -> E !! "SP1_PROVER" = Some prover -> prover_steps prover = Some n ->
  wp no_faults (ask_again n job)
    (fun s' r => healthy s' /\ exists p, r = Returned (Ok (Some p)) /\ job_state s' k = JDone p) s.
Proof.
  intros Hc Ha Hj Hk Hh Hn Hp Hsteps. unfold ask_again, prover_steps in *.
  eapply wp_call; [by apply wp_healthy_request|..]; unfold request_post; rewrite Hn, Hp.
  2:{ intros s' msg [_ Hr]. destruct (initial_status prover); by destruct Hr as [? _]. }
  intros s1 r [Hh1 Hr]. destruct (initial_status prover) as [st|] eqn:Hst; [|done].
  destruct Hr as (_ & Hq & _). apply queued_state in Hq; [|by eapply initial_status_pending].
  assert (forall p s2, healthy s2 -> job_state s2 k = JDone p ->
    wp no_faults (get_verifiable_encryption job) (fun s' r => healthy s' /\
      exists p, r = Returned (Ok (Some p)) /\ job_state s' k = JDone p) s2) as Hlast.
  { intros p s2 Hh2 Hd. eapply wp_mono; [|by apply (wp_last_request job k p)].
    intros s3 r3 (? & -> & Hd'). split; [done|]. by exists p. }
  assert (st = LocalZkProofPending /\ n = 1 \/ st = RemoteZkProofRequesting /\ n = 2)
    as [[-> ->]|[-> ->]].
  { unfold initial_status in Hst. repeat case_decide; simplify_eq; auto. }
  - cbn [prove_times bind]. eapply wp_bind, wp_prove_once; [done..|].
    intros s2 Hh2 (_ & _ & p & Hd). by eapply Hlast.
  - cbn [prove_times bind]. eapply wp_bind, wp_prove_once; [done..|].
    intros s2 Hh2 (_ & _ & id & Hd & _). eapply wp_prove_once; [done..|].
    intros s3 Hh3 (_ & _ & p & Hd'). by eapply Hlast.
Qed.
End Completion.

Section CompletionClaims.
  Context `{Sp1Laws, !ChaCha20Laws, !ZkvmIoLaws, !BincodeLaws Anchor, !RunnerCodecs}.
  Context `{!BincodeTotal SP1ProofSetup, !BincodeTotal JobStatus}.
  Context {Ev : Env} {L : EnvLaws no_faults} (self : PdaRunner) (E : gmap string string).

(** C9: liveness. With a healthy database, an SP1 client that answers, and the
    variables set, a new job completes: asking once, one worker step with a
    local prover or two with the prover network, and asking again returns a
    proof of the job's own data. *)
Theorem job_completes w job k prover n :
  configured E -> accepted E job -> anchored job -> serialize (anchor job) = Ok k -> healthy E (view w) ->
  job_state (view w) k = JNone -> E !! "SP1_PROVER" = Some prover ->
  prover_steps prover = Some n ->
  exists p, snd (run (ask_again self n job) w) = Returned (Ok (Some p)) /\
    seals E p (sha256 (input_data (input job))).
Proof.
  intros Hc Ha Hj Hk Hh Hn Hp Hs.
  destruct (wp_run no_faults _ _ w (wp_ask_again E self job k prover n (view w) Hc Ha Hj Hk Hh Hn Hp Hs))
    as [[Hi _ _] (p & Hr & Hd)].
  exists p. split; [done|]. eapply proof_for_seals; [by eapply done_proof|done..].
Qed.
End CompletionClaims.
