(* ===== verification/Proxy.v ===== *)
(** service/src/main.rs: the proxy. [handle_request] is the connection's service
    function; [inbound_handler] encrypts the blobs of a [blob.Submit], and
    [outbound_handler] verifies and decrypts what [blob.Get] and [blob.GetAll]
    return. Errors of [anyhow] are kept as their [Display] text. *)

From S2P Require Import Prelude Format ZkvmCommon Guest Job Http Json Effects Runner.

Open Scope pda_scope.
Local Open Scope string_scope.

Section Responses.
  Context `{Platform, Payload}.

(** [new_response_from]. *)
Definition new_response_from (raw_json : bytes) (status : N) : Response bytes :=
  {| resp_status := status; resp_headers := header_empty; resp_rest := response_rest_new;
     resp_body := raw_json |}.

(** [pending_response]. *)
Definition pending_response : Response bytes :=
  let raw_json := json_text
    "{ 'id': 1, 'jsonrpc': '2.0', 'status': '[pda-proxy] Verifiable encryption processing... Call back for result' }" in
  new_response_from (str_bytes raw_json) ACCEPTED.

(** The JSON [internal_error_response] builds. *)
Definition internal_error_json (error : string) : Value :=
  json_object
    [("id", json_number 1);
     ("jsonrpc", json_string "2.0");
     ("error", json_object
        [("message", json_string ("[pda-proxy] internal error: " +:+ error))])].

(** [internal_error_response]. *)
Definition internal_error_response (error : string) : outcome (Response bytes) :=
  letp body_string := expect id "JSON serialization should never fail" (to_vec (internal_error_json error)) in
  Returned (new_response_from body_string INTERNAL_SERVER_ERROR).

(** [bad_auth_response]. *)
Definition bad_auth_response : Response bytes :=
  let raw_json := json_text
    "{ 'id': 1, 'jsonrpc': '2.0', 'error': { 'message': 'Missing or malformed Authorization header. Expected format: Bearer <token>' } }" in
  new_response_from (str_bytes raw_json) UNAUTHORIZED.

End Responses.

Section Inbound.
  Context `{Platform, Payload}.

(** The job of a blob: its data, anchored by the data's SHA-256. *)
Definition blob_job (blob : Blob) : Job :=
  let data := blob_data blob in
  {| anchor := {| anchor_data := sha256 data |}; input := {| input_data := data |} |}.

(** The loop of [inbound_handler] over the blobs of a [blob.Submit]; [None] when
    it bails out at a blob that has no proof yet. *)
Fixpoint encrypt_blobs (blobs : list Blob) : prog (result (option (list Blob)) string) :=
  match blobs with
  | [] => Ret (Ok (Some []))
  | blob :: blobs' =>
      let? maybe_proof := map_err PdaRunnerError_display (get_verifiable_encryption (blob_job blob)) in
      match maybe_proof with
      | Some proof_with_values =>
          let? encrypted_data := Ret (serialize proof_with_values) in
          let? encrypted_blob := Ret (blob_new (blob_namespace blob) encrypted_data) in
          let? rest := encrypt_blobs blobs' in
          Ret (Ok (option_map (cons encrypted_blob) rest))
      | None => Ret (Ok None)
      end
  end.

(** The [blob.Submit] arm: the body with its first parameter replaced by the
    encrypted blobs; [None] when it bails out. *)
Definition intercept_submit (body_json : Value) : prog (result (option Value) string) :=
  match json_get body_json "params" with
  | Some params_raw =>
      match as_array params_raw with
      | None => Ret (Err "Expected 'params' to be a JSON array")
      | Some [] => Ret (Ok (Some body_json))
      | Some (blobs_value :: params') =>
          let? blobs := Ret (blobs_from_value blobs_value) in
          let? encrypted := encrypt_blobs blobs in
          match encrypted with
          | None => Ret (Ok None)
          | Some encrypted_blobs =>
              let? blobs_value' := Ret (blobs_to_value encrypted_blobs) in
              Ret (Ok (Some (json_set body_json "params" (json_array (blobs_value' :: params')))))
          end
      end
  | None => Ret (Ok (Some body_json))
  end.

(** The request that is forwarded: the new body, without [content-length]. *)
Definition rewrite_request {B} (req : Request B) (body : bytes) : Request bytes :=
  {| req_uri := req_uri req; req_headers := header_remove (req_headers req) "content-length";
     req_rest := req_rest req; req_body := body |}.

(** [inbound_handler]: what to forward, and [request_method] as it leaves it. *)
Definition inbound_handler (req : Request Incoming) (request_method : string)
    : prog (result (option (Request bytes)) string * string) :=
  match req_body req with
  | Err e => Ret (Err e, request_method)
  | Ok body_bytes =>
      match from_slice body_bytes with
      | Err e => Ret (Err e, request_method)
      | Ok body_json =>
          let method := json_get body_json "method" ≫= as_str in
          let* mutated :=
            match method with
            | Some m => if String.eqb m "blob.Submit" then intercept_submit body_json
                        else Ret (Ok (Some body_json))
            | None => Ret (Ok (Some body_json))
            end in
          Ret (match mutated with
               | Err e => Err e
               | Ok None => Ok None
               | Ok (Some body_json') =>
                   result_map (fun json_bytes => Some (rewrite_request req json_bytes)) (to_vec body_json')
               end, default request_method method)
      end
  end.

End Inbound.

Section Outbound.
  Context `{Platform, Payload}.

(** [extract_verified_proof_output]. *)
Definition extract_verified_proof_output (proof : SP1ProofWithPublicValues)
    : prog (result ZkvmOutput string) :=
  let* zk_client_local := get_zk_client_local in
  let* program_id := get_program_id in
  let? setup := map_err PdaRunnerError_display (get_proof_setup_local program_id zk_client_local) in
  let? _ := map_err id (op (Verify zk_client_local proof (vk setup))) in
  lift (from_bytes (public_values proof)).

(** [verify_decrypt_blob]. *)
Definition verify_decrypt_blob (blob : Blob) (key : array KEY_LEN) : prog (result Blob string) :=
  let? proof := Ret (deserialize (T := SP1ProofWithPublicValues) (blob_data blob)) in
  let? output := extract_verified_proof_output proof in
  let* buffer := lift (chacha key (nonce output) (ciphertext output)) in
  Ret (Ok (blob_with_data blob buffer)).

(** The loop over the result of [blob.GetAll]. *)
Fixpoint decrypt_values (values : list Value) (key : array KEY_LEN) : prog (result (list Value) string) :=
  match values with
  | [] => Ret (Ok [])
  | blob_val :: values' =>
      let? blob := Ret (blob_from_value blob_val) in
      let? plaintext_only_blob := verify_decrypt_blob blob key in
      let? value := Ret (blob_to_value plaintext_only_blob) in
      let? rest := decrypt_values values' key in
      Ret (Ok (value :: rest))
  end.

(** [try_mutate_response]: the response's JSON with its result decrypted. *)
Definition try_mutate_response (body_json : Value) (request_method : string)
    : prog (result Value string) :=
  match json_get body_json "result" with
  | None => Ret (Err "Missing 'result' field")
  | Some result_raw =>
      let* key := read_encryption_key in
      if String.eqb request_method "blob.Get" then
        let? blob := Ret (blob_from_value result_raw) in
        let? plaintext_only_blob := verify_decrypt_blob blob key in
        let? value := Ret (blob_to_value plaintext_only_blob) in
        Ret (Ok (json_set body_json "result" value))
      else if String.eqb request_method "blob.GetAll" then
        match as_array result_raw with
        | None => Ret (Err "Expected 'result' to be an array")
        | Some original_array =>
            let? plaintext_blobs := decrypt_values original_array key in
            Ret (Ok (json_set body_json "result" (json_array plaintext_blobs)))
        end
      else Ret (Ok body_json)
  end.

(** [outbound_handler]. *)
Definition outbound_handler (resp : Response Incoming) (request_method : string)
    : prog (result (Response bytes) string) :=
  match resp_body resp with
  | Err e => Ret (Err e)
  | Ok body_bytes =>
      if (resp_status resp =? UNAUTHORIZED)%N then Ret (Ok bad_auth_response)
      else
        let? body_json := Ret (from_slice body_bytes) in
        let* mutated := try_mutate_response body_json request_method in
        match mutated with
        | Err _ =>
            Ret (Ok {| resp_status := resp_status resp; resp_headers := resp_headers resp;
                       resp_rest := resp_rest resp; resp_body := body_bytes |})
        | Ok body_json' =>
            let? json := Ret (to_vec body_json') in
            Ret (Ok {| resp_status := resp_status resp;
                       resp_headers := header_remove (resp_headers resp) "content-length";
                       resp_rest := resp_rest resp; resp_body := json |})
        end
  end.

(** Whether the request carries a bearer token. *)
Definition has_bearer {B} (req : Request B) : bool :=
  match header_get (req_headers req) "authorization" with
  | Some auth => starts_with "Bearer " auth
  | None => false
  end.

(** The service function of a connection; [da_node_socket] is the printed
    address of the node. *)
Definition handle_request (da_node_socket : string) (plaintext_req : Request Incoming)
    : prog (Response bytes) :=
  let* unsafe_http := op (EnvVar "UNSAFE_HTTP_UPSTREAM") in
  let scheme := if is_ok unsafe_http then "http" else "https" in
  let uri_string := scheme +:+ "://" +:+ da_node_socket
                      +:+ default "/" (path_and_query (req_uri plaintext_req)) in
  let* uri := lift (expect id "called `Result::unwrap()` on an `Err` value" (uri_parse uri_string)) in
  let plaintext_req := {| req_uri := uri; req_headers := req_headers plaintext_req;
                          req_rest := req_rest plaintext_req; req_body := req_body plaintext_req |} in
  if negb (has_bearer plaintext_req) then Ret bad_auth_response
  else
    let* '(inbound, request_method) := inbound_handler plaintext_req "" in
    match inbound with
    | Err e => lift (internal_error_response e)
    | Ok (Some wrapped_req) =>
        let* response := op (DaRequest wrapped_req) in
        match response with
        | Ok resp =>
            let* returned := outbound_handler resp request_method in
            match returned with
            | Ok r => Ret r
            | Err e => lift (internal_error_response ("Outbound Handler: " +:+ e))
            end
        | Err e => lift (internal_error_response ("DA Client: " +:+ e))
        end
    | Ok None => Ret pending_response
    end.

End Outbound.
