(* ===== verification/ProxyFacts.v ===== *)
(** What the proxy of Proxy.v guarantees: which requests reach the Celestia
    node and with which blobs, and what a client gets back. *)

From S2P Require Import Prelude Format ZkvmCommon Guest Job Http Json Effects.
From S2P Require Import Environment Runner Invariant RunnerSafe Lifecycle Liveness.
From S2P Require Import Proxy.

Open Scope pda_scope.
Local Open Scope string_scope.

Section Relations.
  Context `{Platform, Payload} (R : Blob -> Blob -> Prop).

(** The body [body'] forwarded for the body [body] of a [blob.Submit] whose
    first parameter is [v]: the blobs are replaced, each related by [R] to the
    one it replaces, and everything else is kept. *)
Definition submit_rewrites (body body' v : Value) (rest : list Value) : Prop :=
  exists blobs encrypted v',
    blobs_from_value v = Ok blobs /\ Forall2 R blobs encrypted /\
    blobs_to_value encrypted = Ok v' /\
    body' = json_set body "params" (json_array (v' :: rest)).

(** The body calls [blob.Submit]. *)
Definition is_submit (body : Value) : bool :=
  match json_get body "method" ≫= as_str with
  | Some m => String.eqb m "blob.Submit"
  | None => false
  end.

(** The body forwarded for a [blob.Submit]: one without parameters is kept, and
    one whose parameters are not an array is not forwarded at all. *)
Definition submit_forwarded (body body' : Value) : Prop :=
  match json_get body "params" with
  | None => body' = body
  | Some params =>
      match as_array params with
      | None => False
      | Some [] => body' = body
      | Some (v :: rest) => submit_rewrites body body' v rest
      end
  end.

(** The body forwarded for a body. *)
Definition body_forwarded (body body' : Value) : Prop :=
  if is_submit body then submit_forwarded body body' else body' = body.

(** The request forwarded for a request: the body as [body_forwarded] says,
    serialized again, and no [content-length]. *)
Definition forwards (req : Request Incoming) (out : Request bytes) : Prop :=
  exists body_bytes body body' bytes', req_body req = Ok body_bytes /\
    from_slice body_bytes = Ok body /\ body_forwarded body body' /\
    to_vec body' = Ok bytes' /\ out = rewrite_request req bytes'.
End Relations.

Section RelationFacts.
  Context `{Platform, Payload} (R R' : Blob -> Blob -> Prop) (HR : forall b b', R b b' -> R' b b').

Lemma forwards_mono req out : forwards R req out -> forwards R' req out.
Proof.
  intros (bs & body & body' & bs' & Hb & Hp & Hf & Hs). exists bs, body, body', bs'.
  split_and!; try done; [|apply Hs..]. unfold body_forwarded, submit_forwarded in *.
  destruct (is_submit body); [|done]. destruct (json_get body "params") as [params|]; [|done].
  destruct (as_array params) as [[|v rest]|]; try done.
  destruct Hf as (blobs & l & v' & Hb' & Hf & Hr). exists blobs, l, v'.
  split; [done|]. split; [|done]. eapply Forall2_impl; [exact Hf|done].
Qed.
End RelationFacts.

Section Requests.
  Context `{Sp1Facts, !RunnerCodecs, Payload, !PayloadLaws}.
  Context (E : gmap string string) (G : Request bytes -> Prop).

(** [b'] is the encryption of [b]: same namespace, and the data is a serialized
    proof for [b]'s job. *)
Definition encrypts (b b' : Blob) : Prop :=
  blob_namespace b' = blob_namespace b /\
  exists p k, serialize p = Ok (blob_data b') /\
    serialize (anchor (blob_job b)) = Ok k /\ proof_for E k p.

Lemma blob_job_anchored b : anchored (blob_job b).
Proof. done. Qed.

Lemma safe_map_err {A Er F} mb (g : Er -> F) (p : prog (result A Er)) (R Q : outcome _ -> Prop) :
  safe E G mb p R ->
  (forall r, R (Returned r) -> Q (Returned (result_map_err g r))) ->
  (forall m, Q (Panicked m)) ->
  safe E G mb (map_err g p) Q.
Proof. intros Hp Hr Hm. unfold map_err. eapply safe_call; [exact Hp| |done]. intros a Ha. by apply Hr. Qed.

Lemma safe_encrypt_blobs mb blobs :
  safe E G mb (encrypt_blobs blobs) (fun r => forall l, r = Returned (Ok (Some l)) -> Forall2 encrypts blobs l).
Proof.
  induction blobs as [|b blobs IH]; [by intros l [= <-]|].
  cbn [encrypt_blobs]. apply safe_bindR_map_err.
  eapply safe_call; [apply safe_get_verifiable_encryption, blob_job_anchored| |done].
  intros [[p|]|e] Hp; cbn [result_map_err]; [|done..].
  destruct (Hp p eq_refl) as (k & Hk & Hpk).
  rewrite bindR_ret. destruct (serialize p) as [d|e] eqn:Hd; [|done].
  rewrite bindR_ret. destruct (blob_new (blob_namespace b) d) as [b'|e] eqn:Hb'; [|done].
  apply blob_new_ok in Hb' as [Hns Hdata].
  eapply safe_callR; [exact IH| |done|done].
  intros [l|] Hl l' [= <-]. constructor; [|by apply Hl].
  split; [done|]. exists p, k. by rewrite Hdata.
Qed.

Lemma safe_intercept_submit mb body :
  safe E G mb (intercept_submit body) (fun r => forall body', r = Returned (Ok (Some body')) ->
    submit_forwarded encrypts body body').
Proof.
  unfold intercept_submit, submit_forwarded. destruct (json_get body "params") as [params|]; [|by intros ? [= <-]].
  simpl. destruct (as_array params) as [[|v rest]|]; [by intros ? [= <-]| |done].
  rewrite bindR_ret. destruct (blobs_from_value v) as [blobs|e] eqn:Hb; [|done].
  eapply safe_callR; [apply safe_encrypt_blobs| |done|done].
  intros [l|] Hl; [|done]. specialize (Hl l eq_refl).
  rewrite bindR_ret. destruct (blobs_to_value l) as [v'|e] eqn:Hv'; [|done].
  intros body' [= <-]. by exists blobs, l, v'.
Qed.

Lemma safe_inbound_handler mb req m :
  safe E G mb (inbound_handler req m) (fun r => forall out m',
    r = Returned (Ok (Some out), m') -> forwards encrypts req out).
Proof.
  unfold inbound_handler. destruct (req_body req) as [body_bytes|e] eqn:Hreq; [|done].
  destruct (from_slice body_bytes) as [body|e] eqn:Hbody; [|done].
  eapply (safe_call _ _ _ _ _ (fun r => forall body', r = Returned (Ok (Some body')) ->
    body_forwarded encrypts body body')); [| |done].
  - unfold body_forwarded, is_submit.
    destruct (json_get body "method" ≫= as_str) as [method|]; [|by intros ? [= <-]].
    destruct (String.eqb method "blob.Submit"); [apply safe_intercept_submit|by intros ? [= <-]].
  - intros [[body'|]|e] Hb out m' [=]. specialize (Hb body' eq_refl).
    destruct (to_vec body') as [bytes'|] eqn:Hv; simplify_eq/=.
    by exists body_bytes, body, body', bytes'.
Qed.
End Requests.

(** ** What is sent to the node *)

Section Local.
  Context `{Sp1Facts}.

(** [p] sends nothing to the Celestia node. *)
Fixpoint local {A} (p : prog A) : Prop :=
  match p with
  | Ret _ | Panic _ => True
  | Vis o k => is_local o = true /\ forall x, local (k x)
  end.

Lemma local_bind {A B} (p : prog A) (g : A -> prog B) :
  local p -> (forall a, local (g a)) -> local (bind p g).
Proof.
  intros Hp Hg. induction p as [a|msg|o k IH]; simpl in *; [apply Hg|done|].
  destruct Hp as [? Hk]. auto.
Qed.

Lemma local_bindR {A B Er} (p : prog (result A Er)) (g : A -> prog (result B Er)) :
  local p -> (forall a, local (g a)) -> local (bindR p g).
Proof. intros Hp Hg. apply local_bind; [done|]. by intros []. Qed.

Lemma local_map_err {A Er Fr} (g : Er -> Fr) (p : prog (result A Er)) :
  local p -> local (map_err g p).
Proof. intros Hp. by apply local_bind. Qed.

Lemma local_lift {A} (o : outcome A) : local (lift o).
Proof. by destruct o. Qed.

(** A program that sends nothing and never waits leaves the log of sent
    requests alone. *)
Lemma wp_local f {A} (p : prog A) (Q : Store -> outcome A -> Prop) s :
  local p -> wp f p Q s -> wp f p (fun s' r => forwarded s' = forwarded s /\ Q s' r) s.
Proof.
  revert s. induction p as [a|msg|o k IH]; intros s Hp; simpl in *; [done..|].
  destruct Hp as [Ho Hk]. intros [He Hw]. split; [done|]. intros s' x Hx.
  eapply wp_mono; [|by apply IH, Hw].
  intros s'' r [Hf HQ]. split; [|done]. rewrite Hf. by eapply op_local.
Qed.
End Local.

(** Decides [local] of a program built from local pieces. *)
Ltac solve_local :=
  repeat first
    [ done
    | apply local_bindR; [|intros ?] | apply local_bind; [|intros ?]
    | apply local_map_err | apply local_lift
    | case_match ].

Section LocalPrograms.
  Context `{Sp1Facts, Payload}.

Lemma local_get_verifiable_encryption job : local (get_verifiable_encryption job).
Proof.
  unfold get_verifiable_encryption, send_job_with_new_status, env_expect. solve_local.
Qed.

Lemma local_encrypt_blobs blobs : local (encrypt_blobs blobs).
Proof.
  induction blobs as [|b blobs IH]; [done|]. cbn [encrypt_blobs].
  apply local_bindR; [apply local_map_err, local_get_verifiable_encryption|].
  intros [p|]; [|done]. by solve_local.
Qed.

Lemma local_inbound_handler req m : local (inbound_handler req m).
Proof.
  unfold inbound_handler, intercept_submit.
  repeat first [done | apply local_encrypt_blobs | apply local_bindR; [|intros ?]
               | apply local_bind; [|intros ?] | case_match].
Qed.

Lemma local_verify_decrypt_blob b key : local (verify_decrypt_blob b key).
Proof.
  unfold verify_decrypt_blob, extract_verified_proof_output, get_zk_client_local,
    get_program_id, get_or_init, get_proof_setup_local, get_or_try_init, init_proof_setup.
  solve_local.
Qed.

Lemma local_decrypt_values vs key : local (decrypt_values vs key).
Proof.
  induction vs as [|v vs IH]; [done|]. cbn [decrypt_values].
  repeat first [done | apply IH | apply local_verify_decrypt_blob | apply local_bindR; [|intros ?]].
Qed.

Lemma local_outbound_handler resp m : local (outbound_handler resp m).
Proof.
  unfold outbound_handler, try_mutate_response, read_encryption_key, env_expect.
  repeat first [done | apply local_lift | apply local_verify_decrypt_blob
               | apply local_decrypt_values
               | apply local_bindR; [|intros ?] | apply local_bind; [|intros ?] | case_match].
Qed.
End LocalPrograms.

(** ** What is returned to the client *)

Section Answers.
  Context `{Sp1Facts, !RunnerCodecs, Payload, !PayloadLaws}.
  Context (E : gmap string string) (G : Request bytes -> Prop).

(** The configured key. *)
Definition is_key (key : array KEY_LEN) : Prop :=
  exists text, E !! "ENCRYPTION_KEY" = Some text /\ from_hex text = Ok key.

(** [b'] is [b] with the data of a proof it carries: the proof verifies under
    the guest's verifying key, and its ciphertext decrypts to the data of [b']
    under the configured key. *)
Definition decrypts (b b' : Blob) : Prop :=
  exists key proof s o data, is_key key /\
    deserialize (blob_data b) = Ok proof /\ setup_ok s /\ verified proof (vk s) /\
    from_bytes (public_values proof) = Returned (Ok o) /\
    chacha key (nonce o) (ciphertext o) = Returned data /\ b' = blob_with_data b data.

(** The same for their JSON forms. *)
Definition value_decrypts (v v' : Value) : Prop :=
  exists b b', blob_from_value v = Ok b /\ decrypts b b' /\ blob_to_value b' = Ok v'.

(** The decrypted body of the answer to a call of [method]; the result of any
    other method is kept. *)
Definition body_decrypted (method : string) (body body' : Value) : Prop :=
  if String.eqb method "blob.Get" then
    exists result v, json_get body "result" = Some result /\ value_decrypts result v /\
      body' = json_set body "result" v
  else if String.eqb method "blob.GetAll" then
    exists result vs vs', json_get body "result" = Some result /\ as_array result = Some vs /\
      Forall2 value_decrypts vs vs' /\ body' = json_set body "result" (json_array vs')
  else is_Some (json_get body "result") /\ body' = body.

(** The node's answer passed on as it came, or with a new body and without
    [content-length]. *)
Definition pass_on (resp : Response Incoming) (body : bytes) : Response bytes :=
  {| resp_status := resp_status resp; resp_headers := resp_headers resp;
     resp_rest := resp_rest resp; resp_body := body |}.

Definition rewrite_response (resp : Response Incoming) (body : bytes) : Response bytes :=
  {| resp_status := resp_status resp;
     resp_headers := header_remove (resp_headers resp) "content-length";
     resp_rest := resp_rest resp; resp_body := body |}.

(** What [outbound_handler] may make of the node's answer. *)
Definition answers (resp : Response Incoming) (method : string) (r : result (Response bytes) string)
    : Prop :=
  match resp_body resp with
  | Err e => r = Err e
  | Ok body_bytes =>
      if (resp_status resp =? UNAUTHORIZED)%N then r = Ok bad_auth_response
      else match from_slice body_bytes with
           | Err e => r = Err e
           | Ok body =>
               r = Ok (pass_on resp body_bytes) \/
               exists body', body_decrypted method body body' /\
                 r = result_map (rewrite_response resp) (to_vec body')
           end
  end.

Lemma safe_extract_verified_proof_output mb proof :
  safe E G mb (extract_verified_proof_output proof) (fun r => forall o, r = Returned (Ok o) ->
    exists s, setup_ok s /\ verified proof (vk s) /\
      from_bytes (public_values proof) = Returned (Ok o)).
Proof.
  unfold extract_verified_proof_output.
  eapply (safe_call _ _ _ _ _ (fun _ => True)); [by apply safe_get_zk_client_local| |done].
  intros client _.
  eapply (safe_call _ _ _ _ _ (fun _ => True)); [by apply safe_get_program_id| |done].
  intros pid _. apply safe_bindR_map_err.
  eapply safe_call; [apply safe_get_proof_setup_local| |done].
  intros [s|e] Hs; cbn [result_map_err]; [|done]. specialize (Hs s eq_refl).
  apply safe_bindR_map_err. safe_op_step (Verify client proof (vk s)); [done|].
  destruct x as [u|e]; cbn [result_map_err]; [|done]. simpl in Hx.
  destruct (from_bytes (public_values proof)) as [o|msg] eqn:Ho; [|done].
  intros o' [= ->]. exists s. split_and!; [done|by apply Hx|done].
Qed.

Lemma safe_verify_decrypt_blob mb b key :
  is_key key -> safe E G mb (verify_decrypt_blob b key) (fun r => forall b', r = Returned (Ok b') -> decrypts b b').
Proof.
  intros Hk. unfold verify_decrypt_blob. rewrite bindR_ret.
  destruct (deserialize (blob_data b)) as [proof|e] eqn:Hp; [|done].
  eapply safe_callR; [apply safe_extract_verified_proof_output| |done|done].
  intros o Ho. destruct (Ho o eq_refl) as (s & Hs & Hv & Hf).
  destruct (chacha key (nonce o) (ciphertext o)) as [buffer|msg] eqn:Hc; [|done].
  intros b' [= <-]. by exists key, proof, s, o, buffer.
Qed.

(** The part [blob.Get] and [blob.GetAll] share: one blob of the result. *)
Lemma safe_decrypt_value mb {A} v key (k : Value -> prog (result A string)) Q :
  is_key key ->
  (forall v', value_decrypts v v' -> safe E G mb (k v') Q) ->
  (forall e, Q (Returned (Err e))) -> (forall m, Q (Panicked m)) ->
  safe E G mb (let? blob := Ret (blob_from_value v) in
             let? plaintext_only_blob := verify_decrypt_blob blob key in
             let? value := Ret (blob_to_value plaintext_only_blob) in k value) Q.
Proof.
  intros Hk HQ He Hm. rewrite bindR_ret. destruct (blob_from_value v) as [b|e] eqn:Hb; [|apply He].
  eapply safe_callR; [by apply safe_verify_decrypt_blob| |done|done].
  intros b' Hb'. specialize (Hb' b' eq_refl). rewrite bindR_ret.
  destruct (blob_to_value b') as [v'|e] eqn:Hv'; [|apply He]. apply HQ. by exists b, b'.
Qed.

Lemma safe_decrypt_values mb vs key :
  is_key key ->
  safe E G mb (decrypt_values vs key) (fun r => forall vs', r = Returned (Ok vs') -> Forall2 value_decrypts vs vs').
Proof.
  intros Hk. induction vs as [|v vs IH]; [by intros vs' [= <-]|].
  cbn [decrypt_values]. apply safe_decrypt_value; [done| |done|done].
  intros v' Hv. eapply safe_callR; [exact IH| |done|done].
  intros rest Hr vs' [= <-]. constructor; [done|by apply Hr].
Qed.

Lemma safe_try_mutate_response mb body method :
  safe E G mb (try_mutate_response body method) (fun r => forall body',
    r = Returned (Ok body') -> body_decrypted method body body').
Proof.
  unfold try_mutate_response, body_decrypted.
  destruct (json_get body "result") as [res|]; [|done].
  eapply safe_call; [apply safe_read_encryption_key| |done]. intros key Hk.
  assert (is_key key) as Hkey by (by destruct (Hk key eq_refl) as (text & ? & ?); exists text).
  destruct (String.eqb method "blob.Get").
  - apply safe_decrypt_value; [done| |done|done]. intros v' Hv body' [= <-]. by exists res, v'.
  - destruct (String.eqb method "blob.GetAll"); [|by intros body' [= <-]; split; [eexists|]].
    destruct (as_array res) as [vs|] eqn:Hvs; [|done].
    eapply safe_callR; [by apply safe_decrypt_values| |done|done].
    intros vs' Hd body' [= <-]. exists res, vs, vs'. split_and!; try done. by apply Hd.
Qed.

Lemma safe_outbound_handler mb resp method :
  safe E G mb (outbound_handler resp method) (fun o => forall r, o = Returned r -> answers resp method r).
Proof.
  unfold outbound_handler, answers. destruct (resp_body resp) as [body_bytes|e]; [|by intros r [= <-]].
  destruct (_ =? _)%N; [by intros r [= <-]|]. rewrite bindR_ret.
  destruct (from_slice body_bytes) as [body|e]; [|by intros r [= <-]].
  eapply safe_call; [apply safe_try_mutate_response| |done].
  intros [body'|e] Hb; [|intros r [= <-]; by left].
  rewrite bindR_ret. specialize (Hb body' eq_refl).
  destruct (to_vec body') as [json|e] eqn:Hj; intros r [= <-]; right; exists body';
    (split; [done|by rewrite Hj]).
Qed.
End Answers.

(** ** The service function *)

Section Service.
  Context `{Sp1Facts, !RunnerCodecs, Payload, !PayloadLaws} (E : gmap string string).

(** The URI a request is forwarded to. *)
Definition upstream_uri (vars : gmap string string) (da_node_socket : string) {B} (req : Request B) : string :=
  let scheme := match vars !! "UNSAFE_HTTP_UPSTREAM" with Some _ => "http" | None => "https" end in
  scheme +:+ "://" +:+ da_node_socket +:+ default "/" (path_and_query (req_uri req)).

Definition with_uri {B} (req : Request B) (uri : Uri) : Request B :=
  {| req_uri := uri; req_headers := req_headers req; req_rest := req_rest req; req_body := req_body req |}.

(** The node's address does not parse. *)
Definition uri_panic (e : string) : string :=
  "called `Result::unwrap()` on an `Err` value: " +:+ e.

(** [handle_request] up to the authorization check, which is all an
    unauthorized request gets to. *)
Lemma wp_handle_request f socket req Q s :
  match uri_parse (upstream_uri (env_vars s) socket req) with
  | Err e => Q s (Panicked (uri_panic e))
  | Ok uri =>
      if has_bearer req
      then wp f (bind (inbound_handler (with_uri req uri) "") (fun '(inbound, request_method) =>
          match inbound with
          | Err e => lift (internal_error_response e)
          | Ok (Some wrapped_req) =>
              let* response := op (DaRequest wrapped_req) in
              match response with
              | Ok resp =>
                  let* returned := outbound_handler resp request_method in
                  match returned with
                  | Ok r => Ret r
                  | Err e => lift (internal_error_response ("Outbound Handler: " +:+ e))
                  end
              | Err e => lift (internal_error_response ("DA Client: " +:+ e))
              end
          | Ok None => Ret pending_response
          end)) Q s
      else Q s (Returned bad_auth_response)
  end ->
  wp f (handle_request socket req) Q s.
Proof.
  intros HQ. unfold handle_request. wp_step. intros [-> Hx].
  assert ((if is_ok x then "http" else "https") =
    match env_vars s !! "UNSAFE_HTTP_UPSTREAM" with Some _ => "http" | None => "https" end) as ->.
  { destruct (env_vars s !! _); [by rewrite Hx|by rewrite Hx]. }
  fold (upstream_uri (env_vars s) socket req). destruct (uri_parse _) as [uri|e]; [|done].
  cbn [expect lift bind]. change (has_bearer _) with (has_bearer req) at 1.
  by destruct (has_bearer req).
Qed.

(** What a request leaves in the log of requests sent to the node. *)
Definition sent_for (socket : string) (req : Request Incoming) (R : Blob -> Blob -> Prop)
    (s s' : Store) : Prop :=
  forwarded s' = forwarded s \/
  exists uri out, uri_parse (upstream_uri (env_vars s) socket req) = Ok uri /\ has_bearer req = true /\
    forwards R (with_uri req uri) out /\ forwarded s' = (forwarded s ++ [out])%list.

Lemma safe_internal_error G mb e (Q : outcome (Response bytes) -> Prop) :
  (forall r, Q r) -> safe E G mb (lift (internal_error_response e)) Q.
Proof. intros HQ. unfold internal_error_response. destruct (to_vec _); apply HQ. Qed.

(** Whatever runs next to it, a connection sends only what [forwards] says. *)
Lemma safe_handle_request G mb socket req :
  (forall uri out, uri_parse (upstream_uri E socket req) = Ok uri -> has_bearer req = true ->
    forwards (encrypts E) (with_uri req uri) out -> G out) ->
  safe E G mb (handle_request socket req) (fun _ => True).
Proof.
  intros HG. unfold handle_request.
  safe_op_step (EnvVar "UNSAFE_HTTP_UPSTREAM"); [done|].
  assert ((if is_ok x then "http" else "https") =
    match E !! "UNSAFE_HTTP_UPSTREAM" with Some _ => "http" | None => "https" end) as ->.
  { destruct (E !! _) as [v|] eqn:Hv.
    - apply Hx in Hv as ->. done.
    - destruct x as [v|]; [|done]. specialize (proj1 (Hx v) eq_refl). congruence. }
  fold (upstream_uri E socket req). destruct (uri_parse _) as [uri|e] eqn:Huri; [|done].
  cbn [expect lift bind]. change (has_bearer _) with (has_bearer req) at 1.
  destruct (has_bearer req) eqn:Hb; [|done]. cbn [negb].
  eapply safe_call; [apply safe_inbound_handler| |done].
  intros [[[out|]|e] method] Hout; cbn beta iota; [|done|by apply safe_internal_error].
  apply safe_op; [done|eapply HG; [done..|by eapply Hout]|done|]. intros [resp|e] _.
  - eapply safe_call; [apply safe_outbound_handler| |done].
    intros [r|e] _; [done|by apply safe_internal_error].
  - by apply safe_internal_error.
Qed.

(** A safe program that sends nothing. *)
Lemma wp_safe_local G f {A} (p : prog A) (R : outcome A -> Prop) s :
  inv E s -> safe E G false p R -> local p ->
  wp f p (fun s' r => forwarded s' = forwarded s /\ inv E s' /\ R r) s.
Proof. intros Hi Hs Hl. apply wp_local; [done|]. by apply (safe_wp E G). Qed.

Lemma wp_internal_error f e (Q : Store -> outcome (Response bytes) -> Prop) s :
  (forall r, Q s r) -> wp f (lift (internal_error_response e)) Q s.
Proof. intros HQ. unfold internal_error_response. destruct (to_vec _); apply HQ. Qed.

(** From the point where a request is forwarded, one message is sent. *)
Lemma wp_forwarded f out method s :
  inv E s ->
  wp f (let* response := op (DaRequest out) in
        match response with
        | Ok resp =>
            let* returned := outbound_handler resp method in
            match returned with
            | Ok r => Ret r
            | Err e => lift (internal_error_response ("Outbound Handler: " +:+ e))
            end
        | Err e => lift (internal_error_response ("DA Client: " +:+ e))
        end) (fun s' _ => forwarded s' = (forwarded s ++ [out])%list) s.
Proof.
  intros Hi. wp_step. simpl. intros ->.
  assert (inv E (forward s out)) as Hi2 by (by destruct Hi; split).
  destruct x as [resp|e]; [|by apply wp_internal_error].
  eapply wp_call; [apply (wp_safe_local (fun _ => True));
    [done|apply safe_outbound_handler|apply local_outbound_handler]|..].
  - intros s2 [r|e] (Hs2 & _); [done|]. by apply wp_internal_error.
  - by intros s2 msg (Hs2 & _).
Qed.

Lemma wp_handle_request_sent f socket req s :
  inv E s ->
  wp f (handle_request socket req) (fun s' _ => sent_for socket req (encrypts E) s s') s.
Proof.
  intros Hi. apply wp_handle_request.
  destruct (uri_parse _) as [uri|e] eqn:Huri; [|by left].
  destruct (has_bearer req) eqn:Hb; [|by left].
  eapply wp_call; [apply (wp_safe_local (fun _ => True)); [done|apply safe_inbound_handler|apply local_inbound_handler]|..];
    [|by intros s' msg [Hf _]; left].
  intros s1 [[[out|]|e] method] (Hf & Hi1 & Hout); cbn beta iota; [|by left|].
  2:{ apply wp_internal_error. by left. }
  eapply wp_mono; [|by apply wp_forwarded].
  intros s' ? Hs'. right. exists uri, out. split_and!; try done; [by eapply Hout|]. by rewrite Hs', Hf.
Qed.
End Service.
