(* ===== verification/Submit.v ===== *)
(** How a [blob.Submit] makes progress, and how what it forwarded is read back.
    While a blob of the request has no proof, the request is answered with 202
    and nothing is forwarded; once every blob has one, the request is forwarded;
    a blob that was forwarded decrypts to the data that was submitted. *)

From S2P Require Import Prelude Format ZkvmCommon Guest Job Http Json Effects.
From S2P Require Import Environment Runner Invariant RunnerSafe Lifecycle Liveness.
From S2P Require Import Proxy ProxyFacts.

Open Scope pda_scope.
Local Open Scope string_scope.

Section Progress.
  Context `{Sp1Facts, !RunnerCodecs, !BincodeTotal JobStatus, Payload, !PayloadLaws}.
  Context (E : gmap string string) (f : Faults) (io_ok : io_errors f = false).

(** [b] has its proof, and [b'] is the blob that replaces it. *)
Definition ready (s : Store) (b b' : Blob) : Prop :=
  exists k p d, serialize (anchor (blob_job b)) = Ok k /\ job_state s k = JDone p /\
    serialize p = Ok d /\ blob_new (blob_namespace b) d = Ok b'.

(** [b] has no proof yet: it is queued, or new and about to be. *)
Definition unready (s : Store) (b : Blob) (k : bytes) : Prop :=
  serialize (anchor (blob_job b)) = Ok k /\
  ((exists st, job_state s k = JQueued st) \/
   job_state s k = JNone /\ exists prover st,
     E !! "SP1_PROVER" = Some prover /\ initial_status prover = Some st).

(** The request queued [b]'s job, in the first status for the configured prover,
    unless it was queued already, and did nothing else to the jobs. *)
Definition queued_first (s s' : Store) (b : Blob) (k : bytes) : Prop :=
  (exists st, job_state s' k = JQueued st /\
     match job_state s k with
     | JNone => exists prover, E !! "SP1_PROVER" = Some prover /\ initial_status prover = Some st
     | js => js = JQueued st
     end) /\
  (forall k', k' <> k -> job_state s' k' = job_state s k') /\
  inbox s' = (inbox s ++ match job_state s k with JNone => [Some (blob_job b)] | _ => [] end)%list.

Lemma wp_request_done k b p s :
  inbox_open s = true -> inv E s -> serialize (anchor (blob_job b)) = Ok k ->
  job_state s k = JDone p ->
  wp f (get_verifiable_encryption (blob_job b))
    (fun s' r => inv E s' /\ same_jobs s s' /\ r = Returned (Ok (Some p))) s.
Proof.
  intros Ho Hi Hk Hst.
  eapply wp_mono; [|apply wp_and; [by eapply (wp_request E)|]].
  2: by eapply (safe_wp _ (fun _ => True)), safe_get_verifiable_encryption.
  intros s' r [Hr [Hi' _]]. unfold request_post in Hr. rewrite Hst in Hr.
  by destruct Hr.
Qed.

(** The blobs that have their proofs are replaced, whatever comes after. *)
Lemma wp_encrypt_ready s0 blobs l more Q s :
  Forall2 (ready s0) blobs l -> inbox_open s0 = true -> inv E s -> same_jobs s0 s ->
  (forall s', inv E s' -> same_jobs s0 s' ->
    wp f (encrypt_blobs more) (fun s'' r =>
      Q s'' (match r with
             | Returned (Ok o) => Returned (Ok (option_map (app l) o))
             | r => r
             end)) s') ->
  wp f (encrypt_blobs (blobs ++ more)) Q s.
Proof.
  intros Hr Ho. revert Q s. induction Hr as [|b b' blobs l Hb Hr IH]; intros Q s Hi Hs Hk.
  { eapply wp_mono; [|by apply Hk]. intros s' r. by destruct r as [[[]|]|]. }
  destruct Hb as (k & p & d & Hser & Hst & Hd & Hnew). cbn [app encrypt_blobs].
  apply wp_bindR_map_err. eapply wp_call; [eapply (wp_request_done k)|..]; cbn beta.
  - by rewrite (same_open _ _ Hs).
  - done.
  - done.
  - by rewrite (job_state_same _ _ _ Hs).
  - intros s' r (Hi' & Hs' & [= ->]). cbn [result_map_err].
    rewrite bindR_ret, Hd, bindR_ret, Hnew.
    apply wp_bind. apply IH; [done|by etrans|]. intros s'' Hi'' Hs''.
    eapply wp_mono; [|by apply Hk]. by intros s3 [[[o|]|e]|msg].
  - by intros s' msg (_ & _ & ?).
Qed.

Lemma wp_encrypt_complete s blobs l :
  Forall2 (ready s) blobs l -> inbox_open s = true -> inv E s ->
  wp f (encrypt_blobs blobs) (fun s' r => r = Returned (Ok (Some l)) /\ inv E s' /\ same_jobs s s') s.
Proof.
  intros Hr Ho Hi. rewrite <- (app_nil_r blobs).
  eapply wp_encrypt_ready; [done..|]. intros s' Hi' Hs'. simpl. by rewrite app_nil_r.
Qed.

Lemma wp_encrypt_pending s blobs l b k later :
  Forall2 (ready s) blobs l -> unready s b k -> inbox_open s = true -> inv E s ->
  wp f (encrypt_blobs (blobs ++ b :: later))
    (fun s' r => r = Returned (Ok None) /\ queued_first s s' b k) s.
Proof.
  intros Hr [Hk Hb] Ho Hi. eapply wp_encrypt_ready; [done..|].
  intros s1 Hi1 Hs1. cbn [encrypt_blobs].
  assert (forall k', job_state s1 k' = job_state s k') as Hjs by (intros; by apply job_state_same).
  apply wp_bindR_map_err. eapply wp_call; [eapply (wp_request E)|..]; [by rewrite ?(same_open _ _ Hs1)..| |].
  - intros s2 r Hr2. unfold request_post in Hr2. rewrite Hjs in Hr2.
    destruct Hb as [(st & Hst)|(Hst & prover & st & Hp & Hin)]; rewrite Hst in Hr2.
    + destruct Hr2 as [[= ->] Hs2]. split; [done|]. split_and!.
      * exists st. by rewrite (job_state_same _ _ _ Hs2), Hjs, Hst.
      * intros k' _. by rewrite (job_state_same _ _ _ Hs2), Hjs.
      * by rewrite Hst, (same_inbox _ _ Hs2), (same_inbox _ _ Hs1), app_nil_r.
    + rewrite Hp, Hin in Hr2. destruct Hr2 as ([= ->] & Hq & Hbox & _). split; [done|]. split_and!.
      * exists st. rewrite Hst. split; [|by exists prover].
        eapply queued_state; [done|by eapply initial_status_pending].
      * intros k' Hne. rewrite <- Hjs. destruct Hq as [(v & _ & Hq) Hf]. unfold job_state.
        by rewrite Hf, Hq, lookup_delete_ne, lookup_insert_ne.
      * by rewrite Hst, Hbox, (same_inbox _ _ Hs1).
  - intros s2 msg Hr2. unfold request_post in Hr2. rewrite Hjs in Hr2.
    destruct Hb as [(st & Hst)|(Hst & prover & st & Hp & Hin)]; rewrite Hst in Hr2.
    + by destruct Hr2.
    + rewrite Hp, Hin in Hr2. by destruct Hr2 as [? _].
Qed.
End Progress.

(** ** The whole request *)

Section Service.
  Context `{Sp1Facts, !RunnerCodecs, !BincodeTotal JobStatus, Payload, !PayloadLaws}.
  Context (E : gmap string string) (f : Faults) (io_ok : io_errors f = false).

(** The request is authorized, the node's address parses to [uri], and the body
    [body] submits [blobs], next to the parameters [rest]. *)
Record submits (s : Store) (socket : string) (req : Request Incoming) (uri : Uri) (body : Value)
    (blobs : list Blob) (rest : list Value) : Prop := {
  submits_auth : has_bearer req = true;
  submits_uri : uri_parse (upstream_uri (env_vars s) socket req) = Ok uri;
  submits_body : exists body_bytes, req_body req = Ok body_bytes /\ from_slice body_bytes = Ok body;
  submits_method : is_submit body = true;
  submits_params : exists v, json_get body "params" ≫= as_array = Some (v :: rest) /\
    blobs_from_value v = Ok blobs;
}.

Lemma is_submit_method body :
  is_submit body = true -> json_get body "method" ≫= as_str = Some "blob.Submit".
Proof.
  unfold is_submit. destruct (_ ≫= as_str) as [m|]; [|done]. by intros ->%String.eqb_eq.
Qed.

(** [inbound_handler] on such a request, by what becomes of the blobs. *)
Lemma wp_inbound_submit s socket req uri body blobs rest (R : Store -> option (list Blob) -> Prop) Q :
  submits s socket req uri body blobs rest ->
  wp f (encrypt_blobs blobs) (fun s' r => exists o, r = Returned (Ok o) /\ R s' o) s ->
  (forall s', R s' None -> Q s' (Returned (Ok None, "blob.Submit"))) ->
  (forall s' l, R s' (Some l) -> Q s' (Returned
     (match blobs_to_value l with
      | Err e => Err e
      | Ok v' => result_map (fun j => Some (rewrite_request (with_uri req uri) j))
                   (to_vec (json_set body "params" (json_array (v' :: rest))))
      end, "blob.Submit"))) ->
  wp f (inbound_handler (with_uri req uri) "") Q s.
Proof.
  intros [_ _ (bs & Hb & Hp) Hm%is_submit_method (v & Hv & Hbl)] Hw HN HS.
  unfold inbound_handler. cbn [with_uri req_body]. rewrite Hb, Hp, Hm, String.eqb_refl.
  unfold intercept_submit. destruct (json_get body "params") as [params|]; [|done].
  simpl in Hv. rewrite Hv, bindR_ret, Hbl.
  apply wp_bind, wp_bind. eapply wp_mono; [|exact Hw].
  intros s' r ([l|] & -> & HR); cbn beta iota; [|by apply HN].
  rewrite bindR_ret. specialize (HS s' l HR).
  destruct (blobs_to_value l) as [v'|e]; [|done]. cbn [wp bind]. by destruct (to_vec _).
Qed.

Lemma wp_submit_pending s socket req uri body ready_blobs l b k later rest :
  submits s socket req uri body (ready_blobs ++ b :: later) rest ->
  Forall2 (ready s) ready_blobs l -> unready E s b k -> inbox_open s = true -> inv E s ->
  wp f (handle_request socket req)
    (fun s' r => r = Returned pending_response /\ forwarded s' = forwarded s /\ queued_first E s s' b k) s.
Proof.
  intros Hreq Hr Hb Ho Hi. apply wp_handle_request.
  rewrite (submits_uri _ _ _ _ _ _ _ Hreq), (submits_auth _ _ _ _ _ _ _ Hreq).
  apply wp_bind. eapply (wp_inbound_submit _ _ _ _ _ _ _
    (fun s' o => o = None /\ forwarded s' = forwarded s /\ queued_first E s s' b k)); [done|..].
  - eapply wp_mono; [|apply wp_local; [apply local_encrypt_blobs|]].
    2: eapply (wp_encrypt_pending E f io_ok s); [exact Hr|exact Hb|exact Ho|exact Hi].
    intros s' r (Hf & -> & Hq). by exists None.
  - by intros s' [_ Hq].
  - by intros s' l' [? _].
Qed.

Lemma wp_submit_complete s socket req uri body blobs l rest v' json :
  submits s socket req uri body blobs rest ->
  Forall2 (ready s) blobs l -> inbox_open s = true -> inv E s ->
  blobs_to_value l = Ok v' -> to_vec (json_set body "params" (json_array (v' :: rest))) = Ok json ->
  wp f (handle_request socket req)
    (fun s' _ => forwarded s' = (forwarded s ++ [rewrite_request (with_uri req uri) json])%list) s.
Proof.
  intros Hreq Hr Ho Hi Hv Hj. apply wp_handle_request.
  rewrite (submits_uri _ _ _ _ _ _ _ Hreq), (submits_auth _ _ _ _ _ _ _ Hreq).
  apply wp_bind. eapply (wp_inbound_submit _ _ _ _ _ _ _
    (fun s' o => o = Some l /\ inv E s' /\ forwarded s' = forwarded s)); [done|..].
  - eapply wp_mono; [|apply wp_local; [apply local_encrypt_blobs|by apply (wp_encrypt_complete E f io_ok s blobs l)]].
    intros s' r (Hf & -> & Hi' & _). by exists (Some l).
  - by intros s' [? _].
  - intros s' l' ([= ->] & Hi' & Hf). rewrite Hv, Hj. cbn [result_map]. cbn beta iota.
    eapply wp_mono; [|by apply (wp_forwarded E)]. intros s2 ? Hs2. by rewrite Hs2, Hf.
Qed.

Lemma wp_other_forwarded s socket req uri body_bytes body json :
  has_bearer req = true -> uri_parse (upstream_uri (env_vars s) socket req) = Ok uri ->
  req_body req = Ok body_bytes -> from_slice body_bytes = Ok body -> is_submit body = false ->
  to_vec body = Ok json -> inv E s ->
  wp f (handle_request socket req)
    (fun s' _ => forwarded s' = (forwarded s ++ [rewrite_request (with_uri req uri) json])%list) s.
Proof.
  intros Ha Hu Hb Hp Hm Hj Hi. apply wp_handle_request. rewrite Hu, Ha.
  unfold inbound_handler. cbn [with_uri req_body]. rewrite Hb, Hp. unfold is_submit in Hm.
  set (method := json_get body "method" ≫= as_str) in *.
  assert (match method with
          | Some m => if String.eqb m "blob.Submit" then intercept_submit body
                      else Ret (Ok (Some body))
          | None => Ret (Ok (Some body))
          end = Ret (Ok (Some body))) as -> by (destruct method; [by rewrite Hm|done]).
  cbn [bind]. rewrite Hj. cbn [result_map]. cbn beta iota. by apply (wp_forwarded E).
Qed.
End Service.

(** ** Reading a submitted blob back *)

Section Reading.
  Context `{Sp1Laws, !ChaCha20Laws, !ZkvmIoLaws, !BincodeLaws Anchor, !RunnerCodecs}.
  Context `{!BincodeTotal SP1ProofSetup, !BincodeLaws SP1ProofWithPublicValues, Payload, !PayloadLaws}.
  Context (fl : Faults) (E : gmap string string).

(** [b'] is the encryption of [b] for the node: same namespace, and its data is
    a proof for [b]'s data. *)
Definition sealed_blob (b b' : Blob) : Prop :=
  blob_namespace b' = blob_namespace b /\
  exists p, serialize p = Ok (blob_data b') /\ seals E p (sha256 (blob_data b)).

Lemma encrypts_sealed b b' : encrypts E b b' -> sealed_blob b b'.
Proof.
  intros [Hn (p & k & Hp & Hk & Hpk)]. split; [done|]. exists p. split; [done|].
  by apply (proof_for_seals E k p (blob_job b)).
Qed.

Lemma ready_encrypts s b b' : inv E s -> ready s b b' -> encrypts E b b'.
Proof.
  intros Hi (k & p & d & Hk & Hst & Hd & Hnew). apply blob_new_ok in Hnew as [Hn Hdata].
  split; [done|]. exists p, k. rewrite Hdata. split_and!; try done. by eapply done_proof.
Qed.

(** A proof that verifies is opened, whatever setup the service reads. *)
Lemma lucky_extract p st o :
  setup_ok st -> verified p (vk st) -> from_bytes (public_values p) = Returned (Ok o) ->
  lucky fl E (extract_verified_proof_output p) (fun r => r = Ok o).
Proof.
  intros Hst Hp Ho. unfold extract_verified_proof_output.
  eapply lucky_call; [apply lucky_get_zk_client_local|]. intros client _.
  eapply lucky_call; [apply lucky_get_program_id|]. intros pid _.
  apply lucky_bindR_map_err. eapply lucky_call; [apply lucky_get_proof_setup_local|].
  intros r (s' & -> & Hs'). cbn [result_map_err]. apply lucky_bindR_map_err.
  apply (lucky_op fl E (Verify client p (vk s'))); [done..|]. intros x _ Hx.
  assert (verified p (vk s')) as Hv.
  { assert (vk s' = vk st) as -> by exact (setup_of_vk _ _ _ Hs' Hst). done. }
  specialize (Hx Hv). destruct x as [u|e]; [|done]. cbn [result_map_err]. by rewrite Ho.
Qed.

Lemma is_key_fun key key' : is_key E key -> is_key E key' -> key = key'.
Proof. intros (text & Ht & Hk) (text' & Ht' & Hk'). congruence. Qed.

(** A blob that can be opened is. *)
Lemma lucky_verify_decrypt_blob b b' key :
  decrypts E b b' -> is_key E key ->
  lucky fl E (verify_decrypt_blob b key) (fun r => r = Ok b').
Proof.
  intros (key' & p & st & o & data & Hk' & Hp & Hst & Hv & Ho & Hc & ->) Hk.
  rewrite (is_key_fun _ _ Hk' Hk) in Hc.
  unfold verify_decrypt_blob. rewrite Hp, bindR_ret.
  apply (lucky_callR _ _ _ _ (eq o)).
  { eapply lucky_mono; [|by eapply lucky_extract]. intros r ->. by exists o. }
  intros ? <-. by rewrite Hc.
Qed.

Lemma lucky_decrypt_values vs vs' key :
  Forall2 (value_decrypts E) vs vs' -> is_key E key ->
  lucky fl E (decrypt_values vs key) (fun r => r = Ok vs').
Proof.
  intros Hvs Hk. induction Hvs as [|v v' vs vs' (b & b' & Hb & Hd & Hb') _ IH]; [done|].
  cbn [decrypt_values]. rewrite Hb, bindR_ret. apply (lucky_callR _ _ _ _ (eq b')).
  { eapply lucky_mono; [|by apply lucky_verify_decrypt_blob]. intros r ->. by exists b'. }
  intros ? <-. rewrite Hb', bindR_ret. apply (lucky_callR _ _ _ _ (eq vs')).
  { eapply lucky_mono; [|exact IH]. intros r ->. by exists vs'. }
  by intros ? <-.
Qed.

(** The result of an answer is decrypted whenever it can be. *)
Lemma lucky_try_mutate_response body body' method key :
  body_decrypted E method body body' -> is_key E key ->
  lucky fl E (try_mutate_response body method) (fun r => r = Ok body').
Proof.
  intros Hb Hk. unfold try_mutate_response, body_decrypted in *.
  assert (exists res, json_get body "result" = Some res) as [res Hres].
  { destruct (String.eqb method "blob.Get"); [|destruct (String.eqb method "blob.GetAll")].
    - destruct Hb as (res & ? & ? & _). by exists res.
    - destruct Hb as (res & ? & ? & ? & _). by exists res.
    - by destruct Hb as [[res ?] _]; exists res. }
  rewrite Hres in *. destruct Hk as (text & Ht & Hx).
  apply (lucky_call _ _ _ _ (eq key)).
  { unfold read_encryption_key. eapply lucky_call; [by eapply (lucky_env_expect _ _ _ _ _ (eq text))|].
    intros ? <-. by rewrite Hx. }
  intros ? <-. assert (is_key E key) as Hk by (by exists text).
  destruct (String.eqb method "blob.Get"); [|destruct (String.eqb method "blob.GetAll")].
  - destruct Hb as (? & v & [= <-] & (b & b' & Hv & Hd & Hv') & ->). rewrite Hv, bindR_ret.
    apply (lucky_callR _ _ _ _ (eq b')).
    { eapply lucky_mono; [|by apply lucky_verify_decrypt_blob]. intros r ->. by exists b'. }
    intros ? <-. by rewrite Hv', bindR_ret.
  - destruct Hb as (? & vs & vs' & [= <-] & Hvs & Hd & ->). rewrite Hvs.
    apply (lucky_callR _ _ _ _ (eq vs')).
    { eapply lucky_mono; [|by apply lucky_decrypt_values]. intros r ->. by exists vs'. }
    by intros ? <-.
  - by destruct Hb as [_ ->].
Qed.

Lemma lucky_outbound_handler resp method body_bytes body body' key :
  resp_body resp = Ok body_bytes -> resp_status resp <> UNAUTHORIZED -> from_slice body_bytes = Ok body ->
  body_decrypted E method body body' -> is_key E key ->
  lucky fl E (outbound_handler resp method) (fun r => r = result_map (rewrite_response resp) (to_vec body')).
Proof.
  intros Hb Hs Hj Hd Hk. unfold outbound_handler. rewrite Hb.
  destruct (N.eqb_spec (resp_status resp) UNAUTHORIZED) as [?|_]; [done|]. rewrite Hj, bindR_ret.
  eapply lucky_call; [by eapply lucky_try_mutate_response|]. intros r ->.
  by destruct (to_vec body').
Qed.

(** The blob [b'] a completed submit of [b] forwards can be opened, to data with
    the SHA-256 of the data of [b]. *)
Lemma encrypts_decrypts b b' key :
  encrypts E b b' -> is_key E key ->
  exists d, decrypts E b' (blob_with_data b' d) /\ sha256 d = sha256 (blob_data b).
Proof.
  intros [_ (p & k & Hp & Hk & Hpk)] Hkey.
  assert (seals E p (sha256 (blob_data b)))
    as (text & key' & data & o & Ht' & Hx' & Ho & _ & _ & Hd & Hc)
    by (by apply (proof_for_seals E k p (blob_job b))).
  assert (is_key E key') as Hkey' by (by exists text).
  destruct Hpk as (st & stdin & Hst & Hpr & _).
  exists data. split; [|done]. exists key', p, st, o, data.
  rewrite (deserialize_serialize _ _ Hp). split_and!; try done.
  by apply (proof_of_verified (pk st, vk st) stdin p).
Qed.
End Reading.

(** ** Claims *)

Section ProxyClaims.
  Context `{Sp1Facts, Payload} {Ev : Env} {f : Faults} {L : EnvLaws f}.

(** C30: error. A request without a bearer token is answered with 401: nothing is
    sent to the node, no job is touched, and nothing at all changes. (A node
    address that does not parse panics first, for every request.) *)
Theorem unauthorized_rejected w socket req :
  has_bearer req = false ->
  let r := run (handle_request socket req) w in
  view (fst r) = view w /\
  snd r = match uri_parse (upstream_uri (env_vars (view w)) socket req) with
          | Ok _ => Returned bad_auth_response
          | Err e => Panicked (uri_panic e)
          end.
Proof.
  intros Hb. apply (wp_run f _ (fun s' r => s' = view w /\ r = _) w), wp_handle_request.
  rewrite Hb. by destruct (uri_parse _).
Qed.

  Context `{!RunnerCodecs, !PayloadLaws} (E : gmap string string).

(** C31: functional. A request for any other method (a batch array has no method)
    that is authorized and parses is forwarded exactly once, whatever fails: its
    body is the same JSON value, serialized again. *)
Theorem other_methods_forwarded w socket req uri body_bytes body json :
  has_bearer req = true -> uri_parse (upstream_uri (env_vars (view w)) socket req) = Ok uri ->
  req_body req = Ok body_bytes -> from_slice body_bytes = Ok body -> is_submit body = false ->
  to_vec body = Ok json -> inv E (view w) ->
  forwarded (view (fst (run (handle_request socket req) w))) =
    (forwarded (view w) ++ [rewrite_request (with_uri req uri) json])%list.
Proof.
  intros. by eapply (wp_run f _ (fun s' _ => forwarded s' = _) w), wp_other_forwarded.
Qed.

  Context `{!BincodeTotal JobStatus} (io_ok : io_errors f = false).

(** C17: progress of a submit, while it waits. The blobs before [b] have their
    proofs, [b] has none: the request is answered with 202, nothing is sent to
    the node, [b]'s job enters the queue and the worker's channel unless it is
    queued already, and the blobs after [b] are not looked at. *)
Theorem submit_waits w socket req uri body done_blobs l b k later rest :
  inv E (view w) -> inbox_open (view w) = true ->
  submits (view w) socket req uri body (done_blobs ++ b :: later) rest ->
  Forall2 (ready (view w)) done_blobs l -> unready E (view w) b k ->
  let r := run (handle_request socket req) w in
  snd r = Returned pending_response /\ forwarded (view (fst r)) = forwarded (view w) /\
  queued_first E (view w) (view (fst r)) b k.
Proof.
  intros Hi Ho Hreq Hr Hb.
  apply (wp_run f _ (fun s' r => r = _ /\ forwarded s' = forwarded (view w) /\ queued_first E _ s' b k) w).
  by eapply (wp_submit_pending E f io_ok).
Qed.

(** C18: progress of a submit, once every blob has its proof: it is forwarded
    exactly once, and the blobs are replaced in their order. *)
Theorem submit_forwards w socket req uri body blobs l rest v' json :
  inv E (view w) -> inbox_open (view w) = true ->
  submits (view w) socket req uri body blobs rest -> Forall2 (ready (view w)) blobs l ->
  blobs_to_value l = Ok v' ->
  to_vec (json_set body "params" (json_array (v' :: rest))) = Ok json ->
  forwarded (view (fst (run (handle_request socket req) w))) =
    (forwarded (view w) ++ [rewrite_request (with_uri req uri) json])%list.
Proof.
  intros Hi Ho Hreq Hr Hv Hj. apply (wp_run f _ (fun s' _ => forwarded s' = _) w).
  by eapply (wp_submit_complete E f io_ok).
Qed.
End ProxyClaims.

Section SecrecyClaims.
  Context `{Sp1Laws, !ChaCha20Laws, !ZkvmIoLaws, !BincodeLaws Anchor, !RunnerCodecs}.
  Context `{!HttpLaws, Payload, !PayloadLaws} {Ev : Env} {f : Faults} {L : EnvLaws f}.
  Context (E : gmap string string).

(** C3: safety. Whatever fails, a request sends at most one message to the node,
    and only with a bearer token. If its body calls [blob.Submit] with blobs,
    none of them is sent as it came: each is replaced by a blob of the same
    namespace whose data is a proof sealing the SHA-256 of the original data
    under the configured key. All headers but [content-length] are kept. *)
Theorem submit_is_encrypted w socket req :
  inv E (view w) ->
  let s' := view (fst (run (handle_request socket req) w)) in
  forwarded s' = forwarded (view w) \/
  exists uri out, uri_parse (upstream_uri (env_vars (view w)) socket req) = Ok uri /\
    has_bearer req = true /\ forwards (sealed_blob E) (with_uri req uri) out /\
    forwarded s' = (forwarded (view w) ++ [out])%list /\
    forall h, header_get (req_headers out) h =
      if decide (h = "content-length") then None else header_get (req_headers req) h.
Proof.
  intros Hi s'.
  destruct (wp_run f _ _ w (wp_handle_request_sent E f socket req (view w) Hi))
    as [Hs|(uri & out & Hu & Hb & Hf & Hs)]; [by left|right].
  exists uri, out. split_and!; try done.
  - eapply forwards_mono; [|exact Hf]. apply encrypts_sealed.
  - intros h. destruct Hf as (? & ? & ? & ? & _ & _ & _ & _ & ->). simpl.
    case_decide as Hh; [subst; apply header_remove_same|by apply header_remove_other].
Qed.

(** C15: what an auditor learns from a proof that verifies, whoever made it: its
    public values parse, and the ciphertext they carry decrypts, under a key
    with the committed hash, to data with the committed hash. *)
Theorem verified_proof_opens keys p :
  setup_of CHACHA_ELF keys -> verified p (snd keys) ->
  exists key data o, from_bytes (public_values p) = Returned (Ok o) /\
    privkey_hash o = sha256 (arr_bytes key) /\ plaintext_hash o = sha256 data /\
    chacha key (nonce o) (ciphertext o) = Returned data.
Proof.
  intros Hk Hv. destruct (verified_sound keys p Hk Hv) as [stdin Hg].
  apply guest_execute_any in Hg as (key & n & data & _ & _ & Hg).
  apply guest_output_decrypts in Hg as (k & o & _ & Ho & Hph & Hpt & _ & Hc).
  by exists k, data, o.
Qed.
End SecrecyClaims.

Section OutboundClaims.
  Context `{Sp1Laws, !ChaCha20Laws, !ZkvmIoLaws, !BincodeLaws Anchor, !RunnerCodecs}.
  Context `{!BincodeTotal SP1ProofSetup, !BincodeLaws SP1ProofWithPublicValues}.
  Context `{Payload, !PayloadLaws} {Ev : Env} {f : Faults} {L : EnvLaws f} (E : gmap string string).

End OutboundClaims.

Section RoundTripClaims.
  Context `{Sp1Laws, !ChaCha20Laws, !ZkvmIoLaws, !BincodeLaws Anchor, !RunnerCodecs}.
  Context `{!BincodeTotal SP1ProofSetup, !BincodeLaws SP1ProofWithPublicValues}.
  Context `{Payload, !PayloadLaws} {Ev : Env} {L : EnvLaws no_faults} (E : gmap string string).

(** C14: round trip through the node. When nothing fails, the blob [b'] that a
    completed submit of [b] forwards is verified and decrypted, on its way back,
    to a blob with the same namespace whose data has the SHA-256 of the data of
    [b]: the data itself, unless two inputs with the same SHA-256 were sent. *)
Theorem submitted_blob_reads_back w b b' key :
  inv E (view w) -> ready (view w) b b' -> is_key E key ->
  exists d, snd (run (verify_decrypt_blob b' key) w) = Returned (Ok (blob_with_data b' d)) /\
    sha256 d = sha256 (blob_data b) /\ blob_namespace b' = blob_namespace b.
Proof.
  intros Hi Hr Hk. pose proof (ready_encrypts E _ b b' Hi Hr) as He.
  destruct (encrypts_decrypts E b b' key He Hk) as (d & Hd & Hs).
  destruct (wp_run no_faults _ _ w (lucky_wp no_faults E eq_refl eq_refl _ _ (view w) _ Hi (reflexivity _)
    (lucky_verify_decrypt_blob no_faults E b' _ key Hd Hk))) as (_ & _ & r & -> & ->).
  exists d. split_and!; [done..|]. by destruct He.
Qed.
End RoundTripClaims.
