(* ===== verification/Startup.v ===== *)
(** The start of the process, service/src/main.rs: the task that prepares the
    SP1 clients and the proof setup, and the loop that sends the jobs left in
    the queue by an earlier process to the worker again. *)

From S2P Require Import Prelude Format ZkvmCommon Guest Job Http Effects Environment.
From S2P Require Import Runner Invariant RunnerSafe Lifecycle Liveness.

Open Scope pda_scope.
Local Open Scope string_scope.

Section Startup.
  Context `{Platform}.

(** The task that prepares the clients and the setup; errors are dropped. *)
Definition prepare_clients : prog unit :=
  let* program_id := get_program_id in
  let* zk_client_local := get_zk_client_local in
  let* zk_client_remote := get_zk_client_remote in
  get_proof_setup_local program_id zk_client_local ;;
  get_proof_setup_remote program_id zk_client_remote ;;
  Ret tt.

(** The loop over [queue_db.iter().flatten()]. *)
Fixpoint restart_entries (entries : list (bytes * bytes)) : prog unit :=
  match entries with
  | [] => Ret tt
  | (job_key, queue_data) :: entries' =>
      let* job := lift (expect id "called `Result::unwrap()` on an `Err` value"
                          (deserialize (T := Job) job_key)) in
      match deserialize (T := JobStatus) queue_data with
      | Ok LocalZkProofPending | Ok (RemoteZkProofPending _) =>
          op (ChanSend (Some job)) ;; restart_entries entries'
      | _ => restart_entries entries'
      end
  end.

Definition restart_jobs : prog unit :=
  let* items := op (SledIter QueueDb) in restart_entries (omap result_ok items).

(** Whether the loop sends the job of an entry with this status. Specification. *)
Definition resent (st : JobStatus) : bool :=
  match st with LocalZkProofPending | RemoteZkProofPending _ => true | _ => false end.

(** The jobs the loop sends, and whether it got through all the entries. Specification. *)
Fixpoint restart_spec (entries : list (bytes * bytes)) : list Job * bool :=
  match entries with
  | [] => ([], true)
  | (k, b) :: entries' =>
      match deserialize (T := Job) k with
      | Err _ => ([], false)
      | Ok job =>
          let '(jobs, ok) := restart_spec entries' in
          (match deserialize (T := JobStatus) b with
           | Ok st => if resent st then job :: jobs else jobs
           | Err _ => jobs
           end, ok)
      end
  end.
End Startup.

(** What bincode's format promises about a struct of an [Anchor] and an [Input]:
    its encoding is the anchor's followed by the input's, which is not empty; a
    value is read from a prefix that is its encoding; and the encoding of an
    anchor is never a proper prefix of another's. *)
Class JobFormat `{Platform} : Prop := {
  job_encoding (j : Job) b : serialize j = Ok b ->
    exists ba bi, serialize (anchor j) = Ok ba /\ b = (ba ++ bi)%list /\ bi <> [];
  job_decoded k (j : Job) : deserialize k = Ok j ->
    exists b rest, serialize j = Ok b /\ k = (b ++ rest)%list;
  anchor_prefix (a a' : Anchor) b b' : serialize a = Ok b -> serialize a' = Ok b' ->
    b `prefix_of` b' -> b = b';
}.

Section StartupFacts.
  Context `{Sp1Facts} (f : Faults).

Lemma anchor_is_no_job `{!JobFormat} (a : Anchor) k :
  serialize a = Ok k -> exists e, deserialize (T := Job) k = Err e.
Proof.
  intros Ha. destruct (deserialize k) as [j|e] eqn:Hj; [|by exists e].
  apply job_decoded in Hj as (b & rest & Hb & Hk).
  apply job_encoding in Hb as (ba & bi & Hba & -> & Hne).
  assert (ba = k) as ->.
  { eapply anchor_prefix; [done..|]. exists (bi ++ rest)%list. by rewrite app_assoc. }
  rewrite <- app_assoc in Hk. apply (f_equal length) in Hk. rewrite !length_app in Hk.
  destruct bi; [done|]. simpl in Hk. lia.
Qed.

Lemma wp_restart_entries entries s :
  inbox_open s = true ->
  wp f (restart_entries entries) (fun s' r =>
    s' = set_tasks s (inbox s ++ (Some <$> fst (restart_spec entries)))%list (spawned s) (exited s) /\
    if snd (restart_spec entries) then r = Returned tt else exists msg, r = Panicked msg) s.
Proof.
  assert (forall s : Store, s = set_tasks s (inbox s ++ [])%list (spawned s) (exited s)) as Hid
    by (intros []; unfold set_tasks; simpl; by rewrite app_nil_r).
  revert s. induction entries as [|[k b] entries IH]; intros s Ho; [by split|].
  cbn [restart_entries restart_spec].
  destruct (deserialize (T := Job) k) as [job|e]; [|by split; [|eexists]].
  destruct (restart_spec entries) as [jobs ok]; cbn [fst snd] in *.
  assert (wp f (op (ChanSend (Some job)) ;; restart_entries entries) (fun s' r =>
    s' = set_tasks s (inbox s ++ (Some <$> job :: jobs))%list (spawned s) (exited s) /\
    if ok then r = Returned tt else exists msg, r = Panicked msg) s) as Hsend.
  { wp_step. simpl. rewrite Ho. intros [_ ->].
    eapply wp_mono; [|by apply IH]. intros s' r [-> Hr]. split; [|done].
    unfold set_tasks. simpl. by rewrite <- app_assoc. }
  cbn [expect lift bind].
  destruct (deserialize b) as [[]|]; cbn [resent fst snd]; try exact Hsend; by apply IH.
Qed.

Lemma wp_restart_jobs s :
  inbox_open s = true ->
  wp f restart_jobs (fun s' r => exists entries,
    entries ⊆+ map_to_list (queue_db s) /\
    (io_errors f = false -> entries ≡ₚ map_to_list (queue_db s)) /\
    s' = set_tasks s (inbox s ++ (Some <$> fst (restart_spec entries)))%list (spawned s) (exited s) /\
    if snd (restart_spec entries) then r = Returned tt else exists msg, r = Panicked msg) s.
Proof.
  intros Ho. unfold restart_jobs. wp_step. intros (-> & Hsub & Hperm).
  eapply wp_mono; [|by apply wp_restart_entries]. intros s' r [-> Hr].
  by exists (omap result_ok x).
Qed.

Lemma restart_spec_stuck E s entries `{!JobFormat} :
  inv E s -> entries ⊆+ map_to_list (queue_db s) -> entries <> [] ->
  restart_spec entries = ([], false).
Proof.
  intros Hi Hsub Hne. destruct entries as [|[k b] entries]; [done|]. cbn [restart_spec].
  assert (queue_db s !! k = Some b) as Hb.
  { apply elem_of_map_to_list. eapply elem_of_submseteq; [|exact Hsub]. by left. }
  destruct (inv_entries E s Hi QueueDb k b Hb) as ((a & Ha) & _).
  by destruct (anchor_is_no_job a k Ha) as [e ->].
Qed.
End StartupFacts.

(** ** Preparing the clients *)

Section Prepare.
  Context `{Sp1Facts, !RunnerCodecs, !BincodeTotal SP1ProofSetup} (E : gmap string string).

Lemma quiet_prepare_clients : quiet prepare_clients.
Proof.
  unfold prepare_clients.
  repeat first [apply quiet_get_program_id | apply quiet_get_zk_client_local
    | apply quiet_get_zk_client_remote | apply quiet_get_proof_setup_local
    | apply quiet_get_proof_setup_remote | done | apply quiet_bind; [|intros ?]].
Qed.

Lemma safe_prepare_clients G mb : safe E G mb prepare_clients (fun _ => True).
Proof.
  unfold prepare_clients.
  eapply (safe_call _ _ _ _ _ (fun _ => True)); [by apply safe_get_program_id| |done]. intros pid _.
  eapply (safe_call _ _ _ _ _ (fun _ => True)); [by apply safe_get_zk_client_local| |done]. intros c _.
  eapply (safe_call _ _ _ _ _ (fun _ => True)); [by apply safe_get_zk_client_remote| |done]. intros c' _.
  eapply safe_call; [apply safe_get_proof_setup_local| |done]. intros r _.
  by eapply safe_call; [apply safe_get_proof_setup_remote|..].
Qed.

(** Every stored setup can be read. *)
Definition readable (s : Store) : Prop :=
  forall k b, config_db s !! k = Some b -> exists st : SP1ProofSetup, deserialize b = Ok st.

Lemma inv_readable s : inv E s -> readable s.
Proof. intros Hi k b Hb. destruct (inv_entries E s Hi ConfigDb k b Hb) as (st & Hst & _). by exists st. Qed.

  Context (f : Faults) (io_ok : io_errors f = false).

(** A cell is filled by its initializer, once. *)
Lemma wp_get_or_init c init s :
  wp f init (fun s' r => s' = s /\ (client_errors f = false -> exists v, r = Returned v)) s ->
  wp f (get_or_init c init) (fun s' r => match r with
    | Returned v => cell_get s' c = Some v /\ (s' = s \/ s' = cell_put s c v)
    | Panicked _ => client_errors f = true
    end) s.
Proof.
  intros Hi. unfold get_or_init. wp_step. intros [-> ->].
  destruct (cell_get s c) as [v|] eqn:Hc; [by split; [|left]|].
  eapply wp_call; [exact Hi|..]; cbn beta.
  - intros s' v [-> _]. split; [done|]. intros s' v'. simpl. rewrite Hc. intros [-> ->].
    split; [by destruct c|by right].
  - intros s' msg [_ Hr]. destruct (client_errors f); [done|]. by destruct Hr.
Qed.

Lemma wp_build_local s :
  wp f (let* client := op BuildLocal in lift client)
    (fun s' r => s' = s /\ (client_errors f = false -> exists v, r = Returned v)) s.
Proof. wp_step. intros [-> Hx]. destruct x as [c|msg]; simpl; [by split; [|exists c]|done]. Qed.

Lemma wp_build_remote s :
  wp f (let* client := op BuildRemote in lift client)
    (fun s' r => s' = s /\ (client_errors f = false -> exists v, r = Returned v)) s.
Proof. wp_step. intros [-> Hx]. destruct x as [c|msg]; simpl; [by split; [|exists c]|done]. Qed.

(** A setup is read, or generated by the operation [so] and stored; the cell is
    left empty only when [so] was tried and failed, and then nothing changed. *)
Lemma wpt_setup id setup_op (so : Op) l s :
  readable s ->
  (forall l, wpt f setup_op (fun l' s' r => l' = (l ++ [so])%list /\ s' = s /\
     exists x, r = Returned x /\ (is_ok x = false -> client_errors f = true)) l s) ->
  wpt f (get_or_try_init CHACHA_SETUP (init_proof_setup id setup_op)) (fun l' s' r =>
    (exists x, r = Returned x) /\ l `prefix_of` l' /\
    cell_id s' = cell_id s /\ cell_local s' = cell_local s /\ cell_remote s' = cell_remote s /\
    (cell_setup s' = None -> s' = s /\ so ∈ l' /\ client_errors f = true)) l s.
Proof.
  intros Hread Hop. unfold get_or_try_init. split; [done|]. intros s1 x [-> ->]. simpl.
  destruct (cell_setup s) as [st|] eqn:Hc.
  { split_and!; try done; [by eexists|by apply prefix_app_r|congruence]. }
  split; [done|]. intros s1 x [-> [->|[? _]]]; [|congruence]. cbn [result_map_err bindR bind tree].
  destruct (config_db s !! arr_bytes id) as [b|] eqn:Hb.
  - destruct (Hread _ b Hb) as [st Hst]. simpl. rewrite Hst. simpl. split; [done|].
    intros s1 v. rewrite Hc. intros [-> ->].
    split_and!; try done; [by eexists|]. rewrite <- !app_assoc. by apply prefix_app_r.
  - apply wpt_bind. unfold bindR, map_err. apply wpt_bind, wpt_bind.
    eapply wpt_mono; [|apply Hop]. intros l' s1 r (-> & -> & x & -> & Hx).
    destruct x as [keys|e]; cbn [wpt result_map_err bind].
    + destruct (serialize_total (SP1ProofSetup_from keys)) as [v Hv]. simpl. rewrite Hv. simpl.
      split; [done|]. intros s1 y [[-> ->]|[[? _] _]]; [|congruence]. simpl. split; [done|].
      intros s2 v'. simpl. rewrite Hc. intros [-> ->].
      split_and!; try done; [by eexists|]. rewrite <- !app_assoc. by apply prefix_app_r.
    + split_and!; try done; [by eexists|rewrite <- !app_assoc; by apply prefix_app_r|].
      intros _. split_and!; [done| |by apply Hx]. apply elem_of_app. right. left.
Qed.

Lemma wpt_setup_local c l s :
  wpt f (op (SetupLocal c CHACHA_ELF)) (fun l' s' r => l' = (l ++ [SetupLocal c CHACHA_ELF])%list /\
    s' = s /\ exists x, r = Returned x /\ (is_ok x = false -> client_errors f = true)) l s.
Proof.
  split; [done|]. intros s' x (-> & Hx & _). split_and!; [done..|]. exists x. split; [done|].
  intros He. by destruct (Hx He).
Qed.

Lemma wpt_setup_remote c l s :
  wpt f (op (SetupRemote c CHACHA_ELF)) (fun l' s' r => l' = (l ++ [SetupRemote c CHACHA_ELF])%list /\
    s' = s /\ exists x, r = Returned x /\ (is_ok x = false -> client_errors f = true)) l s.
Proof.
  split; [done|]. intros s' x (-> & Hx & _). split_and!; [done..|]. exists x. split; [done|].
  intros He. by destruct (Hx He).
Qed.

(** The cells of a prepared process, and what was done for them. *)
Definition prepared (l : list Op) (s : Store) : Prop :=
  is_Some (cell_id s) /\ is_Some (cell_local s) /\ is_Some (cell_remote s) /\
  (cell_setup s = None -> client_errors f = true /\
     exists c c', SetupLocal c CHACHA_ELF ∈ l /\ SetupRemote c' CHACHA_ELF ∈ l).

Lemma wpt_prepare_clients l s :
  readable s ->
  wpt f prepare_clients (fun l' s' r => match r with
    | Returned _ => prepared l' s'
    | Panicked _ => client_errors f = true
    end) l s.
Proof.
  intros Hs. unfold prepare_clients.
  apply wpt_bind. eapply wpt_mono; [|apply wp_wpt, wp_get_or_init; by split; [|eexists]].
  intros l1 s1 [id|msg] [_ Hr]; [|done]. destruct Hr as [Hid Hs1].
  assert (readable s1) as Hs1r by (by destruct Hs1 as [->| ->]). clear Hs1.
  apply wpt_bind. eapply wpt_mono; [|apply wp_wpt, wp_get_or_init, wp_build_local].
  intros l2 s2 [c|msg] [_ Hr]; [|done]. destruct Hr as [Hc Hs2].
  assert (readable s2 /\ cell_id s2 = Some id) as [Hs2r Hid2] by (by destruct Hs2 as [->| ->]). clear Hs2.
  apply wpt_bind. eapply wpt_mono; [|apply wp_wpt, wp_get_or_init, wp_build_remote].
  intros l3 s3 [c'|msg] [_ Hr]; [|done]. destruct Hr as [Hc' Hs3].
  assert (readable s3 /\ cell_id s3 = Some id /\ cell_local s3 = Some c) as (Hs3r & Hid3 & Hc3)
    by (by destruct Hs3 as [->| ->]). clear Hs3. simpl in Hc'.
  apply wpt_bind. eapply wpt_mono; [|apply (wpt_setup _ _ (SetupLocal c CHACHA_ELF)); [done|intros; apply wpt_setup_local]].
  intros l4 s4 r ([x ->] & _ & Hid4 & Hl4 & Hr4 & Hn4).
  assert (cell_setup s4 = None -> readable s4) as Hs4r by (intros Hn; by destruct (Hn4 Hn) as [-> _]).
  apply wpt_bind. destruct (cell_setup s4) as [st|] eqn:Hst4.
  - split; [done|]. intros s5 y [-> ->]. simpl. rewrite Hst4. simpl.
    split_and!; rewrite ?Hid4, ?Hl4, ?Hr4, ?Hid3, ?Hc3, ?Hc'; [by eexists..|congruence].
  - destruct (Hn4 eq_refl) as (-> & Hin & Hcl).
    eapply wpt_mono; [|apply (wpt_setup _ _ (SetupRemote c' CHACHA_ELF)); [done|intros; apply wpt_setup_remote]].
    intros l5 s5 r ([y ->] & Hpre & Hid5 & Hl5 & Hr5 & Hn5). simpl.
    split_and!; rewrite ?Hid5, ?Hl5, ?Hr5, ?Hid3, ?Hc3, ?Hc'; [by eexists..|].
    intros Hn. split; [done|]. destruct (Hn5 Hn) as (_ & Hin' & _). exists c, c'. split; [|done].
    destruct Hpre as [k ->]. apply elem_of_app. by left.
Qed.
End Prepare.

(** ** Claims *)

Section StartupClaims.
  Context `{Sp1Facts} {Ev : Env} {f : Faults} {L : EnvLaws f} (E : gmap string string).

(** C26: functional. The restart loop sends, in the order of the iteration, the
    jobs with status [LocalZkProofPending] or [RemoteZkProofPending], and only
    those, up to the first key that is not a serialized [Job], where it panics.
    A job with status [RemoteZkProofRequesting] is never sent. *)
Theorem restart_sends w :
  inbox_open (view w) = true ->
  let r := run restart_jobs w in
  exists entries, entries ⊆+ map_to_list (queue_db (view w)) /\
    (io_errors f = false -> entries ≡ₚ map_to_list (queue_db (view w))) /\
    queue_db (view (fst r)) = queue_db (view w) /\
    inbox (view (fst r)) = (inbox (view w) ++ (Some <$> fst (restart_spec entries)))%list /\
    if snd (restart_spec entries) then snd r = Returned tt else exists msg, snd r = Panicked msg.
Proof.
  intros Ho r. destruct (wp_run f _ _ w (wp_restart_jobs f (view w) Ho))
    as (entries & ? & ? & Hs & ?). exists entries. subst r. by rewrite Hs.
Qed.

(** C24: error. The queue's keys are serialized anchors, and the loop reads them
    as serialized jobs: with any unfinished job in the queue the process panics
    at its start, before it accepts a connection, and sends nothing. *)
Theorem restart_panics w `{!JobFormat} :
  io_errors f = false -> inbox_open (view w) = true -> inv E (view w) -> queue_db (view w) <> ∅ ->
  (exists msg, snd (run restart_jobs w) = Panicked msg) /\
  inbox (view (fst (run restart_jobs w))) = inbox (view w).
Proof.
  intros Hio Ho Hi Hne. destruct (wp_run f _ _ w (wp_restart_jobs f (view w) Ho))
    as (entries & Hsub & Hperm & Hs & Hr).
  assert (entries <> []) as He.
  { intros ->. specialize (Hperm Hio). symmetry in Hperm. apply Permutation_nil_r in Hperm.
    by apply map_to_list_empty_iff in Hperm. }
  rewrite (restart_spec_stuck E (view w) entries Hi Hsub He) in Hs, Hr.
  rewrite Hs. split; [done|]. simpl. by rewrite app_nil_r.
Qed.
End StartupClaims.

Section PrepareClaims.
  Context `{Sp1Facts, !RunnerCodecs, !BincodeTotal SP1ProofSetup} {Ev : Env} {f : Faults} {L : EnvLaws f}.
  Context (E : gmap string string) (io_ok : io_errors f = false).

End PrepareClaims.
