(* ===== verification/Concurrency.v ===== *)
(** Interleavings. The tokio tasks of the service are programs over one world;
    the scheduler lets them perform their operations one at a time in any order,
    and a [SpawnProve] starts a task of its own. The invariant of Invariant.v
    and what it says about returned proofs hold under every schedule. *)

From S2P Require Import Prelude Format ZkvmCommon Guest Job Http Effects Environment.
From S2P Require Import Runner Invariant RunnerSafe Lifecycle Liveness Json Proxy.
From S2P Require Import ProxyFacts Submit Startup.

Open Scope pda_scope.
Local Open Scope string_scope.

Section Pools.
  Context `{Platform, Payload} {Ev : Env} (self : PdaRunner).

(** What a task leaves behind: the answer to a request for [job], the response
    to a client, or nothing. *)
Inductive TaskResult : Type :=
| Answer (job : Job) (r : result (option SP1ProofWithPublicValues) PdaRunnerError)
| Reply (r : Response bytes)
| Done.

(** The tasks of the service: a client's request, a request for a job's proof
    alone, a spawned step of a job, the worker loop, the shutdown hook, the task
    that prepares the clients and the loop that restarts jobs. *)
Definition connection_task (socket : string) (req : Request Incoming) : prog TaskResult :=
  let* r := handle_request socket req in Ret (Reply r).

Definition request_task (job : Job) : prog TaskResult :=
  let* r := get_verifiable_encryption job in Ret (Answer job r).

Definition prove_task (job : Job) : prog TaskResult := prove self job ;; Ret Done.

Definition worker_task (fuel : nat) : prog TaskResult := job_worker fuel ;; Ret Done.

Definition shutdown_task : prog TaskResult := shutdown ;; Ret Done.

Definition prepare_task : prog TaskResult := prepare_clients ;; Ret Done.

Record Pool : Type := { world : World; tasks : list (prog TaskResult) }.

(** Whether an operation can go on now; [recv] waits for a message. *)
Definition is_enabled (o : Op) (s : Store) : bool :=
  match o with
  | ChanRecv => match inbox s with [] => false | _ => true end
  | _ => true
  end.

(** The task an operation starts. *)
Definition spawned_task (o : Op) : list (prog TaskResult) :=
  match o with SpawnProve job => [prove_task job] | _ => [] end.

(** Task [i] performs its next operation. Nothing happens when it has ended,
    waits, or the process has exited. *)
Definition pool_step (pl : Pool) (i : nat) : Pool :=
  match exited (view (world pl)), tasks pl !! i with
  | None, Some (Vis o k) =>
      if is_enabled o (view (world pl))
      then let r := handle o (world pl) in
           {| world := fst r;
              tasks := <[i := k (snd r)]> (tasks pl) ++ spawned_task o |}
      else pl
  | _, _ => pl
  end.

(** A schedule is the sequence of tasks that step. *)
Definition run_schedule (schedule : list nat) (pl : Pool) : Pool := foldl pool_step pl schedule.

Lemma is_enabled_spec o s : is_enabled o s = true -> enabled o s.
Proof. destruct o; simpl; try done. by destruct (inbox s). Qed.

(** A turn does nothing, or performs one operation. *)
Lemma pool_step_cases pl i :
  pool_step pl i = pl \/
  exists o k, exited (view (world pl)) = None /\ tasks pl !! i = Some (Vis o k) /\
    enabled o (view (world pl)) /\
    pool_step pl i =
      {| world := fst (handle o (world pl));
         tasks := <[i := k (snd (handle o (world pl)))]> (tasks pl) ++ spawned_task o |}.
Proof.
  unfold pool_step. destruct (exited _); [by left|].
  destruct (tasks pl !! i) as [[| |o k]|]; try by left.
  destruct (is_enabled o _) eqn:He; [right|by left].
  exists o, k. split_and!; try done. by apply is_enabled_spec.
Qed.
End Pools.

Section Interleaving.
  Context `{Sp1Facts, !RunnerCodecs, Payload, !PayloadLaws} {Ev : Env} {f : Faults} {L : EnvLaws f}.
  Context (self : PdaRunner) (E : gmap string string) (G : Request bytes -> Prop).

(** What a finished task's answer promises. *)
Definition task_ok (r : outcome TaskResult) : Prop :=
  forall job p, r = Returned (Answer job (Ok (Some p))) ->
    exists k, serialize (anchor job) = Ok k /\ proof_for E k p.

Definition pool_ok (pl : Pool) : Prop :=
  inv E (view (world pl)) /\ Forall G (forwarded (view (world pl))) /\
  Forall (fun t => safe E G true t task_ok) (tasks pl).

Lemma request_task_safe job : anchored job -> safe E G true (request_task job) task_ok.
Proof.
  intros Hj. unfold request_task.
  eapply safe_call; [by apply safe_get_verifiable_encryption| |done].
  intros r Hr job' p [= <- ->]. by apply Hr.
Qed.

Lemma prove_task_safe job : anchored job -> safe E G true (prove_task self job) task_ok.
Proof. intros Hj. by eapply safe_call; [by apply safe_prove|..]. Qed.

Lemma worker_task_safe fuel : safe E G true (worker_task fuel) task_ok.
Proof. by eapply safe_call; [by apply safe_job_worker|..]. Qed.

Lemma shutdown_task_safe : safe E G true shutdown_task task_ok.
Proof. by eapply safe_call; [by apply safe_shutdown|..]. Qed.

Lemma prepare_task_safe : safe E G true prepare_task task_ok.
Proof. by eapply safe_call; [by apply safe_prepare_clients|..]. Qed.

Lemma connection_task_safe socket req :
  (forall uri out, uri_parse (upstream_uri E socket req) = Ok uri -> has_bearer req = true ->
    forwards (encrypts E) (with_uri req uri) out -> G out) ->
  safe E G true (connection_task socket req) task_ok.
Proof. intros HG. by eapply safe_call; [by apply safe_handle_request|..]. Qed.

Lemma pool_step_ok pl i : pool_ok pl -> pool_ok (pool_step self pl i).
Proof.
  intros (Hinv & Hlog & Hts). unfold pool_step.
  destruct (exited _); [done|]. destruct (tasks pl !! i) as [[| |o k]|] eqn:Hi; try done.
  destruct (is_enabled o _) eqn:He; [|done].
  pose proof (Forall_lookup_1 _ _ _ _ Hts Hi) as (_ & Hn & Hg & Hk).
  pose proof (handle_post o (world pl) (is_enabled_spec _ _ He)) as Hp.
  destruct (op_inv E _ _ _ _ _ Hinv Hg Hp) as [Hinv' Hx].
  split; [done|]. split; [by eapply op_sends_ok|]. apply Forall_app. split.
  - apply Forall_insert; [done|]. by apply Hk.
  - destruct o; try done. simpl. constructor; [|done]. by apply prove_task_safe.
Qed.

Lemma run_schedule_ok schedule pl : pool_ok pl -> pool_ok (run_schedule self schedule pl).
Proof.
  revert pl. induction schedule as [|i sch IH]; intros pl Hpl; [done|].
  by apply IH, pool_step_ok.
Qed.
End Interleaving.

Section Claims.
  Context `{Sp1Laws, !ChaCha20Laws, !ZkvmIoLaws, !BincodeLaws Anchor, !RunnerCodecs}.
  Context `{!BincodeLaws SP1ProofWithPublicValues, Payload, !PayloadLaws}.
  Context {Ev : Env} {f : Faults} {L : EnvLaws f} (self : PdaRunner) (E : gmap string string).
  Context (socket : string) (clients : list (Request Incoming)).

(** A task the service runs, for the requests of [clients]. *)
Inductive service_task : prog TaskResult -> Prop :=
| is_connection req : req ∈ clients -> service_task (connection_task socket req)
| is_request job : anchored job -> service_task (request_task job)
| is_prove job : anchored job -> service_task (prove_task self job)
| is_worker fuel : service_task (worker_task fuel)
| is_shutdown : service_task shutdown_task
| is_prepare : service_task prepare_task.

(** A message that was sent before, or that is forwarded for one of the
    clients' requests. *)
Definition sent_by_clients (before : list (Request bytes)) (out : Request bytes) : Prop :=
  out ∈ before \/
  exists req uri, req ∈ clients /\ has_bearer req = true /\
    uri_parse (upstream_uri E socket req) = Ok uri /\ forwards (encrypts E) (with_uri req uri) out.

Lemma service_pool_ok w ts :
  inv E (view w) -> Forall service_task ts ->
  pool_ok E (sent_by_clients (forwarded (view w))) {| world := w; tasks := ts |}.
Proof.
  intros Hw Hts. split; [done|]. split; [apply Forall_forall; intros out Hout; by left|].
  eapply Forall_impl; [exact Hts|].
  intros t [req Hr|job Hj|job Hj|fuel| |].
  - apply connection_task_safe. intros uri out Hu Hb Hf. right. by exists req, uri.
  - by apply request_task_safe.
  - by apply prove_task_safe.
  - apply worker_task_safe.
  - apply shutdown_task_safe.
  - apply prepare_task_safe.
Qed.

(** The pool after a schedule. *)
Definition pool_after (w : World) (ts : list (prog TaskResult)) (schedule : list nat) : Pool :=
  run_schedule self schedule {| world := w; tasks := ts |}.

Lemma pool_after_ok w ts schedule :
  inv E (view w) -> Forall service_task ts ->
  pool_ok E (sent_by_clients (forwarded (view w))) (pool_after w ts schedule).
Proof. intros Hw Hts. exact (run_schedule_ok self E _ schedule _ (service_pool_ok w ts Hw Hts)). Qed.

(** C2: secrecy under every interleaving. Whatever the requests, the worker, the
    proving tasks and the shutdown hook do in between, and whatever fails, each
    message sent to the node is forwarded for a client's request that carries a
    bearer token, and if that request calls [blob.Submit], every blob in the
    message is a proof that seals the SHA-256 of the client's data under the
    configured key: no submitted plaintext leaves the proxy. *)
Theorem interleaving_forwards w ts schedule out :
  inv E (view w) -> Forall service_task ts ->
  out ∈ forwarded (view (world (pool_after w ts schedule))) ->
  out ∈ forwarded (view w) \/
  exists req uri, req ∈ clients /\ has_bearer req = true /\
    uri_parse (upstream_uri E socket req) = Ok uri /\
    forwards (sealed_blob E) (with_uri req uri) out.
Proof.
  intros Hw Hts Hout. destruct (pool_after_ok w ts schedule Hw Hts) as (_ & Hlog & _).
  rewrite Forall_forall in Hlog.
  destruct (Hlog out Hout) as [Hb|(req & uri & Hr & Hb & Hu & Hf)]; [by left|right].
  exists req, uri. split_and!; try done. eapply forwards_mono; [|exact Hf]. apply encrypts_sealed.
Qed.

(** C6: under every interleaving of requests, proving tasks, the worker and
    the shutdown hook, with a database and an SP1 client that may fail at any
    point, the queue only ever holds pending statuses and the finished tree
    only proofs, permanent failures and failures with a pending status to
    retry from: the branches of the runner for an invalid database are dead. *)
Theorem interleaving_statuses w ts schedule k b :
  inv E (view w) -> Forall service_task ts ->
  let s := view (world (pool_after w ts schedule)) in
  (queue_db s !! k = Some b -> exists st, deserialize b = Ok st /\ is_pending st = true) /\
  (finished_db s !! k = Some b -> exists st, deserialize b = Ok st /\ is_final st = true).
Proof.
  intros Hw Hts s. destruct (pool_after_ok w ts schedule Hw Hts) as [Hi _].
  split; intros Hb.
  - destruct (inv_entries E _ Hi QueueDb k b Hb) as (_ & st & Hst & Hok).
    exists st. eauto using queue_ok_pending.
  - destruct (inv_entries E _ Hi FinishedDb k b Hb) as (st & Hst & Hok).
    exists st. eauto using finished_ok_final.
Qed.

(** C4: under every interleaving, a proof a request is answered with belongs
    to the requested data: its public values parse, carry the SHA-256 of the
    data and of the configured key, and decrypt under that key to data with
    that SHA-256. *)
Theorem interleaving_answers w ts schedule i job p :
  inv E (view w) -> Forall service_task ts -> anchored job ->
  tasks (pool_after w ts schedule) !! i = Some (Ret (Answer job (Ok (Some p)))) ->
  seals E p (sha256 (input_data (input job))).
Proof.
  intros Hw Hts Hj Hi. destruct (pool_after_ok w ts schedule Hw Hts) as (_ & _ & Hall).
  pose proof (Forall_lookup_1 _ _ _ _ Hall Hi) as Hok.
  destruct (Hok job p eq_refl) as (k & Hk & Hp). by eapply proof_for_seals.
Qed.
End Claims.

(** ** The worker and the shutdown hook *)

Section Worker.
  Context `{Sp1Facts}.

Lemma wp_job_worker f jobs rest fuel s :
  inbox s = ((Some <$> jobs) ++ None :: rest)%list -> length jobs < fuel ->
  wp f (job_worker fuel) (fun s' r => r = Returned tt /\
    s' = set_tasks s rest (spawned s ++ jobs)%list (Some 0%Z)) s.
Proof.
  revert fuel s. induction jobs as [|job jobs IH]; intros [|fuel] s Hin Hf; simpl in *; try lia.
  - split; [by rewrite Hin|]. intros s1 m (x & rest' & Hin' & -> & ->).
    rewrite Hin in Hin'. injection Hin' as <- <-.
    split; [done|]. intros s2 r2 [-> _]. split; [done|]. intros s3 r3 [-> _]. split; [done|].
    intros s4 [] ->. split; [done|]. unfold set_tasks. simpl. by rewrite app_nil_r.
  - split; [by rewrite Hin|]. intros s1 m (x & rest' & Hin' & -> & ->).
    rewrite Hin in Hin'. injection Hin' as <- <-.
    split; [done|]. intros s2 [] ->. eapply wp_mono; [|apply IH; [done|lia]].
    intros s' r [-> ->]. split; [done|]. unfold set_tasks. simpl. by rewrite <- app_assoc.
Qed.

(** What the worker performs for the jobs it starts, and to end the process. *)
Definition starts_op (job : Job) : list Op := [ChanRecv; SpawnProve job].
Definition ending_ops : list Op := [ChanRecv; SledFlush QueueDb; SledFlush FinishedDb; ProcessExit 0].

Lemma wpt_job_worker f jobs rest fuel l s :
  inbox s = ((Some <$> jobs) ++ None :: rest)%list -> length jobs < fuel ->
  wpt f (job_worker fuel) (fun l' _ _ => l' = (l ++ (jobs ≫= starts_op) ++ ending_ops)%list) l s.
Proof.
  revert fuel l s. induction jobs as [|job jobs IH]; intros [|fuel] l s Hin Hf; simpl in *; try lia.
  - split; [by rewrite Hin|]. intros s1 m (x & rest' & Hin' & -> & ->).
    rewrite Hin in Hin'. injection Hin' as <- <-.
    split; [done|]. intros s2 r2 [-> _]. split; [done|]. intros s3 r3 [-> _]. split; [done|].
    intros s4 [] ->. by rewrite <- !app_assoc.
  - split; [by rewrite Hin|]. intros s1 m (x & rest' & Hin' & -> & ->).
    rewrite Hin in Hin'. injection Hin' as <- <-.
    split; [done|]. intros s2 [] ->. eapply wpt_mono; [|apply IH; [done|lia]].
    intros l' _ _ ->. by rewrite <- !app_assoc.
Qed.

  Context {Ev : Env} {f : Faults} {L : EnvLaws f}.

(** C28: termination and order. The worker starts one task for each job sent
    before the shutdown message, in the order they were sent, then flushes the
    queue and the finished tree and ends the process with code 0, and performs
    nothing else; jobs sent after the message are not started. It returns after
    as many messages, whatever the flushes answer. *)
Theorem worker_drains w jobs rest fuel :
  inbox (view w) = ((Some <$> jobs) ++ None :: rest)%list -> length jobs < fuel ->
  let r := run (job_worker fuel) w in
  trace (job_worker fuel) w = ((jobs ≫= starts_op) ++ ending_ops)%list /\
  snd r = Returned tt /\ spawned (view (fst r)) = (spawned (view w) ++ jobs)%list /\
  exited (view (fst r)) = Some 0%Z /\ inbox (view (fst r)) = rest /\
  queue_db (view (fst r)) = queue_db (view w) /\
  finished_db (view (fst r)) = finished_db (view w).
Proof.
  intros Hin Hf r. split; [exact (wpt_run f _ _ [] w (wpt_job_worker f jobs rest fuel [] _ Hin Hf))|].
  destruct (wp_run f _ _ w (wp_job_worker f jobs rest fuel _ Hin Hf)) as [Hr Hs].
  subst r. by rewrite Hs.
Qed.
End Worker.
