(* ===== verification/Traces.v ===== *)
(** The operations of a task, in order. [only] says which operations a program
    can perform at all; [Event] and [log] record what a schedule makes the tasks
    do. A task that is scheduled without interruption does what [run] says, so
    the theorems about programs run alone and those about interleavings speak of
    the same machine. *)

From S2P Require Import Prelude Format ZkvmCommon Guest Job Http Effects Environment.
From S2P Require Import Runner Invariant RunnerSafe Lifecycle Liveness Json Proxy.
From S2P Require Import ProxyFacts Submit Startup Concurrency.

Open Scope pda_scope.
Local Open Scope string_scope.

(** ** What a program can do *)

Section Only.
  Context `{Platform}.

(** Every operation of [p], whatever the answers, satisfies [ok]. *)
Fixpoint only (ok : Op -> bool) {A} (p : prog A) : Prop :=
  match p with
  | Ret _ | Panic _ => True
  | Vis o k => ok o = true /\ forall x, only ok (k x)
  end.

(** A transaction that moves a job from one tree to the other. *)
Definition tidy (body : list TxOp) : bool :=
  match body with
  | [TxRemove QueueDb k; TxInsert FinishedDb k' _] => bool_decide (k = k')
  | [TxRemove FinishedDb k; TxInsert QueueDb k' _] => bool_decide (k = k')
  | _ => false
  end.

(** What the runner does for a job: its two transactions, nothing of the worker
    loop, no shutdown message, nothing sent to the node. *)
Definition prover_op (o : Op) : bool :=
  match o with
  | ChanRecv | ChanSend None | SpawnProve _ | ProcessExit _ | DaRequest _ => false
  | SledTransaction body => tidy body
  | _ => true
  end.

(** What answering a request takes, but for the message to the node: no nonce is
    drawn and nothing is given to a prover. *)
Definition request_op (o : Op) : bool :=
  match o with
  | OsRngFill _ | ProveLocal _ _ _ | RequestRemote _ _ _ _ _ _ | WaitProof _ _ _ => false
  | _ => prover_op o
  end.

(** What a task other than the worker and the shutdown hook does. *)
Definition calm_op (o : Op) : bool :=
  match o with DaRequest _ => true | _ => prover_op o end.

(** What a task other than the worker does. *)
Definition plain_op (o : Op) : bool :=
  match o with ChanRecv | SpawnProve _ | ProcessExit _ => false | _ => true end.

Lemma only_mono (ok ok' : Op -> bool) {A} (p : prog A) :
  (forall o, ok o = true -> ok' o = true) -> only ok p -> only ok' p.
Proof. intros Hok. induction p as [a|msg|o k IH]; simpl; try done. intros [Ho Hk]. auto. Qed.

Lemma only_bind ok {A B} (p : prog A) (g : A -> prog B) :
  only ok p -> (forall a, only ok (g a)) -> only ok (bind p g).
Proof.
  intros Hp Hg. induction p as [a|msg|o k IH]; simpl in *; [apply Hg|done|].
  destruct Hp as [Ho Hk]. auto.
Qed.

Lemma only_bindR ok {A B Er} (p : prog (result A Er)) (g : A -> prog (result B Er)) :
  only ok p -> (forall a, only ok (g a)) -> only ok (bindR p g).
Proof. intros Hp Hg. apply only_bind; [done|]. by intros []. Qed.

Lemma only_map_err ok {A Er Fr} (g : Er -> Fr) (p : prog (result A Er)) :
  only ok p -> only ok (map_err g p).
Proof. intros Hp. by apply only_bind. Qed.

Lemma only_op ok o : ok o = true -> only ok (op o).
Proof. by split. Qed.

Lemma only_lift ok {A} (o : outcome A) : only ok (lift o).
Proof. by destruct o. Qed.

Lemma request_prover o : request_op o = true -> prover_op o = true.
Proof. by destruct o. Qed.

Lemma prover_calm o : prover_op o = true -> calm_op o = true.
Proof. by destruct o. Qed.

Lemma prover_plain o : prover_op o = true -> plain_op o = true.
Proof. by destruct o. Qed.

Lemma request_plain o : request_op o = true -> plain_op o = true.
Proof. by destruct o. Qed.
End Only.

Create HintDb only.

(** Decides [only] of a program built from known pieces. *)
Ltac solve_only :=
  repeat first
    [ done | solve [eauto with only nocore]
    | apply only_bindR; [|intros ?] | apply only_bind; [|intros ?]
    | apply only_map_err | apply only_lift
    | apply only_op; first [done | by apply bool_decide_eq_true_2]
    | case_match ].

Section Programs.
  Context `{Platform, Payload}.

Lemma only_env_expect name msg : only request_op (env_expect name msg).
Proof. unfold env_expect. solve_only. Qed.

Lemma only_get_zk_client_local : only request_op get_zk_client_local.
Proof. unfold get_zk_client_local, get_or_init. solve_only. Qed.

Lemma only_get_zk_client_remote : only request_op get_zk_client_remote.
Proof. unfold get_zk_client_remote, get_or_init. solve_only. Qed.

Lemma only_get_program_id : only request_op get_program_id.
Proof. unfold get_program_id, get_or_init. solve_only. Qed.

Lemma only_get_proof_setup_local id c : only request_op (get_proof_setup_local id c).
Proof. unfold get_proof_setup_local, get_or_try_init, init_proof_setup. solve_only. Qed.

Lemma only_get_proof_setup_remote id c : only request_op (get_proof_setup_remote id c).
Proof. unfold get_proof_setup_remote, get_or_try_init, init_proof_setup. solve_only. Qed.

Lemma only_read_encryption_key : only request_op read_encryption_key.
Proof. unfold read_encryption_key, env_expect. solve_only. Qed.

Lemma only_finalize_job k st : only request_op (finalize_job k st).
Proof. unfold finalize_job. solve_only. Qed.

Lemma only_send_job k st job : only request_op (send_job_with_new_status k st job).
Proof. unfold send_job_with_new_status. solve_only. Qed.

Lemma only_get_verifiable_encryption job : only request_op (get_verifiable_encryption job).
Proof.
  unfold get_verifiable_encryption, env_expect.
  repeat first [ apply only_send_job | progress solve_only ].
Qed.

Lemma only_handle_zk_client_error e job k : only request_op (handle_zk_client_error e job k).
Proof.
  unfold handle_zk_client_error.
  destruct e; (apply only_bind; [apply only_finalize_job|by intros []]).
Qed.

Lemma only_map_client_error {A} job k (r : result A AnyhowError) :
  only request_op (map_client_error job k r).
Proof.
  unfold map_client_error. destruct r as [a|e]; [done|]. destruct (downcast_ref e); [|done].
  apply only_bind; [apply only_handle_zk_client_error|done].
Qed.

Lemma only_prepare_clients : only request_op prepare_clients.
Proof.
  unfold prepare_clients.
  repeat first [ apply only_get_program_id | apply only_get_zk_client_local
    | apply only_get_zk_client_remote | apply only_get_proof_setup_local
    | apply only_get_proof_setup_remote | done | apply only_bind; [|intros ?] ].
Qed.

  (** ** The proxy *)

Lemma only_encrypt_blobs blobs : only request_op (encrypt_blobs blobs).
Proof.
  induction blobs as [|blob blobs IH]; [done|]. simpl. apply only_bindR.
  - apply only_map_err, only_get_verifiable_encryption.
  - intros [p|]; [|done]. solve_only.
Qed.

Lemma only_inbound_handler req m : only request_op (inbound_handler req m).
Proof.
  unfold inbound_handler. repeat case_match; try done. apply only_bind; [|done].
  unfold intercept_submit. repeat case_match; try done. solve_only.
  apply only_encrypt_blobs.
Qed.

Lemma only_verify_decrypt_blob blob key : only request_op (verify_decrypt_blob blob key).
Proof.
  unfold verify_decrypt_blob, extract_verified_proof_output.
  repeat first [ apply only_get_program_id | apply only_get_zk_client_local
    | apply only_get_proof_setup_local | progress solve_only ].
Qed.

Lemma only_decrypt_values values key : only request_op (decrypt_values values key).
Proof.
  induction values as [|v values IH]; [done|]. simpl. apply only_bindR; [done|]. intros blob.
  apply only_bindR; [apply only_verify_decrypt_blob|]. intros b. solve_only.
Qed.

Lemma only_outbound_handler resp m : only request_op (outbound_handler resp m).
Proof.
  unfold outbound_handler, try_mutate_response.
  repeat first [ apply only_read_encryption_key | apply only_verify_decrypt_blob
    | apply only_decrypt_values | progress solve_only ].
Qed.

(** At most [n] messages to the node. *)
Fixpoint sends_at_most (n : nat) {A} (p : prog A) : Prop :=
  match p with
  | Ret _ | Panic _ => True
  | Vis o k =>
      match o return (ans o -> prog A) -> Prop with
      | DaRequest _ => fun k => match n with O => False | S m => forall x, sends_at_most m (k x) end
      | _ => fun k => forall x, sends_at_most n (k x)
      end k
  end.

Lemma sends_at_most_le n m {A} (p : prog A) : n <= m -> sends_at_most n p -> sends_at_most m p.
Proof.
  revert n m. induction p as [a|msg|o k IH]; intros n m Hnm; simpl; try done.
  destruct o; try (intros Hk x; by eapply IH). destruct n, m; try done; [lia|].
  intros Hk x. eapply IH; [|apply Hk]. lia.
Qed.

Lemma sends_at_most_bind n m {A B} (p : prog A) (g : A -> prog B) :
  sends_at_most n p -> (forall a, sends_at_most m (g a)) -> sends_at_most (n + m) (bind p g).
Proof.
  revert n. induction p as [a|msg|o k IH]; intros n Hp Hg; simpl in *; try done.
  - eapply sends_at_most_le; [|apply Hg]. lia.
  - destruct o; try (intros x; by apply IH). destruct n; [done|]. intros x. by apply IH.
Qed.

Lemma only_silent {A} (p : prog A) : only request_op p -> sends_at_most 0 p.
Proof.
  induction p as [a|msg|o k IH]; simpl; try done. intros [Ho Hk]. destruct o; try done; auto.
Qed.

(** A request sends one message at most. *)
Lemma handle_request_sends socket req : sends_at_most 1 (handle_request socket req).
Proof.
  unfold handle_request. simpl. intros x.
  destruct (uri_parse _) as [uri|e]; [|done]. simpl. case_match; [done|].
  apply (sends_at_most_bind 0 1); [apply only_silent, only_inbound_handler|].
  intros [[[out|]|e] m]; [|done|by destruct (internal_error_response e)].
  intros [resp|e]; [|by destruct (internal_error_response _)].
  apply (sends_at_most_bind 0 0); [apply only_silent, only_outbound_handler|].
  intros [r|e]; [done|by destruct (internal_error_response _)].
Qed.

(** Apart from the message to the node, a request only does [request_op]s. *)
Lemma only_handle_request (ok : Op -> bool) socket req :
  (forall o, request_op o = true -> ok o = true) -> (forall out, ok (DaRequest out) = true) ->
  only ok (handle_request socket req).
Proof.
  intros Hok Hda. unfold handle_request. simpl. split; [by apply Hok|]. intros x.
  destruct (uri_parse _) as [uri|e]; [|done]. simpl. case_match; [done|].
  apply only_bind; [eapply only_mono; [apply Hok|apply only_inbound_handler]|].
  intros [[[out|]|e] m]; [|done|by apply only_lift]. split; [apply Hda|].
  intros [resp|e]; [|by apply only_lift].
  apply only_bind; [eapply only_mono; [apply Hok|apply only_outbound_handler]|].
  intros [r|e]; [done|by apply only_lift].
Qed.

  (** ** The prover *)

Lemma only_request_prover {A} (p : prog A) : only request_op p -> only prover_op p.
Proof. apply only_mono, request_prover. Qed.

Lemma only_prepare_stdin job : only prover_op (prepare_stdin job).
Proof.
  unfold prepare_stdin. apply only_bind; [apply only_request_prover, only_read_encryption_key|].
  intros key. unfold util_random_nonce. solve_only.
Qed.

(** Work on a proof that touches no job. *)
Definition still_op (o : Op) : bool := prover_op o && op_quiet o.

Lemma only_still {A} (p : prog A) : only prover_op p -> quiet p -> only still_op p.
Proof.
  induction p as [a|msg|o k IH]; simpl; try done. intros [Ho Hk] [Hq Hqk].
  split; [|auto]. unfold still_op. by rewrite Ho, Hq.
Qed.

(** A step of a job does nothing but such work and its two transactions. *)
Lemma only_prove_by (ok : Op -> bool) self job :
  (forall o, still_op o = true -> ok o = true) ->
  (forall k st, only ok (finalize_job k st)) ->
  (forall k id, only ok (send_job_with_new_status k (RemoteZkProofPending id) job)) ->
  only ok (prove self job).
Proof.
  intros Hstill Hfin Hsend.
  assert (forall A (p : prog A), only prover_op p -> quiet p -> only ok p) as Hp
    by (intros A p Ho Hq; eapply only_mono; [exact Hstill|by apply only_still]).
  assert (forall A k (r : result A AnyhowError), only ok (map_client_error job k r)) as Herr.
  { intros A k [a|e]; [done|]. unfold map_client_error. destruct (downcast_ref e) as [down|]; [|done].
    apply only_bind; [|done]. unfold handle_zk_client_error.
    destruct down; (apply only_bind; [apply Hfin|by intros []]). }
  unfold prove. apply only_bindR; [done|intros k].
  apply only_bindR; [apply only_map_err, only_op, Hstill; done|intros [b|]; [|done]].
  apply only_bindR; [done|intros st]. destruct st; try done.
  - apply only_bind; [apply Hp; [apply only_request_prover, only_get_program_id|apply quiet_get_program_id]|intros id].
    apply only_bind; [|intros [p|e]; [|done]; apply only_bindR; [apply Hfin|done]]. unfold zk_proof_local.
    apply only_bind; [apply Hp; [apply only_request_prover, only_get_zk_client_local|apply quiet_get_zk_client_local]|intros c].
    apply only_bindR; [apply Hp; [apply only_request_prover, only_get_proof_setup_local|apply quiet_get_proof_setup_local]|intros s].
    apply only_bind; [apply Hp; [apply only_prepare_stdin|apply quiet_prepare_stdin]|intros stdin].
    apply only_bind; [by apply only_op, Hstill|intros r]. by apply only_bindR.
  - apply only_bind; [apply Hp; [apply only_request_prover, only_get_program_id|apply quiet_get_program_id]|intros id].
    apply only_bind; [|intros [p|e]; [|done]; apply only_bindR; [apply Hsend|done]]. unfold zk_proof_remote.
    apply only_bind; [apply Hp; [apply only_request_prover, only_get_zk_client_remote|apply quiet_get_zk_client_remote]|intros c].
    apply only_bindR; [apply Hp; [apply only_request_prover, only_get_proof_setup_remote|apply quiet_get_proof_setup_remote]|intros s].
    apply only_bind; [apply Hp; [apply only_request_prover, only_env_expect|apply quiet_env_expect]|intros fs].
    apply only_bindR; [done|intros strategy].
    apply only_bind; [apply Hp; [apply only_prepare_stdin|apply quiet_prepare_stdin]|intros stdin].
    apply only_bind; [by apply only_op, Hstill|intros r]. by apply only_bindR.
  - apply only_bind; [|intros [p|e]; [|done]; apply only_bindR; [apply Hfin|done]]. unfold wait_for_zk_proof.
    apply only_bind; [apply Hp; [apply only_request_prover, only_get_zk_client_remote|apply quiet_get_zk_client_remote]|intros c].
    apply only_bind; [by apply only_op, Hstill|intros r]. by apply only_bindR.
Qed.

Lemma only_prove self job : only prover_op (prove self job).
Proof.
  apply only_prove_by; [by intros o [? _]%andb_prop|..]; intros.
  - apply only_request_prover, only_finalize_job.
  - apply only_request_prover, only_send_job.
Qed.
End Programs.

(** ** What a schedule does *)

(** An operation that was performed, with its answer. *)
Inductive Event `{Platform} : Type := did (o : Op) (x : ans o).

Section Logs.
  Context `{Platform, Payload} {Ev : Env} (self : PdaRunner).

(** What one turn of task [i] performs. *)
Definition step_events (pl : Pool) (i : nat) : list Event :=
  match exited (view (world pl)), tasks pl !! i with
  | None, Some (Vis o k) =>
      if is_enabled o (view (world pl)) then [did o (snd (handle o (world pl)))] else []
  | _, _ => []
  end.

(** Everything a schedule performs, in order. *)
Fixpoint log (schedule : list nat) (pl : Pool) : list Event :=
  match schedule with
  | [] => []
  | i :: schedule' => step_events pl i ++ log schedule' (pool_step self pl i)
  end.

(** The number of operations of a program that runs alone. *)
Fixpoint ops_of {A} (p : prog A) (w : World) : nat :=
  match p with
  | Vis o k => let r := handle o w in S (ops_of (k (snd r)) (fst r))
  | _ => 0
  end.
End Logs.

Section Alone.
  Context `{Sp1Facts, Payload} {Ev : Env} {f : Faults} {L : EnvLaws f} (self : PdaRunner).

Lemma plain_enabled o s : plain_op o = true -> is_enabled o s = true.
Proof. by destruct o. Qed.

Lemma plain_exited o s s' x :
  plain_op o = true -> op_post f o s s' x -> exited s' = exited s.
Proof.
  intros Ho. destruct o; try done; simpl.
  all: try (by intros ->); try (by intros [-> _]); try (by intros (-> & _)).
  - destruct t; by intros [[_ ->]|[_ [->| ->]]].
  - intros [[_ ->]|[_ ->]]; [|done].
    unfold tx_apply. revert s. induction body as [|[t k|t k v] body IH]; intros s; simpl; [done|..];
      rewrite IH; by destruct t.
  - destruct (inbox_open s); by intros [_ ->].
  - destruct (cell_get s c); intros [-> _]; [done|by destruct c].
Qed.

(** Scheduling a task as often as it has operations runs it. *)
Lemma run_alone (p : prog TaskResult) pl i :
  only plain_op p -> tasks pl !! i = Some p -> exited (view (world pl)) = None ->
  run_schedule self (replicate (ops_of p (world pl)) i) pl =
    {| world := fst (run p (world pl)); tasks := <[i := lift (snd (run p (world pl)))]> (tasks pl) |}.
Proof.
  destruct pl as [w ts]. simpl. revert w ts. induction p as [a|msg|o k IH]; intros w ts Hp Hi He; simpl in *.
  - by rewrite list_insert_id.
  - by rewrite list_insert_id.
  - destruct Hp as [Ho Hk]. unfold pool_step. simpl. rewrite He, Hi, (plain_enabled o _ Ho).
    assert (spawned_task self o = []) as -> by (by destruct o).
    pose proof (handle_post o w (is_enabled_spec _ _ (plain_enabled o _ Ho))) as Hpost.
    rewrite app_nil_r. unfold run_schedule in *. rewrite IH.
    + by rewrite list_insert_insert_eq.
    + apply Hk.
    + apply list_lookup_insert_eq. by eapply lookup_lt_Some.
    + by rewrite (plain_exited _ _ _ _ Ho Hpost).
Qed.

(** The tasks that wait for no other task. *)
Inductive plain_task : prog TaskResult -> Prop :=
| plain_connection socket req : plain_task (connection_task socket req)
| plain_request job : plain_task (request_task job)
| plain_prove job : plain_task (prove_task self job)
| plain_shutdown : plain_task shutdown_task
| plain_prepare : plain_task prepare_task.

Lemma plain_task_only t : plain_task t -> only plain_op t.
Proof.
  intros [socket req|job|job| |]; (apply only_bind; [|done]).
  - apply only_handle_request; [apply request_plain|done].
  - eapply only_mono; [apply request_plain|apply only_get_verifiable_encryption].
  - eapply only_mono; [apply prover_plain|apply only_prove].
  - unfold shutdown. solve_only.
  - eapply only_mono; [apply request_plain|apply only_prepare_clients].
Qed.

(** The interleaving semantics contains the sequential one. A client's
    request, a step of a job, the shutdown hook or the preparation of the
    clients, when the scheduler lets it perform all its operations in a row,
    leaves the world and the result that [run] gives it, and the other tasks
    as they were. What is proved of a handler run alone holds of such turns. *)
Lemma uninterrupted_is_run t pl i :
  plain_task t -> tasks pl !! i = Some t -> exited (view (world pl)) = None ->
  let r := run t (world pl) in
  run_schedule self (replicate (ops_of t (world pl)) i) pl =
    {| world := fst r; tasks := <[i := lift (snd r)]> (tasks pl) |}.
Proof. intros Ht Hi He r. apply run_alone; [by apply plain_task_only|done..]. Qed.
End Alone.
