(* ===== verification/Submission.v ===== *)
(** A submit from its first request to its message to the node: a client that
    repeats its request while the worker proves one blob after the other. It puts
    the pieces of Liveness.v (a job completes) and Submit.v (a request waits for
    its first blob without a proof, and is forwarded when every blob has one)
    together. *)

From S2P Require Import Prelude Format ZkvmCommon Guest Job Http Json Effects.
From S2P Require Import Environment Runner Invariant RunnerSafe Lifecycle Liveness.
From S2P Require Import Proxy ProxyFacts Submit Startup Concurrency Traces.

Open Scope pda_scope.

Section Submission.
  Context `{Sp1Laws, !ChaCha20Laws, !ZkvmIoLaws, !BincodeLaws Anchor, !RunnerCodecs}.
  Context `{!BincodeTotal SP1ProofSetup, !BincodeTotal JobStatus, !BincodeLaws SP1ProofWithPublicValues}.
  Context `{Payload, !PayloadLaws} (self : PdaRunner) (E : gmap string string).
  Context (socket : string) (req : Request Incoming).

(** A client that sends its request, lets the worker make [n] steps for the next
    of [blobs], and so on, and sends it a last time. *)
Fixpoint rounds (n : nat) (blobs : list Blob) : prog (Response bytes) :=
  match blobs with
  | [] => handle_request socket req
  | b :: blobs' => handle_request socket req ;; prove_times self n (blob_job b) ;; rounds n blobs'
  end.

(** Nothing but the job under [k] changed, and nothing was sent to the node. *)
Record only_job (k : bytes) (s s' : Store) : Prop := {
  only_others k' : k' <> k -> job_state s' k' = job_state s k';
  only_sent : forwarded s' = forwarded s;
}.

#[local] Instance only_job_preorder k : PreOrder (only_job k).
Proof.
  split; [by split|]. intros s1 s2 s3 [H12 F12] [H23 F23].
  split; [|congruence]. intros k' Hk. by rewrite H23, H12.
Qed.

Lemma prover_local {A} (p : prog A) : only prover_op p -> local p.
Proof. induction p as [a|msg|o k IH]; simpl; try done. intros [Ho Hk]. split; [by destruct o|auto]. Qed.

(** One step of the worker. *)
Lemma wp_round_prove job k st s :
  configured E -> accepted E job -> anchored job -> serialize (anchor job) = Ok k -> healthy E s ->
  job_state s k = JQueued st ->
  wp no_faults (prove self job)
    (fun s' r => healthy E s' /\ prove_post k job st s s' r /\ only_job k s s') s.
Proof.
  intros Hc Ha Hj Hk Hh Hst.
  eapply wp_mono; [|apply wp_and; [apply wp_local; [apply prover_local, only_prove|]|]].
  2: by eapply wp_healthy_prove.
  2: destruct Hh; by eapply wp_prove.
  intros s' r [(Hf & Hh' & Hp) (_ & Ho & _)]. by split_and!.
Qed.

(** All the steps of a new job. *)
Lemma wp_round_proves job k prover st n s :
  configured E -> accepted E job -> anchored job -> serialize (anchor job) = Ok k -> healthy E s ->
  initial_status prover = Some st -> prover_steps prover = Some n -> job_state s k = JQueued st ->
  wp no_faults (prove_times self n job) (fun s' r =>
    r = Returned tt /\ healthy E s' /\ only_job k s s' /\ exists p, job_state s' k = JDone p) s.
Proof.
  intros Hc Ha Hj Hk Hh Hin Hn Hst. unfold prover_steps in Hn. rewrite Hin in Hn.
  assert (forall st' A (q : prog A) Q s1, healthy E s1 -> job_state s1 k = JQueued st' ->
    (forall s2, healthy E s2 -> prove_post k job st' s1 s2 (Returned (Ok tt)) -> only_job k s1 s2 ->
      wp no_faults q Q s2) ->
    wp no_faults (prove self job ;; q) Q s1) as Hstep.
  { intros st' A q Q s1 Hh1 Hst1 Hq. eapply wp_call; [by eapply wp_round_prove|..].
    - intros s2 r (Hh2 & Hr & Ho). assert (r = Ok tt) as -> by (by destruct Hr as [[= ->] _]). by apply Hq.
    - by intros s2 msg (_ & [? _] & _). }
  assert (st = LocalZkProofPending /\ n = 1 \/ st = RemoteZkProofRequesting /\ n = 2)
    as [[-> ->]|[-> ->]].
  { unfold initial_status in Hin. repeat case_decide; simplify_eq; auto. }
  - eapply Hstep; [done..|]. intros s2 Hh2 (_ & _ & Hp) Ho. by split_and!.
  - eapply Hstep; [done..|]. intros s2 Hh2 (_ & _ & id & Hd & _) Ho.
    eapply Hstep; [done..|]. intros s3 Hh3 (_ & _ & Hp) Ho'. split_and!; try done. by etrans.
Qed.

(** The service stays healthy while it looks at the blobs. *)
Lemma wp_healthy_encrypt blobs s :
  Forall (fun b => exists k, serialize (anchor (blob_job b)) = Ok k) blobs -> healthy E s ->
  wp no_faults (encrypt_blobs blobs) (fun s' _ => healthy E s') s.
Proof.
  intros Hb. revert s. induction Hb as [|b blobs [k Hk] Hb IH]; intros s Hh; [done|].
  cbn [encrypt_blobs]. apply wp_bindR_map_err. eapply wp_call.
  - by apply (wp_healthy_request E (blob_job b) k).
  - intros s' r [Hh' _]. destruct r as [[p|]|e]; cbn [result_map_err]; rewrite ?bindR_ret; try done.
    destruct (serialize p) as [d|e]; [|done]. rewrite bindR_ret.
    destruct (blob_new _ d) as [b'|e]; [|done]. apply wp_bind.
    eapply wp_mono; [|by apply IH]. by intros s'' [[[l|]|e]|msg].
  - by intros s' msg [Hh' _].
Qed.

(** A request whose next blob is new. *)
Lemma wp_round_asks s uri body ready_blobs l b later rest k prover st :
  healthy E s -> submits s socket req uri body (ready_blobs ++ b :: later) rest ->
  Forall (fun b => exists k, serialize (anchor (blob_job b)) = Ok k) (ready_blobs ++ b :: later) ->
  Forall2 (ready s) ready_blobs l -> serialize (anchor (blob_job b)) = Ok k -> job_state s k = JNone ->
  E !! "SP1_PROVER" = Some prover -> initial_status prover = Some st ->
  wp no_faults (handle_request socket req) (fun s' r =>
    r = Returned pending_response /\ healthy E s' /\ only_job k s s' /\ job_state s' k = JQueued st) s.
Proof.
  intros Hh Hreq Hks Hr Hk Hn Hp Hst. destruct Hh as [Hi Hx Ho] eqn:HH. clear HH.
  apply wp_handle_request.
  rewrite (submits_uri _ _ _ _ _ _ _ Hreq), (submits_auth _ _ _ _ _ _ _ Hreq).
  apply wp_bind. eapply (wp_inbound_submit _ _ _ _ _ _ _ _
    (fun s' o => o = None /\ healthy E s' /\ only_job k s s' /\ job_state s' k = JQueued st)); [done|..].
  - eapply wp_mono; [|apply wp_and; [apply wp_local; [apply local_encrypt_blobs|]|]].
    2: eapply (wp_encrypt_pending E no_faults eq_refl s); [exact Hr|split; [exact Hk|right]|exact Ho|exact Hi].
    2: split; [done|]; by exists prover, st.
      2: by apply wp_healthy_encrypt.
    intros s' r [(Hf & -> & (st' & Hq & Hst') & Hoth & _) Hh']. rewrite Hn in Hst'.
    destruct Hst' as (prover' & Hp' & Hin'). assert (st' = st) as -> by congruence.
    exists None. split; [done|]. by split_and!.
  - by intros s' (_ & ? & ? & ?).
  - by intros s' l' [? _].
Qed.

(** What is ready stays so while another job changes. *)
Lemma ready_only k s s' b b' : ready s b b' -> job_state s k = JNone -> only_job k s s' -> ready s' b b'.
Proof.
  intros (k' & p & d & Hk & Hst & Hd & Hb) Hn [Hoth _]. exists k', p, d. split_and!; try done.
  rewrite Hoth; [done|]. intros ->. congruence.
Qed.

Lemma submits_env s s' uri body blobs rest :
  env_vars s' = env_vars s -> submits s socket req uri body blobs rest -> submits s' socket req uri body blobs rest.
Proof. intros He [? ? ? ? ?]. split; try done. by rewrite He. Qed.

(** The proofs fit into blobs, and the blobs into the body of the request. *)
Definition fits (body : Value) (blobs : list Blob) (rest : list Value) : Prop :=
  (forall b p, b ∈ blobs -> seals E p (sha256 (blob_data b)) ->
    exists d b', serialize p = Ok d /\ blob_new (blob_namespace b) d = Ok b') /\
  (forall l, Forall2 (sealed_blob E) blobs l -> exists v json,
    blobs_to_value l = Ok v /\ to_vec (json_set body "params" (json_array (v :: rest))) = Ok json).

(** The request was forwarded once, with its blobs sealed. *)
Definition sent_sealed (uri : Uri) (body : Value) (blobs : list Blob) (rest : list Value) (s s' : Store) : Prop :=
  exists l v json, Forall2 (sealed_blob E) blobs l /\ blobs_to_value l = Ok v /\
    to_vec (json_set body "params" (json_array (v :: rest))) = Ok json /\
    forwarded s' = (forwarded s ++ [rewrite_request (with_uri req uri) json])%list.

Lemma wp_rounds uri body rest prover n todo : forall s ready_blobs l ks,
  configured E -> E !! "SP1_PROVER" = Some prover -> prover_steps prover = Some n ->
  healthy E s -> submits s socket req uri body (ready_blobs ++ todo) rest ->
  fits body (ready_blobs ++ todo) rest -> Forall2 (ready s) ready_blobs l ->
  Forall2 (fun b k => serialize (anchor (blob_job b)) = Ok k /\ accepted E (blob_job b) /\
    job_state s k = JNone) todo ks -> NoDup ks ->
  wp no_faults (rounds n todo) (fun s' _ => sent_sealed uri body (ready_blobs ++ todo) rest s s') s.
Proof.
  induction todo as [|b todo IH]; intros s ready_blobs l ks Hc Hp Hn Hh Hreq Hfit Hr Hks Hnd; cbn [rounds].
  - rewrite app_nil_r in *. destruct Hh as [Hi Hx Ho].
    assert (Forall2 (sealed_blob E) ready_blobs l) as Hl.
    { eapply Forall2_impl; [exact Hr|]. intros b b' Hb. eapply encrypts_sealed, ready_encrypts; [done|exact Hb]. }
    destruct (proj2 Hfit l Hl) as (v & json & Hv & Hj).
    eapply wp_mono; [|by eapply (wp_submit_complete E no_faults eq_refl)].
    intros s' r Hs'. by exists l, v, json.
  - apply Forall2_cons_inv_l in Hks as (k & ks' & (Hk & Ha & Hst) & Hks & ->).
    apply NoDup_cons in Hnd as [Hnk Hnd].
    assert (exists st, initial_status prover = Some st) as [st Hin].
    { unfold prover_steps in Hn. destruct (initial_status prover) as [st|]; [by exists st|done]. }
    assert (Forall (fun b => exists k, serialize (anchor (blob_job b)) = Ok k) (ready_blobs ++ b :: todo)) as Hser.
    { apply Forall_app. split; [|constructor; [by exists k|]].
      - clear -Hr. induction Hr as [|c c' ? ? (kc & ? & ? & Hkc & _)]; constructor; eauto.
      - clear -Hks. induction Hks as [|c kc ? ? (Hkc & _)]; constructor; eauto. }
    eapply wp_call; [by eapply (wp_round_asks s uri body ready_blobs l b todo rest k prover st)|..];
      [|by intros s1 msg [? _]].
    intros s1 r (_ & Hh1 & Ho1 & Hst1).
    eapply wp_call; [by eapply wp_round_proves|..]; [|by intros s2 msg [? _]].
    intros s2 u (_ & Hh2 & Ho2 & p & Hdone). assert (only_job k s s2) as Ho by (by etrans).
    assert (seals E p (sha256 (blob_data b))) as Hseals
      by exact (proof_for_seals E k p (blob_job b) (done_proof E s2 k p (healthy_inv _ _ Hh2) Hdone) eq_refl Hk).
    destruct (proj1 Hfit b p) as (d & b' & Hd & Hb'); [by apply elem_of_app; right; left|exact Hseals|].
    rewrite cons_middle, app_assoc in Hreq, Hfit |- *.
    eapply wp_mono; [|apply (IH s2 (ready_blobs ++ [b]) (l ++ [b']) ks'); try done].
    + intros s' r' (l' & v & json & ? & ? & ? & Hf). exists l', v, json.
      split_and!; try done. by rewrite Hf, (only_sent _ _ _ Ho).
    + eapply submits_env; [|exact Hreq]. destruct Hh as [Hi _ _], Hh2 as [Hi2 _ _].
      by rewrite (inv_env _ _ Hi), (inv_env _ _ Hi2).
    + apply Forall2_app; [|by constructor; [by exists k, p, d|]].
      eapply Forall2_impl; [exact Hr|]. intros c c' Hc'. by eapply ready_only.
    + clear -Hks Hnk Ho. induction Hks as [|c kc cs kcs (Hkc & Hac & Hsc) _ IH]; constructor.
      * split_and!; try done. rewrite (only_others _ _ _ Ho); [done|]. intros ->. apply Hnk. by left.
      * apply IH. intros Hn. apply Hnk. by right.
Qed.
End Submission.

Section SubmissionClaims.
  Context `{Sp1Laws, !ChaCha20Laws, !ZkvmIoLaws, !BincodeLaws Anchor, !RunnerCodecs}.
  Context `{!BincodeTotal SP1ProofSetup, !BincodeTotal JobStatus, !BincodeLaws SP1ProofWithPublicValues}.
  Context `{Payload, !PayloadLaws} {Ev : Env} {L : EnvLaws no_faults}.

(** C10: a submit comes through. With a healthy database, an SP1 client that
    answers, and the variables set, a client that repeats its [blob.Submit] of any
    number of new, different blobs, while the worker makes the steps for one after
    the other (one step each with a local prover, two with the prover network),
    has its request forwarded by its last repetition: exactly one message is sent
    in all, with every blob replaced, in order, by a proof that seals its data. *)
Theorem submit_completes self E w socket req uri body blobs rest ks prover n :
  configured E -> E !! "SP1_PROVER" = Some prover -> prover_steps prover = Some n ->
  healthy E (view w) -> submits (view w) socket req uri body blobs rest -> fits E body blobs rest ->
  Forall2 (fun b k => serialize (anchor (blob_job b)) = Ok k /\ accepted E (blob_job b) /\
    job_state (view w) k = JNone) blobs ks -> NoDup ks ->
  let s' := view (fst (run (rounds self socket req n blobs) w)) in
  exists l v json, Forall2 (sealed_blob E) blobs l /\ blobs_to_value l = Ok v /\
    to_vec (json_set body "params" (json_array (v :: rest))) = Ok json /\
    forwarded s' = (forwarded (view w) ++ [rewrite_request (with_uri req uri) json])%list.
Proof.
  intros Hc Hp Hn Hh Hreq Hfit Hks Hnd.
  exact (wp_run no_faults _ _ w (wp_rounds self E socket req uri body rest prover n blobs (view w) [] [] ks
    Hc Hp Hn Hh Hreq Hfit ltac:(constructor) Hks Hnd)).
Qed.
End SubmissionClaims.
