(* ===== verification/Nonce.v ===== *)
(** Nonces. ChaCha20 gives no secrecy to two plaintexts under one key and nonce
    (ZkvmCommon.v, [chacha_nonce_reuse]), so each input of the guest must carry a
    nonce of its own. [fresh] checks a program: what it gives to a prover carries
    the nonce it drew last, and a nonce is given away once. *)

From S2P Require Import Prelude Format ZkvmCommon Guest Job Http Effects Environment.
From S2P Require Import Runner Invariant RunnerSafe Lifecycle Liveness Json Proxy.
From S2P Require Import ProxyFacts Submit Startup Concurrency Traces.


Section Nonce.
  Context `{Platform}.

(** A nonce of the random number generator. *)
Abbreviation Nonce := (array NONCE_LEN).

(** An input of the guest that is encrypted under the nonce [n]. *)
Definition input_with (n : Nonce) (stdin : SP1Stdin) : Prop :=
  exists (key : array KEY_LEN) (data : bytes), stdin = guest_stdin key n data.

(** What an event draws, and what it gives to a prover. *)
Definition draw_of (e : Event) : option Nonce :=
  match e with
  | did o x =>
      match o return ans o -> option Nonce with
      | OsRngFill _ => result_ok
      | _ => fun _ => None
      end x
  end.

Definition submitted (o : Op) : option SP1Stdin :=
  match o with
  | ProveLocal _ _ stdin | RequestRemote _ _ stdin _ _ _ => Some stdin
  | _ => None
  end.

Definition submission_of (e : Event) : option SP1Stdin := match e with did o _ => submitted o end.

Definition draws (es : list Event) : list Nonce := omap draw_of es.

Definition submissions (es : list Event) : list SP1Stdin := omap submission_of es.

(** The nonce at hand after an operation. *)
Definition hand (a : option Nonce) (o : Op) (x : ans o) : option Nonce :=
  match submitted o with
  | Some _ => None
  | None => match draw_of (did o x) with Some n => Some n | None => a end
  end.

(** [p] gives to a prover only inputs under the nonce at hand, each once. [Q]
    is what holds of the nonce at hand when [p] returns. *)
Fixpoint fresh (a : option Nonce) {A} (p : prog A) (Q : option Nonce -> A -> Prop) : Prop :=
  match p with
  | Ret v => Q a v
  | Panic _ => True
  | Vis o k =>
      (forall stdin, submitted o = Some stdin -> exists n, a = Some n /\ input_with n stdin) /\
      forall x, fresh (hand a o x) (k x) Q
  end.

Lemma fresh_bind a {A B} (p : prog A) (g : A -> prog B) Q :
  fresh a p (fun a' v => fresh a' (g v) Q) -> fresh a (bind p g) Q.
Proof.
  revert a. induction p as [v|msg|o k IH]; intros a; simpl; auto. intros [Ho Hk]. auto.
Qed.

Lemma fresh_mono a {A} (p : prog A) (Q R : option Nonce -> A -> Prop) :
  (forall a' v, Q a' v -> R a' v) -> fresh a p Q -> fresh a p R.
Proof.
  intros HQ. revert a. induction p as [v|msg|o k IH]; intros a; simpl; auto. intros [Ho Hk]. auto.
Qed.

Lemma fresh_call a {A B} (p : prog A) (g : A -> prog B) R Q :
  fresh a p R -> (forall a' v, R a' v -> fresh a' (g v) Q) -> fresh a (bind p g) Q.
Proof. intros Hp Hg. apply fresh_bind. by eapply fresh_mono. Qed.

(** An operation that neither draws nor submits. *)
Definition nonce_free (o : Op) : bool :=
  match o with OsRngFill _ | ProveLocal _ _ _ | RequestRemote _ _ _ _ _ _ => false | _ => true end.

Lemma request_nonce_free o : request_op o = true -> nonce_free o = true.
Proof. by destruct o. Qed.

(** A program that neither draws nor submits leaves the nonce at hand. *)
Lemma fresh_only a {A} (p : prog A) (Q : option Nonce -> A -> Prop) :
  only nonce_free p -> (forall v, Q a v) -> fresh a p Q.
Proof.
  intros Hp HQ. induction p as [v|msg|o k IH]; simpl; [done..|].
  destruct Hp as [Ho Hk]. split; [by destruct o|]. intros x.
  assert (hand a o x = a) as -> by (by destruct o). by apply IH.
Qed.

Lemma fresh_request a {A} (p : prog A) (Q : option Nonce -> A -> Prop) :
  only request_op p -> (forall v, Q a v) -> fresh a p Q.
Proof. intros Hp. apply fresh_only. eapply only_mono; [apply request_nonce_free|exact Hp]. Qed.

Lemma fresh_request_call a {A B} (p : prog A) (g : A -> prog B) Q :
  only request_op p -> (forall v, fresh a (g v) Q) -> fresh a (bind p g) Q.
Proof.
  intros Hp Hg. apply (fresh_call a p g (fun a' _ => a' = a)); [by apply fresh_request|].
  intros ? v ->. apply Hg.
Qed.

Lemma fresh_request_callR a {A B Er} (p : prog (result A Er)) (g : A -> prog (result B Er)) Q :
  only request_op p -> (forall v, fresh a (g v) Q) -> (forall e, Q a (Err e)) -> fresh a (bindR p g) Q.
Proof. intros Hp Hg He. apply fresh_request_call; [done|]. intros [v|e]; [apply Hg|apply He]. Qed.

(** [prepare_stdin] draws the nonce of the input it returns. *)
Lemma fresh_prepare_stdin a job :
  fresh a (prepare_stdin job) (fun a' stdin => exists n, a' = Some n /\ input_with n stdin).
Proof.
  unfold prepare_stdin. apply fresh_request_call; [apply only_read_encryption_key|]. intros key.
  unfold util_random_nonce. split; [done|]. intros [n|e]; [|done].
  exists n. split; [done|]. by exists key, (input_data (input job)).
Qed.

Lemma fresh_map_client_error {A} a job k (r : result A AnyhowError) (Q : option Nonce -> _ -> Prop) :
  (forall v, Q a v) -> fresh a (map_client_error job k r) Q.
Proof. intros HQ. apply fresh_request; [apply only_map_client_error|done]. Qed.

Lemma fresh_zk_proof_local a id job k : fresh a (zk_proof_local id job k) (fun _ _ => True).
Proof.
  unfold zk_proof_local.
  apply fresh_request_call; [apply only_get_zk_client_local|intros c].
  apply fresh_request_callR; [apply only_get_proof_setup_local|intros s|done].
  eapply fresh_call; [apply fresh_prepare_stdin|]. intros a' stdin (n & -> & Hn).
  split; [intros ? [= <-]; by exists n|]. intros r.
  apply fresh_request; [|done]. apply only_bindR; [apply only_map_client_error|done].
Qed.

Lemma fresh_zk_proof_remote a self id job k : fresh a (zk_proof_remote self id job k) (fun _ _ => True).
Proof.
  unfold zk_proof_remote.
  apply fresh_request_call; [apply only_get_zk_client_remote|intros c].
  apply fresh_request_callR; [apply only_get_proof_setup_remote|intros s|done].
  apply fresh_request_call; [apply only_env_expect|intros fs].
  apply fresh_request_callR; [done|intros strategy|done].
  eapply fresh_call; [apply fresh_prepare_stdin|]. intros a' stdin (n & -> & Hn).
  split; [intros ? [= <-]; by exists n|]. intros r.
  apply fresh_request; [|done]. apply only_bindR; [apply only_map_client_error|done].
Qed.

Lemma fresh_wait_for_zk_proof a job k id : fresh a (wait_for_zk_proof job k id) (fun _ _ => True).
Proof.
  unfold wait_for_zk_proof.
  apply fresh_request_call; [apply only_get_zk_client_remote|intros c].
  split; [done|]. intros r.
  apply fresh_request; [|done]. apply only_bindR; [apply only_map_client_error|done].
Qed.

Lemma fresh_prove a self job : fresh a (prove self job) (fun _ _ => True).
Proof.
  unfold prove. apply fresh_request_callR; [done|intros k|done].
  apply fresh_request_callR; [by apply only_map_err, only_op|intros [b|]; [|done]|done].
  apply fresh_request_callR; [done|intros st|done].
  destruct st; try done.
  - apply fresh_request_call; [apply only_get_program_id|intros id].
    eapply fresh_call; [apply fresh_zk_proof_local|intros a' [p|e] _; [|done]].
    apply fresh_request; [|done]. apply only_bindR; [apply only_finalize_job|done].
  - apply fresh_request_call; [apply only_get_program_id|intros id].
    eapply fresh_call; [apply fresh_zk_proof_remote|intros a' [p|e] _; [|done]].
    apply fresh_request; [|done]. apply only_bindR; [apply only_send_job|done].
  - eapply fresh_call; [apply fresh_wait_for_zk_proof|intros a' [p|e] _; [|done]].
    apply fresh_request; [|done]. apply only_bindR; [apply only_finalize_job|done].
Qed.
End Nonce.

(** ** Under every schedule *)

Section Interleaving.
  Context `{Platform, Payload} {Ev : Env} (self : PdaRunner).

Definition task_fresh (a : option (array NONCE_LEN)) (t : prog TaskResult) : Prop :=
  fresh a t (fun _ _ => True).

Lemma fresh_task a {A} (p : prog A) (g : A -> TaskResult) :
  fresh a p (fun _ _ => True) -> task_fresh a (bind p (fun v => Ret (g v))).
Proof. intros Hp. by eapply fresh_call. Qed.

Lemma fresh_request_task a job : task_fresh a (request_task job).
Proof. apply fresh_task, fresh_request; [apply only_get_verifiable_encryption|done]. Qed.

Lemma fresh_connection_task a socket req : task_fresh a (connection_task socket req).
Proof.
  apply fresh_task, fresh_only; [|done]. by apply only_handle_request; [apply request_nonce_free|].
Qed.

Lemma fresh_prove_task a job : task_fresh a (prove_task self job).
Proof. apply fresh_task, fresh_prove. Qed.

Lemma fresh_worker_task a fuel : task_fresh a (worker_task fuel).
Proof.
  apply fresh_task, fresh_only; [|done]. induction fuel as [|fuel IH]; simpl; [done|].
  split; [done|]. by intros [[job|]|].
Qed.

Lemma fresh_shutdown_task a : task_fresh a shutdown_task.
Proof. apply fresh_task, fresh_only; [|done]. by split. Qed.

Lemma fresh_prepare_task a : task_fresh a prepare_task.
Proof. apply fresh_task, fresh_request; [apply only_prepare_clients|done]. Qed.

(** The nonces at hand in the tasks, and those given away, were all drawn. *)
Definition nonces_ok (pl : Pool) (es : list Event) : Prop :=
  exists (hands : list (option (array NONCE_LEN))) (used : list (array NONCE_LEN)),
    Forall2 task_fresh hands (tasks pl) /\
    Forall2 input_with used (submissions es) /\
    used ++ omap id hands ⊆+ draws es.

(** The nonces at hand, with that of task [i] apart. *)
Lemma hands_split (hands : list (option (array NONCE_LEN))) i a :
  hands !! i = Some a -> exists rest,
    omap id hands ≡ₚ option_list a ++ rest /\
    forall b, omap id (<[i := b]> hands) ≡ₚ option_list b ++ rest.
Proof.
  intros Hi. exists (omap id (take i hands) ++ omap id (drop (S i) hands)). split.
  - rewrite <- (take_drop_middle hands i a Hi) at 1. rewrite omap_app. simpl.
    destruct a; simpl; [by rewrite <- Permutation_middle|done].
  - intros b. rewrite (insert_take_drop hands i b) by (by eapply lookup_lt_Some).
    rewrite omap_app. simpl. destruct b; simpl; [by rewrite <- Permutation_middle|done].
Qed.

(** One operation of one task. *)
Lemma hand_step a o (x : ans o) used rest es (k : ans o -> prog TaskResult) :
  fresh a (Vis o k) (fun _ _ => True) ->
  Forall2 input_with used (submissions es) -> used ++ option_list a ++ rest ⊆+ draws es ->
  exists used', Forall2 input_with used' (submissions (es ++ [did o x])) /\
    used' ++ option_list (hand a o x) ++ rest ⊆+ draws (es ++ [did o x]).
Proof.
  intros [Hs _] Hu Hd. unfold submissions, draws, hand in *. rewrite !omap_app.
  change (omap submission_of [did o x]) with (option_list (submitted o)).
  change (omap draw_of [did o x]) with (option_list (draw_of (did o x))).
  destruct (submitted o) as [stdin|] eqn:Ho.
  - destruct (Hs stdin eq_refl) as (n & -> & Hn). exists (used ++ [n]). split.
    + apply Forall2_app; [done|]. by constructor.
    + assert (draw_of (did o x) = None) as -> by (by destruct o).
      simpl. by rewrite app_nil_r, <- app_assoc.
  - exists used. rewrite app_nil_r. split; [done|].
    destruct (draw_of (did o x)) as [n|]; simpl; [|by rewrite app_nil_r].
    rewrite <- Permutation_middle, <- Permutation_cons_append. apply submseteq_skip.
    etrans; [|exact Hd]. apply submseteq_skips_l, submseteq_inserts_l. done.
Qed.

Lemma nonces_ok_step pl i es :
  nonces_ok pl es -> nonces_ok (pool_step self pl i) (es ++ step_events pl i).
Proof.
  intros (hands & used & Ht & Hu & Hd). unfold pool_step, step_events.
  assert (nonces_ok pl (es ++ [])) as Hstay by (rewrite app_nil_r; by exists hands, used).
  destruct (exited _); [done|]. destruct (tasks pl !! i) as [[| |o k]|] eqn:Hi; try done.
  destruct (is_enabled o _); [|done]. destruct (Forall2_lookup_r _ _ _ _ _ Ht Hi) as (a & Ha & Hf).
  set (x := snd (handle o (world pl))). destruct (hands_split hands i a Ha) as (rest & Hrest & Hins).
  rewrite Hrest in Hd. destruct (hand_step a o x used rest es k Hf Hu Hd) as (used' & Hu' & Hd').
  exists (<[i := hand a o x]> hands ++ replicate (length (spawned_task self o)) None), used'.
  split_and!; [|done|].
  - simpl. apply Forall2_app.
    + apply Forall2_insert; [done|]. by apply Hf.
    + destruct o; constructor; [apply fresh_prove_task|constructor].
  - assert (omap id (replicate (length (spawned_task self o)) (@None (array NONCE_LEN))) = [])
      as Hnil by (by destruct o).
    by rewrite omap_app, Hnil, app_nil_r, Hins.
Qed.

Lemma nonces_ok_log schedule pl es :
  nonces_ok pl es -> nonces_ok (run_schedule self schedule pl) (es ++ log self schedule pl).
Proof.
  revert pl es. induction schedule as [|i schedule IH]; intros pl es Hpl; simpl.
  - by rewrite app_nil_r.
  - rewrite app_assoc. by apply IH, nonces_ok_step.
Qed.

(** C5: a nonce of its own for every input. However the requests, the proving
    tasks, the worker and the other tasks are interleaved, and whatever the
    environment answers, each input the service gives to a local prover or to
    the prover network is encrypted under a nonce it drew for this input: the
    nonces used are, one for one, among the nonces drawn. So two inputs share a
    nonce only if the random number generator repeats itself. *)
Theorem nonces_are_drawn socket clients w ts schedule :
  Forall (service_task self socket clients) ts ->
  let es := log self schedule {| world := w; tasks := ts |} in
  exists used, Forall2 input_with used (submissions es) /\ used ⊆+ draws es /\
    (NoDup (draws es) -> NoDup used).
Proof.
  intros Hts es. destruct (nonces_ok_log schedule {| world := w; tasks := ts |} []) as (hands & used & _ & Hu & Hd).
  { exists (replicate (length ts) None), []. split_and!; [|constructor|].
    - simpl. apply Forall2_replicate_l; [done|]. eapply Forall_impl; [exact Hts|].
      intros t [req Hr|job Hj|job Hj|fuel| |].
      + apply fresh_connection_task.
      + apply fresh_request_task.
      + apply fresh_prove_task.
      + apply fresh_worker_task.
      + apply fresh_shutdown_task.
      + apply fresh_prepare_task.
    - simpl. clear. assert (omap id (replicate (length ts) (@None (array NONCE_LEN))) = []) as ->; [|done].
      induction (length ts); [done|]. by simpl. }
  assert (used ⊆+ draws es) as Hsub by (etrans; [apply submseteq_inserts_r; done|exact Hd]).
  exists used. split_and!; [done|done|]. intros Hn.
  apply submseteq_Permutation in Hsub as [rest Hrest]. rewrite Hrest in Hn. by apply NoDup_app in Hn as [? _].
Qed.
End Interleaving.
