(* ===== verification/Cost.v ===== *)
(** What the work costs. Proving is what the service pays for: a submission to a
    prover. Each request sends the worker one job at most, each job the worker
    takes starts one proving task, and each task submits one input at most and
    sends the worker one message more. A task is given a budget for each, and no
    schedule makes the tasks spend more than they have. *)

From S2P Require Import Prelude Format ZkvmCommon Guest Job Http Json Effects.
From S2P Require Import Environment Runner Invariant RunnerSafe Lifecycle Liveness.
From S2P Require Import Proxy ProxyFacts Submit Startup Concurrency Traces Nonce.

Open Scope pda_scope.

(** ** Budgets *)

Section Budgets.
  Context `{Platform}.

(** What an operation costs: an input given to a prover, a job sent to the
    worker, a task started. *)
Definition submit_cost (o : Op) : nat := match submitted o with Some _ => 1 | None => 0 end.
Definition send_cost (o : Op) : nat := match o with ChanSend (Some _) => 1 | _ => 0 end.
Definition start_cost (o : Op) : nat := match o with SpawnProve _ => 1 | _ => 0 end.

(** A job that is received may be started. *)
Definition take_gain (o : Op) : ans o -> nat :=
  match o return ans o -> nat with
  | ChanRecv => fun m => match m with Some (Some _) => 1 | _ => 0 end
  | _ => fun _ => 0
  end.

Record Budget : Type := { work_left : nat; messages_left : nat; starts_left : nat }.

Definition allows (b : Budget) (o : Op) : Prop :=
  submit_cost o <= work_left b /\ send_cost o <= messages_left b /\ start_cost o <= starts_left b.

Definition spend (b : Budget) (o : Op) (x : ans o) : Budget :=
  {| work_left := work_left b - submit_cost o; messages_left := messages_left b - send_cost o;
     starts_left := starts_left b - start_cost o + take_gain o x |}.

(** [p] keeps to its budget, and [Q] holds of what is left when it returns. *)
Fixpoint affords (b : Budget) {A} (p : prog A) (Q : Budget -> A -> Prop) : Prop :=
  match p with
  | Ret v => Q b v
  | Panic _ => True
  | Vis o k => allows b o /\ forall x, affords (spend b o x) (k x) Q
  end.

Lemma affords_bind b {A B} (p : prog A) (g : A -> prog B) Q :
  affords b p (fun b' v => affords b' (g v) Q) -> affords b (bind p g) Q.
Proof. revert b. induction p as [v|msg|o k IH]; intros b; simpl; auto. intros [Ho Hk]. auto. Qed.

Lemma affords_mono b {A} (p : prog A) (Q R : Budget -> A -> Prop) :
  (forall b' v, Q b' v -> R b' v) -> affords b p Q -> affords b p R.
Proof. intros HQ. revert b. induction p as [v|msg|o k IH]; intros b; simpl; auto. intros [Ho Hk]. auto. Qed.

Lemma affords_call b {A B} (p : prog A) (g : A -> prog B) R Q :
  affords b p R -> (forall b' v, R b' v -> affords b' (g v) Q) -> affords b (bind p g) Q.
Proof. intros Hp Hg. apply affords_bind. by eapply affords_mono. Qed.

(** An operation that costs nothing. *)
Definition free_op (o : Op) : bool :=
  match o with
  | ProveLocal _ _ _ | RequestRemote _ _ _ _ _ _ | ChanSend (Some _) | SpawnProve _ | ChanRecv => false
  | _ => true
  end.

Lemma free_allows b o : free_op o = true -> allows b o.
Proof.
  intros Ho. assert (submit_cost o = 0 /\ send_cost o = 0 /\ start_cost o = 0) as (H1 & H2 & H3)
    by (destruct o as [| | | | |[]| | | | | | | | | | | | | | | |]; done).
  unfold allows. rewrite H1, H2, H3. lia.
Qed.

Lemma free_spend b o (x : ans o) : free_op o = true -> spend b o x = b.
Proof.
  intros Ho. assert (submit_cost o = 0 /\ send_cost o = 0 /\ start_cost o = 0 /\ take_gain o x = 0) as (H1 & H2 & H3 & H4)
    by (destruct o as [| | | | |[]| | | | | | | | | | | | | | | |]; done).
  unfold spend. rewrite H1, H2, H3, H4, !Nat.sub_0_r, Nat.add_0_r. by destruct b.
Qed.

Lemma affords_free b {A} (p : prog A) (Q : Budget -> A -> Prop) :
  only free_op p -> (forall v, Q b v) -> affords b p Q.
Proof.
  intros Hp HQ. induction p as [v|msg|o k IH]; simpl; [done..|]. destruct Hp as [Ho Hk].
  split; [by apply free_allows|]. intros x. rewrite free_spend by done. by apply IH.
Qed.

Lemma affords_free_call b {A B} (p : prog A) (g : A -> prog B) Q :
  only free_op p -> (forall v, affords b (g v) Q) -> affords b (bind p g) Q.
Proof.
  intros Hp Hg. apply (affords_call b p g (fun b' _ => b' = b)); [by apply affords_free|].
  intros ? v ->. apply Hg.
Qed.

Lemma affords_free_callR b {A B Er} (p : prog (result A Er)) (g : A -> prog (result B Er)) Q :
  only free_op p -> (forall v, affords b (g v) Q) -> (forall e, Q b (Err e)) -> affords b (bindR p g) Q.
Proof. intros Hp Hg He. apply affords_free_call; [done|]. intros [v|e]; [apply Hg|apply He]. Qed.
End Budgets.

(** ** The handlers *)

Section Handlers.
  Context `{Platform, Payload}.

(** What is left does not matter. *)
Abbreviation any := (fun _ _ => True).

Lemma free_env_expect name msg : only free_op (env_expect name msg).
Proof. unfold env_expect. solve_only. Qed.

Lemma free_get_program_id : only free_op get_program_id.
Proof. unfold get_program_id, get_or_init. solve_only. Qed.

Lemma free_get_zk_client_local : only free_op get_zk_client_local.
Proof. unfold get_zk_client_local, get_or_init. solve_only. Qed.

Lemma free_get_zk_client_remote : only free_op get_zk_client_remote.
Proof. unfold get_zk_client_remote, get_or_init. solve_only. Qed.

Lemma free_get_proof_setup_local id c : only free_op (get_proof_setup_local id c).
Proof. unfold get_proof_setup_local, get_or_try_init, init_proof_setup. solve_only. Qed.

Lemma free_get_proof_setup_remote id c : only free_op (get_proof_setup_remote id c).
Proof. unfold get_proof_setup_remote, get_or_try_init, init_proof_setup. solve_only. Qed.

Lemma free_read_encryption_key : only free_op read_encryption_key.
Proof. unfold read_encryption_key, env_expect. solve_only. Qed.

Lemma free_finalize_job k st : only free_op (finalize_job k st).
Proof. unfold finalize_job. solve_only. Qed.
#[local] Hint Resolve free_env_expect free_get_program_id free_get_zk_client_local
  free_get_zk_client_remote free_get_proof_setup_local free_get_proof_setup_remote
  free_read_encryption_key free_finalize_job : only.

Lemma free_prepare_stdin job : only free_op (prepare_stdin job).
Proof. unfold prepare_stdin, util_random_nonce. solve_only. Qed.

Lemma free_map_client_error {A} job k (r : result A AnyhowError) : only free_op (map_client_error job k r).
Proof. unfold map_client_error, handle_zk_client_error. solve_only. Qed.
#[local] Hint Resolve free_prepare_stdin free_map_client_error : only.

Lemma free_wait_for_zk_proof job k id : only free_op (wait_for_zk_proof job k id).
Proof. unfold wait_for_zk_proof. solve_only. Qed.

Lemma free_prepare_clients : only free_op prepare_clients.
Proof. unfold prepare_clients. solve_only. Qed.

Lemma free_verify_decrypt_blob blob key : only free_op (verify_decrypt_blob blob key).
Proof. unfold verify_decrypt_blob, extract_verified_proof_output. solve_only. Qed.
#[local] Hint Resolve free_wait_for_zk_proof free_verify_decrypt_blob : only.

Lemma free_decrypt_values values key : only free_op (decrypt_values values key).
Proof. induction values as [|v values IH]; [done|]. cbn [decrypt_values]. solve_only. Qed.
#[local] Hint Resolve free_decrypt_values : only.

Lemma free_outbound_handler resp m : only free_op (outbound_handler resp m).
Proof. unfold outbound_handler, try_mutate_response. solve_only. Qed.

Lemma affords_send_job b k st job : 1 <= messages_left b -> affords b (send_job_with_new_status k st job) any.
Proof.
  intros Hb. unfold send_job_with_new_status. apply affords_free_call; [apply only_lift|intros bytes].
  apply affords_free_callR; [by apply only_map_err, only_op|intros []|done].
  split; [by repeat split; try apply Nat.le_0_l|]. by intros [].
Qed.

(** A request for a proof sends one job, unless it has its proof. *)
Definition asking : Budget := {| work_left := 0; messages_left := 1; starts_left := 0 |}.

Lemma affords_get_verifiable_encryption job :
  affords asking (get_verifiable_encryption job)
    (fun b v => match v with Ok (Some _) => b = asking | _ => True end).
Proof.
  unfold get_verifiable_encryption.
  apply affords_free_callR; [done|intros k|done].
  apply affords_free_callR; [by apply only_map_err, only_op|intros [d|]|done].
  - apply affords_free_callR; [done|intros st|done]. destruct st as [| | |p|e [retry|]]; try done.
    eapply affords_call; [by apply affords_send_job|]. by intros b [].
  - apply affords_free_callR; [by apply only_map_err, only_op|intros [d|]|done].
    { apply affords_free_callR; [done|intros st|done]. by destruct st. }
    apply affords_free_call; [apply free_env_expect|intros prover].
    apply affords_free_callR; [done|intros st|done].
    apply affords_free_callR; [done|intros bytes|done].
    apply affords_free_callR; [by apply only_map_err, only_op|intros []|done].
    split; [by repeat split|]. by intros [].
Qed.

(** The first blob without a proof ends the loop. *)
Lemma affords_encrypt_blobs blobs : affords asking (encrypt_blobs blobs) any.
Proof.
  induction blobs as [|b blobs IH]; [done|]. cbn [encrypt_blobs]. apply affords_bind. unfold map_err.
  apply affords_bind. eapply affords_mono; [|apply affords_get_verifiable_encryption].
  intros b' [[p|]|e]; [intros ->|done..]. cbn [affords result_map_err].
  apply affords_free_callR; [done|intros d|done]. apply affords_free_callR; [done|intros b0|done].
  eapply affords_call; [exact IH|]. by intros b1 [].
Qed.

Lemma affords_inbound_handler req m : affords asking (inbound_handler req m) any.
Proof.
  unfold inbound_handler. repeat case_match; try done; apply affords_bind; try done.
  eapply affords_mono; [|instantiate (1 := any)]; [done|].
  unfold intercept_submit. repeat case_match; try done.
  apply affords_free_callR; [done|intros bs|done].
  eapply affords_call; [apply affords_encrypt_blobs|]. intros b [[sealed|]|e] _; try done.
  cbn [affords]. by destruct (blobs_to_value sealed).
Qed.

Lemma affords_handle_request socket req : affords asking (handle_request socket req) any.
Proof.
  unfold handle_request. apply affords_free_call; [by apply only_op|intros unsafe].
  apply affords_free_call; [apply only_lift|intros uri].
  destruct (negb _); [done|]. eapply affords_call; [apply affords_inbound_handler|].
  intros b [inbound method] _. apply affords_free; [|done].
  destruct inbound as [[out|]|e]; [|done|apply only_lift].
  apply only_bind; [by apply only_op|]. intros [resp|e]; [|apply only_lift].
  apply only_bind; [apply free_outbound_handler|]. intros [r|e]; [done|apply only_lift].
Qed.

(** A step of the worker submits one input, and sends one message more. *)
Definition proving : Budget := {| work_left := 1; messages_left := 1; starts_left := 0 |}.

Lemma affords_zk_proof_local id job k : affords proving (zk_proof_local id job k) any.
Proof.
  unfold zk_proof_local.
  apply affords_free_call; [apply free_get_zk_client_local|intros c].
  apply affords_free_callR; [apply free_get_proof_setup_local|intros st|done].
  apply affords_free_call; [apply free_prepare_stdin|intros stdin].
  split; [by repeat split; try apply Nat.le_0_l|]. intros r. apply affords_free; [|done].
  apply only_bindR; [apply free_map_client_error|done].
Qed.

Lemma affords_zk_proof_remote self id job k :
  affords proving (zk_proof_remote self id job k) (fun b _ => 1 <= messages_left b).
Proof.
  unfold zk_proof_remote.
  apply affords_free_call; [apply free_get_zk_client_remote|intros c].
  apply affords_free_callR; [apply free_get_proof_setup_remote|intros st|done].
  apply affords_free_call; [apply free_env_expect|intros fs].
  apply affords_free_callR; [done|intros strategy|done].
  apply affords_free_call; [apply free_prepare_stdin|intros stdin].
  split; [by repeat split; try apply Nat.le_0_l|]. intros r. apply affords_free; [|done].
  apply only_bindR; [apply free_map_client_error|done].
Qed.

Lemma affords_prove self job : affords proving (prove self job) any.
Proof.
  unfold prove. apply affords_free_callR; [done|intros k|done].
  apply affords_free_callR; [by apply only_map_err, only_op|intros [d|]; [|done]|done].
  apply affords_free_callR; [done|intros st|done]. destruct st; try done.
  - apply affords_free_call; [apply free_get_program_id|intros id].
    eapply affords_call; [apply affords_zk_proof_local|intros b [p|e] _; [|done]].
    apply affords_free; [|done]. apply only_bindR; [apply free_finalize_job|done].
  - apply affords_free_call; [apply free_get_program_id|intros id].
    eapply affords_call; [apply affords_zk_proof_remote|intros b [p|e] Hb; [|done]].
    eapply affords_call; [by apply affords_send_job|]. by intros b' [] _.
  - apply affords_free_call; [apply free_wait_for_zk_proof|intros [p|e]; [|done]].
    apply affords_free; [|done]. apply only_bindR; [apply free_finalize_job|done].
Qed.

(** The worker starts what it takes; the other tasks cost nothing. *)
Definition nothing : Budget := {| work_left := 0; messages_left := 0; starts_left := 0 |}.

Lemma affords_job_worker fuel : affords nothing (job_worker fuel) any.
Proof.
  induction fuel as [|fuel IH]; [done|]. split; [by repeat split|].
  intros [[job|]|]; [|by repeat split..].
  split; [by repeat split|]. intros []. exact IH.
Qed.
End Handlers.

(** ** Under every schedule *)

Section Accounts.
  Context `{Sp1Facts, Payload} {Ev : Env} {f : Faults} {L : EnvLaws f} (self : PdaRunner).

(** Sums over what a schedule performs. *)
Definition total (g : forall o, ans o -> nat) (es : list Event) : nat :=
  sum_list ((fun '(did o x) => g o x) <$> es).

Definition submissions_in : list Event -> nat := total (fun o _ => submit_cost o).
Definition sends_in : list Event -> nat := total (fun o _ => send_cost o).
Definition starts_in : list Event -> nat := total (fun o _ => start_cost o).
Definition takes_in : list Event -> nat := total take_gain.

(** The jobs that wait in the channel. *)
Definition jobs_waiting (s : Store) : nat := length (omap id (inbox s)).

Lemma total_app g es es' : total g (es ++ es') = total g es + total g es'.
Proof. unfold total. by rewrite fmap_app, sum_list_with_app. Qed.

Lemma total_one g o x : total g [did o x] = g o x.
Proof. unfold total. simpl. lia. Qed.

Definition task_affords (b : Budget) (t : prog TaskResult) : Prop := affords b t (fun _ _ => True).

Lemma task_affords_bind b {A} (p : prog A) (g : A -> TaskResult) :
  affords b p (fun _ _ => True) -> task_affords b (bind p (fun v => Ret (g v))).
Proof. intros Hp. by eapply affords_call. Qed.

(** What all tasks have left of something. *)
Definition left_of (m : Budget -> nat) (bs : list Budget) : nat := sum_list (m <$> bs).

Lemma left_of_app m bs bs' : left_of m (bs ++ bs') = left_of m bs + left_of m bs'.
Proof. unfold left_of. by rewrite fmap_app, sum_list_with_app. Qed.

Lemma left_of_insert m bs i b b' :
  bs !! i = Some b -> left_of m (<[i := b']> bs) + m b = left_of m bs + m b'.
Proof.
  intros Hi. unfold left_of. rewrite list_fmap_insert.
  revert i Hi. induction bs as [|c bs IH]; intros [|i] Hi; simplify_eq/=; [lia|].
  specialize (IH i Hi). lia.
Qed.

(** The accounts: [w0] and [m0] are what the tasks had at first, [j0] the jobs
    that waited. *)
Definition balanced (w0 m0 j0 : nat) (pl : Pool) (es : list Event) : Prop :=
  exists bs, Forall2 task_affords bs (tasks pl) /\
    submissions_in es + left_of work_left bs <= w0 + starts_in es /\
    sends_in es + left_of messages_left bs <= m0 + starts_in es /\
    starts_in es + left_of starts_left bs <= takes_in es /\
    jobs_waiting (view (world pl)) + takes_in es <= j0 + sends_in es.

Lemma waiting_step o s s' x : op_post f o s s' x -> jobs_waiting s' + take_gain o x <= jobs_waiting s + send_cost o.
Proof.
  intros Hp. destruct (op_quiet o) eqn:Hq.
  - unfold jobs_waiting. rewrite (same_inbox _ _ (op_quiet_same _ _ _ _ _ Hq Hp)).
    assert (take_gain o x = 0) as -> by (by destruct o). lia.
  - unfold jobs_waiting. destruct o; try done; simpl in Hp; cbn [take_gain send_cost].
    + assert (inbox s' = inbox s) as -> by (by destruct t; destruct Hp as [[_ ->]|[_ [->| ->]]]). lia.
    + assert (inbox s' = inbox s) as ->
        by (destruct Hp as [[_ ->]|[_ ->]]; [apply (tx_channel body s)|done]). lia.
    + destruct (inbox_open s); destruct Hp as [_ ->]; [|lia].
      simpl. rewrite omap_app, length_app. destruct m; simpl; lia.
    + destruct Hp as (m & rest & Hb & -> & ->). rewrite Hb. cbn [set_tasks inbox].
      destruct m as [job|]; [change (omap id (Some job :: rest)) with (job :: omap id rest)|
        change (omap id (None :: rest)) with (omap id rest)]; cbn [length]; lia.
    + subst. simpl. lia.
    + subst. simpl. lia.
Qed.

Lemma balanced_step w0 m0 j0 pl i es :
  balanced w0 m0 j0 pl es -> balanced w0 m0 j0 (pool_step self pl i) (es ++ step_events pl i).
Proof.
  intros (bs & Ht & Hw & Hm & Hj & Hb). unfold pool_step, step_events.
  assert (balanced w0 m0 j0 pl (es ++ [])) as Hstay by (rewrite app_nil_r; by exists bs).
  destruct (exited _); [done|]. destruct (tasks pl !! i) as [[| |o k]|] eqn:Hi; try done.
  destruct (is_enabled o _) eqn:He; [|done]. apply is_enabled_spec in He.
  pose proof (waiting_step o _ _ _ (handle_post o (world pl) He)) as Hwait.
  set (x := snd (handle o (world pl))) in *.
  destruct (Forall2_lookup_r _ _ _ _ _ Ht Hi) as (b & Hbi & (Hal & Hk)).
  destruct Hal as (Hal1 & Hal2 & Hal3). set (b' := spend b o x) in *.
  pose proof (left_of_insert work_left bs i b b' Hbi) as Iw. pose proof (left_of_insert messages_left bs i b b' Hbi) as Im.
  pose proof (left_of_insert starts_left bs i b b' Hbi) as Ij. cbn [b' spend work_left messages_left starts_left] in Iw, Im, Ij.
  assert (exists more, Forall2 task_affords more (spawned_task self o) /\
    left_of work_left more = start_cost o /\ left_of messages_left more = start_cost o /\ left_of starts_left more = 0)
    as (more & Hmore & Mw & Mm & Mj).
  { destruct o; try (by exists []). exists [proving]. split; [|done].
    constructor; [|constructor]. apply task_affords_bind, affords_prove. }
  exists (<[i := b']> bs ++ more).
  unfold submissions_in, sends_in, starts_in, takes_in in *.
  rewrite !total_app, !total_one, !left_of_app, Mw, Mm, Mj. cbn [world].
  split; [apply Forall2_app; [apply Forall2_insert; [done|apply Hk]|done]|]. lia.
Qed.

Lemma balanced_log w0 m0 j0 schedule : forall pl es,
  balanced w0 m0 j0 pl es ->
  balanced w0 m0 j0 (run_schedule self schedule pl) (es ++ log self schedule pl).
Proof.
  induction schedule as [|i schedule IH]; intros pl es Hpl; simpl; [by rewrite app_nil_r|].
  rewrite app_assoc. by apply IH, balanced_step.
Qed.

Lemma left_of_const m b {A} (l : list A) : left_of m ((fun _ => b) <$> l) = length l * m b.
Proof.
  induction l as [|a l IH]; [done|].
  change (m b + left_of m ((fun _ => b) <$> l) = S (length l) * m b). rewrite IH. lia.
Qed.

(** The budgets of some tasks that are alike. *)
Lemma budgets {A} b (mk : A -> prog TaskResult) l :
  (forall a, task_affords b (mk a)) -> Forall2 task_affords ((fun _ => b) <$> l) (mk <$> l).
Proof. intros Hb. induction l; constructor; auto. Qed.

(** C23: what the work costs, under every schedule and whatever fails. At first
    there are the requests [reqs] and [asked], proving tasks for [started], and
    any number of workers, hooks and preparations. The inputs given to a local
    prover or to the prover network are no more than the proving tasks there ever
    were: a task submits once at most. The tasks started are no more than the jobs
    that waited or were sent: a job is started once at most for each time it is
    sent. And the jobs sent are no more than the requests and the proving tasks:
    each sends one at most, a request also when it submits many blobs. *)
Theorem work_is_bounded socket w reqs asked started others schedule :
  Forall (fun t => (exists fuel, t = worker_task fuel) \/ t = shutdown_task \/ t = prepare_task) others ->
  let ts := ((connection_task socket <$> reqs) ++ (request_task <$> asked) ++
    (prove_task self <$> started) ++ others)%list in
  let es := log self schedule {| world := w; tasks := ts |} in
  submissions_in es <= length started + starts_in es /\
  starts_in es <= jobs_waiting (view w) + sends_in es /\
  sends_in es <= length reqs + length asked + length started + starts_in es.
Proof.
  intros Ho ts es.
  destruct (balanced_log (length started) (length reqs + length asked + length started) (jobs_waiting (view w))
    schedule {| world := w; tasks := ts |} []) as (bs & _ & Hw & Hm & Hj & Hb);
    [|cbn [app] in *; fold es in Hw, Hm, Hj, Hb; lia].
  exists (((fun _ => asking) <$> reqs) ++ ((fun _ => asking) <$> asked) ++ ((fun _ => proving) <$> started) ++
    ((fun _ => nothing) <$> others))%list.
  rewrite !left_of_app, !left_of_const. cbn [asking proving nothing work_left messages_left starts_left world tasks].
  split; [|unfold submissions_in, sends_in, starts_in, takes_in; cbn; lia]. unfold ts.
  repeat apply Forall2_app.
  - apply budgets. intros req. apply task_affords_bind, affords_handle_request.
  - apply budgets. intros job. apply task_affords_bind. eapply affords_mono; [|apply affords_get_verifiable_encryption]. done.
  - apply budgets. intros job. apply task_affords_bind, affords_prove.
  - induction Ho as [|t others [[fuel ->]|[->| ->]] _ IH]; constructor; try apply IH.
    + apply task_affords_bind, affords_job_worker.
    + by repeat split.
    + apply task_affords_bind, affords_free; [apply free_prepare_clients|done].
Qed.
End Accounts.
