(* ===== verification/Carried.v ===== *)
(** No job is lost while the process runs. The queue tree and the worker's
    channel are two stores, and a job is in the queue before its message is in
    the channel. [settles k p] says that [p] will hand the job of key [k] on: to
    the channel, to a proving task, or out of the queue; [careful] that a task
    never puts a job into the queue, or takes a message, without settling it.
    Then under every schedule each queued job has a message or a task. *)

From S2P Require Import Prelude Format ZkvmCommon Guest Job Http Effects Environment.
From S2P Require Import Runner Invariant RunnerSafe Lifecycle Liveness Json Proxy.
From S2P Require Import ProxyFacts Submit Startup Concurrency Traces.

Open Scope pda_scope.
Local Open Scope string_scope.

Section Carried.
  Context `{Sp1Facts, Payload} (E : gmap string string).

(** The job has the database key [k]. *)
Definition of_key (k : bytes) (job : Job) : Prop := serialize (anchor job) = Ok k.

(** An SP1 client refuses an input only with one of its own errors. *)
Definition op_known (o : Op) : ans o -> Prop :=
  match o return ans o -> Prop with
  | ProveLocal _ _ _ | WaitProof _ _ _ => fun r => forall e, r = Err e -> downcast_ref e <> None
  | RequestRemote _ _ _ _ _ _ => fun r => forall e, r = Err e -> downcast_ref e <> None
  | _ => fun _ => True
  end.

(** An answer when nothing but the SP1 client's own errors goes wrong. *)
Definition expected (o : Op) (x : ans o) : Prop :=
  op_rely E o x /\ op_lucky only_refusals E o x /\ op_known o x.

(** The operation puts a job under [k] into the queue. *)
Definition queues (k : bytes) (o : Op) : Prop :=
  match o with
  | SledInsert QueueDb k' _ => k' = k
  | SledTransaction body => exists v, TxInsert QueueDb k v ∈ body
  | _ => False
  end.

(** The operation moves the job to the finished tree. *)
Definition finalizes (k : bytes) (o : Op) : Prop :=
  exists v, o = SledTransaction [TxRemove QueueDb k; TxInsert FinishedDb k v].

(** The operation gives the job to the worker or to a proving task. *)
Definition passes (k : bytes) (o : Op) : Prop :=
  match o with ChanSend (Some job) | SpawnProve job => of_key k job | _ => False end.

Definition discharges (k : bytes) (o : Op) : Prop := finalizes k o \/ passes k o.

(** The answer shows that the queue holds nothing under [k]. *)
Definition absent (k : bytes) (o : Op) : ans o -> Prop :=
  match o return ans o -> Prop with
  | SledGet QueueDb k' => fun r => k' = k /\ r = Ok None
  | _ => fun _ => False
  end.

(** [p] works, without touching the jobs, until it performs an operation of
    [D], or sees that there is nothing to do, or returns a value of [Q]. *)
Fixpoint settles (D : Op -> Prop) (k : bytes) {A} (p : prog A) (Q : A -> Prop) : Prop :=
  match p with
  | Ret a => Q a
  | Panic _ => False
  | Vis o c =>
      D o \/ op_quiet o = true /\
             forall x, expected o x -> absent k o x \/ settles D k (c x) Q
  end.

(** [p] never ends without handing the job on or moving it to the finished tree. *)
Definition promptly (k : bytes) {A} (p : prog A) : Prop :=
  settles (discharges k) k p (fun _ => False).

(** The operation queues the job with its next status. *)
Definition requeues (k : bytes) (o : Op) : Prop :=
  exists v, o = SledTransaction [TxRemove FinishedDb k; TxInsert QueueDb k v].

(** Or without queueing it anew. *)
Definition hands_on (k : bytes) {A} (p : prog A) : Prop :=
  settles (fun o => discharges k o \/ requeues k o) k p (fun _ => False).

(** The message an operation takes from the channel. *)
Definition receives (job : Job) (o : Op) : ans o -> Prop :=
  match o return ans o -> Prop with
  | ChanRecv => fun m => m = Some (Some job)
  | _ => fun _ => False
  end.

(** What [p] takes on, it settles. *)
Fixpoint careful {A} (p : prog A) : Prop :=
  match p with
  | Ret _ | Panic _ => True
  | Vis o c => forall x, expected o x ->
      (forall k, queues k o \/ (exists job, receives job o x /\ of_key k job) -> promptly k (c x)) /\
      careful (c x)
  end.

(** ** Rules *)

Lemma settles_bind D k {A B} (p : prog A) (g : A -> prog B) Q :
  settles D k p (fun a => settles D k (g a) Q) -> settles D k (bind p g) Q.
Proof.
  induction p as [a|msg|o c IH]; simpl; try done. intros [Hd|[Ho Hc]]; [by left|right].
  split; [done|]. intros x Hx. destruct (Hc x Hx); auto.
Qed.

Lemma settles_mono (D D' : Op -> Prop) k {A} (p : prog A) (Q R : A -> Prop) :
  (forall o, D o -> D' o) -> (forall a, Q a -> R a) -> settles D k p Q -> settles D' k p R.
Proof.
  intros HD HQ. induction p as [a|msg|o c IH]; simpl; auto. intros [Hd|[Ho Hc]]; [left; auto|right].
  split; [done|]. intros x Hx. destruct (Hc x Hx); auto.
Qed.

(** A part that hands the job on does so for the whole. *)
Lemma hands_on_bind k {A B} (p : prog A) (g : A -> prog B) : hands_on k p -> hands_on k (bind p g).
Proof. intros Hp. apply settles_bind. by eapply settles_mono; [| |exact Hp]. Qed.

Lemma promptly_bind k {A B} (p : prog A) (g : A -> prog B) : promptly k p -> promptly k (bind p g).
Proof. intros Hp. apply settles_bind. by eapply settles_mono; [| |exact Hp]. Qed.

Lemma promptly_hands_on k {A} (p : prog A) : promptly k p -> hands_on k p.
Proof. apply settles_mono; [by left|done]. Qed.

Lemma settles_call D k {A B} (p : prog A) (g : A -> prog B) R Q :
  settles D k p R -> (forall a, R a -> settles D k (g a) Q) -> settles D k (bind p g) Q.
Proof. intros Hp Hg. apply settles_bind. by eapply settles_mono; [| |exact Hp]. Qed.

Lemma settles_callR D k {A B Er} (p : prog (result A Er)) (g : A -> prog (result B Er)) (R : A -> Prop) Q :
  settles D k p (fun r => exists a, r = Ok a /\ R a) ->
  (forall a, R a -> settles D k (g a) Q) -> settles D k (bindR p g) Q.
Proof. intros Hp Hg. eapply settles_call; [exact Hp|]. intros r (a & -> & Ha). auto. Qed.

(** Work before the job is handed on. *)
Lemma settles_lucky D k {A} (p : prog A) R : lucky only_refusals E p R -> settles D k p R.
Proof.
  induction p as [a|msg|o c IH]; simpl; auto. intros (Ho & _ & Hc). right. split; [done|].
  intros x (Hr & Hl & _). auto.
Qed.

Lemma settles_op D k o {B} (g : ans o -> prog B) Q :
  op_quiet o = true -> (forall x, expected o x -> settles D k (g x) Q) -> settles D k (bind (op o) g) Q.
Proof. intros Ho Hg. right. split; [done|]. intros x Hx. right. by apply Hg. Qed.

Lemma careful_bind {A B} (p : prog A) (g : A -> prog B) :
  careful p -> (forall a, careful (g a)) -> careful (bind p g).
Proof.
  intros Hp Hg. induction p as [a|msg|o c IH]; simpl in *; [apply Hg|done|].
  intros x Hx. destruct (Hp x Hx) as [Hs Hc]. split; [|by apply IH].
  intros k Hk. by apply promptly_bind, Hs.
Qed.

Lemma careful_bindR {A B Er} (p : prog (result A Er)) (g : A -> prog (result B Er)) :
  careful p -> (forall a, careful (g a)) -> careful (bindR p g).
Proof. intros Hp Hg. apply careful_bind; [done|]. by intros []. Qed.

Lemma careful_map_err {A Er Fr} (g : Er -> Fr) (p : prog (result A Er)) :
  careful p -> careful (map_err g p).
Proof. intros Hp. by apply careful_bind. Qed.

(** An operation that takes nothing on. *)
Definition idle_op (o : Op) : bool :=
  match o with
  | SledInsert QueueDb _ _ | SledTransaction _ | ChanRecv => false
  | _ => true
  end.

Lemma careful_idle {A} (p : prog A) : only idle_op p -> careful p.
Proof.
  induction p as [a|msg|o c IH]; simpl; try done. intros [Ho Hc] x _. split; [|auto].
  intros k [Hq|(job & Hr & _)]; destruct o; try done. by destruct t.
Qed.
End Carried.

(** The cases of a step of a given transaction. *)
Ltac in_body Hin :=
  repeat (apply elem_of_cons in Hin as [Hin|Hin]; [simplify_eq|]); try by apply elem_of_nil in Hin.

Section Programs.
  Context `{Sp1Facts, !RunnerCodecs, !BincodeTotal SP1ProofSetup, !BincodeTotal JobStatus, Payload}.
  Context (E : gmap string string) (self : PdaRunner).

(** Finalizing a job takes it out of the queue. *)
Lemma settles_finalize_job D k st Q :
  (forall o, finalizes k o -> D o) -> settles E D k (finalize_job k st) Q.
Proof.
  intros HD. unfold finalize_job. destruct (serialize_total st) as [v Hv]. rewrite Hv. cbn.
  left. apply HD. by exists v.
Qed.

Lemma careful_transaction body {B} (g : result unit string -> prog B) :
  (forall k v, TxInsert QueueDb k v ∈ body -> promptly E k (g (Ok tt))) ->
  (forall x, careful E (g x)) -> careful E (bind (op (SledTransaction body)) g).
Proof.
  intros Hs Hg x (_ & Hl & _). split; [|apply Hg]. intros k [[v Hv]|(job & [] & _)].
  destruct x as [[]|e]; [|done]. by apply (Hs k v).
Qed.

Lemma careful_finalize_job k st : careful E (finalize_job k st).
Proof.
  unfold finalize_job. destruct (serialize_total st) as [v ->]. cbn [expect lift bind].
  apply (careful_transaction [TxRemove QueueDb k; TxInsert FinishedDb k v]); [intros k' v' Hin; in_body Hin|].
  by intros [[]|e].
Qed.

Lemma careful_send_job k st job : of_key k job -> careful E (send_job_with_new_status k st job).
Proof.
  intros Hk. unfold send_job_with_new_status. destruct (serialize_total st) as [v ->].
  cbn [expect lift bind].
  apply (careful_transaction [TxRemove FinishedDb k; TxInsert QueueDb k v]).
  - intros k' v' Hin. in_body Hin. left. by right.
  - intros [[]|e]; [|done]. by apply careful_idle; split.
Qed.

Lemma careful_get_verifiable_encryption job : careful E (get_verifiable_encryption job).
Proof.
  unfold get_verifiable_encryption. destruct (serialize (anchor job)) as [k|e] eqn:Hk; [|done].
  rewrite bindR_ret. cbn [result_map_err].
  apply careful_bindR; [by apply careful_idle; split|]. intros [b|].
  - apply careful_bindR; [done|]. intros st. destruct st as [| | | |e [retry|]]; try done.
    apply careful_bind; [by apply careful_send_job|]. by intros [].
  - apply careful_bindR; [by apply careful_idle; split|]. intros [b|].
    { apply careful_bindR; [done|]. by intros []. }
    apply careful_bind; [unfold env_expect; apply careful_idle; solve_only|]. intros prover.
    apply careful_bindR; [done|]. intros st. apply careful_bindR; [done|]. intros v.
    intros x (_ & Hl & _). destruct x as [[]|e]; [|done]. split.
    + intros k' [->|(? & [] & _)]. left. by right.
    + apply careful_idle. cbn. split; [done|]. by intros [].
Qed.

  (** ** The prover *)

(** A client's answer: success, or an error that finalizes the job. *)
Lemma settles_client_error {A} D job k (r : result A AnyhowError) :
  (forall o, finalizes k o -> D o) ->
  (forall e, r = Err e -> downcast_ref e <> None) ->
  settles E D k (map_client_error job k r) (fun r' => exists a, r' = Ok a /\ r = Ok a).
Proof.
  intros HD He. destruct r as [a|e]; [by exists a|]. unfold map_client_error. specialize (He e eq_refl).
  destruct (downcast_ref e) as [down|]; [|done]. apply settles_bind.
  unfold handle_zk_client_error. destruct down; by apply settles_bind, settles_finalize_job.
Qed.

Lemma settles_zk_proof_local D id job k :
  (forall o, finalizes k o -> D o) -> configured E ->
  settles E D k (zk_proof_local id job k) (fun r => exists p, r = Ok p /\ True).
Proof.
  intros HD Hc. unfold zk_proof_local.
  eapply settles_call; [apply settles_lucky, lucky_get_zk_client_local|intros c _].
  eapply settles_callR; [apply settles_lucky, lucky_get_proof_setup_local|intros s Hs].
  eapply settles_call; [by apply settles_lucky, lucky_prepare_stdin|intros stdin _].
  apply settles_op; [done|]. intros r (_ & _ & Hr).
  eapply settles_callR; [by apply settles_client_error|]. intros p _. by exists p.
Qed.

Lemma settles_zk_proof_remote D id job k :
  (forall o, finalizes k o -> D o) -> configured E ->
  settles E D k (zk_proof_remote self id job k) (fun r => exists i, r = Ok i /\ True).
Proof.
  intros HD Hc. unfold zk_proof_remote.
  eapply settles_call; [apply settles_lucky, lucky_get_zk_client_remote|intros c _].
  eapply settles_callR; [apply settles_lucky, lucky_get_proof_setup_remote|intros s Hs].
  destruct (conf_strategy E Hc) as (text & strategy & Ht & Hstr).
  eapply settles_call; [by eapply settles_lucky, (lucky_env_expect _ _ _ _ _ (eq text))|intros ? <-].
  rewrite Hstr, bindR_ret.
  eapply settles_call; [by apply settles_lucky, lucky_prepare_stdin|intros stdin _].
  apply settles_op; [done|]. intros r (_ & _ & Hr).
  eapply settles_callR; [by apply settles_client_error|]. intros p _. by exists p.
Qed.

Lemma settles_wait_for_zk_proof D job k id :
  (forall o, finalizes k o -> D o) -> settles E D k (wait_for_zk_proof job k id) (fun r => exists p, r = Ok p /\ True).
Proof.
  intros HD. unfold wait_for_zk_proof.
  eapply settles_call; [apply settles_lucky, lucky_get_zk_client_remote|intros c _].
  apply settles_op; [done|]. intros r (_ & _ & Hr).
  eapply settles_callR; [by apply settles_client_error|]. intros p _. by exists p.
Qed.

(** A step of a job looks up its status, then makes a proof and records it, or
    sends a request to the network and records that. *)
Lemma settles_prove job k :
  configured E -> of_key k job ->
  exists c, prove self job = Vis (SledGet QueueDb k) c /\
    forall (D : Op -> Prop) b st Q,
      deserialize b = Ok st -> is_pending st = true -> (forall o, finalizes k o -> D o) ->
      (forall id v, st = RemoteZkProofRequesting -> serialize (RemoteZkProofPending id) = Ok v ->
         D (SledTransaction [TxRemove FinishedDb k; TxInsert QueueDb k v])) ->
      settles E D k (c (Ok (Some b))) Q.
Proof.
  intros Hc Hk. unfold prove. rewrite Hk. eexists. split; [reflexivity|].
  intros D b st Q Hd Hst HD Hsend. cbn [bind bindR map_err result_map_err]. rewrite Hd.
  cbn [bind bindR map_err result_map_err].
  destruct st as [| |id| |]; try done.
  - eapply settles_call; [apply settles_lucky, lucky_get_program_id|intros id _].
    eapply settles_call; [by apply settles_zk_proof_local|intros r (p & -> & _)].
    by apply settles_bind, settles_finalize_job.
  - eapply settles_call; [apply settles_lucky, lucky_get_program_id|intros id _].
    eapply settles_call; [by apply settles_zk_proof_remote|intros r (id' & -> & _)].
    destruct (serialize_total (RemoteZkProofPending id')) as [v Hv].
    apply settles_bind. unfold send_job_with_new_status. rewrite Hv. left. by eapply Hsend.
  - eapply settles_call; [by apply settles_wait_for_zk_proof|intros r (p & -> & _)].
    by apply settles_bind, settles_finalize_job.
Qed.

(** A step of a job hands the job on. *)
Lemma prove_hands_on job k : configured E -> of_key k job -> hands_on E k (prove self job).
Proof.
  intros Hc Hk. destruct (settles_prove job k Hc Hk) as (c & -> & Hp). right. split; [done|].
  intros [[b|]|e] (Hr & Hl & _); [right|by left|done].
  destruct (Hr b eq_refl) as (_ & st & Hd & Hst). eapply Hp; [done| |by left; left|].
  - by eapply queue_ok_pending.
  - intros id v _ _. right. by exists v.
Qed.

Lemma careful_quiet {A} (p : prog A) : quiet p -> careful E p.
Proof.
  intros Hp. apply careful_idle. induction p as [a|msg|o c IH]; simpl in *; try done.
  destruct Hp as [Ho Hc]. split; [|auto]. destruct o; try done. by destruct t.
Qed.

Lemma careful_op o : idle_op o = true -> careful E (op o).
Proof. intros Ho. by apply careful_idle. Qed.

Lemma careful_map_client_error {A} job k (r : result A AnyhowError) :
  careful E (map_client_error job k r).
Proof.
  unfold map_client_error. destruct r as [a|e]; [done|]. destruct (downcast_ref e) as [down|]; [|done].
  apply careful_bind; [|done]. unfold handle_zk_client_error.
  destruct down; (apply careful_bind; [apply careful_finalize_job|by intros []]).
Qed.

Lemma careful_prove job : careful E (prove self job).
Proof.
  unfold prove. destruct (serialize (anchor job)) as [k|e] eqn:Hk; [|done].
  rewrite bindR_ret. cbn [result_map_err].
  apply careful_bindR; [by apply careful_map_err, careful_op|intros [b|]; [|done]].
  apply careful_bindR; [done|intros st]. destruct st; try done.
  - apply careful_bind; [apply careful_quiet, quiet_get_program_id|intros id].
    apply careful_bind; [|intros [p|e]; [|done]; apply careful_bindR; [apply careful_finalize_job|done]].
    unfold zk_proof_local.
    apply careful_bind; [apply careful_quiet, quiet_get_zk_client_local|intros c].
    apply careful_bindR; [apply careful_quiet, quiet_get_proof_setup_local|intros s].
    apply careful_bind; [apply careful_quiet, quiet_prepare_stdin|intros stdin].
    apply careful_bind; [by apply careful_op|intros r].
    apply careful_bindR; [apply careful_map_client_error|done].
  - apply careful_bind; [apply careful_quiet, quiet_get_program_id|intros id].
    apply careful_bind; [|intros [p|e]; [|done]; apply careful_bindR; [by apply careful_send_job|done]].
    unfold zk_proof_remote.
    apply careful_bind; [apply careful_quiet, quiet_get_zk_client_remote|intros c].
    apply careful_bindR; [apply careful_quiet, quiet_get_proof_setup_remote|intros s].
    apply careful_bind; [apply careful_quiet, quiet_env_expect|intros fs].
    apply careful_bindR; [done|intros strategy].
    apply careful_bind; [apply careful_quiet, quiet_prepare_stdin|intros stdin].
    apply careful_bind; [by apply careful_op|intros r].
    apply careful_bindR; [apply careful_map_client_error|done].
  - apply careful_bind; [|intros [p|e]; [|done]; apply careful_bindR; [apply careful_finalize_job|done]].
    unfold wait_for_zk_proof.
    apply careful_bind; [apply careful_quiet, quiet_get_zk_client_remote|intros c].
    apply careful_bind; [by apply careful_op|intros r].
    apply careful_bindR; [apply careful_map_client_error|done].
Qed.

  (** ** The other tasks *)

Lemma careful_encrypt_blobs blobs : careful E (encrypt_blobs blobs).
Proof.
  induction blobs as [|blob blobs IH]; [done|]. simpl.
  apply careful_bindR; [apply careful_map_err, careful_get_verifiable_encryption|].
  intros [p|]; [|done]. apply careful_bindR; [done|intros d]. apply careful_bindR; [done|intros b].
  by apply careful_bindR.
Qed.

Lemma careful_inbound_handler req m : careful E (inbound_handler req m).
Proof.
  unfold inbound_handler. repeat case_match; try done. apply careful_bind; [|done].
  unfold intercept_submit. repeat case_match; try done.
  apply careful_bindR; [done|intros blobs']. apply careful_bindR; [apply careful_encrypt_blobs|].
  intros [bs|]; [|done]. by apply careful_bindR.
Qed.

Lemma quiet_verify_decrypt_blob blob key : quiet (verify_decrypt_blob blob key).
Proof.
  unfold verify_decrypt_blob, extract_verified_proof_output.
  repeat first [ apply quiet_get_zk_client_local | apply quiet_get_program_id
    | apply quiet_get_proof_setup_local | progress solve_quiet ].
Qed.

Lemma quiet_decrypt_values values key : quiet (decrypt_values values key).
Proof.
  induction values as [|v values IH]; [done|]. simpl. apply quiet_bindR; [done|intros blob].
  apply quiet_bindR; [apply quiet_verify_decrypt_blob|intros b].
  apply quiet_bindR; [done|intros v']. by apply quiet_bindR.
Qed.

Lemma quiet_outbound_handler resp m : quiet (outbound_handler resp m).
Proof.
  unfold outbound_handler, try_mutate_response, read_encryption_key, env_expect.
  repeat first [ apply quiet_verify_decrypt_blob | apply quiet_decrypt_values
    | progress solve_quiet ].
Qed.

Lemma careful_handle_request socket req : careful E (handle_request socket req).
Proof.
  unfold handle_request. apply careful_bind; [by apply careful_op|intros u].
  apply careful_bind; [apply careful_quiet, quiet_lift|intros uri]. case_match; [done|].
  apply careful_bind; [apply careful_inbound_handler|].
  intros [[[out|]|e] m]; [|done|apply careful_quiet, quiet_lift].
  apply careful_bind; [by apply careful_op|].
  intros [resp|e]; [|apply careful_quiet, quiet_lift].
  apply careful_bind; [apply careful_quiet, quiet_outbound_handler|].
  intros [r|e]; [done|apply careful_quiet, quiet_lift].
Qed.

(** The worker hands each message it takes to a proving task. *)
Lemma careful_job_worker fuel : careful E (job_worker fuel).
Proof.
  induction fuel as [|fuel IH]; [done|]. intros x _. split.
  - intros k [[]|(job & -> & Hk)]. left. by right.
  - destruct x as [[job|]|]; try by apply careful_idle.
    intros y _. split; [by intros k [[]|(? & [] & _)]|done].
Qed.

Lemma careful_service_task socket clients t : service_task self socket clients t -> careful E t.
Proof.
  intros [req Hr|job Hj|job Hj|fuel| |]; (apply careful_bind; [|done]).
  - apply careful_handle_request.
  - apply careful_get_verifiable_encryption.
  - apply careful_prove.
  - apply careful_job_worker.
  - by apply careful_idle.
  - apply careful_quiet, quiet_prepare_clients.
Qed.
End Programs.

(** ** What operations do to the queue and the channel *)

Section Effects.
  Context `{Sp1Facts}.

Lemma tx_step_queue (s : Store) (x : TxOp) k :
  queue_db (tx_step s x) !! k =
    match x with
    | TxRemove QueueDb k' => if decide (k' = k) then None else queue_db s !! k
    | TxInsert QueueDb k' v => if decide (k' = k) then Some v else queue_db s !! k
    | _ => queue_db s !! k
    end.
Proof.
  destruct x as [[] k'|[] k' v]; try done; simpl; case_decide; subst.
  - apply lookup_delete_eq.
  - by apply lookup_delete_ne.
  - apply lookup_insert_eq.
  - by apply lookup_insert_ne.
Qed.

Lemma tx_queued body (s : Store) k b :
  queue_db (tx_apply s body) !! k = Some b ->
  queue_db s !! k = Some b \/ exists v, TxInsert QueueDb k v ∈ body.
Proof.
  unfold tx_apply. revert s. induction body as [|x body IH]; intros s; simpl; [by left|].
  intros [Hb|[v Hv]]%IH; [|right; exists v; by right]. rewrite tx_step_queue in Hb.
  destruct x as [[] k'|[] k' v]; try (by left); case_decide; simplify_eq; try (by left).
  right. exists b. left.
Qed.

(** Only an operation that queues [k] brings it into the queue. *)
Lemma op_queues f o s s' x k b :
  op_post f o s s' x -> queue_db s !! k = None -> queue_db s' !! k = Some b -> queues k o.
Proof.
  intros Hp Hn Hb. assert (queue_db s' <> queue_db s) as Hne by congruence. revert Hp.
  destruct o; simpl; try (intros ->; done); try (intros [-> _]; done); try (intros (-> & _); done).
  - destruct t; simpl; intros [[_ ->]|[_ [->| ->]]]; simpl in *; try done;
      destruct (decide (k0 = k)) as [->|?]; try done; by rewrite lookup_insert_ne in Hb; simplify_eq.
  - intros [[_ ->]|[_ ->]]; [|done]. apply tx_queued in Hb as [Hb|Hb]; [congruence|done].
  - destruct (inbox_open s); by intros [_ ->].
  - by intros (? & ? & _ & _ & ->).
  - destruct (cell_get s c); intros [-> _]; [done|by destruct c].
Qed.

(** The channel stays open, and loses only the message that is received. *)
Lemma op_channel f o s s' x :
  op_post f o s s' x ->
  inbox_open s' = inbox_open s /\
  forall job, Some job ∈ inbox s -> Some job ∈ inbox s' \/ receives job o x.
Proof.
  destruct o; simpl; try (by intros ->; auto); try (by intros [-> _]; auto);
    try (by intros (-> & _); auto).
  - destruct t; intros [[_ ->]|[_ [->| ->]]]; simpl; auto.
  - intros [[_ ->]|[_ ->]]; [|auto]. destruct (tx_channel body s) as [-> ->]. auto.
  - destruct (inbox_open s) eqn:Ho; intros [_ ->]; simpl; (split; [done|]); [|by left].
    intros job Hj. left. apply elem_of_app. by left.
  - intros (m & rest & Hin & -> & ->). simpl. split; [done|]. intros job Hj.
    rewrite Hin in Hj. apply elem_of_cons in Hj as [<-|Hj]; auto.
  - destruct (cell_get s c); intros [-> _]; [auto|]. destruct c; simpl; auto.
Qed.
End Effects.

(** ** Under every schedule *)

Section Pool.
  Context `{Sp1Laws, !ChaCha20Laws, !ZkvmIoLaws, !BincodeLaws Anchor, !RunnerCodecs}.
  Context `{!BincodeLaws SP1ProofWithPublicValues, Payload, !PayloadLaws}.
  Context `{!BincodeTotal SP1ProofSetup, !BincodeTotal JobStatus}.
  Context {Ev : Env} {L : EnvLaws only_refusals} (self : PdaRunner) (E : gmap string string).
  Context (Hconf : configured E) (Hknown : forall o w, op_known o (snd (handle o w))).

(** The job of key [k] has a message in the channel, or a task that hands it on. *)
Definition covered (pl : Pool) (k : bytes) : Prop :=
  (exists job, Some job ∈ inbox (view (world pl)) /\ of_key k job) \/
  (exists i t, tasks pl !! i = Some t /\ hands_on E k t).

Record carried (G : Request bytes -> Prop) (pl : Pool) : Prop := {
  carried_ok : pool_ok E G pl;
  carried_open : inbox_open (view (world pl)) = true;
  carried_careful : Forall (careful E) (tasks pl);
  carried_queue : exited (view (world pl)) = None ->
    forall k b, queue_db (view (world pl)) !! k = Some b -> covered pl k;
}.

Lemma prove_task_hands_on job k : of_key k job -> hands_on E k (prove_task self job).
Proof. intros Hk. by apply hands_on_bind, prove_hands_on. Qed.

Lemma prove_task_careful job : careful E (prove_task self job).
Proof. apply careful_bind; [apply careful_prove|done]. Qed.

(** The answer to a task's next operation. *)
Lemma pool_expected G pl i o c :
  carried G pl -> tasks pl !! i = Some (Vis o c) -> enabled o (view (world pl)) ->
  expected E o (snd (handle o (world pl))).
Proof.
  intros [(Hi & _ & Hsafe) _ _ _] Hti He. pose proof (handle_post o (world pl) He) as Hp.
  pose proof (Forall_lookup_1 _ _ _ _ Hsafe Hti) as (_ & _ & Hg & _).
  split; [by eapply (op_inv E)|]. split; [by eapply op_post_lucky|apply Hknown].
Qed.

(** A task that turns keeps a place for each job it is to hand on. *)
Lemma turn_covers (w : World) ts i o (c : ans o -> prog TaskResult) k b :
  let r := handle o w in
  let pl' := {| world := fst r; tasks := <[i := c (snd r)]> ts ++ spawned_task self o |} in
  expected E o (snd r) -> enabled o (view w) -> inbox_open (view w) = true ->
  ts !! i = Some (Vis o c) -> careful E (Vis o c) ->
  queue_db (view (fst r)) !! k = Some b -> is_Some (queue_db (view w) !! k) \/ queues k o ->
  (forall b', queue_db (view w) !! k = Some b' -> covered {| world := w; tasks := ts |} k) ->
  covered pl' k.
Proof.
  intros r pl' Hx He Hop Hti Hc Hb Hq Hcov.
  pose proof (handle_post o w He) as Hp. fold r in Hp.
  assert (tasks pl' !! i = Some (c (snd r))) as Hi'.
  { apply lookup_app_l_Some. apply list_lookup_insert_eq. by eapply lookup_lt_Some. }
  destruct (Hc _ Hx) as [Hset _].
  destruct Hq as [[b' Hb']|Hq]; [|right; exists i, (c (snd r)); eauto using promptly_hands_on].
  destruct (Hcov b' Hb') as [(job & Hj & Hk)|(j & t & Hj & Ht)]; simpl in *.
  - destruct (op_channel _ _ _ _ _ Hp) as [_ Hch]. destruct (Hch job Hj) as [?|Hr]; [left; by exists job|].
    right. exists i, (c (snd r)). split; [done|]. apply promptly_hands_on, Hset. right. by exists job.
  - destruct (decide (j = i)) as [->|Hne].
    + rewrite Hti in Hj. injection Hj as <-. destruct Ht as [[[Hd|Hd]|Hd]|[_ Hs]].
      * destruct Hd as [v ->]. destruct Hp as [[_ Hs']|[[? _] _]]; [|done]. rewrite Hs' in Hb.
        simpl in Hb. by rewrite lookup_delete_eq in Hb.
      * destruct o; try done; simpl in *.
        -- destruct m as [job|]; [|done]. rewrite Hop in Hp. destruct Hp as [_ Hs']. left. exists job.
           split; [|done]. change (Some job ∈ inbox (view (fst r))). rewrite Hs'. simpl.
           apply elem_of_app. right. left.
        -- right. exists (length ts), (prove_task self job). split; [|by apply prove_task_hands_on].
           unfold pl'. cbn [tasks spawned_task]. rewrite lookup_app_r by (by rewrite length_insert).
           by rewrite length_insert, Nat.sub_diag.
      * right. exists i, (c (snd r)). split; [done|]. apply promptly_hands_on, Hset.
        left. destruct Hd as [v ->]. exists v. right. left.
      * right. exists i, (c (snd r)). split; [done|]. destruct (Hs _ Hx) as [Ha|?]; [|done].
        exfalso. destruct o as [[]| | | | | | | | | | | | | | | | | | | | |]; try done.
        destruct Ha as [-> Ha]. destruct Hp as [_ [Hp|[? _]]]; [|done]. rewrite Ha in Hp. simpl in Hp. congruence.
    + right. exists j, t. split; [|done]. apply lookup_app_l_Some. by rewrite list_lookup_insert_ne.
Qed.

Lemma carried_step G pl i : carried G pl -> carried G (pool_step self pl i).
Proof.
  intros Hpl. destruct (pool_step_cases self pl i) as [->|(o & c & Hex & Hti & He & Hstep)]; [done|].
  pose proof (pool_expected G pl i o c Hpl Hti He) as Hx.
  destruct Hpl as [Hok Hop Hcar Hq]. pose proof (pool_step_ok self E G pl i Hok) as Hok'.
  rewrite Hstep in *. pose proof (handle_post o (world pl) He) as Hp.
  pose proof (Forall_lookup_1 _ _ _ _ Hcar Hti) as Hc. split; [done|..].
  - destruct (op_channel _ _ _ _ _ Hp) as [Ho _]. simpl. by rewrite Ho.
  - simpl. apply Forall_app. split; [apply Forall_insert; [done|by apply Hc]|].
    destruct o; try done. constructor; [apply prove_task_careful|done].
  - intros _ k b Hb. simpl in Hb. destruct pl as [w ts]. simpl in *.
    eapply turn_covers; [done|done|done|done|done|exact Hb| |by apply Hq].
    destruct (queue_db (view w) !! k) as [b'|] eqn:Hk; [by left|right].
    by eapply op_queues.
Qed.

Lemma run_schedule_carried G schedule pl : carried G pl -> carried G (run_schedule self schedule pl).
Proof.
  revert pl. induction schedule as [|i schedule IH]; intros pl Hpl; [done|].
  by apply IH, carried_step.
Qed.

(** The service, when each queued job has a place at the start. *)
Lemma service_carried socket clients w ts schedule :
  inv E (view w) -> inbox_open (view w) = true -> Forall (service_task self socket clients) ts ->
  (forall k b, queue_db (view w) !! k = Some b -> covered {| world := w; tasks := ts |} k) ->
  carried (sent_by_clients E socket clients (forwarded (view w))) (pool_after self w ts schedule).
Proof.
  intros Hi Hop Hts Hcov. apply run_schedule_carried.
  split; [by apply (service_pool_ok self)|done| |by intros _].
  eapply Forall_impl; [exact Hts|]. intros t. apply careful_service_task.
Qed.

(** C7: no job is lost while the process runs. The variables are set; the
    database, the random number generator, and the set-up and verification of the
    SP1 client work; its work on a proof fails only with one of its own errors, at
    once or while waiting for a request it accepted. Then after any interleaving
    of the clients' requests, the worker, the proving tasks and the shutdown hook,
    each job in the queue has a message waiting for the worker, or a task that
    will hand it on: send its message, start its proof, or take it out of the
    queue. A job is only left behind when the process ends. *)
Theorem no_job_lost socket clients w ts schedule k b :
  inv E (view w) -> inbox_open (view w) = true -> Forall (service_task self socket clients) ts ->
  (forall k b, queue_db (view w) !! k = Some b -> covered {| world := w; tasks := ts |} k) ->
  let pl := pool_after self w ts schedule in
  exited (view (world pl)) = None -> queue_db (view (world pl)) !! k = Some b -> covered pl k.
Proof.
  intros Hi Hop Hts Hcov pl Hex Hb.
  by eapply (carried_queue _ _ (service_carried socket clients w ts schedule Hi Hop Hts Hcov)).
Qed.
End Pool.
