(* ===== verification/Completes.v ===== *)
(** Every queued job can be completed. From any state the service reaches without
    a shutdown, when nothing outside the program but the work on proofs fails, the
    scheduler can go on so that a given queued job gets its final status: the task
    or the message that Carried.v finds for it is run, the worker starts its
    proof, and a job of the network comes back once. *)

From S2P Require Import Prelude Format ZkvmCommon Guest Job Http Effects Environment.
From S2P Require Import Runner Invariant RunnerSafe Lifecycle Liveness Json Proxy.
From S2P Require Import ProxyFacts Submit Startup Concurrency Traces Carried.

Open Scope pda_scope.
Local Open Scope string_scope.

(** ** Reachable pools *)

Section Reach.
  Context `{Platform, Payload} {Ev : Env} (self : PdaRunner).

(** The scheduler can bring the pool to [P]. *)
Definition can (P : Pool -> Prop) (pl : Pool) : Prop := exists more, P (run_schedule self more pl).

Lemma can_now (P : Pool -> Prop) pl : P pl -> can P pl.
Proof. intros HP. by exists []. Qed.

Lemma can_turn (P : Pool -> Prop) pl i : can P (pool_step self pl i) -> can P pl.
Proof. intros [more HP]. by exists (i :: more). Qed.

Lemma can_bind (P Q : Pool -> Prop) pl : can P pl -> (forall pl', P pl' -> can Q pl') -> can Q pl.
Proof.
  intros [more HP] HQ. destruct (HQ _ HP) as [more' HQ']. exists (more ++ more')%list.
  unfold run_schedule in *. by rewrite foldl_app.
Qed.
End Reach.

Section Completes.
  Context `{Sp1Laws, !ChaCha20Laws, !ZkvmIoLaws, !BincodeLaws Anchor, !RunnerCodecs}.
  Context `{!BincodeLaws SP1ProofWithPublicValues, Payload, !PayloadLaws}.
  Context `{!BincodeTotal SP1ProofSetup, !BincodeTotal JobStatus}.
  Context {Ev : Env} {L : EnvLaws only_refusals} (self : PdaRunner) (E : gmap string string).
  Context (Hconf : configured E) (Hknown : forall o w, op_known o (snd (handle o w))).

(** The worker waits for its next message, or is about to start a proof. *)
Definition at_worker (n : nat) (t : prog TaskResult) : Prop :=
  t = worker_task n \/ exists job, t = Vis (SpawnProve job) (fun _ => worker_task n).

(** What the operation adds to the channel. *)
Definition sent (o : Op) : list (option Job) := match o with ChanSend m => [m] | _ => [] end.

Context (G : Request bytes -> Prop) (iw : nat).

(** The service runs: the worker is task [iw], and no task shuts the process down. *)
Record running (pl : Pool) : Prop := {
  running_carried : carried E G pl;
  running_on : exited (view (world pl)) = None;
  running_inbox : None ∉ inbox (view (world pl));
  running_calm : forall j t, j <> iw -> tasks pl !! j = Some t -> only calm_op t;
}.

(** The worker can take [N] more messages than there are. *)
Definition lively (N : nat) (pl : Pool) : Prop :=
  running pl /\ exists n t, tasks pl !! iw = Some t /\ at_worker n t /\
    length (inbox (view (world pl))) + N < n.

Lemma calm_plain o : calm_op o = true -> plain_op o = true.
Proof. by destruct o. Qed.

Lemma quiet_calm o : op_quiet o = true -> calm_op o = true /\ sent o = [].
Proof. by destruct o. Qed.

Lemma plain_inbox f o s s' x :
  plain_op o = true -> inbox_open s = true -> op_post f o s s' x ->
  inbox s' = (inbox s ++ sent o)%list /\ inbox_open s' = true.
Proof.
  intros Ho Hop. destruct o; try done; simpl; rewrite ?app_nil_r.
  all: try (by intros ->); try (by intros [-> _]); try (by intros (-> & _)).
  - destruct t; by intros [[_ ->]|[_ [->| ->]]].
  - intros [[_ ->]|[_ ->]]; [|done]. by destruct (tx_channel body s) as [-> ->].
  - rewrite Hop. by intros [_ ->].
  - destruct (cell_get s c); intros [-> _]; [done|by destruct c].
Qed.

Lemma calm_inbox f o s s' x :
  calm_op o = true -> inbox_open s = true -> op_post f o s s' x -> inbox s' = (inbox s ++ sent o)%list.
Proof. intros Ho%calm_plain Hop Hp. by destruct (plain_inbox f o s s' x Ho Hop Hp). Qed.

(** A turn of a task other than the worker. *)
Lemma other_turn N pl i o c :
  lively (length (sent o) + N) pl -> i <> iw -> tasks pl !! i = Some (Vis o c) ->
  let pl' := pool_step self pl i in
  tasks pl' = <[i := c (snd (handle o (world pl)))]> (tasks pl) /\ lively N pl' /\
  op_post only_refusals o (view (world pl)) (view (world pl')) (snd (handle o (world pl))) /\
  expected E o (snd (handle o (world pl))).
Proof.
  intros [[Hc Hr Hin Hcalm] (n & t & Hw & Hat & Hroom)] Hne Hi pl'.
  destruct (Hcalm i _ Hne Hi) as [Ho Hk].
  assert (is_enabled o (view (world pl)) = true) as He by (by apply plain_enabled, calm_plain).
  assert (pl' = {| world := fst (handle o (world pl));
                   tasks := <[i := c (snd (handle o (world pl)))]> (tasks pl) |}) as Hpl'.
  { unfold pl', pool_step. rewrite Hr, Hi, He. f_equal. destruct o; try done; apply app_nil_r. }
  pose proof (carried_step self E Hconf Hknown G pl i Hc) as Hc'. fold pl' in Hc'.
  apply is_enabled_spec in He. pose proof (handle_post o (world pl) He) as Hp.
  pose proof (pool_expected E Hknown G pl i o c Hc Hi He) as Hx.
  pose proof (calm_inbox _ _ _ _ _ Ho (carried_open _ _ _ Hc) Hp) as Hbox.
  rewrite Hpl' in *. simpl. split_and!; try done. split; [split|]; simpl; try done.
  - rewrite <- Hr. by eapply plain_exited; [apply calm_plain|].
  - rewrite Hbox, elem_of_app. intros [?|Hn]; [done|]. destruct o; try by apply elem_of_nil in Hn.
    apply list_elem_of_singleton in Hn as <-. done.
  - intros j u Hj Hu. apply list_lookup_insert_Some in Hu as [(<- & <- & _)|[_ Hu]]; [apply Hk|].
    by eapply Hcalm.
  - exists n, t. split_and!; [by rewrite list_lookup_insert_ne|done|].
    rewrite Hbox, length_app. lia.
Qed.

  (** ** The worker *)

(** Both trees of jobs are as they were. *)
Definition same_trees (pl pl' : Pool) : Prop :=
  queue_db (view (world pl')) = queue_db (view (world pl)) /\
  finished_db (view (world pl')) = finished_db (view (world pl)).

(** The worker takes a message. *)
Lemma receive_turn pl n job rest :
  running pl -> tasks pl !! iw = Some (worker_task (S n)) ->
  inbox (view (world pl)) = (Some job :: rest)%list ->
  let pl' := pool_step self pl iw in
  running pl' /\ same_trees pl pl' /\ inbox (view (world pl')) = rest /\
  tasks pl' = <[iw := Vis (SpawnProve job) (fun _ => worker_task n)]> (tasks pl).
Proof.
  intros [Hc Hr Hin Hcalm] Hw Hbox pl'.
  pose proof (carried_step self E Hconf Hknown G pl iw Hc) as Hc'. fold pl' in Hc'.
  pose proof (handle_post ChanRecv (world pl)) as Hp. simpl in Hp. rewrite Hbox in Hp.
  destruct Hp as (m & rest' & [= <- <-] & Hm & Hv); [done|].
  assert (pl' = {| world := fst (handle ChanRecv (world pl));
    tasks := <[iw := Vis (SpawnProve job) (fun _ => worker_task n)]> (tasks pl) |}) as Hpl'.
  { unfold pl', pool_step. rewrite Hr, Hw. cbn. rewrite Hbox. cbn. rewrite Hm, app_nil_r. done. }
  rewrite Hpl' in *. split_and!; [|split| |done]; simpl; rewrite ?Hv; try done.
  split; simpl; rewrite ?Hv; try done.
  - rewrite Hbox in Hin. intros ?. apply Hin. by right.
  - intros j u Hj Hu. rewrite list_lookup_insert_ne in Hu by done. by eapply Hcalm.
Qed.

(** The worker starts the proof. *)
Lemma spawn_turn pl n job :
  running pl -> tasks pl !! iw = Some (Vis (SpawnProve job) (fun _ => worker_task n)) ->
  let pl' := pool_step self pl iw in
  running pl' /\ same_trees pl pl' /\ inbox (view (world pl')) = inbox (view (world pl)) /\
  tasks pl' = (<[iw := worker_task n]> (tasks pl) ++ [prove_task self job])%list.
Proof.
  intros [Hc Hr Hin Hcalm] Hw pl'.
  pose proof (carried_step self E Hconf Hknown G pl iw Hc) as Hc'. fold pl' in Hc'.
  pose proof (handle_post (SpawnProve job) (world pl) I) as Hv. simpl in Hv.
  assert (pl' = {| world := fst (handle (SpawnProve job) (world pl));
    tasks := (<[iw := worker_task n]> (tasks pl) ++ [prove_task self job])%list |}) as Hpl'.
  { unfold pl', pool_step. by rewrite Hr, Hw. }
  rewrite Hpl' in *. split_and!; [|split| |done]; simpl; rewrite ?Hv; try done.
  split; simpl; rewrite ?Hv; try done.
  intros j u Hj Hu. apply lookup_app_Some in Hu as [Hu|[_ Hu]].
  - rewrite list_lookup_insert_ne in Hu by done. by eapply Hcalm.
  - apply list_lookup_singleton_Some in Hu as [_ <-]. apply only_bind; [|done].
    eapply only_mono; [apply prover_calm|apply only_prove].
Qed.

(** One round of the loop. *)
Lemma worker_round pl n job rest :
  running pl -> tasks pl !! iw = Some (worker_task (S n)) ->
  inbox (view (world pl)) = (Some job :: rest)%list ->
  let pl' := run_schedule self [iw; iw] pl in
  running pl' /\ same_trees pl pl' /\ inbox (view (world pl')) = rest /\
  tasks pl' !! iw = Some (worker_task n) /\ length (tasks pl) <> iw /\
  tasks pl' !! length (tasks pl) = Some (prove_task self job).
Proof.
  intros Hr Hw Hbox pl'. pose proof (lookup_lt_Some _ _ _ Hw) as Hlt.
  destruct (receive_turn pl n job rest Hr Hw Hbox) as (Hr1 & [Hq1 Hf1] & Hb1 & Ht1).
  destruct (spawn_turn (pool_step self pl iw) n job Hr1) as (Hr2 & [Hq2 Hf2] & Hb2 & Ht2).
  { rewrite Ht1. by apply list_lookup_insert_eq. }
  change (run_schedule self [iw; iw] pl) with (pool_step self (pool_step self pl iw) iw) in pl'.
  fold pl' in Hr2, Hq2, Hf2, Hb2, Ht2. rewrite Ht1 in Ht2.
  split_and!; [done|split; congruence|congruence| |lia|]; rewrite Ht2.
  - apply lookup_app_l_Some, list_lookup_insert_eq. by rewrite length_insert.
  - rewrite lookup_app_r by (by rewrite !length_insert). by rewrite !length_insert, Nat.sub_diag.
Qed.

(** A task is about to make a step of the job, whose entry is [b]. *)
Definition proving (N : nat) (k b : bytes) (pl : Pool) : Prop :=
  lively N pl /\ queue_db (view (world pl)) !! k = Some b /\
  exists j job, j <> iw /\ tasks pl !! j = Some (prove_task self job) /\ of_key k job.

Lemma worker_takes N k job b pre : forall rest pl n,
  running pl -> tasks pl !! iw = Some (worker_task n) ->
  inbox (view (world pl)) = (pre ++ Some job :: rest)%list ->
  length (inbox (view (world pl))) + N < n -> of_key k job ->
  queue_db (view (world pl)) !! k = Some b -> can self (proving N k b) pl.
Proof.
  induction pre as [|[job0|] pre IH]; intros rest pl n Hr Hw Hbox Hroom Hk Hb.
  - destruct n as [|n]; [lia|].
    destruct (worker_round pl n job rest Hr Hw Hbox) as (Hr' & [Hq _] & Hb' & Hw' & Hne & Hp).
    exists [iw; iw]. split; [split; [done|]|split; [by rewrite Hq|]; eauto].
    exists n, (worker_task n). split_and!; [done|by left|]. rewrite Hb'. rewrite Hbox in Hroom. simpl in Hroom. lia.
  - destruct n as [|n]; [lia|]. rewrite <- app_comm_cons in Hbox.
    destruct (worker_round pl n job0 _ Hr Hw Hbox) as (Hr' & [Hq _] & Hb' & Hw' & _).
    do 2 apply (can_turn _ _ _ iw). change (can self (proving N k b) (run_schedule self [iw; iw] pl)).
    eapply IH; [done|done|done| |done|by rewrite Hq]. rewrite Hb'. rewrite Hbox in Hroom. simpl in Hroom. lia.
  - exfalso. apply (running_inbox _ Hr). rewrite Hbox. left.
Qed.

(** A message for the job reaches the worker. *)
Lemma message_starts N k job b pl :
  lively N pl -> Some job ∈ inbox (view (world pl)) -> of_key k job ->
  queue_db (view (world pl)) !! k = Some b -> can self (proving N k b) pl.
Proof.
  intros [Hr (n & t & Hw & [-> |[job0 ->]] & Hroom)] Hin Hk Hb;
    apply list_elem_of_split in Hin as (pre & rest & Hbox); [by eapply worker_takes|].
  destruct (spawn_turn pl n job0 Hr Hw) as (Hr' & [Hq _] & Hb' & Ht').
  apply (can_turn _ _ _ iw). eapply worker_takes; [done| | | |done|by rewrite Hq]; rewrite ?Hb'; [|done|done].
  rewrite Ht'. apply lookup_app_l_Some, list_lookup_insert_eq. by eapply lookup_lt_Some.
Qed.

  (** ** Tasks that settle a job *)

Lemma settles_runs D k b (p : prog TaskResult) : forall N pl i,
  lively N pl -> i <> iw -> tasks pl !! i = Some p -> settles E D k p (fun _ => False) ->
  queue_db (view (world pl)) !! k = Some b ->
  can self (fun pl' => lively N pl' /\ queue_db (view (world pl')) !! k = Some b /\
    exists o c, tasks pl' !! i = Some (Vis o c) /\ D o) pl.
Proof.
  induction p as [a|msg|o c IH]; intros N pl i Hl Hne Hi Hs Hb; [done..|].
  destruct Hs as [Hd|[Ho Hs]]; [apply can_now; split_and!; [done..|by exists o, c]|].
  destruct (quiet_calm o Ho) as [_ Hsent].
  destruct (other_turn N pl i o c) as (Ht & Hl' & Hp & Hx); [by rewrite Hsent|done..|].
  apply (can_turn _ _ _ i). pose proof (same_queue _ _ (op_quiet_same _ _ _ _ _ Ho Hp)) as Hq.
  destruct (Hs _ Hx) as [Ha|Hc].
  - exfalso. destruct o as [[]| | | | | | | | | | | | | | | | | | | | |]; try done.
    destruct Ha as [-> Ha]. destruct Hp as [_ [Hp|[? _]]]; [|done]. rewrite Ha in Hp. simpl in Hp. congruence.
  - eapply IH; [done|done| |exact Hc|by rewrite Hq].
    rewrite Ht. apply list_lookup_insert_eq. by eapply lookup_lt_Some.
Qed.

(** The job has its final entry. *)
Definition completed (k : bytes) (pl : Pool) : Prop :=
  queue_db (view (world pl)) !! k = None /\ is_Some (finished_db (view (world pl)) !! k).

Lemma finalize_turn N k pl i o c :
  lively N pl -> i <> iw -> tasks pl !! i = Some (Vis o c) -> finalizes k o -> can self (completed k) pl.
Proof.
  intros Hl Hne Hi [v ->].
  destruct (other_turn N pl i _ c Hl Hne Hi) as (_ & _ & [[_ Hv]|[[? _] _]] & _); [|done].
  apply (can_turn _ _ _ i), can_now. unfold completed. rewrite Hv. simpl.
  split; [apply lookup_delete_eq|]. rewrite lookup_insert_eq. by eexists.
Qed.

Lemma discharge_turn N k b pl i o c :
  lively (S N) pl -> i <> iw -> tasks pl !! i = Some (Vis o c) -> discharges k o ->
  queue_db (view (world pl)) !! k = Some b ->
  can self (fun pl' => completed k pl' \/ proving N k b pl') pl.
Proof.
  intros Hl Hne Hi [Hf|Hd] Hb.
  - eapply can_bind; [by eapply finalize_turn|]. intros pl' ?. apply can_now. by left.
  - destruct Hl as [Hr Hw]. destruct (running_calm _ Hr i _ Hne Hi) as [Ho _].
    destruct o as [| | | | |[job|]| | | | | | | | | | | | | | | |]; try done.
    destruct (other_turn N pl i (ChanSend (Some job)) c) as (_ & Hl' & Hp & _); [by split|done..|].
    pose proof (carried_open _ _ _ (running_carried _ Hr)) as Hop. simpl in Hp. rewrite Hop in Hp.
    destruct Hp as [_ Hv]. apply (can_turn _ _ _ i).
    eapply can_bind; [eapply message_starts; [exact Hl'| |exact Hd|by rewrite Hv]|].
    + rewrite Hv. simpl. apply elem_of_app. right. left.
    + intros pl' Hpl'. apply can_now. by right.
Qed.

Lemma prompt_job N k b pl i p :
  lively (S N) pl -> i <> iw -> tasks pl !! i = Some p -> promptly E k p ->
  queue_db (view (world pl)) !! k = Some b ->
  can self (fun pl' => completed k pl' \/ proving N k b pl') pl.
Proof.
  intros Hl Hne Hi Hp Hb. eapply can_bind; [by eapply settles_runs|].
  intros pl' (Hl' & Hb' & o & c & Hi' & Hd). by eapply discharge_turn.
Qed.

(** The transaction that queues the job anew. *)
Lemma requeue_turn N k v pl i c :
  lively (S N) pl -> i <> iw ->
  tasks pl !! i = Some (Vis (SledTransaction [TxRemove FinishedDb k; TxInsert QueueDb k v]) c) ->
  can self (fun pl' => completed k pl' \/ proving N k v pl') pl.
Proof.
  intros Hl Hne Hi. destruct (other_turn (S N) pl i _ c Hl Hne Hi) as (Ht & Hl' & Hp & Hx).
  destruct Hp as [[_ Hv]|[[? _] _]]; [|done]. apply (can_turn _ _ _ i).
  eapply prompt_job; [exact Hl'|exact Hne| | |].
  - rewrite Ht. apply list_lookup_insert_eq. by eapply lookup_lt_Some.
  - destruct Hl as [Hr _]. pose proof (carried_careful _ _ _ (running_carried _ Hr)) as Hc.
    destruct (Forall_lookup_1 _ _ _ _ Hc Hi _ Hx) as [Hs _]. apply Hs. left. exists v. right. left.
  - rewrite Hv. simpl. apply lookup_insert_eq.
Qed.

(** The place Carried.v finds for the job leads to a step of the job. *)
Lemma covered_job N k b pl :
  lively (S N) pl -> covered E pl k -> queue_db (view (world pl)) !! k = Some b ->
  can self (fun pl' => completed k pl' \/ exists b', proving N k b' pl') pl.
Proof.
  intros Hl [(job & Hin & Hk)|(i & p & Hi & Hp)] Hb.
  - eapply can_bind; [by eapply message_starts|]. intros pl' (Hl' & Hq & Hj). apply can_now. right.
    exists b. split; [|done]. destruct Hl' as [Hr (n & t & ? & ? & ?)]. split; [done|]. exists n, t. split_and!; try done. lia.
  - destruct (decide (i = iw)) as [->|Hne].
    + destruct Hl as [Hr (n & t & Hw & Hat & Hroom)]. rewrite Hi in Hw. injection Hw as <-.
      destruct Hat as [-> |[job ->]].
      * exfalso. destruct n as [|n]; [lia|]. destruct Hp as [[[[? [=]]|[]]|[? [=]]]|[[=] _]].
      * destruct Hp as [[[[? [=]]|Hk]|[? [=]]]|[[=] _]].
        destruct (spawn_turn pl n job Hr Hi) as (Hr' & [Hq _] & Hb' & Ht').
        pose proof (lookup_lt_Some _ _ _ Hi) as Hlt.
        apply (can_turn _ _ _ iw), can_now. right. exists b. split; [split; [done|]|split; [by rewrite Hq|]].
        -- exists n, (worker_task n). split_and!; [|by left|rewrite Hb'; lia].
           rewrite Ht'. apply lookup_app_l_Some, list_lookup_insert_eq. done.
        -- exists (length (tasks pl)), job. split_and!; [lia| |done].
           rewrite Ht', lookup_app_r by (by rewrite length_insert). by rewrite length_insert, Nat.sub_diag.
    + eapply can_bind; [by eapply settles_runs|].
      intros pl' (Hl' & Hb' & o & c & Hi' & [Hd|[v ->]]).
      * eapply can_bind; [by eapply discharge_turn|]. intros pl2 [?|?]; apply can_now; eauto.
      * eapply can_bind; [by eapply requeue_turn|]. intros pl2 [?|?]; apply can_now; eauto.
Qed.

(** A step of the job completes it, or leaves the network's request for another. *)
Lemma proof_turns N k b st pl :
  proving (S N) k b pl -> deserialize b = Ok st -> is_pending st = true ->
  can self (fun pl' => completed k pl' \/ st = RemoteZkProofRequesting /\
    exists id b', deserialize b' = Ok (RemoteZkProofPending id) /\ proving N k b' pl') pl.
Proof.
  intros (Hl & Hb & j & job & Hne & Hj & Hk) Hd Hst.
  destruct (settles_prove E self job k Hconf Hk) as (c & Hp & Hs).
  unfold prove_task in Hj. rewrite Hp in Hj.
  destruct (other_turn (S N) pl j (SledGet QueueDb k) _ Hl Hne Hj) as (Ht & Hl' & Hget & _).
  destruct Hget as [Hv [Hx|[? _]]]; [|done]. simpl in Hx. rewrite Hb in Hx.
  change (@snd World (ans (SledGet QueueDb k)) (handle (SledGet QueueDb k) (world pl)) = Ok (Some b)) in Hx.
  rewrite Hx in Ht.
  set (to_pending o := st = RemoteZkProofRequesting /\ exists id v,
    serialize (RemoteZkProofPending id) = Ok v /\
    o = SledTransaction [TxRemove FinishedDb k; TxInsert QueueDb k v]).
  apply (can_turn _ _ _ j). eapply can_bind.
  - eapply (settles_runs (fun o => finalizes k o \/ to_pending o)); [exact Hl'|exact Hne| | |by rewrite Hv].
    + rewrite Ht. apply list_lookup_insert_eq. by eapply lookup_lt_Some.
    + apply settles_bind. eapply Hs; [done|done|by left|]. intros id v Hr Hser. right. split; [done|]. by exists id, v.
  - intros pl' (Hl2 & Hb2 & o & c' & Hi' & [Hf|[Hr (id & v & Hser & ->)]]).
    + eapply can_bind; [by eapply finalize_turn|]. intros pl2 ?. apply can_now. by left.
    + eapply can_bind; [by eapply requeue_turn|].
      intros pl2 [?|?]; apply can_now; [by left|]. right. split; [done|]. exists id, v.
      split; [by apply deserialize_serialize|done].
Qed.

(** From a place to the final status, through at most one visit to the network. *)
Lemma covered_completes k b pl :
  lively 3 pl -> covered E pl k -> queue_db (view (world pl)) !! k = Some b -> can self (completed k) pl.
Proof.
  intros Hl Hcov Hb. eapply can_bind; [by eapply covered_job|]. clear b Hb.
  intros pl1 [?|[b Hp]]; [by apply can_now|]. assert (exists st, deserialize b = Ok st /\ is_pending st = true)
    as (st & Hd & Hst).
  { destruct Hp as ([Hr _] & Hb & _). destruct (carried_ok _ _ _ (running_carried _ Hr)) as [Hi _].
    destruct (inv_entries E _ Hi QueueDb k b Hb) as (_ & st & Hd & Hok). eauto using queue_ok_pending. }
  eapply can_bind; [by eapply proof_turns|].
  intros pl2 [?|(_ & id & b' & Hd' & Hp')]; [by apply can_now|].
  eapply can_bind; [by eapply proof_turns|]. intros pl3 [?|[? _]]; [by apply can_now|done].
Qed.

  (** ** Under every schedule *)

Lemma lively_less N pl : lively (S N) pl -> lively N pl.
Proof.
  intros [Hr (n & t & Hw & Hat & Hn)]. split; [done|]. exists n, t. split_and!; [done..|]. lia.
Qed.

Lemma lively_step N pl i : lively (S N) pl -> lively N (pool_step self pl i).
Proof.
  intros Hl. destruct (decide (i = iw)) as [->|Hne].
  - destruct Hl as [Hr (n & t & Hw & Hat & Hroom)]. pose proof (lookup_lt_Some _ _ _ Hw) as Hlt.
    destruct Hat as [-> |[job ->]].
    + destruct n as [|n]; [lia|]. destruct (inbox (view (world pl))) as [|[job|] rest] eqn:Hbox.
      * assert (pool_step self pl iw = pl) as ->.
        { unfold pool_step. rewrite (running_on _ Hr), Hw. cbn. by rewrite Hbox. }
        split; [done|]. exists (S n), (worker_task (S n)). rewrite Hbox. split_and!; [done|by left|]. simpl in *. lia.
      * destruct (receive_turn pl n job rest Hr Hw Hbox) as (Hr' & _ & Hb' & Ht').
        split; [done|]. exists n. eexists. rewrite Ht', Hb', list_lookup_insert_eq by done.
        split_and!; [done|right; by exists job|]. simpl in *. lia.
      * exfalso. apply (running_inbox _ Hr). rewrite Hbox. left.
    + destruct (spawn_turn pl n job Hr Hw) as (Hr' & _ & Hb' & Ht'). split; [done|].
      exists n, (worker_task n). rewrite Hb'. split_and!; [|by left|lia].
      rewrite Ht'. by apply lookup_app_l_Some, list_lookup_insert_eq.
  - destruct (tasks pl !! i) as [p|] eqn:Hi.
    + destruct p as [| |o c].
      1,2: assert (pool_step self pl i = pl) as ->
        by (unfold pool_step; rewrite Hi; by destruct (exited _)); by apply lively_less.
      assert (length (sent o) <= 1) as Hs by (destruct o; simpl; lia).
      destruct (other_turn N pl i o c) as (_ & Hl' & _); [|done..].
      destruct (sent o) as [|m []]; simpl in *; [by apply lively_less|done|lia].
    + assert (pool_step self pl i = pl) as ->
        by (unfold pool_step; rewrite Hi; by destruct (exited _)). by apply lively_less.
Qed.

Lemma lively_schedule N schedule pl :
  lively (length schedule + N) pl -> lively N (run_schedule self schedule pl).
Proof.
  revert pl. induction schedule as [|i schedule IH]; intros pl Hl; [done|]. by apply IH, lively_step.
Qed.
End Completes.

Section Claims.
  Context `{Sp1Laws, !ChaCha20Laws, !ZkvmIoLaws, !BincodeLaws Anchor, !RunnerCodecs}.
  Context `{!BincodeLaws SP1ProofWithPublicValues, Payload, !PayloadLaws}.
  Context `{!BincodeTotal SP1ProofSetup, !BincodeTotal JobStatus}.
  Context {Ev : Env} {L : EnvLaws only_refusals} (self : PdaRunner) (E : gmap string string).
  Context (Hconf : configured E) (Hknown : forall o w, op_known o (snd (handle o w))).
  Context (socket : string) (clients : list (Request Incoming)).

(** A task of the service beside the worker, while nobody shuts it down. *)
Inductive working_task : prog TaskResult -> Prop :=
| works_connection req : req ∈ clients -> working_task (connection_task socket req)
| works_request job : anchored job -> working_task (request_task job)
| works_prove job : anchored job -> working_task (prove_task self job)
| works_prepare : working_task prepare_task.

Lemma working_service t : working_task t -> service_task self socket clients t.
Proof. intros []; by constructor. Qed.

Lemma working_calm t : working_task t -> only calm_op t.
Proof.
  assert (forall o, request_op o = true -> calm_op o = true) as Hreq
    by (intros o Ho; by apply prover_calm, request_prover).
  intros [req _|job _|job _|]; (apply only_bind; [|done]).
  - by apply only_handle_request.
  - eapply only_mono; [apply Hreq|apply only_get_verifiable_encryption].
  - eapply only_mono; [apply prover_calm|apply only_prove].
  - eapply only_mono; [apply Hreq|apply only_prepare_clients].
Qed.

(** A queued job can always be completed. Let the service run with its
    worker and any requests, requested proofs and proving tasks, under any
    schedule, without a shutdown; the database works, and the SP1 client fails
    only with its own errors. Whatever state it has reached, if a job is in the
    queue then the scheduler can continue so that the job leaves the queue and
    the finished tree holds a final status for it, a proof or a failure. The
    worker's loop is bounded by [fuel], which must exceed the messages it can get. *)
Theorem queued_job_can_complete w ts iw fuel schedule k b :
  inv E (view w) -> inbox_open (view w) = true -> exited (view w) = None -> None ∉ inbox (view w) ->
  ts !! iw = Some (worker_task fuel) ->
  (forall j t, j <> iw -> ts !! j = Some t -> working_task t) ->
  (forall k b, queue_db (view w) !! k = Some b -> covered E {| world := w; tasks := ts |} k) ->
  length (inbox (view w)) + length schedule + 3 < fuel ->
  let pl := pool_after self w ts schedule in
  queue_db (view (world pl)) !! k = Some b ->
  exists more, let s := view (world (run_schedule self more pl)) in
    queue_db s !! k = None /\
    exists v st, finished_db s !! k = Some v /\ deserialize v = Ok st /\ is_final st = true.
Proof.
  intros Hi Hop Hex Hbox Hw Hts Hcov Hfuel pl Hb.
  assert (Forall (service_task self socket clients) ts) as Hall.
  { apply Forall_lookup_2. intros j t Hj. destruct (decide (j = iw)) as [->|Hne].
    - rewrite Hw in Hj. injection Hj as <-. constructor.
    - eapply working_service, Hts; done. }
  pose proof (fun sch => service_carried self E Hconf Hknown socket clients w ts sch Hi Hop Hall Hcov) as Hcar.
  assert (lively E (sent_by_clients E socket clients (forwarded (view w))) iw 3 pl) as Hl.
  { apply lively_schedule; [done..|]. split.
    - split; [apply (Hcar [])|done|done|]. intros j t Hne Hj. eapply working_calm, Hts; done.
    - exists fuel, (worker_task fuel). split_and!; [done|by left|simpl; lia]. }
  pose proof Hl as [Hr _]. pose proof (carried_queue _ _ _ (running_carried _ _ _ _ Hr)
    (running_on _ _ _ _ Hr) k b Hb) as Hplace.
  destruct (covered_completes self E Hconf Hknown _ iw k b pl Hl Hplace Hb) as (more & Hq & v & Hv).
  exists more. split; [done|]. pose proof (run_schedule_carried self E Hconf Hknown _ more pl
    (running_carried _ _ _ _ Hr)) as Hc. destruct (carried_ok _ _ _ Hc) as [Hi' _].
  destruct (inv_entries E _ Hi' FinishedDb k v Hv) as (st & Hst & Hok).
  exists v, st. eauto using finished_ok_final.
Qed.
End Claims.
