(* ===== verification/Fair.v ===== *)
(** Fair schedules. The scheduler is an infinite sequence of turns in which every
    task has its turn again and again. Then every job that is ever in the queue
    gets its final status. The worker's loop is unrolled as far as a turn needs;
    how far makes no difference. *)

From S2P Require Import Prelude Format ZkvmCommon Guest Job Http Effects Environment.
From S2P Require Import Runner Invariant RunnerSafe Lifecycle Liveness Json Proxy.
From S2P Require Import ProxyFacts Submit Startup Concurrency Traces Carried Completes.

Open Scope pda_scope.
Local Open Scope string_scope.

(** ** Schedules without end *)

(** Every task has a turn after any time. *)
Definition fair (sch : nat -> nat) : Prop := forall i n, exists m, n <= m /\ sch m = i.

Section Schedules.
  Context `{Platform, Payload} {Ev : Env} (self : PdaRunner).

(** The service: the worker is the first task. *)
Definition service (fuel : nat) (others : list (prog TaskResult)) (w : World) : Pool :=
  {| world := w; tasks := worker_task fuel :: others |}.

(** The pool after [n] turns. *)
Definition after (sch : nat -> nat) (n : nat) (pl : Pool) : Pool :=
  run_schedule self (sch <$> seq 0 n) pl.

Lemma after_S sch n pl : after sch (S n) pl = pool_step self (after sch n pl) (sch n).
Proof. unfold after, run_schedule. by rewrite seq_S, fmap_app, foldl_app. Qed.

(** Workers that differ only in how far their loop is unrolled. *)
Definition same_worker (t t' : prog TaskResult) : Prop :=
  exists m m', (t = worker_task m /\ t' = worker_task m') \/
    exists job, t = Vis (SpawnProve job) (fun _ => worker_task m) /\
                t' = Vis (SpawnProve job) (fun _ => worker_task m').

Definition near (pl pl' : Pool) : Prop :=
  world pl = world pl' /\
  exists t t' rest, tasks pl = t :: rest /\ tasks pl' = t' :: rest /\ same_worker t t'.

(** The two states of the worker. *)
Definition at_head (t : prog TaskResult) : Prop := exists m, t = worker_task m.
Definition starting (job : Job) (t : prog TaskResult) : Prop :=
  exists m, t = Vis (SpawnProve job) (fun _ => worker_task m).

Lemma same_at_head t t' : same_worker t t' -> at_head t -> at_head t'.
Proof.
  intros (m & m' & [[_ ->]|(job & -> & _)]) [n Hn]; [by exists m'|]. by destruct n.
Qed.

Lemma same_starting job t t' : same_worker t t' -> starting job t -> starting job t'.
Proof.
  intros (m & m' & [[-> _]|(job' & -> & ->)]) [n Hn]; [by destruct m|].
  injection Hn as -> _. by exists m'.
Qed.

Lemma near_refl fuel fuel' others w : near (service fuel others w) (service fuel' others w).
Proof. split; [done|]. do 3 eexists. split_and!; [done..|]. exists fuel, fuel'. by left. Qed.

Lemma near_task pl pl' j : near pl pl' -> j <> 0 -> tasks pl !! j = tasks pl' !! j.
Proof. intros [_ (t & t' & rest & -> & -> & _)] Hj. by destruct j. Qed.
End Schedules.

(** ** Tasks that queue no job anew *)

Section Settled.
  Context `{Sp1Facts, !RunnerCodecs, !BincodeTotal JobStatus, Payload} (self : PdaRunner).

(** The entry says that the network is at work. *)
Definition network_pending (v : bytes) : bool :=
  match deserialize v with Ok (RemoteZkProofPending _) => true | _ => false end.

(** Of the writes to the queue, only one that says so. *)
Definition settled_op (o : Op) : bool :=
  match o with
  | SledInsert QueueDb _ _ => false
  | SledTransaction body =>
      forallb (fun x => match x with TxInsert QueueDb _ v => network_pending v | _ => true end) body
  | _ => true
  end.

Lemma settled_finalize_job k st : only settled_op (finalize_job k st).
Proof. unfold finalize_job. solve_only. Qed.

Lemma settled_send_job k id job :
  only settled_op (send_job_with_new_status k (RemoteZkProofPending id) job).
Proof.
  unfold send_job_with_new_status. destruct (serialize_total (RemoteZkProofPending id)) as [v Hv].
  rewrite Hv. cbn. split.
  - unfold network_pending. by rewrite (deserialize_serialize _ _ Hv).
  - intros [[]|e]; [|done]. split; [done|]. by intros [].
Qed.

Lemma settled_prove job : only settled_op (prove self job).
Proof.
  apply only_prove_by; [|apply settled_finalize_job|intros; apply settled_send_job].
  intros o [_ Ho]%andb_prop. destruct o; try done. by destruct t.
Qed.

Lemma settled_prove_task job : only settled_op (prove_task self job).
Proof. apply only_bind; [apply settled_prove|done]. Qed.
End Settled.

Section Run.
  Context `{Sp1Laws, !ChaCha20Laws, !ZkvmIoLaws, !BincodeLaws Anchor, !RunnerCodecs}.
  Context `{!BincodeLaws SP1ProofWithPublicValues, Payload, !PayloadLaws}.
  Context `{!BincodeTotal SP1ProofSetup, !BincodeTotal JobStatus}.
  Context {Ev : Env} {L : EnvLaws only_refusals} (self : PdaRunner) (E : gmap string string).
  Context (Hconf : configured E) (Hknown : forall o w, op_known o (snd (handle o w))).
  Context (G : Request bytes -> Prop).

#[local] Abbreviation alive := (lively E G 0).

(** A worker that is alive has not run out. *)
Lemma alive_unrolled N pl m rest : alive N pl -> tasks pl = worker_task m :: rest -> m <> 0.
Proof.
  intros [_ (n & t & Ht & [-> |[job ->]] & Hn)] Hpl ->; rewrite Hpl in Ht; simpl in Ht; [|done].
  destruct n; [lia|done].
Qed.

Lemma near_step pl pl' i :
  alive 0 pl -> alive 0 pl' -> near pl pl' -> near (pool_step self pl i) (pool_step self pl' i).
Proof.
  intros Ha Ha' [Hw (t & t' & rest & Ht & Ht' & m & m' & Hs)].
  assert (None ∉ inbox (view (world pl'))) as Hin by (destruct Ha' as [[] _]; done).
  destruct pl as [w ts], pl' as [w' ts']. simpl in Hw, Ht, Ht', Hin. subst w'.
  unfold pool_step. cbn [world tasks]. destruct (exited (view w)).
  { split; [done|]. do 3 eexists. split_and!; [done..|]. by exists m, m'. }
  rewrite Ht, Ht'. destruct i as [|i]; cbn.
  - destruct Hs as [[-> ->]|(job & -> & ->)].
    + pose proof (alive_unrolled _ _ _ _ Ha Ht). pose proof (alive_unrolled _ _ _ _ Ha' Ht').
      destruct m as [|m], m' as [|m']; [done..|]. cbn.
      destruct (inbox (view w)) as [|x box] eqn:Hbox.
      * split; [done|]. do 3 eexists. split_and!; [done..|]. exists (S m), (S m'). by left.
      * pose proof (handle_post ChanRecv w) as Hp. simpl in Hp. rewrite Hbox in Hp.
        destruct Hp as (x' & box' & [= <- <-] & Hx & _); [done|]. rewrite Hx.
        destruct x as [job|]; [|by destruct Hin; left]. split; [done|].
        do 3 eexists. split_and!; [done..|]. exists m, m'. right. by exists job.
    + split; [done|]. do 3 eexists. split_and!; [done..|]. exists m, m'. by left.
  - destruct (rest !! i) as [[| |o c]|]; [| |destruct (is_enabled o (view w))|]; (split; [done|]);
      do 3 eexists; (split_and!; [done..|]); by exists m, m'.
Qed.

  (** ** A fair run *)

Context (P : nat -> Pool) (sch : nat -> nat) (Hfair : fair sch).
Context (Hlive : forall n, alive 1 (P n)).
Context (Hstep : forall n, near (pool_step self (P n) (sch n)) (P (S n))).

#[local] Abbreviation state n := (view (world (P n))).
#[local] Abbreviation task n j := (tasks (P n) !! j).

Lemma alive_room n o : alive (length (sent o) + 0) (P n).
Proof.
  destruct (Hlive n) as [Hr (m & t & Ht & Hat & Hm)]. split; [done|]. exists m, t.
  split_and!; [done..|]. assert (length (sent o) <= 1) by (destruct o; simpl; lia). lia.
Qed.

(** The turn of a task other than the worker. *)
Lemma turn n j o c :
  j <> 0 -> sch n = j -> task n j = Some (Vis o c) ->
  let x := snd (handle o (world (P n))) in
  task (S n) j = Some (c x) /\ op_post only_refusals o (state n) (state (S n)) x /\
  expected E o x /\ calm_op o = true.
Proof.
  intros Hj Hs Ht x.
  destruct (other_turn self E Hconf Hknown G 0 0 (P n) j o c (alive_room n o) Hj Ht) as (Hts & _ & Hp & Hx).
  pose proof (Hstep n) as Hn. rewrite Hs in Hn. destruct (Hlive n) as [Hr _].
  split_and!; [|by destruct Hn as [<- _]|done|].
  - rewrite <- (near_task _ _ _ Hn Hj), Hts. apply list_lookup_insert_eq. by eapply lookup_lt_Some.
  - by destruct (running_calm _ _ _ _ Hr j _ Hj Ht).
Qed.

(** A task waits for its turn. *)
Lemma stays n j p : j <> 0 -> sch n <> j -> task n j = Some p -> task (S n) j = Some p.
Proof.
  intros Hj Hs Ht. rewrite <- (near_task _ _ _ (Hstep n) Hj).
  destruct (pool_step_cases self (P n) (sch n)) as [->|(o & c & _ & _ & _ & ->)]; [done|].
  simpl. apply lookup_app_l_Some. by rewrite list_lookup_insert_ne.
Qed.

Lemma ended n m j r : n <= m -> j <> 0 -> task n j = Some (lift r) -> task m j = Some (lift r).
Proof.
  induction 1 as [|m Hle IH]; intros Hj Ht; [done|]. specialize (IH Hj Ht).
  destruct (decide (sch m = j)) as [Hs|Hs]; [|by apply stays].
  rewrite <- (near_task _ _ _ (Hstep m) Hj), Hs. unfold pool_step. rewrite IH.
  by destruct (exited _), r.
Qed.

(** Whatever a schedule keeps until the turn of [i] holds at that turn. *)
Lemma at_turn (X : nat -> Prop) i n :
  (forall m, n <= m -> sch m <> i -> X m -> X (S m)) -> X n -> exists m, n <= m /\ sch m = i /\ X m.
Proof.
  intros HX Hn. destruct (Hfair i n) as (m & Hnm & Hm).
  remember (m - n) as d eqn:Hd. revert n Hd Hnm HX Hn. induction d as [|d IH]; intros n Hd Hnm HX Hn.
  - assert (m = n) as -> by lia. by exists n.
  - destruct (decide (sch n = i)) as [Hi|Hi]; [by exists n|].
    destruct (IH (S n)) as (m' & Hm' & ?); [lia|lia|intros; apply HX; [lia|done..]|by apply HX|].
    exists m'. split; [lia|done].
Qed.

(** A task that has an operation left performs it. *)
Lemma has_turn n j o c :
  j <> 0 -> task n j = Some (Vis o c) -> exists m, n <= m /\ sch m = j /\ task m j = Some (Vis o c).
Proof. intros Hj Ht. apply (at_turn (fun m => task m j = Some (Vis o c))); [intros; by apply stays|done]. Qed.

(** Every task but the worker comes to its end. *)
Lemma finishes p : forall n j, j <> 0 -> task n j = Some p -> exists m r, n <= m /\ task m j = Some (lift r).
Proof.
  induction p as [a|msg|o c IH]; intros n j Hj Ht.
  - by exists n, (Returned a).
  - by exists n, (Panicked msg).
  - destruct (has_turn n j o c Hj Ht) as (m & Hm & Hs & Ht').
    destruct (turn m j o c Hj Hs Ht') as (Ht2 & _).
    destruct (IH _ _ _ Hj Ht2) as (m' & r & Hm' & Hr). exists m', r. split; [lia|done].
Qed.

  (** ** The worker *)

Definition head (n : nat) : Prop := exists t, task n 0 = Some t /\ at_head t.
Definition starts (n : nat) (job : Job) : Prop := exists t, task n 0 = Some t /\ starting job t.

Lemma worker_shape n : head n \/ exists job, starts n job.
Proof.
  destruct (Hlive n) as [_ (m & t & Ht & [-> |[job ->]] & _)]; [left|right].
  - exists (worker_task m). split; [done|by exists m].
  - exists job. eexists. split; [done|by exists m].
Qed.

(** What the next pool takes over from a turn. *)
Lemma next_worker n t :
  tasks (pool_step self (P n) (sch n)) !! 0 = Some t ->
  exists t', task (S n) 0 = Some t' /\ same_worker t t'.
Proof.
  destruct (Hstep n) as [_ (u & t' & rest & -> & -> & Hs)]. intros [= ->]. by exists t'.
Qed.

Lemma next_world n : world (P (S n)) = world (pool_step self (P n) (sch n)).
Proof. by destruct (Hstep n) as [-> _]. Qed.

(** The worker waits for its turn, and messages queue up behind. *)
Lemma worker_waits n t :
  sch n <> 0 -> task n 0 = Some t ->
  (exists t', task (S n) 0 = Some t' /\ same_worker t t') /\
  exists more, inbox (state (S n)) = (inbox (state n) ++ more)%list.
Proof.
  intros Hs Ht. rewrite next_world.
  destruct (pool_step_cases self (P n) (sch n)) as [Heq|(o & c & _ & Hi & He & Heq)].
  { rewrite Heq. split; [apply next_worker; by rewrite Heq|]. exists []. by rewrite app_nil_r. }
  destruct (Hlive n) as [[Hc _ _ Hcalm] _]. destruct (Hcalm _ _ Hs Hi) as [Ho _]. split.
  - apply next_worker. rewrite Heq. simpl. apply lookup_app_l_Some. by rewrite list_lookup_insert_ne.
  - exists (sent o). rewrite Heq. simpl. eapply calm_inbox; [done|apply Hc|by apply handle_post].
Qed.

(** A state of the worker, with what is in the channel, lasts until its turn. *)
Lemma worker_turn (X : prog TaskResult -> Prop) n t box :
  (forall t t', same_worker t t' -> X t -> X t') -> task n 0 = Some t -> X t -> inbox (state n) = box ->
  exists m t' more, n <= m /\ sch m = 0 /\ task m 0 = Some t' /\ X t' /\
    inbox (state m) = (box ++ more)%list.
Proof.
  intros HX Ht Hx Hbox.
  destruct (at_turn (fun m => exists t' more, task m 0 = Some t' /\ X t' /\
    inbox (state m) = (box ++ more)%list) 0 n) as (m & Hm & Hs & t' & more & ?); [| |by exists m, t', more].
  - intros m _ Hs (t' & more & Ht' & Hx' & Hb'). destruct (worker_waits m t' Hs Ht')
      as [(t2 & Ht2 & Hsame) [more' Hb2]]. exists t2, (more ++ more')%list.
    rewrite Hb2, Hb', app_assoc. eauto.
  - exists t, []. by rewrite Hbox, app_nil_r.
Qed.

Lemma starts_job n job :
  starts n job -> exists m j more, n <= m /\ j <> 0 /\ task m j = Some (prove_task self job) /\
    head m /\ inbox (state m) = (inbox (state n) ++ more)%list.
Proof.
  intros (t & Ht & Hst).
  destruct (worker_turn (starting job) n t _ (same_starting job) Ht Hst eq_refl)
    as (m & t' & more & Hm & Hs & Ht' & [u ->] & Hbox). destruct (Hlive m) as [Hr _].
  destruct (spawn_turn self E Hconf Hknown G 0 (P m) u job Hr Ht') as (_ & _ & Hb & Hts).
  pose proof (Hstep m) as Hn. rewrite Hs in Hn. pose proof (lookup_lt_Some _ _ _ Ht') as Hlt.
  exists (S m), (length (tasks (P m))), more. split_and!; [lia|lia| | |].
  - rewrite <- (near_task _ _ _ Hn) by lia. rewrite Hts, lookup_app_r by (by rewrite length_insert).
    by rewrite length_insert, Nat.sub_diag.
  - destruct (next_worker m (worker_task u)) as (t2 & Ht2 & Hsame).
    { rewrite Hs, Hts. by apply lookup_app_l_Some, list_lookup_insert_eq. }
    exists t2. split; [done|]. eapply same_at_head; [done|by exists u].
  - by rewrite next_world, Hs, Hb, Hbox.
Qed.

Lemma takes_message n job rest :
  head n -> inbox (state n) = (Some job :: rest)%list ->
  exists m more, n <= m /\ starts m job /\ inbox (state m) = (rest ++ more)%list.
Proof.
  intros (t & Ht & Hh) Hbox0.
  destruct (worker_turn at_head n t _ same_at_head Ht Hh Hbox0) as (m & t' & more & Hm & Hs & Ht' & [u ->] & Hbox).
  pose proof (Hlive m) as Ha. destruct (tasks (P m)) as [|t2 tl] eqn:Hts; [done|].
  injection Ht' as ->. pose proof (alive_unrolled _ _ _ _ Ha Hts). destruct u as [|u]; [done|].
  destruct Ha as [Hr _]. assert (tasks (P m) !! 0 = Some (worker_task (S u))) as Hw by (by rewrite Hts).
  destruct (receive_turn self E Hconf Hknown G 0 (P m) u job (rest ++ more) Hr Hw Hbox) as (_ & _ & Hb & Hts').
  exists (S m), more. split; [lia|]. split; [|by rewrite next_world, Hs].
  destruct (next_worker m (Vis (SpawnProve job) (fun _ => worker_task u))) as (t3 & Ht3 & Hsame).
  { rewrite Hs, Hts'. apply list_lookup_insert_eq. by eapply lookup_lt_Some. }
  exists t3. split; [done|]. eapply same_starting; [done|by exists u].
Qed.

Lemma head_arrives job pre : forall n rest,
  head n -> inbox (state n) = (pre ++ Some job :: rest)%list ->
  exists m j, n <= m /\ j <> 0 /\ task m j = Some (prove_task self job).
Proof.
  induction pre as [|[job'|] pre IH]; intros n rest Hh Hbox.
  - destruct (takes_message n job rest Hh Hbox) as (m & _ & Hm & Hst & _).
    destruct (starts_job m job Hst) as (m' & j & _ & Hm' & Hj & Ht & _). exists m', j. split; [lia|done].
  - destruct (takes_message n job' _ Hh Hbox) as (m & more & Hm & Hst & Hb).
    destruct (starts_job m job' Hst) as (m' & _ & more' & Hm' & _ & _ & Hh' & Hb').
    destruct (IH m' ((rest ++ more) ++ more')%list Hh') as (m2 & j & Hm2 & ?).
    { rewrite Hb', Hb, <- !app_assoc. done. }
    exists m2, j. split; [lia|done].
  - destruct (Hlive n) as [Hr _]. exfalso. apply (running_inbox _ _ _ _ Hr). rewrite Hbox. left.
Qed.

(** Each message reaches the worker, which starts the job. *)
Lemma arrives n job :
  Some job ∈ inbox (state n) -> exists m j, n <= m /\ j <> 0 /\ task m j = Some (prove_task self job).
Proof.
  intros Hin. apply list_elem_of_split in Hin as (pre & rest & Hbox).
  destruct (worker_shape n) as [Hh|[job' Hst]]; [by eapply head_arrives|].
  destruct (starts_job n job' Hst) as (m & _ & more & Hm & _ & _ & Hh & Hb).
  destruct (head_arrives job pre m (rest ++ more)%list Hh) as (m' & j & Hm' & ?).
  { by rewrite Hb, Hbox, <- app_assoc. }
  exists m', j. split; [lia|done].
Qed.

  (** ** The entry of a job *)

Context (k : bytes).

#[local] Abbreviation entry n := (queue_db (state n) !! k).

(** What the worker does while nobody shuts it down. *)
Definition worker_op (o : Op) : bool := match o with ChanRecv | SpawnProve _ => true | _ => false end.

(** The operation of a turn, if there is one. *)
Lemma turn_op n :
  state (S n) = state n \/
  exists o x, op_post only_refusals o (state n) (state (S n)) x /\
    (worker_op o = true \/
     calm_op o = true /\ sch n <> 0 /\ exists c, task n (sch n) = Some (Vis o c)).
Proof.
  rewrite next_world.
  destruct (pool_step_cases self (P n) (sch n)) as [->|(o & c & _ & Hi & He & ->)]; [by left|right].
  exists o, (snd (handle o (world (P n)))). split; [by apply handle_post|].
  destruct (decide (sch n = 0)) as [Hs|Hs].
  - rewrite Hs in Hi. left. destruct (worker_shape n) as [(t & Ht & u & ->)|(job & t & Ht & u & ->)].
    + destruct u as [|u]; rewrite Hi in Ht; [done|]. by injection Ht as -> _.
    + rewrite Hi in Ht. by injection Ht as -> _.
  - right. destruct (Hlive n) as [Hr _]. destruct (running_calm _ _ _ _ Hr _ _ Hs Hi). by eauto.
Qed.

(** A job leaves the queue for the finished tree. *)
Lemma leaves_queue o s s' x :
  worker_op o = true \/ calm_op o = true -> op_post only_refusals o s s' x -> is_Some (queue_db s !! k) -> queue_db s' !! k = None ->
  is_Some (finished_db s' !! k).
Proof.
  intros Ho Hp [b Hb] Hn. assert (queue_db s' <> queue_db s) as Hne by congruence. revert Hp.
  destruct o; try (by destruct Ho); simpl;
    try (intros ->; done); try (intros [-> _]; done); try (intros (-> & _); done).
  - destruct t; simpl; intros [[_ ->]|[[? _] _]]; simpl in *; try done.
    destruct (decide (k0 = k)) as [->|?]; [by rewrite lookup_insert_eq in Hn|].
    rewrite lookup_insert_ne in Hn by done. congruence.
  - intros [[_ ->]|[[? _] _]]; [|done]. destruct Ho as [?|Ho]; [done|]. simpl in Ho.
    destruct body as [|[[] k1|] [|[|[] k2 v] []]]; try done; apply bool_decide_eq_true in Ho as <-;
      simpl in *; (destruct (decide (k1 = k)) as [->|?]; [|]).
    + rewrite lookup_insert_eq. by eexists.
    + rewrite lookup_delete_ne in Hn by done. congruence.
    + by rewrite lookup_insert_eq in Hn.
    + rewrite lookup_insert_ne in Hn by done. congruence.
  - destruct (inbox_open s); by intros [_ ->].
  - by intros (? & ? & _ & _ & ->).
  - destruct (cell_get s c); intros [-> _]; [done|by destruct c].
Qed.

Lemma gone n m :
  n <= m -> is_Some (entry n) -> entry m = None ->
  exists m', n <= m' /\ completed k (P m').
Proof.
  induction 1 as [|m Hle IH]; intros Hn Hm; [by rewrite Hm in Hn; destruct Hn|].
  destruct (entry m) as [b|] eqn:Hb; [|by apply IH].
  exists (S m). split; [lia|]. split; [done|].
  destruct (turn_op m) as [Heq|(o & x & Hp & Ho)]; [congruence|].
  eapply leaves_queue; [|done|by exists b|done]. destruct Ho as [?|[? _]]; auto.
Qed.

(** The job is completed at some time from [n] on, or [X] holds. *)
Definition ev (n : nat) (X : nat -> Prop) : Prop := exists m, n <= m /\ (completed k (P m) \/ X m).

Lemma ev_now n (X : nat -> Prop) : X n -> ev n X.
Proof. intros HX. exists n. auto. Qed.

Lemma ev_done n m (X : nat -> Prop) : n <= m -> completed k (P m) -> ev n X.
Proof. intros Hm HX. exists m. auto. Qed.

Lemma ev_after n m X : n <= m -> ev m X -> ev n X.
Proof. intros Hm (m' & Hm' & HX). exists m'. split; [lia|done]. Qed.

Lemma ev_bind n X Y :
  is_Some (entry n) -> ev n X -> (forall m, n <= m -> is_Some (entry m) -> X m -> ev m Y) -> ev n Y.
Proof.
  intros Hn (m & Hm & [Hc|HX]) HXY; [by eapply ev_done|].
  destruct (entry m) as [b|] eqn:Hb.
  - eapply ev_after; [exact Hm|]. apply HXY; [done|rewrite Hb; by eexists|done].
  - destruct (gone n m Hm Hn Hb) as (m' & Hm' & Hc). by eapply ev_done.
Qed.

(** A step of the job is about to start. *)
Definition proof_at (n : nat) : Prop :=
  exists j job, j <> 0 /\ task n j = Some (prove_task self job) /\ of_key k job.

Lemma message_fair n job : Some job ∈ inbox (state n) -> of_key k job -> ev n proof_at.
Proof.
  intros Hin Hk. destruct (arrives n job Hin) as (m & j & Hm & Hj & Ht).
  exists m. split; [done|]. right. by exists j, job.
Qed.

(** ** Tasks that settle the job *)

Lemma settles_fair D (p : prog TaskResult) : forall n i,
  i <> 0 -> task n i = Some p -> settles E D k p (fun _ => False) -> is_Some (entry n) ->
  ev n (fun m => is_Some (entry m) /\ sch m = i /\ exists o c, task m i = Some (Vis o c) /\ D o).
Proof.
  induction p as [a|msg|o c IH]; intros n i Hi Ht Hs Hn; [done..|].
  destruct (has_turn n i o c Hi Ht) as (m & Hm & Hsm & Htm).
  apply (ev_bind n (fun m => sch m = i /\ task m i = Some (Vis o c))); [done|exists m; auto|].
  clear m Hm Hsm Htm. intros m _ Hem [Hsm Htm].
  destruct Hs as [Hd|[Ho Hs]]; [apply ev_now; split_and!; [done..|by exists o, c]|].
  destruct (turn m i o c Hi Hsm Htm) as (Ht' & Hp & Hx & _).
  pose proof (same_queue _ _ (op_quiet_same _ _ _ _ _ Ho Hp)) as Hq.
  eapply ev_after; [apply Nat.le_succ_diag_r|]. destruct (Hs _ Hx) as [Ha|Hc].
  - exfalso. destruct Hem as [b Hb]. destruct o as [[]| | | | | | | | | | | | | | | | | | | | |]; try done.
    destruct Ha as [-> Ha]. destruct Hp as [_ [Hp|[? _]]]; [|done]. rewrite Ha in Hp. simpl in Hp. congruence.
  - eapply IH; [done|exact Ht'|exact Hc|by rewrite Hq].
Qed.

Lemma finalize_fair n i o c (X : nat -> Prop) :
  i <> 0 -> sch n = i -> task n i = Some (Vis o c) -> finalizes k o -> ev n X.
Proof.
  intros Hi Hs Ht [v ->]. destruct (turn n i _ c Hi Hs Ht) as (_ & [[_ Hv]|[[? _] _]] & _); [|done].
  apply (ev_done n (S n)); [lia|]. unfold completed. rewrite Hv. simpl.
  rewrite lookup_delete_eq, lookup_insert_eq. split; [done|by eexists].
Qed.

Lemma discharge_fair n i o c :
  i <> 0 -> sch n = i -> task n i = Some (Vis o c) -> discharges k o -> ev n proof_at.
Proof.
  intros Hi Hs Ht [Hf|Hd]; [by eapply finalize_fair|].
  destruct (turn n i o c Hi Hs Ht) as (_ & Hp & _ & Ho). apply (ev_after n (S n)); [lia|].
  destruct o as [| | | | |[job|]| | | | | | | | | | | | | | | |]; try done.
  destruct (Hlive n) as [Hr _]. pose proof (carried_open _ _ _ (running_carried _ _ _ _ Hr)) as Hop.
  simpl in Hp. rewrite Hop in Hp. destruct Hp as [_ Hv]. apply (message_fair _ job); [|done].
  rewrite Hv. simpl. apply elem_of_app. right. left.
Qed.

Lemma prompt_fair n i p :
  i <> 0 -> task n i = Some p -> promptly E k p -> is_Some (entry n) -> ev n proof_at.
Proof.
  intros Hi Ht Hp Hn. eapply ev_bind; [done|by eapply settles_fair|].
  intros m _ _ (_ & Hs & o & c & Ht' & Hd). by eapply discharge_fair.
Qed.

Lemma requeue_fair n i v c :
  i <> 0 -> sch n = i ->
  task n i = Some (Vis (SledTransaction [TxRemove FinishedDb k; TxInsert QueueDb k v]) c) ->
  entry (S n) = Some v /\ ev (S n) proof_at.
Proof.
  intros Hi Hs Ht. destruct (turn n i _ c Hi Hs Ht) as (Ht' & [[_ Hv]|[[? _] _]] & Hx & _); [|done].
  assert (entry (S n) = Some v) as He by (rewrite Hv; simpl; apply lookup_insert_eq).
  split; [done|]. eapply prompt_fair; [done|exact Ht'| |by rewrite He].
  destruct (Hlive n) as [Hr _]. pose proof (carried_careful _ _ _ (running_carried _ _ _ _ Hr)) as Hc.
  destruct (Forall_lookup_1 _ _ _ _ Hc Ht _ Hx) as [Hset _]. apply Hset. left. exists v. right. left.
Qed.

(** The place Carried.v finds for the job leads to a step of it. *)
Lemma covered_fair n : covered E (P n) k -> is_Some (entry n) -> ev n proof_at.
Proof.
  intros [(job & Hin & Hk)|(i & p & Ht & Hp)] Hn; [by eapply message_fair|].
  destruct (decide (i = 0)) as [->|Hi].
  - destruct (worker_shape n) as [(t & Ht' & u & ->)|(job & Hst)].
    + exfalso. rewrite Ht in Ht'. injection Ht' as ->.
      destruct u as [|u]; [done|]. destruct Hp as [[[[? [=]]|[]]|[? [=]]]|[[=] _]].
    + pose proof Hst as (t & Ht' & u & ->). rewrite Ht in Ht'. injection Ht' as ->.
      destruct Hp as [[[[? [=]]|Hk]|[? [=]]]|[[=] _]].
      destruct (starts_job n job Hst) as (m & j & _ & Hm & Hj & Hts & _).
      exists m. split; [done|]. right. by exists j, job.
  - eapply ev_bind; [done|by eapply settles_fair|].
    intros m _ _ (_ & Hs & o & c & Ht' & [Hd|[v ->]]); [by eapply discharge_fair|].
    eapply (ev_after _ (S m)); [lia|]. by eapply requeue_fair.
Qed.

  (** ** When the requests have been answered *)

(** No task queues a job anew, but for the network's answer. *)
Definition late (n : nat) : Prop := forall j t, j <> 0 -> task n j = Some t -> only settled_op t.

(** What a turn does to another task. *)
Lemma next_task n j t :
  j <> 0 -> task (S n) j = Some t ->
  (exists t0, task n j = Some t0 /\ (only settled_op t0 -> only settled_op t)) \/ only settled_op t.
Proof.
  intros Hj. rewrite <- (near_task _ _ _ (Hstep n) Hj).
  destruct (pool_step_cases self (P n) (sch n)) as [->|(o & c & _ & Hi & _ & ->)]; simpl.
  { intros Ht. left. by exists t. }
  intros [Ht|[_ Ht]]%lookup_app_Some.
  - left. apply list_lookup_insert_Some in Ht as [(Hij & <- & _)|[_ Ht]]; [|by exists t].
    exists (Vis o c). rewrite <- Hij. split; [done|]. intros [_ Hc]. apply Hc.
  - right. destruct o; cbn [spawned_task] in Ht; try by rewrite lookup_nil in Ht.
    apply list_lookup_singleton_Some in Ht as [_ <-]. apply settled_prove_task.
Qed.

Lemma new_tasks n j t :
  j <> 0 -> length (tasks (P 0)) <= j -> task n j = Some t -> only settled_op t.
Proof.
  intros Hj Hl. revert t. induction n as [|n IH]; intros t Ht.
  - apply lookup_lt_Some in Ht. lia.
  - destruct (next_task n j t Hj Ht) as [(t0 & Ht0 & Himp)|?]; [|done]. by apply Himp, IH.
Qed.

Lemma late_S n : late n -> late (S n).
Proof.
  intros Hl j t Hj Ht. destruct (next_task n j t Hj Ht) as [(t0 & Ht0 & Himp)|?]; [|done].
  by eapply Himp, Hl.
Qed.

Lemma old_tasks_end n L0 :
  L0 <= length (tasks (P 0)) ->
  exists m, n <= m /\ forall j, j <> 0 -> j < L0 -> exists r, task m j = Some (lift r).
Proof.
  induction L0 as [|j IH]; intros Hl; [exists n; split; [done|lia]|].
  destruct IH as (m & Hm & Hall); [lia|].
  destruct (decide (j = 0)) as [->|Hj]; [exists m; split; [done|]; intros; lia|].
  destruct (lookup_lt_is_Some_2 (tasks (P 0)) j) as [p Hp]; [lia|].
  destruct (finishes p 0 j Hj Hp) as (m' & r & _ & Hr). exists (max m m'). split; [lia|].
  intros i Hi Hij. destruct (decide (i = j)) as [->|Hne].
  - exists r. eapply ended; [|done|exact Hr]. lia.
  - destruct (Hall i) as [r' Hr']; [done|lia|]. exists r'. eapply ended; [|done|exact Hr']. lia.
Qed.

Lemma becomes_late n : exists m, n <= m /\ late m.
Proof.
  destruct (old_tasks_end n (length (tasks (P 0)))) as (m & Hm & Hall); [done|].
  exists m. split; [done|]. intros j t Hj Ht.
  destruct (decide (j < length (tasks (P 0)))) as [Hl|Hl].
  - destruct (Hall j Hj Hl) as [r Hr]. rewrite Hr in Ht. injection Ht as <-. apply only_lift.
  - eapply new_tasks; [done| |exact Ht]. lia.
Qed.

(** The entry is gone, or says that the network is at work. *)
Definition pend (n : nat) : Prop := forall b, entry n = Some b -> network_pending b = true.

Lemma settled_write o s s' x b :
  settled_op o = true -> op_post only_refusals o s s' x -> queue_db s' !! k = Some b ->
  queue_db s !! k = Some b \/ network_pending b = true.
Proof.
  intros Ho Hp Hb. destruct o; simpl in Hp.
  all: try (by left; rewrite Hp in Hb); try (by left; destruct Hp as [Hp _]; rewrite Hp in Hb).
  - destruct t; [|done|]; destruct Hp as [[_ Hp]|[[? _] _]]; try done; left; by rewrite Hp in Hb.
  - destruct Hp as [[_ Hp]|[[? _] _]]; [|done]. rewrite Hp in Hb. simpl in Ho. clear Hp x.
    unfold tx_apply in Hb. revert s Hb. induction body as [|y body IH]; intros s Hb; [by left|].
    simpl in Ho, Hb. apply andb_prop in Ho as [Hy Ho]. destruct (IH Ho _ Hb) as [Hb'|?]; [|by right].
    rewrite tx_step_queue in Hb'. destruct y as [[] k'|[] k' v]; try (by left); case_decide; try done; try by left.
    right. by injection Hb' as <-.
  - left. destruct (inbox_open s); destruct Hp as [_ Hp]; by rewrite Hp in Hb.
  - left. destruct Hp as (? & ? & _ & _ & Hp). by rewrite Hp in Hb.
  - left. destruct (cell_get s c); destruct Hp as [Hp _]; rewrite Hp in Hb; [done|by destruct c].
Qed.

Lemma pend_S n : late n -> pend n -> pend (S n).
Proof.
  intros Hl Hp b Hb. destruct (turn_op n) as [Heq|(o & x & Hpost & Ho)].
  { apply Hp. by rewrite <- Heq. }
  assert (settled_op o = true) as Hset.
  { destruct Ho as [Ho|(_ & Hs & c & Hc)]; [by destruct o|]. by destruct (Hl _ _ Hs Hc). }
  destruct (settled_write _ _ _ _ _ Hset Hpost Hb) as [?|?]; [by apply Hp|done].
Qed.

Lemma late_after n m : n <= m -> late n -> late m.
Proof. induction 1 as [|m _ IH]; [done|]. intros Hl. by apply late_S, IH. Qed.

Lemma pend_after n m : n <= m -> late n -> pend n -> pend m.
Proof.
  induction 1 as [|m Hm IH]; [done|]. intros Hl Hp.
  apply pend_S; [by eapply late_after|by apply IH].
Qed.

(** A step of the job completes it, or finds that the network has not been asked
    and leads to another step when it has. *)
Lemma proof_fair n :
  late n -> is_Some (entry n) -> proof_at n ->
  ev n (fun m => (exists n', n <= n' /\ ~ pend n') /\ pend m /\ proof_at m).
Proof.
  intros Hl Hn (j & job & Hj & Ht & Hk).
  destruct (settles_prove E self job k Hconf Hk) as (c & Hp & Hs).
  unfold prove_task in Ht. rewrite Hp in Ht. cbn [bind] in Ht.
  destruct (has_turn n j (SledGet QueueDb k) _ Hj Ht) as (m & Hm & Hsm & Htm).
  eapply (ev_bind n (fun m' => m' = m)); [done|exists m; auto|]. intros m' _ Hem ->.
  destruct (turn m j (SledGet QueueDb k) _ Hj Hsm Htm) as (Ht2 & [Hv Hx] & _).
  destruct Hem as [b Hb]. destruct Hx as [Hx|[? _]]; [|done]. simpl in Hx. rewrite Hb in Hx.
  change (@snd World (ans (SledGet QueueDb k)) (handle (SledGet QueueDb k) (world (P m))) = Ok (Some b)) in Hx.
  rewrite Hx in Ht2. destruct (Hlive m) as [Hr _].
  destruct (carried_ok _ _ _ (running_carried _ _ _ _ Hr)) as [Hi _].
  destruct (inv_entries E _ Hi QueueDb k b Hb) as (_ & st & Hd & Hok).
  set (to_pending o := st = RemoteZkProofRequesting /\ exists id v,
    serialize (RemoteZkProofPending id) = Ok v /\
    o = SledTransaction [TxRemove FinishedDb k; TxInsert QueueDb k v]).
  apply (ev_after _ (S m)); [lia|].
  eapply ev_bind; [rewrite Hv, Hb; by eexists| |].
  - eapply (settles_fair (fun o => finalizes k o \/ to_pending o)); [exact Hj|exact Ht2| |rewrite Hv, Hb; by eexists].
    apply settles_bind. eapply Hs; [done|by eapply queue_ok_pending|by left|].
    intros id v Hrq Hser. right. split; [done|]. by exists id, v.
  - intros m2 Hm2 _ (_ & Hs2 & o & c' & Hi' & [Hf|[Hrq (id & v & Hser & ->)]]).
    + by eapply finalize_fair.
    + destruct (requeue_fair m2 j v c' Hj Hs2 Hi') as [He Hev].
      assert (network_pending v = true) as Hnp
        by (unfold network_pending; by rewrite (deserialize_serialize _ _ Hser)).
      assert (pend (S m2)) as Hpend by (intros b' Hb'; rewrite He in Hb'; by injection Hb' as <-).
      apply (ev_after _ (S m2)); [lia|]. eapply ev_bind; [rewrite He; by eexists|exact Hev|].
      intros m3 Hm3 _ Hp3. apply ev_now. split; [|split; [|done]].
      * exists m. split; [done|]. intros Hpm. specialize (Hpm b Hb).
        unfold network_pending in Hpm. rewrite Hd in Hpm. by subst st.
      * eapply pend_after; [exact Hm3| |done]. eapply late_after; [|exact Hl]. lia.
Qed.

(** A job in the queue is completed. *)
Lemma queued_completes n : is_Some (entry n) -> exists m, n <= m /\ completed k (P m).
Proof.
  intros Hn. assert (ev n (fun _ => False)) as (m & Hm & [Hc|[]]); [|by exists m].
  destruct (becomes_late n) as (n0 & Hn0 & Hl0).
  eapply (ev_bind n late); [done|exists n0; auto|]. clear n0 Hn0 Hl0. intros n0 _ He0 Hl0.
  destruct (Hlive n0) as [Hr _]. destruct He0 as [b Hb].
  assert (covered E (P n0) k) as Hcov.
  { by eapply (carried_queue _ _ _ (running_carried _ _ _ _ Hr)); [apply Hr|]. }
  eapply ev_bind; [by exists b|apply covered_fair; [done|by exists b]|]. intros n1 Hn1 He1 Hp1.
  assert (late n1) as Hl1 by (by eapply late_after).
  eapply ev_bind; [done|by apply proof_fair|]. intros n2 Hn2 He2 (_ & Hpend & Hp2).
  assert (late n2) as Hl2 by (by eapply late_after).
  eapply ev_bind; [done|by apply proof_fair|]. intros n3 _ _ ((n' & Hn' & Hno) & _).
  exfalso. apply Hno. by eapply pend_after.
Qed.
End Run.

(** ** The service under a fair schedule *)

Section Claims.
  Context `{Sp1Laws, !ChaCha20Laws, !ZkvmIoLaws, !BincodeLaws Anchor, !RunnerCodecs}.
  Context `{!BincodeLaws SP1ProofWithPublicValues, Payload, !PayloadLaws}.
  Context `{!BincodeTotal SP1ProofSetup, !BincodeTotal JobStatus}.
  Context {Ev : Env} {L : EnvLaws only_refusals} (self : PdaRunner) (E : gmap string string).
  Context (Hconf : configured E) (Hknown : forall o w, op_known o (snd (handle o w))).
  Context (socket : string) (clients : list (Request Incoming)).

(** The service may run from [w] with the tasks [others] beside its worker. *)
Record ready_to_run (others : list (prog TaskResult)) (w : World) : Prop := {
  ready_inv : inv E (view w);
  ready_open : inbox_open (view w) = true;
  ready_on : exited (view w) = None;
  ready_inbox : None ∉ inbox (view w);
  ready_tasks : Forall (working_task self socket clients) others;
  ready_queue : forall k b, queue_db (view w) !! k = Some b ->
    covered E {| world := w; tasks := others |} k;
}.

(** As much of the worker's loop as [n] turns can need. *)
Definition enough (w : World) (n : nat) : nat := length (inbox (view w)) + n + 2.

Lemma ready_lively others w fuel n :
  ready_to_run others w -> length (inbox (view w)) + n < fuel ->
  lively E (sent_by_clients E socket clients (forwarded (view w))) 0 n (service fuel others w).
Proof.
  intros [Hi Hop Hex Hbox Hts Hq] Hf. split.
  - split; [|done|done|].
    + assert (Forall (service_task self socket clients) (worker_task fuel :: others)) as Hall.
      { constructor; [constructor|]. eapply Forall_impl; [exact Hts|]. intros t. apply working_service. }
      apply (service_carried self E Hconf Hknown socket clients w _ [] Hi Hop Hall).
      intros k b Hb. destruct (Hq k b Hb) as [?|(i & t & Ht & ?)]; [by left|right]. by exists (S i), t.
    + intros [|j] t Hj Ht; [done|]. simpl in Ht. eapply working_calm.
      by apply (Forall_lookup_1 _ _ _ _ Hts Ht).
  - exists fuel, (worker_task fuel). split_and!; [done|by left|done].
Qed.

Lemma ready_after others w sch n fuel :
  ready_to_run others w -> enough w n <= fuel ->
  lively E (sent_by_clients E socket clients (forwarded (view w))) 0 1
    (after self sch n (service fuel others w)).
Proof.
  intros Hr Hf. apply lively_schedule; [done..|]. rewrite length_fmap, length_seq.
  apply ready_lively; [done|]. unfold enough in Hf. lia.
Qed.

Lemma near_after others w sch n fuel fuel' :
  ready_to_run others w -> enough w n <= fuel -> enough w n <= fuel' ->
  near (after self sch n (service fuel others w)) (after self sch n (service fuel' others w)).
Proof.
  intros Hr. induction n as [|n IH]; intros Hf Hf'; [apply near_refl|]. rewrite !after_S.
  assert (enough w n <= fuel /\ enough w n <= fuel') as [? ?] by (unfold enough in *; lia).
  eapply near_step; [done..|by apply lively_less, ready_after|by apply lively_less, ready_after|by apply IH].
Qed.

(** The service after [n] turns. *)
Definition pool_at (others : list (prog TaskResult)) (w : World) (sch : nat -> nat) (n : nat) : Pool :=
  after self sch n (service (enough w n) others w).

Lemma pool_at_step others w sch n :
  ready_to_run others w ->
  near (pool_step self (pool_at others w sch n) (sch n)) (pool_at others w sch (S n)).
Proof.
  intros Hr. unfold pool_at at 2. rewrite after_S.
  assert (enough w n <= enough w (S n)) by (unfold enough; lia).
  eapply near_step; [done..|by apply lively_less, ready_after|by apply lively_less, ready_after|].
  by apply near_after.
Qed.

(** C8: every queued job is completed. The service runs without end, with its
    worker, any requests, requested proofs and proving tasks, and nobody shuts it
    down. The variables are set; the database, the random number generator, and
    the set-up and verification of the SP1 client work; its work on a proof fails
    only with its own errors, timeouts of accepted requests included. The
    scheduler interleaves the tasks' operations in any way that gives every task
    its turn again and again. Then whenever a job is in the queue, at some later
    time it has left the queue, and the finished tree holds a final status for it,
    a proof or a failure; no job waits for ever. The worker's loop is unrolled at
    least as far as [enough] says, and further unrolling does not change the
    outcome. *)
Theorem fair_completes others w sch n k b :
  ready_to_run others w -> fair sch ->
  queue_db (view (world (pool_at others w sch n))) !! k = Some b ->
  exists m v st, n <= m /\ deserialize v = Ok st /\ is_final st = true /\
    forall fuel, enough w m <= fuel ->
      let s := view (world (after self sch m (service fuel others w))) in
      queue_db s !! k = None /\ finished_db s !! k = Some v.
Proof.
  intros Hr Hfair Hb.
  pose proof (fun n => ready_after others w sch n (enough w n) Hr (Nat.le_refl _)) as Hlive.
  destruct (queued_completes self E Hconf Hknown _ _ sch Hfair Hlive
    (fun n => pool_at_step others w sch n Hr) k n) as (m & Hm & Hq & v & Hv); [by exists b|].
  destruct (Hlive m) as [[Hc _ _ _] _]. destruct (carried_ok _ _ _ Hc) as [Hi _].
  destruct (inv_entries E _ Hi FinishedDb k v Hv) as (st & Hst & Hok).
  exists m, v, st. split_and!; [done..|by eapply finished_ok_final|].
  intros fuel Hf. by destruct (near_after others w sch m fuel (enough w m) Hr Hf (Nat.le_refl _)) as [-> _].
Qed.
End Claims.
