(* ===== verification/Signals.v ===== *)
(** The shutdown hook of service/src/internal/util.rs: [wait_shutdown_signals]
    registers a handler for each signal and waits for one of them. What a signal
    does to the process depends on how far the hook has come. The operating
    system's answers to the registrations are arguments. *)

From S2P Require Import Prelude.

Open Scope pda_scope.
Local Open Scope string_scope.

(** The operating system's signals. Ctrl+C on a terminal sends [SIGINT]. *)
Inductive Signal : Type := SIGTERM | SIGINT | SIGHUP.

#[global] Instance signal_eq_dec : EqDecision Signal.
Proof. solve_decision. Defined.

(** [#[cfg(target_os = linux)]] and its negation. *)
Inductive Target : Type := Linux | OtherOs.

(** The answers to the registrations, in the order of the code; [tokio]'s
    [ctrl_c] registers when it is first polled. *)
Record Registrations : Type := {
  reg_sigterm : result unit string;
  reg_sigint : result unit string;
  reg_sighup : result unit string;
  reg_ctrl_c : result unit string;
}.

(** The branches of [tokio::select!], and the signal each waits for. *)
Inductive Branch : Type := CtrlC | SigtermRecv | SigintRecv | SighupRecv.

Definition branch_signal (b : Branch) : Signal :=
  match b with CtrlC | SigintRecv => SIGINT | SigtermRecv => SIGTERM | SighupRecv => SIGHUP end.

(** A wait is over, or goes on until a branch is ready. *)
Inductive Wait : Type := Over | Select (branches : list Branch).

(** [unix_signal(kind).expect(msg)]: the handler stays for the life of the
    process, also when a later registration panics. *)
Definition register (s : Signal) (r : result unit string) (msg : string) (handled : list Signal)
    (rest : list Signal -> list Signal * outcome Wait) : list Signal * outcome Wait :=
  match expect id msg r with
  | Returned _ => rest (s :: handled)
  | Panicked m => (handled, Panicked m)
  end.

(** [tokio::select!] polls its branches: [ctrl_c] is ready at once when its
    registration fails, since the branch takes any result. *)
Definition select (ctrl_c : result unit string) (branches : list Branch) (handled : list Signal)
    : list Signal * outcome Wait :=
  match ctrl_c with
  | Ok _ => (SIGINT :: handled, Returned (Select branches))
  | Err _ => (handled, Returned Over)
  end.

(** [wait_shutdown_signals] on Linux, up to its first suspension: the handlers it
    has registered, and what it waits for. *)
Definition wait_shutdown_signals (r : Registrations) : list Signal * outcome Wait :=
  register SIGTERM (reg_sigterm r) "Failed to set up SIGTERM listener" [] (fun handled =>
  register SIGINT (reg_sigint r) "Failed to set up SIGINT listener" handled (fun handled =>
  register SIGHUP (reg_sighup r) "Failed to set up SIGHUP listener" handled (fun handled =>
  select (reg_ctrl_c r) [CtrlC; SigtermRecv; SigintRecv; SighupRecv] handled))).

(** [wait_shutdown_signals] on other systems. *)
Definition wait_shutdown_signals_other (r : Registrations) : list Signal * outcome Wait :=
  select (reg_ctrl_c r) [CtrlC] [].

(** The hook's task: not polled yet, waiting, on to [shutdown], or panicked. *)
Inductive HookState : Type := Spawned | Waiting (branches : list Branch) | Fired | Panics (msg : string).

Record Hook : Type := { handled : list Signal; hook_state : HookState }.

Definition new_hook : Hook := {| handled := []; hook_state := Spawned |}.

(** The hook's first turn. *)
Definition hook_starts (t : Target) (r : Registrations) (h : Hook) : Hook :=
  match hook_state h with
  | Spawned =>
      let (hs, w) := match t with
                     | Linux => wait_shutdown_signals r
                     | OtherOs => wait_shutdown_signals_other r
                     end in
      {| handled := hs;
         hook_state := match w with
                       | Returned Over => Fired
                       | Returned (Select branches) => Waiting branches
                       | Panicked msg => Panics msg
                       end |}
  | _ => h
  end.

(** What a signal does: its default action, which ends the process, nothing, or
    it wakes the hook. *)
Inductive Reaction : Type := DefaultAction | Ignored | Wakes.

Definition reaction (h : Hook) (s : Signal) : Reaction :=
  if bool_decide (s ∈ handled h) then
    match hook_state h with
    | Waiting branches => if existsb (fun b => bool_decide (branch_signal b = s)) branches then Wakes else Ignored
    | _ => Ignored
    end
  else DefaultAction.

Definition fired (h : Hook) : Hook := {| handled := handled h; hook_state := Fired |}.

(** The hook reaches [shutdown]. *)
Definition is_fired (h : Hook) : bool := match hook_state h with Fired => true | _ => false end.

(** What a failed registration leads to. When [ctrl_c] cannot register, its branch
    is ready at once and the process shuts down without a signal. When the last
    listener cannot, the hook panics after it has installed the first two
    handlers, so from then on [SIGTERM] and [SIGINT] are caught and do nothing. *)
Theorem failed_registrations e r :
  reg_sigterm r = Ok tt -> reg_sigint r = Ok tt ->
  (reg_sighup r = Ok tt -> reg_ctrl_c r = Err e -> is_fired (hook_starts Linux r new_hook) = true) /\
  (reg_sighup r = Err e ->
     let h := hook_starts Linux r new_hook in
     hook_state h = Panics ("Failed to set up SIGHUP listener: " +:+ e) /\
     reaction h SIGTERM = Ignored /\ reaction h SIGINT = Ignored /\ reaction h SIGHUP = DefaultAction).
Proof.
  intros Ht Hi. unfold hook_starts, wait_shutdown_signals, register. rewrite Ht, Hi. simpl.
  split; [by intros -> -> |]. by intros ->.
Qed.
