(* ===== verification/Process.v ===== *)
(** The whole process: [main] of service/src/main.rs from the first spawned task
    to the accept loop, and its end, over any number of lives. A process starts
    three tasks, restarts the jobs left in the queue, and then accepts
    connections until a signal, a panic or an error ends it; the next one finds
    on the disk the database as it was at some point of the past. *)

From S2P Require Import Prelude Format ZkvmCommon Guest Job Http Effects Environment.
From S2P Require Import Runner Invariant RunnerSafe Lifecycle Liveness Json Proxy.
From S2P Require Import ProxyFacts Submit Startup Concurrency Traces Signals.

Open Scope pda_scope.

(** How a process ends: [process::exit], a panic of [main], an error [main]
    returns, or from outside. *)
Inductive Ending : Type :=
| ProcessExited (code : Z)
| MainPanicked
| MainReturned (e : string)
| Killed.

(** A world that starts with a given store. *)
Class Launch `{Platform} {Ev : Env} := {
  start : Store -> World;
  view_start s : view (start s) = s;
}.

Section Process.
  Context `{Platform, Payload} {Ev : Env} `{!Launch} (self : PdaRunner) (E : gmap string string).
  Context (target : Target) (socket : string) (fuel : nat).

(** The requests of a connection, one after the other; a handler that panics
    ends the connection. *)
Fixpoint serve_requests (reqs : list (Request Incoming)) : prog TaskResult :=
  match reqs with
  | [] => Ret Done
  | req :: reqs' => handle_request socket req ;; serve_requests reqs'
  end.

(** The task of an accepted stream: the TLS handshake, and the requests that
    come through it. *)
Definition serve_connection (tls_stream : result (list (Request Incoming)) string) : prog TaskResult :=
  match tls_stream with
  | Ok reqs => serve_requests reqs
  | Err _ => Ret Done
  end.

(** [main] after it has spawned its tasks, up to the accept loop. *)
Definition main_task : prog TaskResult := restart_jobs ;; Ret Done.

(** [pool], the tasks, the third being [main]; [served], the requests received
    in all lives; [hook], how far the hook for signals has come; [disk],
    the past states of the database. *)
Record Process : Type := {
  pool : Pool;
  served : list (Request Incoming);
  hook : Hook;
  ended : option Ending;
  disk : list Store;
}.

Inductive ProcessEvent : Type :=
| Turn (i : nat)
| Accept (tls_stream : result (list (Request Incoming)) string)
| AcceptFails (e : string)
| HookStarts (r : Registrations)
| Signalled (s : Signal)
| Kill
| Start (n : nat).

(** What a new process finds: the trees of [old], an empty channel, no cells.
    The messages sent to the node are those of all lives. *)
Definition reopened (old : Store) (sent : list (Request bytes)) : Store :=
  {| config_db := config_db old; queue_db := queue_db old; finished_db := finished_db old;
     inbox := []; inbox_open := true; spawned := []; env_vars := E; cell_id := None;
     cell_setup := None; cell_local := None; cell_remote := None; exited := None;
     forwarded := sent |}.

Definition MAIN : nat := 2.

(** The tasks [main] starts with. *)
Definition first_tasks : list (prog TaskResult) := [prepare_task; worker_task fuel; main_task].

Definition launch (s : Store) (past : list Store) (before : list (Request Incoming)) : Process :=
  {| pool := {| world := start s; tasks := first_tasks |}; served := before;
     hook := new_hook; ended := None; disk := past ++ [s] |}.

(** The end that the tasks brought about. *)
Definition end_of (pl : Pool) : option Ending :=
  match exited (view (world pl)), tasks pl !! MAIN with
  | Some code, _ => Some (ProcessExited code)
  | None, Some (Panic _) => Some MainPanicked
  | None, _ => None
  end.

(** [main] is in its accept loop. *)
Definition listening (pl : Pool) : bool :=
  match tasks pl !! MAIN with Some (Ret _) => true | _ => false end.

Definition add_task (pl : Pool) (t : prog TaskResult) : Pool :=
  {| world := world pl; tasks := tasks pl ++ [t] |}.

Definition requests_of (tls_stream : result (list (Request Incoming)) string) : list (Request Incoming) :=
  match tls_stream with Ok reqs => reqs | Err _ => [] end.

Definition set_hook (p : Process) (h : Hook) : Process :=
  {| pool := pool p; served := served p; hook := h; ended := None; disk := disk p |}.

(** The hook goes on to [shutdown]. *)
Definition shut_down (p : Process) (h : Hook) : Process :=
  {| pool := add_task (pool p) shutdown_task; served := served p; hook := h;
     ended := None; disk := disk p |}.

(** The process is ended from outside. *)
Definition killed (p : Process) : Process :=
  {| pool := pool p; served := served p; hook := hook p; ended := Some Killed; disk := disk p |}.

(** A round of the accept loop: the connection gets a task of its own, and an
    error of [accept] is returned from [main]. *)
Definition accept (p : Process) (accepted : result (result (list (Request Incoming)) string) string)
    : Process :=
  if listening (pool p) then
    match accepted with
    | Ok tls_stream =>
        {| pool := add_task (pool p) (serve_connection tls_stream);
           served := served p ++ requests_of tls_stream; hook := hook p;
           ended := None; disk := disk p |}
    | Err e =>
        {| pool := pool p; served := served p; hook := hook p;
           ended := Some (MainReturned e); disk := disk p |}
    end
  else p.

(** The first turn of the hook's task. *)
Definition hook_turn (p : Process) (r : Registrations) : Process :=
  let h := hook_starts target r (hook p) in
  if is_fired h && negb (is_fired (hook p)) then shut_down p h else set_hook p h.

(** A signal arrives. *)
Definition signalled (p : Process) (s : Signal) : Process :=
  match reaction (hook p) s with
  | DefaultAction => killed p
  | Ignored => p
  | Wakes => shut_down p (fired (hook p))
  end.

(** A task has its turn; [main]'s may end the process. *)
Definition turn (p : Process) (i : nat) : Process :=
  let pl := pool_step self (pool p) i in
  {| pool := pl; served := served p; hook := hook p; ended := end_of pl;
     disk := disk p ++ [view (world pl)] |}.

(** What an event does to a running process. *)
Definition happen (p : Process) (e : ProcessEvent) : Process :=
  match e with
  | Turn i => turn p i
  | Accept tls_stream => accept p (Ok tls_stream)
  | AcceptFails e => accept p (Err e)
  | HookStarts r => hook_turn p r
  | Signalled s => signalled p s
  | Kill => killed p
  | Start _ => p
  end.

(** An event: to a process that runs, or the start of the next one, which finds
    the database as it was after the [n]th step. *)
Definition process_step (p : Process) (e : ProcessEvent) : Process :=
  match ended p, e with
  | None, _ => happen p e
  | Some _, Start n =>
      match disk p !! n with
      | Some old => launch (reopened old (forwarded (view (world (pool p))))) (disk p) (served p)
      | None => p
      end
  | Some _, _ => p
  end.

Definition process_run (events : list ProcessEvent) (p : Process) : Process :=
  foldl process_step p events.
End Process.

(** ** What the tasks of a process respect *)

Section ProcessSafe.
  Context `{Sp1Facts, !RunnerCodecs, !JobFormat, Payload, !PayloadLaws} (self : PdaRunner).
  Context (E : gmap string string) (G : Request bytes -> Prop) (socket : string).

Lemma safe_restart_entries mb entries :
  (forall k b, (k, b) ∈ entries -> exists a : Anchor, serialize a = Ok k) ->
  safe E G mb (restart_entries entries) (fun _ => True).
Proof.
  destruct entries as [|[k b] entries]; [done|]. intros Hk.
  destruct (Hk k b) as [a Ha]; [left|]. destruct (anchor_is_no_job a k Ha) as [e He].
  simpl. by rewrite He.
Qed.

Lemma safe_main_task mb : safe E G mb main_task (task_ok E).
Proof.
  unfold main_task. eapply (safe_call _ _ _ _ _ (fun _ => True)); [|done|done].
  unfold restart_jobs. safe_op_step (SledIter QueueDb); [done|].
  apply safe_restart_entries. intros k b (r & Hr & Hin)%list_elem_of_omap.
  destruct r as [kb|e]; [|done]. injection Hin as ->. by destruct (Hx k b Hr) as [? _].
Qed.

Lemma safe_serve_requests mb reqs :
  (forall req uri out, req ∈ reqs -> uri_parse (upstream_uri E socket req) = Ok uri ->
    has_bearer req = true -> forwards (encrypts E) (with_uri req uri) out -> G out) ->
  safe E G mb (serve_requests socket reqs) (task_ok E).
Proof.
  induction reqs as [|req reqs IH]; intros HG; [done|]. cbn [serve_requests].
  eapply (safe_call _ _ _ _ _ (fun _ => True)); [|intros _ _|done].
  - apply safe_handle_request. intros uri out. apply HG. left.
  - apply IH. intros req' uri out Hin. apply HG. by right.
Qed.

(** The messages to the node that a task has left. *)
Lemma sends_prover {A} (p : prog A) : only prover_op p -> sends_at_most 0 p.
Proof.
  induction p as [a|msg|o k IH]; simpl; try done. intros [Ho Hk]. destruct o; try done; auto.
Qed.

Lemma sends_serve_requests reqs : sends_at_most (length reqs) (serve_requests socket reqs).
Proof.
  induction reqs as [|req reqs IH]; [done|]. cbn [serve_requests].
  apply (sends_at_most_bind 1 (length reqs)); [apply handle_request_sends|done].
Qed.

Lemma sends_job_worker n : sends_at_most 0 (job_worker n).
Proof. induction n as [|n IH]; [done|]. intros [[job|]|]; [by intros []|done|done]. Qed.

Lemma sends_restart_entries entries : sends_at_most 0 (restart_entries entries).
Proof.
  induction entries as [|[k b] entries IH]; [done|]. simpl.
  apply (sends_at_most_bind 0 0); [by destruct (deserialize k)|]. intros job.
  destruct (deserialize b) as [[]|]; try done; by intros [].
Qed.

Lemma sends_main_task : sends_at_most 0 main_task.
Proof.
  apply (sends_at_most_bind 0 0); [|done]. intros l. apply sends_restart_entries.
Qed.

Lemma sends_worker_task n : sends_at_most 0 (worker_task n).
Proof. apply (sends_at_most_bind 0 0); [apply sends_job_worker|done]. Qed.

Lemma sends_prepare_task : sends_at_most 0 prepare_task.
Proof. apply (sends_at_most_bind 0 0); [apply only_silent, only_prepare_clients|done]. Qed.

Lemma sends_prove_task job : sends_at_most 0 (prove_task self job).
Proof. apply (sends_at_most_bind 0 0); [apply sends_prover, only_prove|done]. Qed.
End ProcessSafe.

(** ** Every life *)

Section Lives.
  Context `{Sp1Laws, !ChaCha20Laws, !ZkvmIoLaws, !BincodeLaws Anchor, !RunnerCodecs, !JobFormat}.
  Context `{!BincodeLaws SP1ProofWithPublicValues, Payload, !PayloadLaws}.
  Context {Ev : Env} {f : Faults} {L : EnvLaws f} `{!Launch} (self : PdaRunner) (E : gmap string string).
  Context (target : Target) (socket : string) (fuel : nat) (sent : list (Request bytes)).

(** The entries of a database, as some process may find it. *)
Definition entries_ok (s : Store) : Prop :=
  forall t k b, tree s t !! k = Some b -> entry_ok E t k b.

(** The messages that may have been sent for the requests of [clients]. *)
Definition sent_for_requests (clients : list (Request Incoming)) : Request bytes -> Prop :=
  sent_by_clients E socket clients sent.

Lemma sent_for_requests_mono clients more out :
  sent_for_requests clients out -> sent_for_requests (clients ++ more) out.
Proof.
  intros [Hb|(req & uri & Hr & ?)]; [by left|right]. exists req, uri. split; [|done].
  apply elem_of_app. by left.
Qed.

Lemma safe_weaken (G G' : Request bytes -> Prop) mb {A} (p : prog A) Q :
  (forall out, G out -> G' out) -> safe E G mb p Q -> safe E G' mb p Q.
Proof.
  intros HG. induction p as [a|msg|o k IH]; simpl; try done. intros (Hb & Hn & Hg & Hk).
  split_and!; [done| |done|auto]. destruct o; simpl in *; auto.
Qed.

(** Each task's share of the messages that may still be sent. *)
Definition within (pl : Pool) (n : nat) : Prop :=
  exists shares, Forall2 (fun m t => sends_at_most m t) shares (tasks pl) /\
    length (forwarded (view (world pl))) + sum_list shares <= length sent + n.

Record lives_ok (p : Process) : Prop := {
  lives_pool : pool_ok E (sent_for_requests (served p)) (pool p);
  lives_sent : within (pool p) (length (served p));
  lives_disk : Forall entries_ok (disk p);
}.

Lemma inv_entries_ok s : inv E s -> entries_ok s.
Proof. intros Hi t k b. apply (inv_entries E s Hi). Qed.

Lemma inv_reopened old log : entries_ok old -> inv E (reopened E old log).
Proof.
  intros Hold. split; simpl; [done| |done|by intros ? ?%elem_of_nil|by intros ? ?%elem_of_nil].
  intros t k b Hb. apply Hold. by destruct t.
Qed.

Lemma sum_shares_insert (shares : list nat) i m n :
  shares !! i = Some m -> n <= m -> sum_list (<[i := n]> shares) + (m - n) = sum_list shares.
Proof.
  revert i. induction shares as [|x shares IH]; intros [|i]; simpl; try done.
  - intros [= ->]. lia.
  - intros Hi Hn. specialize (IH i Hi Hn). lia.
Qed.

(** One turn uses up at most what it sends. *)
Lemma within_turn pl i n : within pl n -> within (pool_step self pl i) n.
Proof.
  intros (shares & Ht & Hn). destruct (pool_step_cases self pl i) as [->|(o & k & _ & Hti & He & ->)];
    [by exists shares|].
  destruct (Forall2_lookup_r _ _ _ _ _ Ht Hti) as (m & Hm & Hs).
  pose proof (handle_post o (world pl) He) as Hp.
  assert (exists m', m' <= m /\ sends_at_most m' (k (snd (handle o (world pl)))) /\
    length (forwarded (view (fst (handle o (world pl))))) =
      length (forwarded (view (world pl))) + (m - m')) as (m' & Hm' & Hk & Hlen).
  { destruct (is_local o) eqn:Ho.
    - exists m. split; [done|]. rewrite (op_local _ _ _ _ _ Ho Hp). split; [|lia]. by destruct o.
    - destruct o; try done. simpl in Hs. destruct m as [|m]; [done|]. exists m.
      split; [lia|]. split; [apply Hs|].
      assert (view (fst (handle (DaRequest req) (world pl))) = forward (view (world pl)) req) as ->
        by exact Hp. simpl. rewrite length_app. simpl. lia. }
  exists (<[i := m']> shares ++ replicate (length (spawned_task self o)) 0). split.
  - simpl. apply Forall2_app; [by apply Forall2_insert|].
    destruct o; constructor; [apply sends_prove_task|constructor].
  - simpl. rewrite sum_list_with_app, Hlen. pose proof (sum_shares_insert shares i m m' Hm Hm').
    assert (sum_list (replicate (length (spawned_task self o)) 0) = 0) as -> by (by destruct o).
    lia.
Qed.

Lemma within_add pl t m n :
  within pl n -> sends_at_most m t -> within (add_task pl t) (n + m).
Proof.
  intros (shares & Ht & Hn) Hm. exists (shares ++ [m]). split.
  - simpl. apply Forall2_app; [done|]. by constructor.
  - simpl. rewrite sum_list_with_app. simpl. lia.
Qed.

Lemma pool_ok_add (G G' : Request bytes -> Prop) pl t :
  (forall out, G out -> G' out) -> pool_ok E G pl -> safe E G' true t (task_ok E) ->
  pool_ok E G' (add_task pl t).
Proof.
  intros HG (Hi & Hl & Ht) Hs. split; [done|]. split; [by eapply Forall_impl|].
  simpl. apply Forall_app. split; [|by constructor].
  eapply Forall_impl; [exact Ht|]. intros t'. by apply safe_weaken.
Qed.

Lemma launch_ok old log past before :
  entries_ok old -> Forall entries_ok past -> Forall (sent_for_requests before) log ->
  length log <= length sent + length before ->
  lives_ok (launch fuel (reopened E old log) past before).
Proof.
  intros Hold Hpast Hlog Hlen. split; simpl.
  - split; cbn [world tasks pool]; [rewrite view_start; by apply inv_reopened|].
    rewrite view_start. split; [done|].
    repeat constructor; [apply prepare_task_safe|apply worker_task_safe|apply safe_main_task].
  - exists [0; 0; 0]. split.
    + repeat constructor; [apply sends_prepare_task|apply sends_worker_task|apply sends_main_task].
    + simpl. rewrite view_start. simpl. lia.
  - apply Forall_app. split; [done|]. repeat constructor. intros t k b Hb. apply Hold. by destruct t.
Qed.

Lemma lives_ok_ended p x :
  lives_ok p ->
  lives_ok {| pool := pool p; served := served p; hook := hook p; ended := x; disk := disk p |}.
Proof. intros []. by split. Qed.

Lemma shut_down_ok p h : lives_ok p -> lives_ok (shut_down p h).
Proof.
  intros [Hpool Hw Hd]. split; simpl; [| |done].
  - eapply pool_ok_add; [done|exact Hpool|apply shutdown_task_safe].
  - rewrite <- (Nat.add_0_r (length (served p))). by apply within_add.
Qed.

Lemma happen_ok p e : lives_ok p -> lives_ok (happen self target socket p e).
Proof.
  intros Hp. destruct e as [i|tls|e|r|sg| |n]; simpl;
    unfold turn, accept, hook_turn, signalled; [| | | | |by apply lives_ok_ended|done].
  - destruct Hp as [Hpool Hw Hd]. apply (pool_step_ok self E _ _ i) in Hpool.
    split; simpl; [done|by apply within_turn|]. apply Forall_app. split; [done|].
    repeat constructor. apply inv_entries_ok, Hpool.
  - destruct (listening _); [|done]. destruct Hp as [Hpool Hw Hd]. split; simpl; [| |done].
    + eapply pool_ok_add; [apply sent_for_requests_mono|exact Hpool|].
      destruct tls as [reqs|e]; [|done]. apply safe_serve_requests.
      intros req uri out Hin Hu Hb Hf. right. exists req, uri. split; [|done].
      apply elem_of_app. by right.
    + rewrite length_app. apply within_add; [done|].
      destruct tls as [reqs|e]; [apply sends_serve_requests|done].
  - destruct (listening _); [by apply lives_ok_ended|done].
  - case_match; [by apply shut_down_ok|]. by destruct Hp.
  - case_match; [by apply lives_ok_ended|done|by apply shut_down_ok].
Qed.

Lemma process_step_ok p e : lives_ok p -> lives_ok (process_step self E target socket fuel p e).
Proof.
  intros Hp. unfold process_step. destruct (ended p); [|by apply happen_ok].
  destruct e as [| | | | | |n]; try done. destruct (disk p !! n) as [old|] eqn:Hn; [|done].
  destruct Hp as [(Hi & Hl & _) (shares & _ & Hw) Hd]. apply launch_ok; [|done|done|lia].
  by apply (Forall_lookup_1 _ _ _ _ Hd Hn).
Qed.

Lemma process_run_ok old events :
  entries_ok old ->
  lives_ok (process_run self E target socket fuel events (launch fuel (reopened E old sent) [] [])).
Proof.
  intros Hold. assert (lives_ok (launch fuel (reopened E old sent) [] [])) as Hstart.
  { apply launch_ok; [done|done| |lia]. apply Forall_forall. intros out Hout. by left. }
  unfold process_run. revert Hstart. generalize (launch fuel (reopened E old sent) [] []).
  induction events as [|e events IH]; intros p Hp; [done|]. by apply IH, process_step_ok.
Qed.

(** C1: the whole process, over all its lives. A process is started on a database
    with valid entries, serves connections, is stopped by signals, panics, errors
    or from outside at any point, and is started again on the database as it was
    at any earlier point, any number of times; its tasks interleave in any way
    and anything may fail. Then each message sent to the node is forwarded for a
    received request that carries a bearer token, with a [blob.Submit]'s data
    sealed; there are no more messages than requests; and every state of the
    database that a later process can find has valid entries only. *)
Theorem process_sends old events :
  (forall t k b, tree old t !! k = Some b -> entry_ok E t k b) ->
  let p := process_run self E target socket fuel events (launch fuel (reopened E old sent) [] []) in
  let log := forwarded (view (world (pool p))) in
  (forall out, out ∈ log -> out ∈ sent \/
    exists req uri, req ∈ served p /\ has_bearer req = true /\
      uri_parse (upstream_uri E socket req) = Ok uri /\
      forwards (sealed_blob E) (with_uri req uri) out) /\
  length log <= length sent + length (served p) /\
  (forall s t k b, s ∈ disk p -> tree s t !! k = Some b -> entry_ok E t k b).
Proof.
  intros Hold p log.
  destruct (process_run_ok old events Hold) as [(_ & Hl & _) (shares & _ & Hw) Hd]. fold p in Hl, Hw, Hd.
  split_and!.
  - intros out Hout. rewrite Forall_forall in Hl.
    destruct (Hl out Hout) as [Hb|(req & uri & Hr & Hb & Hu & Hf)]; [by left|right].
    exists req, uri. split_and!; try done. eapply forwards_mono; [|exact Hf]. apply encrypts_sealed.
  - unfold log. lia.
  - intros s t k b Hs. rewrite Forall_forall in Hd. by apply Hd.
Qed.
End Lives.
