(* ===== verification/Restart.v ===== *)
(** A crash loop. The queue's keys do not read as jobs, so a process that finds
    an unfinished job on its disk panics at its start (Startup.v), and what it
    finds is what the next one finds. Here this is followed over any number of
    lives, with signals, kills and any interleaving of the tasks. *)

From S2P Require Import Prelude Format ZkvmCommon Guest Job Http Effects Environment.
From S2P Require Import Runner Invariant RunnerSafe Lifecycle Liveness Json Proxy.
From S2P Require Import ProxyFacts Submit Startup Concurrency Traces Signals Process.

(** ** Tasks that leave the jobs and the node alone *)

Section Idle.
  Context `{Sp1Facts, Payload}.

(** What the preparation of the clients, the hook, and the worker do while the
    worker is sent no job. *)
Definition idle_op (o : Op) : bool :=
  match o with
  | ProcessExit _ | ChanSend None | ChanRecv => true
  | _ => still_op o
  end.

Lemma still_idle o : still_op o = true -> idle_op o = true.
Proof. destruct o as [| | | | |[]| | | | | | | | | | | | | | | |]; done. Qed.

Definition no_job (o : Op) : ans o -> Prop :=
  match o return ans o -> Prop with ChanRecv => fun m => m = Some None | _ => fun _ => True end.

(** [p] is idle as long as the worker receives no job. *)
Fixpoint idle {A} (p : prog A) : Prop :=
  match p with
  | Ret _ | Panic _ => True
  | Vis o k => idle_op o = true /\ forall x, no_job o x -> idle (k x)
  end.

Lemma only_idle {A} (p : prog A) : only idle_op p -> idle p.
Proof. induction p as [a|msg|o k IH]; simpl; try done. intros [Ho Hk]. split; [done|]. intros x _. auto. Qed.

Lemma idle_prepare_task : idle prepare_task.
Proof.
  apply only_idle, only_bind; [|done]. eapply only_mono; [apply still_idle|].
  apply only_still; [apply only_request_prover, only_prepare_clients|apply quiet_prepare_clients].
Qed.

Lemma idle_shutdown_task : idle shutdown_task.
Proof. done. Qed.

Lemma idle_worker_task n : idle (worker_task n).
Proof. destruct n as [|n]; [done|]. split; [done|]. by intros m ->. Qed.

(** The trees of jobs and the messages to the node stay, and the worker is sent
    no job. *)
Record unmoved (s s' : Store) : Prop := {
  unmoved_queue : queue_db s' = queue_db s;
  unmoved_finished : finished_db s' = finished_db s;
  unmoved_sent : forwarded s' = forwarded s;
  unmoved_inbox : (forall job, Some job ∉ inbox s) -> forall job, Some job ∉ inbox s';
}.

Lemma idle_turn f o s s' x :
  idle_op o = true -> (forall job, Some job ∉ inbox s) -> op_post f o s s' x ->
  unmoved s s' /\ no_job o x.
Proof.
  intros Ho Hin Hp. destruct (still_op o) eqn:Hst.
  - apply andb_true_iff in Hst as [Hpr Hq]. destruct (op_quiet_same _ _ _ _ _ Hq Hp) as [? ? Hb _ _].
    split; [|by destruct o]. split; [done..| |by rewrite Hb].
    assert (is_local o = true) as Hl by (by destruct o). by rewrite (op_local _ _ _ _ _ Hl Hp).
  - destruct o; try (simpl in Ho, Hst; congruence); simpl in Hp.
    + destruct m as [job|]; [done|]. split; [|done].
      destruct (inbox_open s); destruct Hp as [_ ->]; split; try done.
      simpl. intros _ job [?|[=]%list_elem_of_singleton]%elem_of_app. by eapply Hin.
    + destruct Hp as (m & rest & Hb & -> & ->). destruct m as [job|].
      * exfalso. apply (Hin job). rewrite Hb. by left.
      * split; [|done]. split; try done. simpl. intros _ job Hj. apply (Hin job). rewrite Hb. by right.
    + by subst.
Qed.
End Idle.

(** ** The lives *)

Section Restart.
  Context `{Sp1Laws, !ChaCha20Laws, !ZkvmIoLaws, !BincodeLaws Anchor, !RunnerCodecs, !JobFormat}.
  Context `{!BincodeLaws SP1ProofWithPublicValues, Payload, !PayloadLaws}.
  Context {Ev : Env} {f : Faults} {L : EnvLaws f} `{!Launch} (self : PdaRunner) (E : gmap string string).
  Context (target : Target) (socket : string) (fuel : nat)
    (io_ok : io_errors f = false).

Abbreviation step := (process_step self E target socket fuel).
Abbreviation runs := (process_run self E target socket fuel).
Abbreviation store p := (view (world (pool p))).

(** An unfinished job, under a key that is a serialized anchor. *)
Definition unfinished (s : Store) : Prop :=
  queue_db s <> ∅ /\ forall k b, queue_db s !! k = Some b -> exists a : Anchor, serialize a = Ok k.

(** The trees of jobs are those of one of [olds]. *)
Definition one_of (olds : list Store) (s : Store) : Prop :=
  exists old, old ∈ olds /\ queue_db s = queue_db old /\ finished_db s = finished_db old.

(** Reading the queue makes [main] panic. *)
Lemma main_reads s (x : ans (SledIter QueueDb)) s' :
  unfinished s -> op_post f (SledIter QueueDb) s s' x ->
  s' = s /\ exists msg, restart_entries (omap result_ok x) = Panic msg.
Proof.
  intros [Hne Hk] (-> & _ & Hperm). specialize (Hperm io_ok). split; [done|].
  destruct (omap result_ok x) as [|[k b] entries] eqn:Hx.
  - symmetry in Hperm. apply Permutation_nil_r in Hperm. by apply map_to_list_empty_iff in Hperm.
  - assert ((k, b) ∈ map_to_list (queue_db s)) as Hb%elem_of_map_to_list by (rewrite <- Hperm; by left).
    destruct (Hk k b Hb) as [a Ha]. destruct (anchor_is_no_job a k Ha) as [e He].
    simpl. rewrite He. by eexists.
Qed.
(** ** One event *)

Context (m : nat) (olds : list Store) (clients : list (Request Incoming)) (log : list (Request bytes)).
Context (Holds : Forall unfinished olds).

(** A process that starts and has not come to its queue yet. *)
Record starting (p : Process) : Prop := {
  starting_exit : exited (store p) = None;
  starting_main : tasks (pool p) !! MAIN = Some main_task;
  starting_others j t : j <> MAIN -> tasks (pool p) !! j = Some t -> idle t;
  starting_inbox job : Some job ∉ inbox (store p);
  starting_trees : one_of olds (store p);
}.

Record stuck (p : Process) : Prop := {
  stuck_served : served p = clients;
  stuck_sent : forwarded (store p) = log;
  stuck_disk : Forall (one_of olds) (drop m (disk p));
  stuck_up : ended p = None -> starting p;
}.

Lemma one_of_unfinished s : one_of olds s -> unfinished s.
Proof.
  intros (old & Hin & Hq & _). rewrite Forall_forall in Holds. specialize (Holds old Hin).
  unfold unfinished in *. by rewrite Hq.
Qed.

Lemma one_of_unmoved s s' : unmoved s s' -> one_of olds s -> one_of olds s'.
Proof. intros [Hq Hf _ _] (old & Hin & Hq' & Hf'). exists old. split_and!; congruence. Qed.

(** The turn of [main] reads the queue and panics. *)
Lemma main_turn p :
  starting p ->
  let pl := pool_step self (pool p) MAIN in
  view (world pl) = store p /\ end_of pl = Some MainPanicked.
Proof.
  intros [Hx Hm _ _ Hold] pl. unfold pl, pool_step. rewrite Hx, Hm.
  cbn [main_task restart_jobs bind op is_enabled].
  pose proof (handle_post (SledIter QueueDb) (world (pool p)) I) as Hp.
  destruct (main_reads _ _ _ (one_of_unfinished _ Hold) Hp) as [Hs [msg Hr]].
  unfold end_of. cbn [world tasks]. split; [done|].
  rewrite Hs, Hx, lookup_app_l by (rewrite length_insert; by eapply lookup_lt_Some).
  rewrite list_lookup_insert_eq by (by eapply lookup_lt_Some). by rewrite Hr.
Qed.

(** A turn of a process that starts: it panics, or goes on to start. *)
Lemma starting_turn p i :
  starting p ->
  let pl := pool_step self (pool p) i in
  unmoved (store p) (view (world pl)) /\
  (end_of pl = None ->
    tasks pl !! MAIN = Some main_task /\ forall j t, j <> MAIN -> tasks pl !! j = Some t -> idle t).
Proof.
  intros Hup pl. destruct (decide (i = MAIN)) as [->|Hne].
  { destruct (main_turn p Hup) as [Hs He]. fold pl in Hs, He. rewrite Hs, He. by split. }
  destruct Hup as [Hx Hm Hoth Hin Hold]. unfold pl, pool_step. rewrite Hx.
  assert (unmoved (store p) (store p)) as Hstay by (by split).
  destruct (tasks (pool p) !! i) as [[| |o k]|] eqn:Hi; try done.
  destruct (Hoth i _ Hne Hi) as [Ho Hk].
  destruct (is_enabled o _) eqn:He; [|done]. apply is_enabled_spec in He.
  destruct (idle_turn _ _ _ _ _ Ho Hin (handle_post o _ He)) as [Hs Hj].
  assert (spawned_task self o = []) as Hsp by (by destruct o). rewrite Hsp, app_nil_r.
  split; [done|]. intros _. cbn [tasks]. split; [by rewrite list_lookup_insert_ne|].
  intros j t Hjm Ht. destruct (decide (j = i)) as [->|Hji].
  + rewrite list_lookup_insert_eq in Ht by (by eapply lookup_lt_Some). injection Ht as <-. by apply Hk.
  + rewrite list_lookup_insert_ne in Ht by done. by eapply Hoth.
Qed.

(** The hook's task, and what does not change the pool. *)
Lemma starting_shut_down p h : starting p -> starting (shut_down p h).
Proof.
  intros [Hx Hm Hoth Hin Hold]. split; simpl; [done|by apply lookup_app_l_Some| |done..].
  intros j t Hj Ht. apply lookup_app_Some in Ht as [Ht|[_ Ht]]; [by eapply Hoth|].
  destruct (j - _) as [|n]; [|by destruct n]. injection Ht as <-. apply idle_shutdown_task.
Qed.

Lemma starting_same p p' : pool p' = pool p -> starting p -> starting p'.
Proof. intros Hp [? ? ? ? ?]. by split; rewrite ?Hp. Qed.

Lemma starting_listening p : starting p -> listening (pool p) = false.
Proof. intros Hs. unfold listening. by rewrite (starting_main _ Hs). Qed.

Lemma starting_launch old past before :
  one_of olds old -> starting (launch fuel (reopened E old log) past before).
Proof.
  intros Hold. split; cbn [launch pool world tasks]; rewrite ?view_start; try done.
  - intros [|[|[|j]]] t Hj Ht; try done.
    + injection Ht as <-. apply idle_prepare_task.
    + injection Ht as <-. apply idle_worker_task.
  - intros job. by apply not_elem_of_nil.
Qed.

(** A later life reads a disk that is not older than the [m]th state. *)
Definition durable (e : ProcessEvent) : bool := match e with Start n => m <=? n | _ => true end.

Lemma one_of_disk l s : Forall (one_of olds) (drop m l) -> one_of olds s -> Forall (one_of olds) (drop m (l ++ [s])).
Proof. intros Hl Hs. rewrite drop_app. apply Forall_app. split; [done|]. apply Forall_drop. by constructor. Qed.

Lemma stuck_step p e : stuck p -> durable e = true -> stuck (step p e).
Proof.
  intros Hp He. pose proof Hp as [Hc Hl Hd Hup]. unfold process_step. destruct (ended p) as [x|] eqn:Hend.
  - destruct e as [| | | | | |n]; try done. destruct (disk p !! n) as [old|] eqn:Hn; [|done].
    assert (one_of olds old) as Hold.
    { apply (Forall_lookup_1 _ _ (n - m) _ Hd). rewrite lookup_drop. rewrite <- Hn. f_equal.
      simpl in He. apply Nat.leb_le in He. lia. }
    rewrite Hl, Hc. split; [done|by simpl; rewrite view_start|by apply one_of_disk|].
    intros _. by apply starting_launch.
  - specialize (Hup eq_refl).
    assert (forall h, stuck (shut_down p h)) as Hshut by (intros h; split; try done; by intros _; apply starting_shut_down).
    destruct e as [i|tls|e|r|sg| |n]; simpl; unfold accept; rewrite ?(starting_listening _ Hup); try done.
    + pose proof (starting_turn p i Hup) as [Hs Hnext]. unfold turn.
      pose proof (one_of_unmoved _ _ Hs (starting_trees _ Hup)) as Hold.
      split; simpl; [done|by rewrite (unmoved_sent _ _ Hs)|by apply one_of_disk|].
      intros Hend'. destruct (Hnext Hend') as (Hm & Hoth). split; simpl; try done.
      * unfold end_of in Hend'. by destruct (exited _).
      * apply (unmoved_inbox _ _ Hs), (starting_inbox _ Hup).
    + unfold hook_turn. case_match; [done|]. split; try done. intros _. by apply (starting_same p).
    + unfold signalled. by case_match.
Qed.

Lemma stuck_run events : forall p, stuck p -> forallb durable events = true -> stuck (runs events p).
Proof.
  induction events as [|e events IH]; intros p Hp; [done|].
  intros [He Hes]%andb_true_iff. apply IH; [by apply stuck_step|done].
Qed.
End Restart.

Section RestartClaims.
  Context `{Sp1Laws, !ChaCha20Laws, !ZkvmIoLaws, !BincodeLaws Anchor, !RunnerCodecs, !JobFormat}.
  Context `{!BincodeLaws SP1ProofWithPublicValues, Payload, !PayloadLaws}.
  Context {Ev : Env} {f : Faults} {L : EnvLaws f} `{!Launch} (self : PdaRunner) (E : gmap string string).
  Context (target : Target) (socket : string) (fuel : nat).

(** C25: a crash loop. A process is started on a database with valid entries, and
    anything happens until it has ended. If from the [m]th state on there always
    was an unfinished job in the queue, and later processes find no older state,
    then whatever happens next, over any number of restarts, no request is
    received, nothing is sent to the node, and no job is worked on: each state of
    the trees of jobs is one of those before. A process that is running has not
    come to its accept loop, and panics when [main] has its next turn. Errors of
    the database are excluded, those of the SP1 client are not. *)
Theorem crash_loop old sent before after m :
  io_errors f = false -> entries_ok E old ->
  let p := process_run self E target socket fuel before (launch fuel (reopened E old sent) [] []) in
  let p' := process_run self E target socket fuel after p in
  ended p <> None -> (forall s, s ∈ drop m (disk p) -> queue_db s <> ∅) ->
  forallb (durable m) after = true ->
  served p' = served p /\ forwarded (view (world (pool p'))) = forwarded (view (world (pool p))) /\
  (forall s, s ∈ drop m (disk p') ->
    exists s0, s0 ∈ drop m (disk p) /\ queue_db s = queue_db s0 /\ finished_db s = finished_db s0) /\
  (ended p' = None -> listening (pool p') = false /\
    ended (process_step self E target socket fuel p' (Turn MAIN)) = Some MainPanicked).
Proof.
  intros Hio Hold p p' Hend Hq Hes.
  destruct (process_run_ok (L := L) self E target socket fuel sent old before Hold) as [_ _ Hd].
  fold p in Hd. set (olds := drop m (disk p)).
  assert (Forall unfinished olds) as Holds.
  { apply Forall_forall. intros s Hs. split; [by apply Hq|]. intros k b Hk.
    rewrite Forall_forall in Hd.
    destruct (Hd s (subseteq_drop m (disk p) s Hs) QueueDb k b Hk) as [Ha _]. exact Ha. }
  assert (stuck m olds (served p) (forwarded (view (world (pool p)))) p) as Hp.
  { split; [done..| |done]. apply Forall_forall. intros s Hs. by exists s. }
  destruct (stuck_run self E target socket fuel Hio m olds _ _ Holds after p Hp Hes) as [Hc Hl Hdisk Hup].
  split_and!; [done|done|by rewrite Forall_forall in Hdisk|].
  intros Hon. specialize (Hup Hon). split; [by eapply starting_listening|].
  fold p' in Hon, Hup |- *. unfold process_step. rewrite Hon. simpl.
  apply (main_turn self Hio olds Holds p' Hup).
Qed.
End RestartClaims.
