(* ===== verification/Shutdown.v ===== *)
(** The end of the process by a signal. The hook's message goes through the
    channel behind the jobs that are in it; the worker starts those jobs, flushes
    the trees and ends the process, whatever the other tasks do in between. What
    the worker still has to do is a list of operations, and each of its turns
    performs the next one. *)

From S2P Require Import Prelude Format ZkvmCommon Guest Job Http Effects Environment.
From S2P Require Import Runner Json Proxy Startup Concurrency Traces Completes Signals Process.

Open Scope pda_scope.
Local Open Scope list_scope.

Section Shutdown.
  Context `{Sp1Facts, Payload} {Ev : Env} {f : Faults} {L : EnvLaws f} `{!Launch}.
  Context (self : PdaRunner) (E : gmap string string) (target : Target) (socket : string) (fuel : nat).

#[local] Abbreviation store p := (view (world (pool p))).
#[local] Abbreviation step := (process_step self E target socket fuel).
#[local] Abbreviation runs := (process_run self E target socket fuel).

(** ** Events *)

(** All registrations succeed. *)
Definition all_registered (r : Registrations) : bool :=
  is_ok (reg_sigterm r) && is_ok (reg_sigint r) && is_ok (reg_sighup r) && is_ok (reg_ctrl_c r).

(** Once the hook [h] has fired, the event does not end the process from outside:
    turns, connections, and signals with a handler. *)
Definition harmless (h : Hook) (e : ProcessEvent) : bool :=
  match e with
  | Turn _ | Accept _ | HookStarts _ => true
  | Signalled s => bool_decide (s ∈ handled h)
  | _ => false
  end.

(** How often task [i] has its turn. *)
Fixpoint turns (i : nat) (events : list ProcessEvent) : nat :=
  match events with
  | [] => 0
  | Turn j :: events' => (if j =? i then 1 else 0) + turns i events'
  | _ :: events' => turns i events'
  end.

(** The operations that task [i] performs in the course of some events. *)
Definition performs (i : nat) (p : Process) (e : ProcessEvent) : list Op :=
  match ended p, e with
  | None, Turn j => if j =? i then (fun '(did o _) => o) <$> step_events (pool p) j else []
  | _, _ => []
  end.

Fixpoint performed (i : nat) (events : list ProcessEvent) (p : Process) : list Op :=
  match events with
  | [] => []
  | e :: events' => performs i p e ++ performed i events' (step p e)
  end.

(** The hook once it waits: on Linux every signal wakes it, elsewhere Ctrl+C. *)
Lemma registered_wakes r s :
  all_registered r = true -> target = Linux \/ s = SIGINT ->
  reaction (hook_starts target r new_hook) s = Wakes.
Proof.
  destruct r as [[] [] [] []]; try done. intros _ Hs.
  destruct target; [by destruct s|]. destruct Hs as [?| ->]; done.
Qed.

(** ** One event *)

(** The process is in its accept loop and goes on, its hook has fired, and its
    worker is [t]. *)
Record up (p : Process) (t : prog TaskResult) : Prop := {
  up_on : ended p = None;
  up_exit : exited (store p) = None;
  up_main : listening (pool p) = true;
  up_open : inbox_open (store p) = true;
  up_fired : is_fired (hook p) = true;
  up_worker : tasks (pool p) !! 1 = Some t;
}.

(** Each task was there, and had its turn or stayed as it was, or is new. *)
Definition follows (e : ProcessEvent) (p p' : Process) : Prop :=
  forall j u, tasks (pool p') !! j = Some u ->
    only calm_op u \/
    exists u0, tasks (pool p) !! j = Some u0 /\ (e = Turn j \/ u = u0) /\
      forall ok, only ok u0 -> only ok u.

Lemma only_serve_requests reqs : only calm_op (serve_requests socket reqs).
Proof.
  induction reqs as [|req reqs IH]; [done|]. cbn [serve_requests]. apply only_bind; [|done].
  apply only_handle_request; [|done]. intros o Ho. by apply prover_calm, request_prover.
Qed.

Lemma follows_same e p p' : tasks (pool p') = tasks (pool p) -> follows e p p'.
Proof. intros Ht j u Hu. right. exists u. rewrite <- Ht. auto. Qed.

Lemma follows_add e p p' t : only calm_op t -> tasks (pool p') = tasks (pool p) ++ [t] -> follows e p p'.
Proof.
  intros Hc Ht j u. rewrite Ht. intros [Hu|[_ Hu]]%lookup_app_Some; [right; exists u; auto|left].
  by apply list_lookup_singleton_Some in Hu as [_ <-].
Qed.

(** The end that the tasks brought about, while [main] is in its loop. *)
Lemma end_of_listening pl : listening pl = true -> exited (view (world pl)) = None -> end_of pl = None.
Proof. unfold listening, end_of. intros Hl ->. by destruct (tasks pl !! MAIN) as [[]|]. Qed.

Lemma listening_other pl pl' i t more :
  tasks pl' = <[i := t]> (tasks pl) ++ more -> i <> MAIN -> listening pl = true -> listening pl' = true.
Proof.
  unfold listening. intros -> Hi. destruct (tasks pl !! MAIN) as [u|] eqn:Hm; [|done].
  erewrite lookup_app_l_Some; [|by rewrite list_lookup_insert_ne]. done.
Qed.

(** A turn that performs an operation. *)
Lemma turn_step p t i o c :
  up p t -> tasks (pool p) !! i = Some (Vis o c) -> is_enabled o (store p) = true ->
  let x := snd (handle o (world (pool p))) in
  let p' := step p (Turn i) in
  tasks (pool p') = <[i := c x]> (tasks (pool p)) ++ spawned_task self o /\
  op_post f o (store p) (store p') x /\ listening (pool p') = true /\
  ended p' = end_of (pool p') /\ hook p' = hook p /\ follows (Turn i) p p' /\
  performs i p (Turn i) = [o].
Proof.
  intros Hup Hi Hen x p'. pose proof Hup as [He Hx Hm _ _ _].
  assert (i <> MAIN) as Hmain by (intros ->; unfold listening in Hm; by rewrite Hi in Hm).
  assert (tasks (pool p') = <[i := c x]> (tasks (pool p)) ++ spawned_task self o) as Ht.
  { unfold p', process_step. rewrite He. cbn. unfold pool_step. by rewrite Hx, Hi, Hen. }
  assert (store p' = view (fst (handle o (world (pool p))))) as Hs.
  { unfold p', process_step. rewrite He. cbn. unfold pool_step. by rewrite Hx, Hi, Hen. }
  split_and!; [done| |by eapply listening_other| | | |].
  - rewrite Hs. by apply handle_post, is_enabled_spec.
  - unfold p', process_step. by rewrite He.
  - unfold p', process_step. by rewrite He.
  - intros j u. rewrite Ht. intros [Hu|[_ Hu]]%lookup_app_Some.
    + right. apply list_lookup_insert_Some in Hu as [(<- & <- & _)|[_ Hu]]; [|exists u; auto].
      exists (Vis o c). split_and!; [done|by left|]. intros ok [_ Hk]. apply Hk.
    + left. destruct o; cbn [spawned_task] in Hu; try by rewrite lookup_nil in Hu.
      apply list_lookup_singleton_Some in Hu as [_ <-]. apply only_bind; [|done].
      eapply only_mono; [apply prover_calm|apply only_prove].
  - unfold performs, step_events. by rewrite He, Nat.eqb_refl, Hx, Hi, Hen.
Qed.

(** A turn that performs nothing. *)
Lemma idle_step p t i :
  up p t -> step_events (pool p) i = [] ->
  let p' := step p (Turn i) in
  up p' t /\ pool p' = pool p /\ hook p' = hook p /\ performs i p (Turn i) = [].
Proof.
  intros [He Hx Hm Ho Hf Hw] Hidle p'.
  assert (pool_step self (pool p) i = pool p) as Hpl.
  { unfold step_events in Hidle. unfold pool_step. rewrite Hx in *.
    destruct (tasks (pool p) !! i) as [[| |o c]|]; try done. by destruct (is_enabled o _). }
  assert (pool p' = pool p) as Hp by (unfold p', process_step; rewrite He; exact Hpl).
  assert (hook p' = hook p) as Hh by (unfold p', process_step; by rewrite He).
  split; [|split; [done|split; [done|]]].
  - split; rewrite ?Hp, ?Hh; try done. unfold p', process_step. rewrite He. cbn. rewrite Hpl.
    by apply end_of_listening.
  - unfold performs. by rewrite He, Nat.eqb_refl, Hidle.
Qed.

(** The turn of another task, which may send messages. *)
Lemma other_turn_step p t j :
  up p t -> j <> 1 -> (forall u, tasks (pool p) !! j = Some u -> only plain_op u) ->
  let p' := step p (Turn j) in
  up p' t /\ hook p' = hook p /\ follows (Turn j) p p' /\
  exists more, inbox (store p') = inbox (store p) ++ more /\
    (forall u, tasks (pool p) !! j = Some u -> only calm_op u -> None ∉ more) /\
    (forall m k, tasks (pool p) !! j = Some (Vis (ChanSend m) k) -> more = [m]).
Proof.
  intros Hup Hj Hplain p'. destruct (step_events (pool p) j) as [|ev rest] eqn:Hev.
  { destruct (idle_step p t j Hup Hev) as (Hup' & Hp & Hh & _). fold p' in Hup', Hp, Hh.
    split_and!; [done|done|by apply follows_same; rewrite Hp|]. exists []. rewrite Hp, app_nil_r.
    split_and!; [done|by intros _ _ _ ?%elem_of_nil|]. intros m k Hm.
    unfold step_events in Hev. by rewrite (up_exit _ _ Hup), Hm in Hev. }
  unfold step_events in Hev. rewrite (up_exit _ _ Hup) in Hev.
  destruct (tasks (pool p) !! j) as [[| |o c]|] eqn:Hi; try done.
  destruct (is_enabled o _) eqn:Hen; [|done].
  destruct (turn_step p t j o c Hup Hi Hen) as (Ht & Hp & Hm & He & Hh & Hfol & _).
  fold p' in Ht, Hp, Hm, He, Hh, Hfol. destruct (Hplain _ eq_refl) as [Ho _].
  destruct (plain_inbox f o _ _ _ Ho (up_open _ _ Hup) Hp) as [Hbox Hop].
  assert (exited (store p') = None) as Hx by (by rewrite (plain_exited _ _ _ _ Ho Hp); apply (up_exit _ _ Hup)).
  split_and!; [|done|done|].
  - split; [by rewrite He, end_of_listening|done|done|done|rewrite Hh; apply (up_fired _ _ Hup)|].
    rewrite Ht. apply lookup_app_l_Some. rewrite list_lookup_insert_ne by done. apply (up_worker _ _ Hup).
  - exists (sent o). split_and!; [done| |by intros m k [= -> _]].
    intros u [= <-] [Hc _] Hn. destruct o; try by apply elem_of_nil in Hn.
    apply list_elem_of_singleton in Hn as <-. done.
Qed.

(** Any harmless event but the worker's turn. *)
Lemma other_event p t e :
  up p t -> harmless (hook p) e = true -> e <> Turn 1 ->
  (forall j u, e = Turn j -> tasks (pool p) !! j = Some u -> only plain_op u) ->
  let p' := step p e in
  up p' t /\ hook p' = hook p /\ follows e p p' /\ performs 1 p e = [] /\
  exists more, inbox (store p') = inbox (store p) ++ more /\
    ((forall j u, e = Turn j -> tasks (pool p) !! j = Some u -> only calm_op u) -> None ∉ more).
Proof.
  intros Hup He Hne Hplain p'. pose proof Hup as [Hon Hx Hm Ho Hf Hw].
  assert (forall q, pool q = pool p -> hook q = hook p -> ended q = None ->
    up q t /\ hook q = hook p /\ follows e p q /\ exists more, inbox (store q) = inbox (store p) ++ more /\
      ((forall j u, e = Turn j -> tasks (pool p) !! j = Some u -> only calm_op u) -> None ∉ more)) as Hsame.
  { intros q Hq Hh Hon'. split_and!; [|done|by apply follows_same; rewrite Hq|].
    - split; rewrite ?Hq, ?Hh; done.
    - exists []. rewrite Hq, app_nil_r. split; [done|]. by intros _ ?%elem_of_nil. }
  destruct e as [j|tls|m|r|s| |n]; try done.
  - assert (j <> 1) as Hj by congruence.
    destruct (other_turn_step p t j Hup Hj) as (Hup' & Hh & Hfol & more & Hbox & Hcalm & _).
    { intros u Hu. by eapply Hplain. }
    split_and!; [done..| |].
    + unfold performs. rewrite Hon. by rewrite (proj2 (Nat.eqb_neq j 1) Hj).
    + exists more. split; [done|]. intros Hc. destruct (tasks (pool p) !! j) as [u|] eqn:Hu.
      * by apply (Hcalm u), (Hc j u).
      * destruct more as [|x more]; [by intros ?%elem_of_nil|].
        assert (pool_step self (pool p) j = pool p) as Hpl by (unfold pool_step; by rewrite Hx, Hu).
        exfalso. revert Hbox. unfold process_step. rewrite Hon. cbn. rewrite Hpl.
        intros Hl%(f_equal length). rewrite length_app in Hl. simpl in Hl. lia.
  - assert (p' = accept socket p (Ok tls)) as Hp' by (unfold p', process_step; by rewrite Hon).
    unfold accept in Hp'. rewrite Hm in Hp'. rewrite Hp'. split_and!; [|done| | |].
    + split; simpl; try done; [|by apply lookup_app_l_Some]. revert Hm. unfold listening. simpl.
      destruct (tasks (pool p) !! MAIN) as [u|] eqn:Hu; [|done]. by erewrite lookup_app_l_Some.
    + eapply follows_add; [|done]. destruct tls as [reqs|]; [apply only_serve_requests|done].
    + unfold performs. by rewrite Hon.
    + exists []. rewrite app_nil_r. split; [done|]. by intros _ ?%elem_of_nil.
  - assert (p' = hook_turn target p r) as Hp' by (unfold p', process_step; by rewrite Hon).
    unfold hook_turn in Hp'. rewrite Hf, andb_false_r in Hp'.
    destruct (Hsame p') as (? & ? & ? & ?); rewrite Hp'; try done.
    { unfold hook_starts. unfold is_fired in Hf. simpl. by destruct (hook_state (hook p)). }
    rewrite Hp' in *. split_and!; try done. unfold performs. by rewrite Hon.
  - assert (p' = p) as ->.
    { unfold p', process_step. rewrite Hon. cbn. unfold signalled, reaction. simpl in He. rewrite He.
      unfold is_fired in Hf. by destruct (hook_state (hook p)). }
    destruct (Hsame p) as (? & ? & ? & ?); try done. split_and!; try done. unfold performs. by rewrite Hon.
Qed.

(** ** What the worker still has to do *)

(** With these messages in the channel, the worker [t] performs the operations
    and ends the process. *)
Inductive due (box : list (option Job)) : prog TaskResult -> list Op -> Prop :=
| due_next n jobs more : box = (Some <$> jobs) ++ None :: more -> length jobs < n ->
    due box (worker_task n) ((jobs ≫= starts_op) ++ ending_ops)
| due_start n job jobs more : box = (Some <$> jobs) ++ None :: more -> length jobs < n ->
    due box (Vis (SpawnProve job) (fun _ => worker_task n))
      (SpawnProve job :: (jobs ≫= starts_op) ++ ending_ops)
| due_flush_queue : due box (op (SledFlush QueueDb) ;; op (SledFlush FinishedDb) ;; op (ProcessExit 0) ;; Ret Done)
    [SledFlush QueueDb; SledFlush FinishedDb; ProcessExit 0]
| due_flush_finished : due box (op (SledFlush FinishedDb) ;; op (ProcessExit 0) ;; Ret Done)
    [SledFlush FinishedDb; ProcessExit 0]
| due_exit : due box (op (ProcessExit 0) ;; Ret Done) [ProcessExit 0].

Lemma due_more box more t ops : due box t ops -> due (box ++ more) t ops.
Proof.
  intros [n jobs rest -> Hn|n job jobs rest -> Hn| | |]; try constructor.
  - eapply due_next; [|done]. by rewrite <- app_assoc.
  - eapply due_start; [|done]. by rewrite <- app_assoc.
Qed.

(** The worker's turn performs the first of them. *)
Lemma due_turn p t ops :
  up p t -> due (inbox (store p)) t ops ->
  let p' := step p (Turn 1) in
  hook p' = hook p /\ follows (Turn 1) p p' /\
  exists o rest, ops = o :: rest /\ performs 1 p (Turn 1) = [o] /\
    (rest = [] /\ ended p' = Some (ProcessExited 0) \/
     exists t', up p' t' /\ due (inbox (store p')) t' rest).
Proof.
  intros Hup Hdue p'.
  assert (forall o c, t = Vis o c -> is_enabled o (store p) = true ->
    let x := snd (handle o (world (pool p))) in
    op_post f o (store p) (store p') x /\ hook p' = hook p /\ follows (Turn 1) p p' /\
    performs 1 p (Turn 1) = [o] /\ ended p' = end_of (pool p') /\
    (exited (store p') = None -> inbox_open (store p') = true -> up p' (c x))) as Hturn.
  { intros o c -> Hen x.
    destruct (turn_step p _ 1 o c Hup (up_worker _ _ Hup) Hen) as (Ht & Hp & Hm & He & Hh & Hfol & Hperf).
    split_and!; try done. intros Hx Ho. split; [unfold p'; by rewrite He, end_of_listening|done..|
      unfold p'; rewrite Hh; apply (up_fired _ _ Hup)|].
    unfold p'. rewrite Ht. apply lookup_app_l_Some, list_lookup_insert_eq.
    eapply lookup_lt_Some, (up_worker _ _ Hup). }
  pose proof (up_exit _ _ Hup) as Hx0. pose proof (up_open _ _ Hup) as Ho0.
  inversion Hdue as [n jobs more Hbox Hn Ht Hops|n job jobs more Hbox Hn Ht Hops|Ht Hops|Ht Hops|Ht Hops];
    subst t ops.
  - destruct n as [|n]; [lia|].
    edestruct (Hturn ChanRecv) as (Hp & Hh & Hfol & Hperf & _ & Hup'); [done|simpl; rewrite Hbox; by destruct jobs|].
    destruct Hp as (m & rest & Hin & Hr & Hv). rewrite Hbox in Hin. rewrite Hr, Hv in Hup'.
    specialize (Hup' Hx0 Ho0). split_and!; try done.
    destruct jobs as [|job jobs]; injection Hin as <- <-.
    + exists ChanRecv, [SledFlush QueueDb; SledFlush FinishedDb; ProcessExit 0]. split_and!; try done.
      right. eexists. split; [exact Hup'|constructor].
    + exists ChanRecv, (SpawnProve job :: (jobs ≫= starts_op) ++ ending_ops). split_and!; try done.
      right. eexists. split; [exact Hup'|]. rewrite Hv. simpl in Hn. apply (due_start _ n job jobs more); [done|lia].
  - edestruct (Hturn (SpawnProve job)) as (Hv & Hh & Hfol & Hperf & _ & Hup'); [done..|].
    simpl in Hv. rewrite Hv in Hup'. specialize (Hup' Hx0 Ho0). split_and!; try done.
    eexists _, _. split_and!; [done..|]. right. eexists. split; [exact Hup'|].
    rewrite Hv. by eapply due_next.
  - edestruct (Hturn (SledFlush QueueDb)) as ([Hv _] & Hh & Hfol & Hperf & _ & Hup'); [done..|].
    rewrite Hv in Hup'. specialize (Hup' Hx0 Ho0). split_and!; try done.
    eexists _, _. split_and!; [done..|]. right. eexists. split; [exact Hup'|constructor].
  - edestruct (Hturn (SledFlush FinishedDb)) as ([Hv _] & Hh & Hfol & Hperf & _ & Hup'); [done..|].
    rewrite Hv in Hup'. specialize (Hup' Hx0 Ho0). split_and!; try done.
    eexists _, _. split_and!; [done..|]. right. eexists. split; [exact Hup'|constructor].
  - edestruct (Hturn (ProcessExit 0)) as (Hv & Hh & Hfol & Hperf & He & _); [done..|]. simpl in Hv.
    split_and!; try done. eexists _, _. split_and!; [done..|]. left. split; [done|].
    rewrite He. unfold end_of. by rewrite Hv.
Qed.

(** ** Many events *)

(** The tasks beside the worker take no message and start no task. *)
Definition others (ok : Op -> bool) (p : Process) : Prop :=
  forall j u, j <> 1 -> tasks (pool p) !! j = Some u -> only ok u.

Lemma others_follow p p' e : follows e p p' -> others plain_op p -> others plain_op p'.
Proof.
  intros Hf Hp j u Hj Hu. destruct (Hf j u Hu) as [Hc|(u0 & Hu0 & _ & Hk)]; [|by eapply Hk, Hp].
  eapply only_mono; [apply calm_plain|exact Hc].
Qed.

Lemma ended_stays events h p x :
  ended p = Some x -> forallb (harmless h) events = true ->
  ended (runs events p) = Some x /\ performed 1 events p = [].
Proof.
  revert p. induction events as [|e events IH]; intros p He; [done|].
  intros [Hh Hes]%andb_prop. assert (step p e = p) as Hs.
  { unfold process_step. rewrite He. by destruct e. }
  cbn [performed]. unfold performs. rewrite He, Hs. cbn. rewrite Hs. by apply IH.
Qed.

(** With enough turns the worker performs what is due, and the process ends. *)
Lemma drained events : forall p t ops,
  up p t -> due (inbox (store p)) t ops -> others plain_op p ->
  forallb (harmless (hook p)) events = true -> length ops <= turns 1 events ->
  ended (runs events p) = Some (ProcessExited 0) /\ performed 1 events p = ops.
Proof.
  induction events as [|e events IH]; intros p t ops Hup Hdue Hoth Hes Hn.
  { exfalso. simpl in Hn. by destruct Hdue as [? [] | | | |]; simpl in Hn; lia. }
  cbn [forallb] in Hes. apply andb_prop in Hes as [He Hes].
  assert ({e = Turn 1} + {e <> Turn 1}) as [->|Hne].
  { destruct e as [[|[|j]]| | | | | |]; try (by right); by left. }
  - destruct (due_turn p t ops Hup Hdue) as (Hh & Hfol & o & rest & -> & Hperf & Hend).
    cbn [performed]. rewrite Hperf. change (runs (Turn 1 :: events) p) with (runs events (step p (Turn 1))).
    destruct Hend as [[-> Hend]|(t' & Hup' & Hdue')].
    + destruct (ended_stays events (hook p) _ _ Hend Hes) as [-> ->]. done.
    + destruct (IH _ _ _ Hup' Hdue') as [-> ->]; [by eapply others_follow|by rewrite Hh| |done].
      simpl in Hn. lia.
  - destruct (other_event p t e Hup He Hne) as (Hup' & Hh & Hfol & Hperf & more & Hbox & _).
    { intros j u -> Hu. eapply Hoth; [|exact Hu]. congruence. }
    cbn [performed]. rewrite Hperf. change (runs (e :: events) p) with (runs events (step p e)).
    destruct (IH _ _ ops Hup') as [-> ->]; [rewrite Hbox; by apply due_more|by eapply others_follow|
      by rewrite Hh| |done].
    destruct e as [j| | | | | |]; try done. simpl in Hn. destruct (Nat.eqb_spec j 1); [congruence|done].
Qed.

(** Before the hook's turn: the worker goes through its loop, and nobody else
    sends a shutdown message. *)
Record waits (h n : nat) (p : Process) (t : prog TaskResult) : Prop := {
  waits_up : up p t;
  waits_at : at_worker n t;
  waits_inbox : None ∉ inbox (store p);
  waits_hook : tasks (pool p) !! h = Some shutdown_task;
  waits_others j u : j <> 1 -> j <> h -> tasks (pool p) !! j = Some u -> only calm_op u;
}.

Lemma others_waits h n p t : waits h n p t -> others plain_op p.
Proof.
  intros [_ _ _ Hh Ho] j u Hj Hu. destruct (decide (j = h)) as [->|Hne].
  - rewrite Hh in Hu. injection Hu as <-. unfold shutdown_task, shutdown. solve_only.
  - eapply only_mono; [apply calm_plain|by eapply Ho].
Qed.

Lemma waits_follow h n p p' t e :
  up p' t -> at_worker n t -> None ∉ inbox (store p') -> e <> Turn h -> h <> 1 ->
  follows e p p' -> tasks (pool p) !! h = Some shutdown_task -> tasks (pool p') !! h = tasks (pool p) !! h ->
  (forall j u, j <> 1 -> j <> h -> tasks (pool p) !! j = Some u -> only calm_op u) ->
  waits h n p' t.
Proof.
  intros Hup Hat Hin He Hh1 Hf Hh Hh' Ho. split; try done; [by rewrite Hh'|].
  intros j u Hj Hjh Hu. destruct (Hf j u Hu) as [Hc|(u0 & Hu0 & _ & Hk)]; [done|]. by eapply Hk, Ho.
Qed.

(** A step that is not the turn of task [h] leaves it as it is. *)
Lemma keeps_task p e h u :
  e <> Turn h -> ended p = None -> tasks (pool p) !! h = Some u -> tasks (pool (step p e)) !! h = Some u.
Proof.
  intros He Hon Hu. unfold process_step. rewrite Hon. destruct e as [j|tls|m|r|s| |n]; simpl; try done.
  - destruct (pool_step_cases self (pool p) j) as [->|(o & c & _ & _ & _ & ->)]; [done|].
    simpl. apply lookup_app_l_Some. rewrite list_lookup_insert_ne; [done|congruence].
  - unfold accept. destruct (listening _); [|done]. simpl. by apply lookup_app_l_Some.
  - unfold accept. by destruct (listening _).
  - unfold hook_turn. case_match; [|done]. simpl. by apply lookup_app_l_Some.
  - unfold signalled. case_match; [done|done|]. simpl. by apply lookup_app_l_Some.
Qed.

Lemma waits_event h n p t e :
  waits h n p t -> harmless (hook p) e = true -> e <> Turn h -> h <> 1 ->
  hook (step p e) = hook p /\ exists n' t', waits h n' (step p e) t' /\ n <= n' + turns 1 [e].
Proof.
  intros Hw He Hne Hh1. pose proof Hw as [Hup Hat Hin Hh Ho]. pose proof (others_waits _ _ _ _ Hw) as Hplain.
  pose proof (keeps_task p e h _ Hne (up_on _ _ Hup) Hh) as Hh'. rewrite <- Hh in Hh'.
  assert ({e = Turn 1} + {e <> Turn 1}) as [->|Hne1].
  { destruct e as [[|[|j]]| | | | | |]; try (by right); by left. }
  - destruct (step_events (pool p) 1) as [|ev rest] eqn:Hev.
    { destruct (idle_step p t 1 Hup Hev) as (Hup' & Hp & Hhk & _). split; [done|].
      exists n, t. split; [|simpl; lia].
      apply (waits_follow h n p _ t (Turn 1)); try done; [by rewrite Hp|by apply follows_same; rewrite Hp]. }
    unfold step_events in Hev. rewrite (up_exit _ _ Hup), (up_worker _ _ Hup) in Hev.
    assert (forall o c, t = Vis o c -> is_enabled o (store p) = true ->
      hook (step p (Turn 1)) = hook p /\
      op_post f o (store p) (store (step p (Turn 1))) (snd (handle o (world (pool p)))) /\
      (exited (store (step p (Turn 1))) = None -> inbox_open (store (step p (Turn 1))) = true ->
       forall n', at_worker n' (c (snd (handle o (world (pool p))))) ->
       None ∉ inbox (store (step p (Turn 1))) ->
       waits h n' (step p (Turn 1)) (c (snd (handle o (world (pool p))))))) as Hturn.
    { intros o c -> Hen.
      destruct (turn_step p _ 1 o c Hup (up_worker _ _ Hup) Hen) as (Htk & Hp & Hm & Hend & Hhk & Hfol & _).
      split_and!; [done..|]. intros Hx' Ho' n' Hat' Hin'. apply (waits_follow h n' p _ _ (Turn 1)); try done.
      split; [by rewrite Hend, end_of_listening|done..|rewrite Hhk; apply (up_fired _ _ Hup)|].
      rewrite Htk. apply lookup_app_l_Some, list_lookup_insert_eq. eapply lookup_lt_Some, (up_worker _ _ Hup). }
    pose proof (up_exit _ _ Hup) as Hx0. pose proof (up_open _ _ Hup) as Ho0.
    destruct Hat as [-> |[job ->]].
    + destruct n as [|n]; [done|]. destruct (is_enabled ChanRecv (store p)) eqn:Hen;
        [|cbn in Hev, Hen; by rewrite Hen in Hev].
      edestruct (Hturn ChanRecv) as (Hhk & Hp & Hw'); [done..|]. split; [done|].
      destruct Hp as (m & rest' & Hbox & Hr & Hv). rewrite Hr, Hv in Hw'.
      destruct m as [job|]; [|rewrite Hbox in Hin; by destruct Hin; left].
      exists n, (Vis (SpawnProve job) (fun _ => worker_task n)). split; [|simpl; lia].
      apply (Hw' Hx0 Ho0 n); [right; by exists job|]. simpl. intros ?. apply Hin. rewrite Hbox. by right.
    + edestruct (Hturn (SpawnProve job)) as (Hhk & Hp & Hw'); [done..|]. split; [done|].
      simpl in Hp. rewrite Hp in Hw'. exists n, (worker_task n). split; [|simpl; lia].
      apply (Hw' Hx0 Ho0 n); [by left|done].
  - destruct (other_event p t e Hup He Hne1) as (Hup' & Hhk & Hfol & _ & more & Hbox & Hcalm).
    { intros j u -> Hu. eapply Hplain; [|exact Hu]. congruence. }
    split; [done|]. exists n, t. split; [|lia]. eapply waits_follow; try done.
    rewrite Hbox. intros [?|Hn]%elem_of_app; [done|]. revert Hn. apply Hcalm.
    intros j u -> Hu. eapply Ho; [| |exact Hu]; congruence.
Qed.

Lemma waits_events h events : forall n p t,
  waits h n p t -> h <> 1 -> forallb (harmless (hook p)) events = true -> turns h events = 0 ->
  hook (runs events p) = hook p /\
  exists n' t', waits h n' (runs events p) t' /\ n <= n' + turns 1 events.
Proof.
  induction events as [|e events IH]; intros n p t Hw Hh Hes Ht.
  { split; [done|]. exists n, t. split; [done|simpl; lia]. }
  cbn [forallb] in Hes. apply andb_prop in Hes as [He Hes].
  assert (e <> Turn h) as Hne by (intros ->; simpl in Ht; by rewrite Nat.eqb_refl in Ht).
  destruct (waits_event h n p t e Hw He Hne Hh) as (Hhk & n1 & t1 & Hw1 & Hn1).
  destruct (IH n1 _ t1 Hw1 Hh) as (Hhk2 & n2 & t2 & Hw2 & Hn2).
  - by rewrite Hhk.
  - destruct e; simpl in Ht |- *; lia.
  - change (runs (e :: events) p) with (runs events (step p e)). split; [congruence|].
    exists n2, t2. split; [done|]. destruct e; simpl in Hn1 |- *; lia.
Qed.

(** ** The claim *)

(** The process serves; its worker, unrolled [n] times, is in its loop. *)
Record serves (n : nat) (p : Process) : Prop := {
  serves_on : ended p = None;
  serves_exit : exited (store p) = None;
  serves_main : listening (pool p) = true;
  serves_open : inbox_open (store p) = true;
  serves_inbox : None ∉ inbox (store p);
  serves_worker : exists t, tasks (pool p) !! 1 = Some t /\ at_worker n t;
  serves_others : others calm_op p;
}.

(** The job that a worker has taken and is about to start. *)
Definition in_hand (p : Process) : list Op :=
  match tasks (pool p) !! 1 with Some (Vis (SpawnProve job) _) => [SpawnProve job] | _ => [] end.

Lemma listening_length pl : listening pl = true -> 2 < length (tasks pl).
Proof. unfold listening. destruct (tasks pl !! MAIN) as [u|] eqn:Hm; [|done]. intros _. by apply lookup_lt_Some in Hm. Qed.

(** The signal wakes the hook, whose task goes on to [shutdown]. *)
Lemma serves_signal n p r s :
  hook p = hook_starts target r new_hook -> all_registered r = true -> target = Linux \/ s = SIGINT ->
  serves n p -> exists t, waits (length (tasks (pool p))) n (step p (Signalled s)) t.
Proof.
  intros Hh Hall Ht [Hon Hx Hm Ho Hin (t & Hw & Hat) Hoth].
  assert (step p (Signalled s) = shut_down p (fired (hook p))) as Hs.
  { unfold process_step. rewrite Hon. cbn. unfold signalled. by rewrite Hh, (registered_wakes r s Hall Ht), <- Hh. }
  exists t. rewrite Hs. split; simpl; try done.
  - split; simpl; try done; [|by apply lookup_app_l_Some]. revert Hm. unfold listening. simpl.
    destruct (tasks (pool p) !! MAIN) as [u|] eqn:Hu; [|done]. by erewrite lookup_app_l_Some.
  - rewrite lookup_app_r by done. by rewrite Nat.sub_diag.
  - intros j u Hj Hne [Hu|[Hlen Hu]]%lookup_app_Some; [by eapply Hoth|].
    apply list_lookup_singleton_Some in Hu as [Hz _]. lia.
Qed.

Lemma no_shutdown (box : list (option Job)) : None ∉ box -> exists jobs, box = Some <$> jobs.
Proof.
  induction box as [|[job|] box IH]; intros Hn; [by exists []| |by destruct Hn; left].
  destruct IH as [jobs ->]; [by intros ?; apply Hn; right|]. by exists (job :: jobs).
Qed.

(** The hook sends its message, and what the worker still has to do is settled. *)
Lemma waits_sends h n p t jobs :
  waits h n p t -> h <> 1 -> inbox (store p) = Some <$> jobs -> length jobs < n ->
  let p' := step p (Turn h) in
  hook p' = hook p /\ up p' t /\ others plain_op p' /\
  due (inbox (store p')) t (in_hand p ++ (jobs ≫= starts_op) ++ ending_ops).
Proof.
  intros Hw Hh Hbox Hn p'. pose proof Hw as [Hup Hat _ Hsd _]. pose proof (others_waits _ _ _ _ Hw) as Hplain.
  destruct (other_turn_step p t h Hup Hh) as (Hup' & Hhk & Hfol & more & Hbox' & _ & Hmore).
  { intros u Hu. by eapply Hplain. }
  specialize (Hmore None (fun x => bind (Ret tt) (fun _ => Ret Done)) Hsd) as ->. fold p' in Hup', Hhk, Hfol, Hbox'.
  split_and!; [done..|by eapply others_follow|]. rewrite Hbox', Hbox. unfold in_hand.
  rewrite (up_worker _ _ Hup). destruct Hat as [-> |[job ->]]; [|by eapply due_start].
  destruct n as [|n]; [lia|]. by eapply due_next.
Qed.

End Shutdown.
