(* ===== verification/SocketAddr.v ===== *)
(** Socket addresses. [main] reads two of them from its environment with the
    standard library's [SocketAddr::from_str], and writes the node's into every
    upstream URI with [Display]. Both are translated from [core::net]; what is
    written is read back as the same address. *)

From Stdlib Require Import Ascii.
From S2P Require Import Prelude Format.

Local Open Scope string_scope.

(** ** Addresses *)

(** The octets of an IPv4 address, and the 16-bit segments of an IPv6 address. *)
Record Ipv4Addr : Type := { octet1 : N; octet2 : N; octet3 : N; octet4 : N }.
Definition Ipv6Addr : Type := list N.

Inductive SocketAddr : Type :=
| SocketAddrV4 (ip : Ipv4Addr) (port : N)
| SocketAddrV6 (ip : Ipv6Addr) (port flowinfo scope_id : N).

(** ** The parser *)

(** A parser takes a prefix of its input, or fails and takes nothing. *)
Definition parser (A : Type) : Type := string -> option (A * string).

(** [char::to_digit]. *)
Definition char_to_digit (radix : N) (c : char) : option N :=
  match hex_value c with
  | Some d => if (d <? radix)%N then Some d else None
  | None => None
  end.

Definition read_given_char (target : char) : parser unit := fun s =>
  match s with
  | String c s' => if bool_decide (c = target) then Some (tt, s') else None
  | EmptyString => None
  end.

Definition read_separator {A} (sep : char) (index : nat) (inner : parser A) : parser A := fun s =>
  match index with
  | O => inner s
  | S _ => '(_, s) ← read_given_char sep s; inner s
  end.

(** The loop of [read_number]: the value and the number of the digits. With a
    bound on the digits the value fits; without, it is checked at every digit. *)
Fixpoint number_loop (radix : N) (max_digits : option nat) (limit value : N) (count : nat)
    (s : string) : option (N * nat * string) :=
  match s with
  | EmptyString => Some (value, count, s)
  | String c s' =>
      match char_to_digit radix c with
      | None => Some (value, count, s)
      | Some digit =>
          match max_digits with
          | Some m =>
              if (m <? S count)%nat then None
              else number_loop radix max_digits limit (value * radix + digit) (S count) s'
          | None =>
              if (value * radix <? limit)%N && (value * radix + digit <? limit)%N
              then number_loop radix max_digits limit (value * radix + digit) (S count) s'
              else None
          end
      end
  end.

Definition starts_with_zero (s : string) : bool :=
  match s with String c _ => bool_decide (c = "0"%char) | EmptyString => false end.

(** [read_number] of a number below [limit]. *)
Definition read_number (radix : N) (max_digits : option nat) (allow_zero_prefix : bool) (limit : N)
    : parser N := fun s =>
  '(value, count, rest) ← number_loop radix max_digits limit 0 0 s;
  if (count =? 0)%nat then None
  else if negb allow_zero_prefix && starts_with_zero s && (1 <? count)%nat then None
  else if (value <? limit)%N then Some (value, rest) else None.

Definition u8_end : N := 256.
Definition u16_end : N := 65536.
Definition u32_end : N := 4294967296.

Definition read_octet (index : nat) : parser N :=
  read_separator "." index (read_number 10 (Some 3) false u8_end).

Definition read_ipv4_addr : parser Ipv4Addr := fun s =>
  '(a, s) ← read_octet 0 s;
  '(b, s) ← read_octet 1 s;
  '(c, s) ← read_octet 2 s;
  '(d, s) ← read_octet 3 s;
  Some ({| octet1 := a; octet2 := b; octet3 := c; octet4 := d |}, s).

(** The two segments of an embedded IPv4 address. *)
Definition ipv4_groups (v4 : Ipv4Addr) : list N :=
  [octet1 v4 * 256 + octet2 v4; octet3 v4 * 256 + octet4 v4]%N.

(** [read_groups] from slot [i] on, with [todo] slots left: the groups it reads,
    and whether the last two are an IPv4 address. *)
Fixpoint read_groups (todo i : nat) (s : string) : list N * bool * string :=
  match todo with
  | O => ([], false, s)
  | S todo' =>
      match (if (0 <? todo')%nat then read_separator ":" i read_ipv4_addr s else None) with
      | Some (v4, s) => (ipv4_groups v4, true, s)
      | None =>
          match read_separator ":" i (read_number 16 (Some 4) true u16_end) s with
          | Some (group, s) =>
              let '(groups, ipv4, s) := read_groups todo' (S i) s in (group :: groups, ipv4, s)
          | None => ([], false, s)
          end
      end
  end.

Definition read_ipv6_addr : parser Ipv6Addr := fun s =>
  let '(head, head_ipv4, s) := read_groups 8 0 s in
  if (length head =? 8)%nat then Some (head, s)
  else if head_ipv4 then None
  else
    '(_, s) ← read_given_char ":" s;
    '(_, s) ← read_given_char ":" s;
    let limit := 8 - (length head + 1) in
    let '(tail, _, s) := read_groups limit 0 s in
    Some ((head ++ replicate (8 - length tail - length head) 0%N ++ tail)%list, s).

Definition read_port : parser N := fun s =>
  '(_, s) ← read_given_char ":" s; read_number 10 None true u16_end s.

Definition read_scope_id : parser N := fun s =>
  '(_, s) ← read_given_char "%" s; read_number 10 None true u32_end s.

Definition read_socket_addr_v4 : parser SocketAddr := fun s =>
  '(ip, s) ← read_ipv4_addr s;
  '(port, s) ← read_port s;
  Some (SocketAddrV4 ip port, s).

Definition read_socket_addr_v6 : parser SocketAddr := fun s =>
  '(_, s) ← read_given_char "[" s;
  '(ip, s) ← read_ipv6_addr s;
  let (scope_id, s) := match read_scope_id s with Some r => r | None => (0%N, s) end in
  '(_, s) ← read_given_char "]" s;
  '(port, s) ← read_port s;
  Some (SocketAddrV6 ip port 0 scope_id, s).

Definition read_socket_addr : parser SocketAddr := fun s =>
  match read_socket_addr_v4 s with Some r => Some r | None => read_socket_addr_v6 s end.

(** [SocketAddr::from_str]: the whole text; the error is its [Debug] text. *)
Definition socket_parse (s : string) : result SocketAddr string :=
  match read_socket_addr s with
  | Some (addr, EmptyString) => Ok addr
  | _ => Err "AddrParseError(Socket)"
  end.

(** ** [Display] *)

(** The digits of [n], most significant first, at most [fuel] of them. *)
Fixpoint digits (fuel : nat) (radix n : N) (acc : list N) : list N :=
  match fuel with
  | O => acc
  | S fuel' =>
      let acc := (n mod radix)%N :: acc in
      if (n / radix =? 0)%N then acc else digits fuel' radix (n / radix) acc
  end.

Definition digits_text (ds : list N) : string := String.string_of_list_ascii (hex_digit <$> ds).

(** [{}] and [{:x}] of a number of the given most digits. *)
Definition fmt_dec (most : nat) (n : N) : string := digits_text (digits most 10 n []).
Definition fmt_hex (most : nat) (n : N) : string := digits_text (digits most 16 n []).

Definition Ipv4Addr_fmt (ip : Ipv4Addr) : string :=
  fmt_dec 3 (octet1 ip) +:+ "." +:+ fmt_dec 3 (octet2 ip) +:+ "." +:+
  fmt_dec 3 (octet3 ip) +:+ "." +:+ fmt_dec 3 (octet4 ip).

(** [to_ipv4_mapped]. *)
Definition to_ipv4_mapped (ip : Ipv6Addr) : option Ipv4Addr :=
  match ip with
  | [0; 0; 0; 0; 0; 65535; ab; cd]%N =>
      Some {| octet1 := ab / 256; octet2 := ab mod 256; octet3 := cd / 256; octet4 := cd mod 256 |}%N
  | _ => None
  end.

(** The longest run of zero segments, the first of them: start and length. *)
Fixpoint longest_zeros (segments : list N) (i : nat) (current longest : nat * nat) : nat * nat :=
  match segments with
  | [] => longest
  | segment :: segments' =>
      if (segment =? 0)%N then
        let current := (if (snd current =? 0)%nat then i else fst current, S (snd current)) in
        longest_zeros segments' (S i) current
          (if (snd longest <? snd current)%nat then current else longest)
      else longest_zeros segments' (S i) (0, 0) longest
  end.

(** [fmt_subslice]. *)
Fixpoint groups_text (i : nat) (chunk : list N) : string :=
  match chunk with
  | [] => ""
  | group :: chunk' =>
      (if (i =? 0)%nat then "" else ":") +:+ fmt_hex 4 group +:+ groups_text (S i) chunk'
  end.

Definition Ipv6Addr_fmt (ip : Ipv6Addr) : string :=
  match to_ipv4_mapped ip with
  | Some ipv4 => "::ffff:" +:+ Ipv4Addr_fmt ipv4
  | None =>
      let (start, len) := longest_zeros ip 0 (0, 0) (0, 0) in
      if (1 <? len)%nat
      then groups_text 0 (take start ip) +:+ "::" +:+ groups_text 0 (drop (start + len) ip)
      else groups_text 0 ip
  end.

Definition socket_display (addr : SocketAddr) : string :=
  match addr with
  | SocketAddrV4 ip port => Ipv4Addr_fmt ip +:+ ":" +:+ fmt_dec 5 port
  | SocketAddrV6 ip port _ scope_id =>
      if (scope_id =? 0)%N
      then "[" +:+ Ipv6Addr_fmt ip +:+ "]:" +:+ fmt_dec 5 port
      else "[" +:+ Ipv6Addr_fmt ip +:+ "%" +:+ fmt_dec 10 scope_id +:+ "]:" +:+ fmt_dec 5 port
  end.

(** The widths of the parts. *)
Definition ipv4_ok (ip : Ipv4Addr) : Prop :=
  (octet1 ip < u8_end /\ octet2 ip < u8_end /\ octet3 ip < u8_end /\ octet4 ip < u8_end)%N.

Definition socket_ok (addr : SocketAddr) : Prop :=
  match addr with
  | SocketAddrV4 ip port => ipv4_ok ip /\ (port < u16_end)%N
  | SocketAddrV6 ip port flowinfo scope_id =>
      length ip = 8 /\ Forall (fun g => (g < u16_end)%N) ip /\ (port < u16_end)%N /\
      (flowinfo < u32_end)%N /\ (scope_id < u32_end)%N
  end.

Example v4_text : socket_parse "127.0.0.1:26658" =
  Ok (SocketAddrV4 {| octet1 := 127; octet2 := 0; octet3 := 0; octet4 := 1 |} 26658).
Proof. reflexivity. Qed.
Example v6_text : socket_parse "[2001:db8::1%3]:443" =
  Ok (SocketAddrV6 [8193; 3512; 0; 0; 0; 0; 0; 1]%N 443 0 3).
Proof. reflexivity. Qed.
Example v6_display : socket_display (SocketAddrV6 [8193; 3512; 0; 0; 0; 0; 0; 1]%N 443 0 3) = "[2001:db8::1%3]:443".
Proof. reflexivity. Qed.
Example octal_refused : is_ok (socket_parse "127.0.0.01:80") = false.
Proof. reflexivity. Qed.
Example name_refused : is_ok (socket_parse "localhost:80") = false.
Proof. reflexivity. Qed.
Example port_refused : is_ok (socket_parse "127.0.0.1:65536") = false.
Proof. reflexivity. Qed.
Example mapped_display : socket_display (SocketAddrV6 [0; 0; 0; 0; 0; 65535; 32512; 1]%N 80 0 0) = "[::ffff:127.0.0.1]:80".
Proof. reflexivity. Qed.

(** ** Numbers are read back *)

(** [s] goes on with no digit of the radix. *)
Definition ends_number (radix : N) (s : string) : Prop :=
  match s with EmptyString => True | String c _ => char_to_digit radix c = None end.

Lemma hex_digit_hex_value d : (d < 16)%N -> hex_value (hex_digit d) = Some d.
Proof.
  intros Hd. assert (exists n : nat, d = N.of_nat n /\ n < 16) as (n & -> & Hn) by (exists (N.to_nat d); lia).
  do 16 (destruct n as [|n]; [done|]). lia.
Qed.

Lemma digit_read radix d : (d < radix <= 16)%N -> char_to_digit radix (hex_digit d) = Some d.
Proof.
  intros [Hd Hr]. unfold char_to_digit. rewrite hex_digit_hex_value by lia.
  by apply N.ltb_lt in Hd as ->.
Qed.

Lemma digits_text_cons d ds rest :
  digits_text (d :: ds) +:+ rest = String (hex_digit d) (digits_text ds +:+ rest).
Proof. done. Qed.

Definition value_of (radix : N) (ds : list N) (start : N) : N :=
  foldl (fun v d => v * radix + d)%N start ds.

Lemma value_of_mono radix ds v : (0 < radix)%N -> (v <= value_of radix ds v)%N.
Proof.
  intros Hr. revert v. induction ds as [|d ds IH]; intros v; simpl; [lia|].
  etrans; [|apply IH]. nia.
Qed.

(** The loop reads the digits that were written. *)
Lemma number_loop_digits radix max limit ds rest : forall v count,
  (1 < radix <= 16)%N -> Forall (fun d => d < radix)%N ds -> ends_number radix rest ->
  match max with
  | Some m => count + length ds <= m
  | None => (value_of radix ds v < limit)%N
  end ->
  number_loop radix max limit v count (digits_text ds +:+ rest) =
    Some (value_of radix ds v, count + length ds, rest).
Proof.
  induction ds as [|d ds IH]; intros v count Hr Hds Hend Hmax.
  - rewrite Nat.add_0_r. change (digits_text [] +:+ rest) with rest.
    destruct rest as [|c rest]; [done|]. simpl in *. by rewrite Hend.
  - apply Forall_cons in Hds as [Hd Hds]. rewrite digits_text_cons. cbn [number_loop].
    rewrite digit_read by lia. simpl in Hmax. destruct max as [m|].
    + assert ((m <? S count)%nat = false) as -> by (apply Nat.ltb_ge; lia).
      rewrite IH by (done || lia). simpl. do 2 f_equal. f_equal. lia.
    + pose proof (value_of_mono radix ds (v * radix + d)).
      assert ((v * radix <? limit)%N && (v * radix + d <? limit)%N = true) as ->.
      { apply andb_true_iff. rewrite !N.ltb_lt. change (value_of radix (d :: ds) v)
          with (value_of radix ds (v * radix + d)) in Hmax. lia. }
      rewrite IH by (done || lia). simpl. do 2 f_equal. f_equal. lia.
Qed.

Section Digits.
  Context (radix : N) (Hradix : (1 < radix <= 16)%N).

Lemma digits_value fuel n acc :
  (n < radix ^ N.of_nat fuel)%N -> value_of radix (digits fuel radix n acc) 0 = value_of radix acc n.
Proof.
  revert n acc. induction fuel as [|fuel IH]; intros n acc Hn; simpl.
  - assert (n = 0)%N as -> by (simpl in Hn; lia). done.
  - pose proof (N.div_mod n radix ltac:(lia)) as Hdm.
    destruct (n / radix =? 0)%N eqn:Hz.
    + apply N.eqb_eq in Hz. rewrite Hz in Hdm. unfold value_of. simpl. f_equal. lia.
    + rewrite IH.
      * unfold value_of. simpl. f_equal. lia.
      * rewrite Nat2N.inj_succ, N.pow_succ_r' in Hn. apply N.Div0.div_lt_upper_bound. lia.
Qed.

Lemma digits_small fuel n acc :
  Forall (fun d => d < radix)%N acc -> Forall (fun d => d < radix)%N (digits fuel radix n acc).
Proof.
  revert n acc. induction fuel as [|fuel IH]; intros n acc Hacc; simpl; [done|].
  assert (Forall (fun d => d < radix)%N ((n mod radix)%N :: acc)) as Hacc'
    by (constructor; [apply N.mod_lt; lia|done]).
  case_match; [done|by apply IH].
Qed.

Lemma digits_length fuel n acc : length (digits fuel radix n acc) <= fuel + length acc.
Proof.
  revert n acc. induction fuel as [|fuel IH]; intros n acc; simpl; [lia|].
  case_match; simpl; [lia|]. etrans; [apply IH|]. simpl. lia.
Qed.

(** No superfluous zero. *)
Lemma digits_head fuel n acc :
  0 < fuel -> (n < radix ^ N.of_nat fuel)%N ->
  exists d ds, digits fuel radix n acc = d :: ds /\ (d = 0%N -> n = 0%N /\ ds = acc).
Proof.
  revert n acc. induction fuel as [|fuel IH]; intros n acc Hf Hn; [lia|]. simpl.
  pose proof (N.div_mod n radix ltac:(lia)) as Hdm.
  rewrite Nat2N.inj_succ, N.pow_succ_r' in Hn.
  destruct (n / radix =? 0)%N eqn:Hz.
  - apply N.eqb_eq in Hz. do 2 eexists. split; [done|]. intros Hd. split; [|done].
    rewrite Hz, Hd in Hdm. lia.
  - apply N.eqb_neq in Hz. assert (n / radix < radix ^ N.of_nat fuel)%N as Hq
      by (apply N.Div0.div_lt_upper_bound; lia).
    destruct fuel as [|fuel]; [change (radix ^ N.of_nat 0)%N with 1%N in Hq; by apply N.lt_1_r in Hq|].
    destruct (IH (n / radix)%N ((n mod radix)%N :: acc) ltac:(lia) Hq) as (d & ds & -> & Hd).
    exists d, ds. split; [done|]. intros Hd0. by destruct (Hd Hd0).
Qed.

(** A number that was written with at most [most] digits. *)
Lemma read_number_text max zero_prefix limit most n rest :
  (n < radix ^ N.of_nat most)%N -> 0 < most -> (n < limit)%N -> ends_number radix rest ->
  match max with Some m => most <= m | None => True end ->
  read_number radix max zero_prefix limit (digits_text (digits most radix n []) +:+ rest) = Some (n, rest).
Proof.
  intros Hn Hm Hl Hend Hmax. unfold read_number.
  pose proof (digits_length most n []) as Hlen. simpl in Hlen. rewrite Nat.add_0_r in Hlen.
  pose proof (digits_value most n [] Hn) as Hv. change (value_of radix [] n) with n in Hv.
  rewrite number_loop_digits; [|done|by apply digits_small|done|destruct max; [simpl; lia|by rewrite Hv]].
  rewrite Hv. simpl.
  destruct (digits_head most n [] Hm Hn) as (d & ds & Hds & Hd). rewrite Hds. simpl.
  assert (negb zero_prefix && bool_decide (hex_digit d = "0"%char) && (1 <? S (length ds))%nat = false) as ->.
  { case_bool_decide as H0; [|by rewrite andb_false_r].
    pose proof (digits_small most n [] (Forall_nil_2 _)) as Hs. rewrite Hds in Hs.
    apply Forall_cons in Hs as [Hs _]. pose proof (hex_digit_hex_value d ltac:(lia)) as Hh.
    rewrite H0 in Hh. injection Hh as <-. destruct (Hd eq_refl) as [_ ->]. by rewrite andb_false_r. }
  by apply N.ltb_lt in Hl as ->.
Qed.
End Digits.

(** ** Addresses are read back *)

Lemma string_app_assoc (s1 s2 s3 : string) : (s1 +:+ s2) +:+ s3 = s1 +:+ (s2 +:+ s3).
Proof. induction s1 as [|c s1 IH]; [done|]. by apply (f_equal (String c)). Qed.

Lemma dec_radix : (1 < 10 <= 16)%N.
Proof. lia. Qed.

Lemma hex_radix : (1 < 16 <= 16)%N.
Proof. lia. Qed.

Lemma read_octet_number a rest :
  (a < u8_end)%N -> ends_number 10 rest ->
  read_number 10 (Some 3) false u8_end (fmt_dec 3 a +:+ rest) = Some (a, rest).
Proof.
  intros Ha Hr. apply (read_number_text 10 dec_radix (Some 3) false u8_end 3); [|lia|done|done|lia].
  unfold u8_end in Ha. change (10 ^ N.of_nat 3)%N with 1000%N. lia.
Qed.

Lemma read_octet_next a index rest :
  (a < u8_end)%N -> ends_number 10 rest ->
  read_octet (S index) ("." +:+ fmt_dec 3 a +:+ rest) = Some (a, rest).
Proof. apply read_octet_number. Qed.

Lemma read_ipv4_text ip rest :
  ipv4_ok ip -> ends_number 10 rest -> read_ipv4_addr (Ipv4Addr_fmt ip +:+ rest) = Some (ip, rest).
Proof.
  intros (Ha & Hb & Hc & Hd) Hr. unfold read_ipv4_addr, Ipv4Addr_fmt. rewrite !string_app_assoc.
  change (read_octet 0) with (read_number 10 (Some 3) false u8_end). rewrite read_octet_number by done. cbn [mbind option_bind].
  rewrite read_octet_next by done. cbn [mbind option_bind].
  rewrite read_octet_next by done. cbn [mbind option_bind].
  rewrite read_octet_next by done. by destruct ip.
Qed.

(** What is left after the digits. *)
Fixpoint skip_digits (radix : N) (s : string) : string :=
  match s with
  | String c s' => match char_to_digit radix c with Some _ => skip_digits radix s' | None => s end
  | EmptyString => s
  end.

Lemma number_loop_rest radix max limit s : forall v count v' count' r,
  number_loop radix max limit v count s = Some (v', count', r) -> r = skip_digits radix s.
Proof.
  induction s as [|c s IH]; intros v count v' count' r; simpl; [by intros [= _ _ <-]|].
  destruct (char_to_digit radix c); [|by intros [= _ _ <-]].
  destruct max; case_match; try done; apply IH.
Qed.

Lemma read_number_rest radix max z limit s n r :
  read_number radix max z limit s = Some (n, r) -> r = skip_digits radix s.
Proof.
  unfold read_number. destruct (number_loop _ _ _ _ _ s) as [[[v count] r']|] eqn:Hl; [|done]. simpl.
  repeat case_match; try done. intros [= _ <-]. by eapply number_loop_rest.
Qed.

(** No IPv4 address starts where no dot follows the digits. *)
Definition no_dot (s : string) : Prop :=
  match s with String c _ => c <> "."%char | EmptyString => True end.

Lemma no_octet index s : no_dot s -> read_octet (S index) s = None.
Proof.
  intros Hs. unfold read_octet, read_separator, read_given_char. destruct s as [|c s']; [done|].
  simpl in Hs. by rewrite bool_decide_eq_false_2.
Qed.

Lemma no_ipv4 s : no_dot (skip_digits 10 s) -> read_ipv4_addr s = None.
Proof.
  intros Hs. unfold read_ipv4_addr. change (read_octet 0) with (read_number 10 (Some 3) false u8_end).
  destruct (read_number 10 (Some 3) false u8_end s) as [[a r]|] eqn:Hr; [|done].
  apply read_number_rest in Hr as ->. cbn [mbind option_bind]. by rewrite no_octet.
Qed.

(** A group may end here. *)
Record after_group (rest : string) : Prop := {
  after_hex : ends_number 16 rest;
  after_dec : no_dot (skip_digits 10 rest);
}.

Lemma no_ipv4_digits ds rest :
  Forall (fun d => d < 16)%N ds -> after_group rest -> no_dot (skip_digits 10 (digits_text ds +:+ rest)).
Proof.
  intros Hds [_ Hr]. induction ds as [|d ds IH]; [done|]. apply Forall_cons in Hds as [Hd Hds].
  rewrite digits_text_cons. cbn [skip_digits]. unfold char_to_digit. rewrite hex_digit_hex_value by done.
  destruct (d <? 10)%N; [by apply IH|]. simpl. intros Hdot.
  pose proof (hex_digit_hex_value d Hd) as Hv. by rewrite Hdot in Hv.
Qed.

(** No more groups are read here. *)
Definition closed (rest : string) : Prop :=
  forall todo i, read_groups todo i rest = ([], false, rest).

Lemma read_groups_text groups rest : forall todo i,
  Forall (fun g => g < u16_end)%N groups -> length groups <= todo -> after_group rest ->
  todo = length groups \/ closed rest ->
  read_groups todo i (groups_text i groups +:+ rest) = (groups, false, rest).
Proof.
  induction groups as [|g groups IH]; intros todo i Hg Hl Hr Hc.
  { change (groups_text i [] +:+ rest) with rest. destruct Hc as [-> |Hc]; [done|apply Hc]. }
  apply Forall_cons in Hg as [Hg Hgs]. simpl in Hl. destruct todo as [|todo]; [lia|].
  assert (after_group (groups_text (S i) groups +:+ rest)) as Ha.
  { destruct groups as [|g' groups]; [done|]. by split. }
  set (more := groups_text (S i) groups +:+ rest) in *.
  assert (read_number 16 (Some 4) true u16_end (fmt_hex 4 g +:+ more) = Some (g, more)) as Hn.
  { apply read_number_text; [exact hex_radix|exact Hg|lia|exact Hg|apply Ha|done]. }
  assert (read_ipv4_addr (fmt_hex 4 g +:+ more) = None) as H4.
  { apply no_ipv4, no_ipv4_digits; [|done]. by apply (digits_small _ hex_radix). }
  assert (read_groups todo (S i) more = (groups, false, rest)) as IH'.
  { apply IH; [done|lia|done|]. destruct Hc as [Hc|Hc]; [left; simpl in Hc; lia|by right]. }
  cbn [read_groups groups_text]. rewrite !string_app_assoc. fold more.
  destruct i as [|i]; simpl.
  - change ("" +:+ (fmt_hex 4 g +:+ more)) with (fmt_hex 4 g +:+ more).
    rewrite H4, Hn. destruct (0 <? todo)%nat; by rewrite IH'.
  - unfold read_separator, read_given_char. simpl.
    change ("" +:+ (fmt_hex 4 g +:+ more)) with (fmt_hex 4 g +:+ more).
    rewrite H4, Hn. destruct (0 <? todo)%nat; by rewrite IH'.
Qed.

(** A run of zeros of the list. *)
Definition zeros_at (l : list N) (run : nat * nat) : Prop :=
  fst run + snd run <= length l /\ forall j, fst run <= j < fst run + snd run -> l !! j = Some 0%N.

Lemma longest_zeros_at l segs : forall pre current longest,
  l = (pre ++ segs)%list -> zeros_at l longest ->
  (snd current = 0 \/ zeros_at l current /\ fst current + snd current = length pre) ->
  zeros_at l (longest_zeros segs (length pre) current longest).
Proof.
  induction segs as [|g segs IH]; intros pre current longest Hl Hlong Hcur; [done|].
  assert (l = ((pre ++ [g]) ++ segs)%list) as Hl' by (by rewrite <- app_assoc).
  assert (length (pre ++ [g]) = S (length pre)) as Hlen by (rewrite length_app; simpl; lia).
  cbn [longest_zeros]. rewrite <- Hlen. destruct (g =? 0)%N eqn:Hg.
  - apply N.eqb_eq in Hg as ->.
    set (cur := (if (snd current =? 0)%nat then length pre else fst current, S (snd current))).
    assert (zeros_at l cur /\ fst cur + snd cur = length (pre ++ [0%N])) as [Hz He].
    { assert (l !! length pre = Some 0%N) as Hp by (rewrite Hl; apply list_lookup_middle; done).
      assert (length pre < length l) by (by eapply lookup_lt_Some).
      unfold cur, zeros_at. cbn [fst snd]. destruct (snd current =? 0)%nat eqn:Hc.
      - apply Nat.eqb_eq in Hc as ->. split; [|lia]. split; [lia|].
        intros j Hj. by replace j with (length pre) by lia.
      - apply Nat.eqb_neq in Hc. destruct Hcur as [?|[[_ Hz] Hcur]]; [done|]. split; [|lia]. split; [lia|].
        intros j Hj. destruct (decide (j = length pre)) as [->|]; [done|]. apply Hz. lia. }
    apply IH; [done|by case_match|by right].
  - apply IH; [done|done|by left].
Qed.

Lemma zeros_split l start len :
  zeros_at l (start, len) -> l = (take start l ++ replicate len 0%N ++ drop (start + len) l)%list.
Proof.
  intros [Hl Hz]. simpl in *. rewrite <- (take_drop start l) at 1. f_equal.
  rewrite <- (take_drop len (drop start l)), drop_drop. f_equal.
  symmetry. apply replicate_as_elem_of. split.
  - rewrite length_take, length_drop. lia.
  - intros x (j & Hx)%list_elem_of_lookup. pose proof (lookup_lt_Some _ _ _ Hx) as Hj.
    rewrite length_take in Hj. rewrite lookup_take_lt, lookup_drop in Hx by lia. 
    rewrite Hz in Hx by lia. by injection Hx.
Qed.

(** What follows an IPv6 address. *)
Definition closes (rest : string) : Prop :=
  exists c r, rest = String c r /\ (c = "]"%char \/ c = "%"%char).

Lemma closes_after rest : closes rest -> after_group rest.
Proof. by intros (c & r & -> & [-> | ->]). Qed.

Lemma closes_closed rest : closes rest -> closed rest.
Proof.
  intros (c & r & -> & Hc) todo i. destruct todo as [|[|todo]]; [done| |];
    destruct i; by destruct Hc as [-> | ->].
Qed.

Lemma colons_after r : after_group ("::" +:+ r).
Proof. done. Qed.

Lemma colons_closed r : closed ("::" +:+ r).
Proof. intros todo i. destruct todo as [|[|todo]]; [done| |]; by destruct i. Qed.

(** The compressed form: what stands before and after the zeros. *)
Lemma read_compressed head tail rest :
  Forall (fun g => g < u16_end)%N head -> Forall (fun g => g < u16_end)%N tail ->
  length head + length tail < 7 -> closes rest ->
  read_ipv6_addr (groups_text 0 head +:+ "::" +:+ groups_text 0 tail +:+ rest) =
    Some ((head ++ replicate (8 - length tail - length head) 0%N ++ tail)%list, rest).
Proof.
  intros Hh Ht Hl Hr. unfold read_ipv6_addr.
  rewrite (read_groups_text head ("::" +:+ groups_text 0 tail +:+ rest) 8 0);
    [|done|lia|apply colons_after|right; apply colons_closed].
  destruct (length head =? 8)%nat eqn:H8; [apply Nat.eqb_eq in H8; lia|].
  change ("::" +:+ groups_text 0 tail +:+ rest) with
    (String ":" (String ":" (groups_text 0 tail +:+ rest))). simpl.
  rewrite (read_groups_text tail rest); [done|done|lia|by apply closes_after|right; by apply closes_closed].
Qed.

Lemma read_groups_S todo i s :
  read_groups (S todo) i s =
    match (if (0 <? todo)%nat then read_separator ":" i read_ipv4_addr s else None) with
    | Some (v4, s) => (ipv4_groups v4, true, s)
    | None =>
        match read_separator ":" i (read_number 16 (Some 4) true u16_end) s with
        | Some (group, s) =>
            let '(groups, ipv4, s) := read_groups todo (S i) s in (group :: groups, ipv4, s)
        | None => ([], false, s)
        end
    end.
Proof. done. Qed.

Lemma read_after_colons s :
  read_ipv6_addr ("::" +:+ s) =
    let '(tail, _, s) := read_groups 7 0 s in Some ((replicate (8 - length tail - 0) 0%N ++ tail)%list, s).
Proof. unfold read_ipv6_addr. by rewrite (colons_closed s 8 0). Qed.

Lemma read_mapped ip rest :
  ipv4_ok ip -> closes rest ->
  read_ipv6_addr ("::ffff:" +:+ Ipv4Addr_fmt ip +:+ rest) =
    Some ([0; 0; 0; 0; 0; 65535]%N ++ ipv4_groups ip, rest)%list.
Proof.
  intros Hip Hr. assert (ends_number 10 rest) as He by (by destruct Hr as (c & r & -> & [-> | ->])).
  pose proof (read_ipv4_text ip rest Hip He) as H4.
  change ("::ffff:" +:+ Ipv4Addr_fmt ip +:+ rest) with ("::" +:+ ("ffff:" +:+ (Ipv4Addr_fmt ip +:+ rest))).
  rewrite read_after_colons. remember (Ipv4Addr_fmt ip +:+ rest) as s eqn:Hs. clear Hs.
  assert (read_groups 7 0 ("ffff:" +:+ s) = (65535%N :: ipv4_groups ip, true, rest)) as ->; [|done].
  change ("ffff:" +:+ s) with (fmt_hex 4 65535 +:+ String ":" s).
  assert (read_ipv4_addr (fmt_hex 4 65535 +:+ String ":" s) = None) as Hno.
  { apply no_ipv4, no_ipv4_digits; [|done]. by apply (digits_small 16 hex_radix). }
  assert (read_number 16 (Some 4) true u16_end (fmt_hex 4 65535 +:+ String ":" s) = Some (65535%N, String ":" s)) as Hn.
  { by apply (read_number_text 16 hex_radix); [|lia|..]. }
  assert (read_separator ":" 1 read_ipv4_addr (String ":" s) = Some (ip, rest)) as H4' by exact H4.
  rewrite read_groups_S. cbn [Nat.ltb Nat.leb]. change (read_separator ":" 0 ?p) with p.
  rewrite Hno, Hn, read_groups_S. cbn [Nat.ltb Nat.leb]. by rewrite H4'.
Qed.

Lemma mapped_spec ip v4 :
  to_ipv4_mapped ip = Some v4 -> Forall (fun g => g < u16_end)%N ip ->
  ipv4_ok v4 /\ ip = ([0; 0; 0; 0; 0; 65535]%N ++ ipv4_groups v4)%list.
Proof.
  unfold to_ipv4_mapped. repeat (case_match; try done; subst). intros [= <-] Hg.
  repeat (apply Forall_cons in Hg as [? Hg]). unfold ipv4_ok, ipv4_groups, u8_end, u16_end in *. simpl.
  split.
  - split_and!; try (apply N.mod_lt; lia); apply N.Div0.div_lt_upper_bound; lia.
  - assert (forall x, x / 256 * 256 + x mod 256 = x)%N as Hx
      by (intros x; rewrite N.mul_comm; symmetry; apply N.div_mod').
    by rewrite !Hx.
Qed.

Lemma read_ipv6_text ip rest :
  length ip = 8 -> Forall (fun g => g < u16_end)%N ip -> closes rest ->
  read_ipv6_addr (Ipv6Addr_fmt ip +:+ rest) = Some (ip, rest).
Proof.
  intros Hl Hg Hr. unfold Ipv6Addr_fmt. destruct (to_ipv4_mapped ip) as [v4|] eqn:Hm.
  { destruct (mapped_spec ip v4 Hm Hg) as [Hok Hip]. rewrite string_app_assoc, read_mapped by done.
    by rewrite <- Hip. }
  pose proof (longest_zeros_at ip ip [] (0, 0) (0, 0) eq_refl) as Hz.
  destruct (longest_zeros ip 0 (0, 0) (0, 0)) as [start len] eqn:Hlz.
  assert (zeros_at ip (start, len)) as Hzeros.
  { unfold zeros_at in Hz. simpl in Hz. rewrite Hlz in Hz. apply Hz; [|by left]. split; [lia|]. intros. lia. }
  destruct (1 <? len)%nat eqn:Hlen.
  - apply Nat.ltb_lt in Hlen. pose proof (proj1 Hzeros) as Hle. simpl in Hle.
    rewrite !string_app_assoc, read_compressed; [|by apply Forall_take|by apply Forall_drop|..|done].
    + rewrite length_take, length_drop, Hl.
      replace (8 - (8 - (start + len)) - start `min` 8) with len by lia.
      by rewrite <- (zeros_split ip start len Hzeros).
    + rewrite length_take, length_drop. lia.
  - unfold read_ipv6_addr. rewrite read_groups_text; [by rewrite Hl|done|lia|by apply closes_after|left; lia].
Qed.

(** ** What the parser gives *)

Lemma read_number_limit radix max z limit s n r :
  read_number radix max z limit s = Some (n, r) -> (n < limit)%N.
Proof.
  unfold read_number. destruct (number_loop _ _ _ _ _ s) as [[[v count] r']|]; [|done]. cbn [mbind option_bind].
  repeat case_match; try done. intros [= <- _]. by apply N.ltb_lt.
Qed.

Lemma read_separator_inner {A} sep i (inner : parser A) s r :
  read_separator sep i inner s = Some r -> exists s', inner s' = Some r.
Proof.
  unfold read_separator. destruct i; [by exists s|].
  destruct (read_given_char sep s) as [[u s']|]; [by exists s'|done].
Qed.

Lemma read_octet_limit i s n r : read_octet i s = Some (n, r) -> (n < u8_end)%N.
Proof. intros [s' Hs]%read_separator_inner. by eapply read_number_limit. Qed.

Lemma read_ipv4_ok s ip r : read_ipv4_addr s = Some (ip, r) -> ipv4_ok ip.
Proof.
  unfold read_ipv4_addr.
  destruct (read_octet 0 s) as [[a s1]|] eqn:Ha; [|done]. cbn [mbind option_bind].
  destruct (read_octet 1 s1) as [[b s2]|] eqn:Hb; [|done]. cbn [mbind option_bind].
  destruct (read_octet 2 s2) as [[c s3]|] eqn:Hc; [|done]. cbn [mbind option_bind].
  destruct (read_octet 3 s3) as [[d s4]|] eqn:Hd; [|done]. intros [= <- _].
  apply read_octet_limit in Ha, Hb, Hc, Hd. done.
Qed.

Lemma ipv4_groups_ok v4 : ipv4_ok v4 -> Forall (fun g => g < u16_end)%N (ipv4_groups v4).
Proof. intros (? & ? & ? & ?). unfold u8_end, u16_end in *. repeat constructor; lia. Qed.

Lemma read_groups_ok todo : forall i s groups v4 r,
  read_groups todo i s = (groups, v4, r) ->
  Forall (fun g => g < u16_end)%N groups /\ length groups <= todo.
Proof.
  induction todo as [|todo IH]; intros i s groups v4 r; cbn [read_groups]; [by intros [= <- _ _]|].
  destruct (if (0 <? todo)%nat then read_separator ":" i read_ipv4_addr s else None) as [[ip s']|] eqn:H4.
  - intros [= <- _ _]. destruct (0 <? todo)%nat eqn:Ht; [|done]. apply Nat.ltb_lt in Ht.
    split; [|simpl; lia]. apply ipv4_groups_ok.
    apply read_separator_inner in H4 as [s1 Hs1]. by eapply read_ipv4_ok.
  - destruct (read_separator ":" i (read_number 16 (Some 4) true u16_end) s) as [[g s']|] eqn:Hg;
      [|intros [= <- _ _]; split; [done|simpl; lia]].
    destruct (read_groups todo (S i) s') as [[gs v4'] r'] eqn:Hgs. intros [= <- _ _].
    destruct (IH _ _ _ _ _ Hgs) as [Hok Hlen]. split; [|simpl; lia]. constructor; [|done].
    apply read_separator_inner in Hg as [s1 Hs1]. by eapply read_number_limit.
Qed.

Lemma read_ipv6_ok s ip r :
  read_ipv6_addr s = Some (ip, r) -> length ip = 8 /\ Forall (fun g => g < u16_end)%N ip.
Proof.
  unfold read_ipv6_addr. destruct (read_groups 8 0 s) as [[head v4] s1] eqn:Hh.
  destruct (read_groups_ok _ _ _ _ _ _ Hh) as [Hok Hlen].
  destruct (length head =? 8)%nat eqn:H8; [intros [= <- _]; split; [by apply Nat.eqb_eq|done]|].
  apply Nat.eqb_neq in H8. destruct v4; [done|].
  destruct (read_given_char ":" s1) as [[u s2]|]; [|done]. cbn [mbind option_bind].
  destruct (read_given_char ":" s2) as [[u' s3]|]; [|done]. cbn [mbind option_bind].
  destruct (read_groups (8 - (length head + 1)) 0 s3) as [[tail v4'] s4] eqn:Ht.
  destruct (read_groups_ok _ _ _ _ _ _ Ht) as [Hok' Hlen']. intros [= <- _]. split.
  - rewrite !length_app, length_replicate. lia.
  - apply Forall_app. split; [done|]. apply Forall_app. split; [|done].
    by apply Forall_replicate.
Qed.

Lemma read_port_limit s n r : read_port s = Some (n, r) -> (n < u16_end)%N.
Proof.
  unfold read_port. destruct (read_given_char ":" s) as [[u s']|]; [|done]. cbn [mbind option_bind]. apply read_number_limit.
Qed.

Lemma read_scope_limit s n r : read_scope_id s = Some (n, r) -> (n < u32_end)%N.
Proof.
  unfold read_scope_id. destruct (read_given_char "%" s) as [[u s']|]; [|done]. cbn [mbind option_bind]. apply read_number_limit.
Qed.

(** The parser leaves the flow information zero. *)
Definition no_flowinfo (addr : SocketAddr) : Prop :=
  match addr with SocketAddrV4 _ _ => True | SocketAddrV6 _ _ flowinfo _ => flowinfo = 0%N end.

Lemma read_socket_v4_ok s addr r :
  read_socket_addr_v4 s = Some (addr, r) -> socket_ok addr /\ no_flowinfo addr.
Proof.
  unfold read_socket_addr_v4. destruct (read_ipv4_addr s) as [[ip s1]|] eqn:Hip; [|done]. cbn [mbind option_bind].
  destruct (read_port s1) as [[port s2]|] eqn:Hp; [|done]. intros [= <- _].
  split; [|done]. split; [by eapply read_ipv4_ok|by eapply read_port_limit].
Qed.

Lemma read_socket_v6_ok s addr r :
  read_socket_addr_v6 s = Some (addr, r) -> socket_ok addr /\ no_flowinfo addr.
Proof.
  unfold read_socket_addr_v6. destruct (read_given_char "[" s) as [[u s1]|]; [|done]. cbn [mbind option_bind].
  destruct (read_ipv6_addr s1) as [[ip s2]|] eqn:Hip; [|done]. cbn [mbind option_bind].
  destruct (match read_scope_id s2 with Some r => r | None => (0%N, s2) end) as [scope s3] eqn:Hs.
  destruct (read_given_char "]" s3) as [[u' s4]|]; [|done]. cbn [mbind option_bind].
  destruct (read_port s4) as [[port s5]|] eqn:Hp; [|done]. intros [= <- _].
  destruct (read_ipv6_ok _ _ _ Hip) as [Hl Hg]. split; [|done].
  split_and!; [done|done|by eapply read_port_limit|done|].
  destruct (read_scope_id s2) as [[n s']|] eqn:Hsc; injection Hs as <- <-; [by eapply read_scope_limit|done].
Qed.

(** ** Addresses are read back *)

Lemma read_given_char_same c s : read_given_char c (String c s) = Some (tt, s).
Proof. unfold read_given_char. by rewrite bool_decide_eq_true_2. Qed.

Lemma read_port_text port rest :
  (port < u16_end)%N -> ends_number 10 rest -> read_port (":" +:+ fmt_dec 5 port +:+ rest) = Some (port, rest).
Proof.
  intros Hp Hr. apply (read_number_text 10 dec_radix None true u16_end 5); [|lia|done|done|done].
  unfold u16_end in Hp. change (10 ^ N.of_nat 5)%N with 100000%N. lia.
Qed.

Lemma read_scope_text scope rest :
  (scope < u32_end)%N -> ends_number 10 rest ->
  read_scope_id (String "%" (fmt_dec 10 scope +:+ rest)) = Some (scope, rest).
Proof.
  intros Hs Hr. apply (read_number_text 10 dec_radix None true u32_end 10); [|lia|done|done|done].
  unfold u32_end in Hs. change (10 ^ N.of_nat 10)%N with 10000000000%N. lia.
Qed.

Lemma socket_display_read addr rest :
  socket_ok addr -> no_flowinfo addr -> ends_number 10 rest ->
  read_socket_addr (socket_display addr +:+ rest) = Some (addr, rest).
Proof.
  intros Hok Hf Hr. unfold read_socket_addr. destruct addr as [ip port|ip port flow scope]; simpl in Hok, Hf.
  - destruct Hok as [Hip Hp]. unfold read_socket_addr_v4, socket_display. rewrite !string_app_assoc.
    rewrite (read_ipv4_text ip (":" +:+ fmt_dec 5 port +:+ rest)) by done. simpl mbind.
    by rewrite read_port_text.
  - destruct Hok as (Hl & Hg & Hp & _ & Hs). subst flow.
    assert (forall s, read_socket_addr_v4 (String "[" s) = None) as H4 by done.
    unfold socket_display. destruct (scope =? 0)%N eqn:Hz; rewrite !string_app_assoc.
    + apply N.eqb_eq in Hz as ->. change ("[" +:+ Ipv6Addr_fmt ip +:+ "]:" +:+ fmt_dec 5 port +:+ rest)
        with (String "[" (Ipv6Addr_fmt ip +:+ String "]" (":" +:+ fmt_dec 5 port +:+ rest))).
      rewrite H4. unfold read_socket_addr_v6. rewrite read_given_char_same. cbn [mbind option_bind].
      rewrite read_ipv6_text by (done || by eexists _, _; split; [done|left]). cbn [mbind option_bind].
      change (read_scope_id (String "]" ?s)) with (@None (N * string)). cbv beta iota.
      rewrite read_given_char_same. cbn [mbind option_bind]. by rewrite read_port_text.
    + apply N.eqb_neq in Hz.
      change ("[" +:+ Ipv6Addr_fmt ip +:+ "%" +:+ fmt_dec 10 scope +:+ "]:" +:+ fmt_dec 5 port +:+ rest)
        with (String "[" (Ipv6Addr_fmt ip +:+ String "%" (fmt_dec 10 scope +:+ "]" +:+ (":" +:+ fmt_dec 5 port +:+ rest)))).
      rewrite H4. unfold read_socket_addr_v6. rewrite read_given_char_same. cbn [mbind option_bind].
      rewrite read_ipv6_text by (done || by eexists _, _; split; [done|right]). cbn [mbind option_bind].
      rewrite (read_scope_text scope ("]" +:+ ":" +:+ fmt_dec 5 port +:+ rest)) by done.
      change ("]" +:+ ":" +:+ fmt_dec 5 port +:+ rest) with (String "]" (":" +:+ fmt_dec 5 port +:+ rest)).
      rewrite read_given_char_same. cbn [mbind option_bind]. by rewrite read_port_text.
Qed.

(** The addresses of the environment. Whatever text [main] accepts as a socket
    address, its parts are within their widths, and the text it writes for it,
    into every upstream URI, is read back as the same address: IPv4 and IPv6,
    with a scope, with the longest run of zeros left out or an embedded IPv4
    address. *)
Theorem socket_reads_back s addr :
  socket_parse s = Ok addr ->
  socket_ok addr /\ socket_parse (socket_display addr) = Ok addr.
Proof.
  unfold socket_parse at 1. destruct (read_socket_addr s) as [[addr' [|c r]]|] eqn:Hs; try done.
  intros [= ->]. assert (socket_ok addr /\ no_flowinfo addr) as [Hok Hf].
  { unfold read_socket_addr in Hs. destruct (read_socket_addr_v4 s) as [[a r]|] eqn:H4.
    - injection Hs as -> ->. by eapply read_socket_v4_ok.
    - by eapply read_socket_v6_ok. }
  split; [done|]. unfold socket_parse.
  pose proof (socket_display_read addr "" Hok Hf I) as Hd.
  assert (socket_display addr +:+ "" = socket_display addr) as Hnil.
  { generalize (socket_display addr). intros t. induction t as [|c t IH]; [done|]. by apply (f_equal (String c)). }
  by rewrite Hnil in Hd; rewrite Hd.
Qed.
