(* ===== verification/Boot.v ===== *)
(** The configuration of the process: [main] of service/src/main.rs up to the
    making of the runner, and the loaders of service/src/internal/util.rs. What
    the operating system, sled and rustls answer is the class [System]; the
    process environment is a function. *)

From Stdlib Require Import Ascii.
From S2P Require Import Prelude Format ZkvmCommon Guest Job Http Json Effects Environment.
From S2P Require Import Runner Invariant RunnerSafe Liveness Proxy ProxyFacts SocketAddr.

Open Scope pda_scope.
Local Open Scope string_scope.

(** ** [str::parse::<u64>] *)

Inductive IntErrorKind : Type := Empty | InvalidDigit | PosOverflow.

(** [{:?}] of the [ParseIntError]. *)
Definition ParseIntError_fmt (e : IntErrorKind) : string :=
  "ParseIntError { kind: " +:+
  match e with Empty => "Empty" | InvalidDigit => "InvalidDigit" | PosOverflow => "PosOverflow" end
  +:+ " }".

Definition u64_end : N := 2 ^ 64.

(** [char::to_digit(10)]. *)
Definition to_digit (c : char) : option N :=
  let n := Ascii.N_of_ascii c in
  if bool_decide (48 <= n <= 57)%N then Some (n - 48)%N else None.

(** The loop of [from_str_radix]: the digit is read before the product and the
    sum are checked. *)
Fixpoint parse_digits (s : string) (acc : N) : result N IntErrorKind :=
  match s with
  | EmptyString => Ok acc
  | String c s' =>
      match to_digit c with
      | None => Err InvalidDigit
      | Some d =>
          if bool_decide (acc * 10 + d < u64_end)%N then parse_digits s' (acc * 10 + d)
          else Err PosOverflow
      end
  end.

Definition parse_u64 (s : string) : result N IntErrorKind :=
  match s with
  | EmptyString => Err Empty
  | String c s' =>
      if bool_decide (c = "+"%char)
      then match s' with EmptyString => Err InvalidDigit | _ => parse_digits s' 0 end
      else parse_digits s 0
  end.

(** ** The system *)

Class System := {
  (** [fs::File::open]; errors are shown by [Display]. *)
  File : Type;
  open_file : string -> result File string;
  (** [rustls_pemfile]. *)
  CertificateDer : Type;
  PrivateKeyDer : Type;
  pemfile_certs : File -> list (result CertificateDer string);
  pemfile_private_key : File -> result (option PrivateKeyDer) string;
  (** [sled::open] and [open_tree]. *)
  Db : Type;
  DbTree : Type;
  sled_open : string -> result Db string;
  open_tree : Db -> string -> result DbTree string;
  (** [TcpListener::bind]. *)
  TcpListener : Type;
  bind_listener : SocketAddr -> result TcpListener string;
  (** [ServerConfig::builder().with_no_client_auth().with_single_cert(..)], and
      the assignment to [alpn_protocols]. *)
  ServerConfig : Type;
  with_single_cert : list CertificateDer -> PrivateKeyDer -> result ServerConfig string;
  set_alpn_protocols : ServerConfig -> list string -> ServerConfig;
  (** [HttpsConnectorBuilder::new().with_native_roots()]. *)
  with_native_roots : result unit string;
}.

(** The schemes the connector of the client towards the node accepts. *)
Inductive Connector : Type := https_only | https_or_http.

(** What [main] has built when it makes the runner. *)
Record Booted `{System} : Type := {
  da_node_socket : SocketAddr;
  trees : DbTree * DbTree * DbTree;
  listener : TcpListener;
  server_config : ServerConfig;
  connector : Connector;
  runner_config : PdaRunnerConfig;
}.

(** [let x = m?;] where the function itself may also panic. *)
Definition or_return {A B} (m : result A string) (k : A -> outcome (result B string))
    : outcome (result B string) :=
  match m with Ok a => k a | Err e => Returned (Err e) end.

Notation "'try' x := m 'in' k" := (or_return m (fun x => k))
  (at level 10, x binder, m at level 100, k at level 200) : pda_scope.

Section Boot.
  Context `{Platform, !System}.

(** [util::map_io_error]: an [io::Error] is its text. *)
Definition map_io_error (err : string) : string := err.

(** [collect] of an iterator of results. *)
Fixpoint collect {A E} (l : list (result A E)) : result (list A) E :=
  match l with
  | [] => Ok []
  | Ok a :: l' => result_map (cons a) (collect l')
  | Err e :: _ => Err e
  end.

(** [util::load_certs]. *)
Definition load_certs (filename : string) : result (list CertificateDer) string :=
  match result_map_err (fun e => map_io_error ("failed to open " +:+ filename +:+ ": " +:+ e))
          (open_file filename) with
  | Err e => Err e
  | Ok cert_file => collect (pemfile_certs cert_file)
  end.

(** [util::load_private_key]. *)
Definition load_private_key (filename : string) : outcome (result PrivateKeyDer string) :=
  try keyfile := result_map_err (fun e => map_io_error ("failed to open " +:+ filename +:+ ": " +:+ e))
                   (open_file filename) in
  match pemfile_private_key keyfile with
  | Err e => Returned (Err e)
  | Ok (Some key) => Returned (Ok key)
  | Ok None => Panicked "called `Option::unwrap()` on a `None` value"
  end.

(** [main] up to [PdaRunner::new]. *)
Definition boot (env : string -> result string string) : outcome (result Booted string) :=
  letp key_text := expect id "Missing ENCRYPTION_KEY env var" (env "ENCRYPTION_KEY") in
  letp _ := expect id "ENCRYPTION_KEY must be 32 bytes, hex encoded (ex: `1234...abcd`)"
              (from_hex key_text) in
  letp da_text := expect id "CELESTIA_NODE_SOCKET env var required" (env "CELESTIA_NODE_SOCKET") in
  letp da_node_socket := expect id "CELESTIA_NODE_SOCKET cannot parse" (socket_parse da_text) in
  letp service_text := expect id "PDA_SOCKET env var required" (env "PDA_SOCKET") in
  letp service_socket := expect id "PDA_SOCKET cannot parse" (socket_parse service_text) in
  letp db_path := expect id "PDA_DB_PATH env var required" (env "PDA_DB_PATH") in
  try db := sled_open db_path in
  try config_db := open_tree db "config" in
  try queue_db := open_tree db "queue" in
  try finished_db := open_tree db "finished" in
  letp tls_certs_path := expect id "TLS_CERTS_PATH env var required" (env "TLS_CERTS_PATH") in
  try tls_certs := load_certs tls_certs_path in
  letp tls_key_path := expect id "TLS_KEY_PATH env var required" (env "TLS_KEY_PATH") in
  letp loaded := load_private_key tls_key_path in
  try tls_key := loaded in
  try listener := bind_listener service_socket in
  try config := with_single_cert tls_certs tls_key in
  let server_config := set_alpn_protocols config ["http/1.1"; "http/1.0"] in
  try _ := with_native_roots in
  let connector := if is_ok (env "UNSAFE_HTTP_UPSTREAM") then https_or_http else https_only in
  letp timeout_text := expect id "PROOF_GEN_TIMEOUT_SECONDS_REMOTE env var required"
                         (env "PROOF_GEN_TIMEOUT_SECONDS_REMOTE") in
  letp seconds := expect ParseIntError_fmt "PROOF_GEN_TIMEOUT_SECONDS_REMOTE must be integer"
                    (parse_u64 timeout_text) in
  Returned (Ok {| da_node_socket := da_node_socket; trees := (config_db, queue_db, finished_db);
                  listener := listener; server_config := server_config; connector := connector;
                  runner_config := {| zk_proof_gen_timeout_remote := seconds |} |}).

(** ** Specification *)

(** A variable is set, and its text reads as [v]. *)
Definition reads {V E} (env : string -> result string string) (name : string)
    (parse : string -> result V E) (v : V) : Prop :=
  exists text, env name = Ok text /\ parse text = Ok v.

(** The file holds a private key. *)
Definition holds_key (filename : string) (key : PrivateKeyDer) : Prop :=
  exists file, open_file filename = Ok file /\ pemfile_private_key file = Ok (Some key).

(** The database at a path, with its three trees. *)
Definition opens (path : string) (ts : DbTree * DbTree * DbTree) : Prop :=
  exists db c q d, sled_open path = Ok db /\ open_tree db "config" = Ok c /\
    open_tree db "queue" = Ok q /\ open_tree db "finished" = Ok d /\ ts = (c, q, d).

(** The TLS configuration, from the two files. *)
Definition serves_tls (env : string -> result string string) (sc : ServerConfig) : Prop :=
  exists certs_path certs key_path key config,
    env "TLS_CERTS_PATH" = Ok certs_path /\ load_certs certs_path = Ok certs /\
    env "TLS_KEY_PATH" = Ok key_path /\ holds_key key_path key /\
    with_single_cert certs key = Ok config /\
    sc = set_alpn_protocols config ["http/1.1"; "http/1.0"].

(** Everything the start of the process needs. *)
Record bootable (env : string -> result string string) (b : Booted) : Prop := {
  boot_key : exists key, reads env "ENCRYPTION_KEY" from_hex key;
  boot_node : reads env "CELESTIA_NODE_SOCKET" socket_parse (da_node_socket b);
  boot_listener : exists addr, reads env "PDA_SOCKET" socket_parse addr /\ bind_listener addr = Ok (listener b);
  boot_trees : exists path, env "PDA_DB_PATH" = Ok path /\ opens path (trees b);
  boot_tls : serves_tls env (server_config b);
  boot_roots : with_native_roots = Ok tt;
  boot_connector :
    connector b = if is_ok (env "UNSAFE_HTTP_UPSTREAM") then https_or_http else https_only;
  boot_timeout : reads env "PROOF_GEN_TIMEOUT_SECONDS_REMOTE" parse_u64
                   (zk_proof_gen_timeout_remote (runner_config b));
}.

(** The scheme of the URIs a request is forwarded to with this connector. *)
Definition scheme_of (c : Connector) : string :=
  match c with https_or_http => "http" | https_only => "https" end.
End Boot.

(** ** Facts about [boot] *)

Section BootFacts.
  Context `{Sp1Facts, !System}.

Lemma expect_inv {A E B} (dbg : E -> string) msg (r : result A E) (k : A -> outcome B) x :
  outcome_bind (expect dbg msg r) k = Returned x -> exists a, r = Ok a /\ k a = Returned x.
Proof. destruct r as [a|e]; [by exists a|done]. Qed.

Lemma or_return_inv {A B} (m : result A string) (k : A -> outcome (result B string)) b :
  or_return m k = Returned (Ok b) -> exists a, m = Ok a /\ k a = Returned (Ok b).
Proof. destruct m as [a|e]; [by exists a|done]. Qed.

Lemma outcome_bind_inv {A B} (m : outcome A) (k : A -> outcome B) x :
  outcome_bind m k = Returned x -> exists a, m = Returned a /\ k a = Returned x.
Proof. destruct m as [a|msg]; [by exists a|done]. Qed.

(** What [load_private_key] makes of a file, on every branch. *)
Lemma load_private_key_spec filename key :
  load_private_key filename = Returned (Ok key) <-> holds_key filename key.
Proof.
  unfold load_private_key, holds_key. destruct (open_file filename) as [file|e]; simpl.
  - destruct (pemfile_private_key file) as [[k|]|e] eqn:Hk; (split; [intros Hr|intros (f & Hf & Hp)]);
      simplify_eq; try congruence; eauto.
  - split; [done|]. by intros (f & Hf & _).
Qed.

(** The next step of a start that succeeds. *)
Ltac boot_step Hb :=
  first [ apply expect_inv in Hb as (? & ? & Hb) | apply or_return_inv in Hb as (? & ? & Hb) ].

Lemma boot_bootable env b : boot env = Returned (Ok b) -> bootable env b.
Proof.
  intros Hb. unfold boot in Hb. do 14 boot_step Hb.
  apply outcome_bind_inv in Hb as (loaded & Hl & Hb). apply or_return_inv in Hb as (key & -> & Hb).
  apply load_private_key_spec in Hl. do 5 boot_step Hb. injection Hb as <-.
  repeat match goal with x : unit |- _ => destruct x end.
  split; unfold reads, opens, serves_tls; simpl; naive_solver.
Qed.

Lemma bootable_boot env b : bootable env b -> boot env = Returned (Ok b).
Proof.
  destruct b as [node ts l sc c [seconds]].
  intros [(key & kt & Hk & Hkp) (nt & Hn & Hnp) (addr & (pt & Hp & Hpp) & Hbind)
    (path & Hpath & db & cdb & q & d & Hdb & Hc & Hq & Hd & Hts)
    (certs_path & certs & key_path & pk & config & Hcp & Hcerts & Hkpath & Hpk & Hsingle & Hsc)
    Hroots Hconn (tt' & Ht & Htp)]; simpl in *; subst.
  apply load_private_key_spec in Hpk. unfold boot.
  repeat match goal with
  | E : ?x = Ok _ |- context [?x] => rewrite E; cbn [expect outcome_bind or_return]
  | E : ?x = Returned _ |- context [?x] => rewrite E; cbn [expect outcome_bind or_return]
  end.
  done.
Qed.

(** C38: the process starts serving exactly when everything it needs is there:
    the key, both socket addresses and the timeout are set and read, the database
    opens with its three trees, the certificates and the private key load into a
    TLS configuration, the address binds and the system has root certificates;
    and it starts with exactly what these gave. Otherwise it panics or [main]
    returns an error. *)
Theorem boot_serves env b : boot env = Returned (Ok b) <-> bootable env b.
Proof. split; [apply boot_bootable|apply bootable_boot]. Qed.

(** [load_private_key] and [load_certs] on every branch: a file that does
    not open is an error that names it; a file without a private key panics,
    rather than being an error; certificates come in the order of the file, up
    to the first that does not parse. *)
Theorem loaders_spec filename :
  match open_file filename with
  | Err e =>
      let text := "failed to open " +:+ filename +:+ ": " +:+ e in
      load_private_key filename = Returned (Err text) /\ load_certs filename = Err text
  | Ok file =>
      load_private_key filename =
        match pemfile_private_key file with
        | Ok (Some key) => Returned (Ok key)
        | Ok None => Panicked "called `Option::unwrap()` on a `None` value"
        | Err e => Returned (Err e)
        end /\
      match load_certs filename with
      | Ok certs => pemfile_certs file = Ok <$> certs
      | Err e => exists certs rest, pemfile_certs file = ((Ok <$> certs) ++ Err e :: rest)%list
      end
  end.
Proof.
  unfold load_private_key, load_certs. destruct (open_file filename) as [file|e]; [|done].
  split; [simpl; by destruct (pemfile_private_key file) as [[key|]|e]|]. simpl.
  induction (pemfile_certs file) as [|[c|e] l IH]; simpl; [done| |by exists [], l].
  destruct (collect l) as [certs|e]; simpl; [by rewrite IH|].
  destruct IH as (certs & rest & ->). by exists (c :: certs), rest.
Qed.

Lemma wp_read_key f vars text key s :
  vars !! "ENCRYPTION_KEY" = Some text -> from_hex text = Ok key -> env_vars s = vars ->
  wp f read_encryption_key (fun s' r => s' = s /\ r = Returned key) s.
Proof.
  intros Ht Hk Hs. unfold read_encryption_key, env_expect. wp_op_step (EnvVar "ENCRYPTION_KEY"). intros [-> Hx].
  rewrite Hs, Ht in Hx. subst. cbn [expect lift bind]. by rewrite Hk.
Qed.

(** C39: what was checked at the start holds while the process serves, in every
    state the service reaches. The variables do not change, so the key that the
    runner and the proxy read for each request is the one that was checked, and
    reading it never panics; and every message a request makes the service send
    has a URI with the address the variable gave, the path and query of the
    request, and a scheme the connector built at the start takes. *)
Theorem boot_configures {Ev : Env} {f : Faults} {L : EnvLaws f} `{!RunnerCodecs, Payload, !PayloadLaws}
    (env : string -> result string string) (E : gmap string string) b w (req : Request Incoming) :
  (forall name, result_ok (env name) = E !! name) ->
  boot env = Returned (Ok b) -> inv E (view w) ->
  (exists key, reads env "ENCRYPTION_KEY" from_hex key /\
    view (fst (run read_encryption_key w)) = view w /\
    snd (run read_encryption_key w) = Returned key) /\
  reads env "CELESTIA_NODE_SOCKET" socket_parse (da_node_socket b) /\
  let node := socket_display (da_node_socket b) in
  exists sent,
    forwarded (view (fst (run (handle_request node req) w))) = (forwarded (view w) ++ sent)%list /\
    forall out, out ∈ sent ->
      uri_parse (scheme_of (connector b) +:+ "://" +:+ node +:+ default "/" (path_and_query (req_uri req)))
        = Ok (req_uri out).
Proof.
  intros HE Hb Hi. destruct (boot_bootable env b Hb) as [(key & text & Ht & Hk) Hn _ _ _ _ Hc _].
  split; [|split; [exact Hn|]].
  - exists key. split; [by exists text|].
    apply (wp_run f read_encryption_key (fun s' r => s' = view w /\ r = Returned key) w).
    eapply wp_read_key; [|done|by destruct Hi]. by rewrite <- HE, Ht.
  - intros node. pose proof (wp_run f (handle_request node req) _ w (wp_handle_request_sent E f node req _ Hi)) as Hs.
    cbn beta in Hs. destruct Hs as [->|(uri & out & Huri & _ & Hf & ->)].
    + exists []. split; [by rewrite app_nil_r|]. by intros out ?%elem_of_nil.
    + exists [out]. split; [done|]. intros out' ->%list_elem_of_singleton.
      destruct Hf as (? & ? & ? & ? & _ & _ & _ & _ & ->). cbn [req_uri rewrite_request with_uri].
      rewrite <- Huri. unfold upstream_uri. do 2 f_equal. rewrite Hc, (inv_env _ _ Hi), <- HE.
      by destruct (env "UNSAFE_HTTP_UPSTREAM").
Qed.
End BootFacts.
