(* ===== verification/TxConfig.v ===== *)
(** service/src/rpc/tx_config.rs: the options of a transaction, their setters
    and their serializer, against any serde [Serializer]. The address type of
    celestia_types is a parameter. *)

From S2P Require Import Prelude.

Local Open Scope string_scope.

(** An [f64] by its bit pattern, which the code only carries around. *)
Abbreviation f64 := Z.

(** The values the code hands to the serializer. *)
Inductive SerValue (AccAddress : Type) : Type :=
| SerAddress (a : AccAddress)
| SerString (s : string)
| SerF64 (x : f64)
| SerBool (b : bool)
| SerU64 (n : Z).
Arguments SerAddress {AccAddress} a.
Arguments SerString {AccAddress} s.
Arguments SerF64 {AccAddress} x.
Arguments SerBool {AccAddress} b.
Arguments SerU64 {AccAddress} n.

(** serde's [Serializer] and [SerializeStruct], the calls the code makes. *)
Class Serializer (AccAddress : Type) := {
  SerOk : Type;
  SerError : Type;
  SerializeStruct : Type;
  serialize_struct : string -> nat -> result SerializeStruct SerError;
  serialize_field : SerializeStruct -> string -> SerValue AccAddress -> result SerializeStruct SerError;
  serialize_end : SerializeStruct -> result SerOk SerError;
}.

(** The [?] operator. *)
Definition result_bind {A B E} (m : result A E) (f : A -> result B E) : result B E :=
  match m with Ok a => f a | Err e => Err e end.

Section TxConfig.
  Context {AccAddress : Type}.

Record TxConfig : Type := {
  signer_address : option AccAddress;
  key_name : option string;
  gas_price : option f64;
  gas : option Z;
  fee_granter_address : option AccAddress;
}.

(** [#[derive(Default)]]. *)
Definition TxConfig_default : TxConfig :=
  {| signer_address := None; key_name := None; gas_price := None; gas := None;
     fee_granter_address := None |}.

Definition with_gas_price (self : TxConfig) (x : f64) : TxConfig :=
  {| signer_address := signer_address self; key_name := key_name self; gas_price := Some x;
     gas := gas self; fee_granter_address := fee_granter_address self |}.

Definition with_gas (self : TxConfig) (n : Z) : TxConfig :=
  {| signer_address := signer_address self; key_name := key_name self; gas_price := gas_price self;
     gas := Some n; fee_granter_address := fee_granter_address self |}.

Definition with_fee_granter_address (self : TxConfig) (a : AccAddress) : TxConfig :=
  {| signer_address := signer_address self; key_name := key_name self; gas_price := gas_price self;
     gas := gas self; fee_granter_address := Some a |}.

Definition with_signer_address (self : TxConfig) (a : AccAddress) : TxConfig :=
  {| signer_address := Some a; key_name := key_name self; gas_price := gas_price self;
     gas := gas self; fee_granter_address := fee_granter_address self |}.

Definition with_key_name (self : TxConfig) (s : string) : TxConfig :=
  {| signer_address := signer_address self; key_name := Some s; gas_price := gas_price self;
     gas := gas self; fee_granter_address := fee_granter_address self |}.

(** [if let Some(x) = value { ... }] around calls on the serializer's state. *)
Definition if_some `{Serializer AccAddress} {A} (value : option A)
    (f : A -> SerializeStruct -> result SerializeStruct SerError) (state : SerializeStruct)
    : result SerializeStruct SerError :=
  match value with Some x => f x state | None => Ok state end.

Definition TxConfig_serialize `{Serializer AccAddress} (self : TxConfig) : result SerOk SerError :=
  result_bind (serialize_struct "TxConfig" 6) (fun state =>
  result_bind (if_some (signer_address self) (fun a st =>
    serialize_field st "signer_address" (SerAddress a)) state) (fun state =>
  result_bind (if_some (key_name self) (fun s st =>
    serialize_field st "key_name" (SerString s)) state) (fun state =>
  result_bind (if_some (gas_price self) (fun x st =>
    result_bind (serialize_field st "gas_price" (SerF64 x)) (fun st =>
    serialize_field st "is_gas_price_set" (SerBool true))) state) (fun state =>
  result_bind (if_some (gas self) (fun n st =>
    serialize_field st "gas" (SerU64 n)) state) (fun state =>
  result_bind (if_some (fee_granter_address self) (fun a st =>
    serialize_field st "fee_granter_address" (SerAddress a)) state) (fun state =>
  serialize_end state)))))).

(** ** Specification *)

Definition Field : Type := string * SerValue AccAddress.

(** Writes a list of fields, up to the first error. *)
Fixpoint write_fields `{Serializer AccAddress} (fields : list Field) (state : SerializeStruct)
    : result SerializeStruct SerError :=
  match fields with
  | [] => Ok state
  | (name, v) :: fields' =>
      result_bind (serialize_field state name v) (write_fields fields')
  end.

(** The value of a field of the serialized struct, by its name. *)
Definition field_of (c : TxConfig) (name : string) : option (SerValue AccAddress) :=
  if String.eqb name "signer_address" then SerAddress <$> signer_address c
  else if String.eqb name "key_name" then SerString <$> key_name c
  else if String.eqb name "gas_price" then SerF64 <$> gas_price c
  else if String.eqb name "is_gas_price_set" then (fun _ => SerBool true) <$> gas_price c
  else if String.eqb name "gas" then SerU64 <$> gas c
  else if String.eqb name "fee_granter_address" then SerAddress <$> fee_granter_address c
  else None.

(** The fields, in the order in which they are written. *)
Definition fields_of (c : TxConfig) : list Field :=
  omap (fun name => pair name <$> field_of c name)
    ["signer_address"; "key_name"; "gas_price"; "is_gas_price_set"; "gas"; "fee_granter_address"].

(** A call of a setter. *)
Inductive Setter : Type :=
| WithGasPrice (x : f64)
| WithGas (n : Z)
| WithFeeGranterAddress (a : AccAddress)
| WithSignerAddress (a : AccAddress)
| WithKeyName (s : string).

Definition set (c : TxConfig) (x : Setter) : TxConfig :=
  match x with
  | WithGasPrice x => with_gas_price c x
  | WithGas n => with_gas c n
  | WithFeeGranterAddress a => with_fee_granter_address c a
  | WithSignerAddress a => with_signer_address c a
  | WithKeyName s => with_key_name c s
  end.

(** What a setter says about the field [name]. *)
Definition setter_writes (name : string) (x : Setter) : option (SerValue AccAddress) :=
  match x with
  | WithGasPrice x =>
      if String.eqb name "gas_price" then Some (SerF64 x)
      else if String.eqb name "is_gas_price_set" then Some (SerBool true) else None
  | WithGas n => if String.eqb name "gas" then Some (SerU64 n) else None
  | WithFeeGranterAddress a =>
      if String.eqb name "fee_granter_address" then Some (SerAddress a) else None
  | WithSignerAddress a => if String.eqb name "signer_address" then Some (SerAddress a) else None
  | WithKeyName s => if String.eqb name "key_name" then Some (SerString s) else None
  end.

(** ** Facts *)

(** Splits on the name of the field. *)
Ltac by_name name :=
  repeat match goal with
  | |- context [String.eqb name ?k] => destruct (String.eqb_spec name k) as [->|?]
  end.

Lemma result_bind_assoc {A B C E} (m : result A E) (f : A -> result B E) (g : B -> result C E) :
  result_bind (result_bind m f) g = result_bind m (fun a => result_bind (f a) g).
Proof. by destruct m. Qed.

Lemma result_bind_ext {A B E} (m : result A E) (f g : A -> result B E) :
  (forall a, f a = g a) -> result_bind m f = result_bind m g.
Proof. destruct m; simpl; auto. Qed.

Lemma result_bind_ok {A E} (m : result A E) : result_bind m Ok = m.
Proof. by destruct m. Qed.

Lemma serialize_writes `{Serializer AccAddress} c :
  TxConfig_serialize c =
    result_bind (serialize_struct "TxConfig" 6) (fun state =>
    result_bind (write_fields (fields_of c) state) serialize_end).
Proof.
  unfold TxConfig_serialize. apply result_bind_ext. intros state.
  destruct c as [[?|] [?|] [?|] [?|] [?|]]; cbn;
    rewrite ?result_bind_assoc, ?result_bind_ok; try done;
    repeat first [apply result_bind_ext; intros ?; cbn; rewrite ?result_bind_assoc, ?result_bind_ok | done].
Qed.

Lemma set_field c x name :
  field_of (set c x) name =
    match setter_writes name x with Some v => Some v | None => field_of c name end.
Proof.
  unfold field_of. destruct x; simpl; by by_name name.
Qed.

Lemma sets_field (xs : list Setter) c name :
  field_of (foldl set c xs) name =
    match last (omap (setter_writes name) xs) with Some v => Some v | None => field_of c name end.
Proof.
  revert c. induction xs as [|x xs IH]; intros c; [done|].
  simpl. rewrite IH, set_field. destruct (setter_writes name x) as [v|] eqn:Hx; [|done].
  rewrite last_cons. by destruct (last _).
Qed.

Lemma elem_of_fields c name v : (name, v) ∈ fields_of c <-> field_of c name = Some v.
Proof.
  unfold fields_of. rewrite list_elem_of_omap. split.
  - intros (k & _ & Hk). apply fmap_Some in Hk as (v' & Hv & Heq). by simplify_eq.
  - intros Hf. exists name. split; [|by rewrite Hf]. revert Hf. unfold field_of.
    by_name name; intros ?; set_solver.
Qed.

Lemma fields_nodup c : NoDup (fst <$> fields_of c).
Proof.
  unfold fields_of.
  destruct c as [[?|] [?|] [?|] [?|] [?|]]; cbn;
    apply (bool_decide_unpack _); reflexivity.
Qed.

Lemma fields_length c : length (fields_of c) <= 6.
Proof. destruct c as [[?|] [?|] [?|] [?|] [?|]]; cbn; lia. Qed.

(** C36: with any serializer, a config is serialized as a struct of its options
    that are set, up to the serializer's first error: each field is written
    once, at most the six announced ones are, [is_gas_price_set] is written
    exactly when [gas_price] is, and a field that is not set is not written. *)
Theorem serialize_set_fields (c : TxConfig) :
  exists fields : list Field,
    (forall S : Serializer AccAddress, TxConfig_serialize c =
      result_bind (serialize_struct "TxConfig" 6) (fun state =>
      result_bind (write_fields fields state) serialize_end)) /\
    NoDup (fst <$> fields) /\ length fields <= 6 /\
    (forall name v, (name, v) ∈ fields <-> field_of c name = Some v) /\
    ("is_gas_price_set" ∈ fst <$> fields <-> "gas_price" ∈ fst <$> fields).
Proof.
  exists (fields_of c). split; [intros S; apply serialize_writes|].
  split; [apply fields_nodup|]. split; [apply fields_length|].
  split; [apply elem_of_fields|].
  assert (forall name, name ∈ fst <$> fields_of c <-> is_Some (field_of c name)) as Hin.
  { intros name. rewrite list_elem_of_fmap. split.
    - intros ([k v] & -> & Hk%elem_of_fields). by exists v.
    - intros [v Hv%elem_of_fields]. by exists (name, v). }
  rewrite !Hin. unfold field_of. simpl. by rewrite !fmap_is_Some.
Qed.

(** A serializer that never fails and returns the fields it was given. *)
Definition recorder : Serializer AccAddress :=
  {| SerOk := list Field; SerError := Empty_set; SerializeStruct := list Field;
     serialize_struct _ _ := Ok [];
     serialize_field st name v := Ok (st ++ [(name, v)])%list;
     serialize_end := Ok |}.

Lemma recorder_writes fields st : @write_fields recorder fields st = Ok (st ++ fields)%list.
Proof.
  revert st. induction fields as [|[name v] fields IH]; intros st; simpl; [by rewrite app_nil_r|].
  by rewrite IH, <- app_assoc.
Qed.

(** C37: After any calls of the setters on the default config, each field that is
    serialized holds what the last setter of that field was given, and no field
    is serialized that no setter was called for. *)
Theorem setters_serialize (xs : list Setter) :
  exists fields : list Field,
    @TxConfig_serialize recorder (foldl set TxConfig_default xs) = Ok fields /\
    forall name, (list_to_map fields : gmap string (SerValue AccAddress)) !! name
      = last (omap (setter_writes name) xs).
Proof.
  exists (fields_of (foldl set TxConfig_default xs)). split.
  { rewrite serialize_writes. cbn. by rewrite recorder_writes. }
  intros name. apply option_eq. intros v.
  rewrite <- elem_of_list_to_map by apply fields_nodup.
  rewrite elem_of_fields, sets_field. destruct (last _); [done|].
  unfold field_of. simpl. by repeat case_match.
Qed.
End TxConfig.
