(* ===== verification/Rpc.v ===== *)
(** service/src/rpc/blob.rs and state.rs: the part of the node's JSON-RPC
    interface that the repository declares, a record of operations per trait, and
    the two servers that are to implement it, whose bodies are not written yet.
    The routing by the names on the wire is generated by the [rpc] macro. *)

From S2P Require Import Prelude TxConfig.

Local Open Scope string_scope.

(** The types of celestia-types and jsonrpsee the methods mention. *)
Class RpcTypes := {
  Namespace : Type;
  NamespaceProof : Type;
  Commitment : Type;
  RpcBlob : Type;
  RawBlob : Type;
  Address : Type;
  AccAddress : Type;
  ValAddress : Type;
  Balance : Type;
  Uint : Type;
  RawTxResponse : Type;
  QueryDelegationResponse : Type;
  QueryRedelegationsResponse : Type;
  QueryUnbondingDelegationResponse : Type;
  PendingSubscriptionSink : Type;
  ErrorObjectOwned : Type;
  StringError : Type;
}.

Section Rpc.
  Context `{RpcTypes}.

(** What a method comes to: its result, an error object, or a panic. *)
Abbreviation reply A := (outcome (result A ErrorObjectOwned)).

Abbreviation Options := (TxConfig (AccAddress := AccAddress)).

Record BlobsAtHeight : Type := {
  blobs : option (list RpcBlob);
  height : N;
}.

Definition SubcriptionResult : Type := result unit StringError.

(** [trait Blob]. *)
Record BlobServer : Type := {
  blob_get (height : N) (namespace : Namespace) (commitment : Commitment) : reply RpcBlob;
  blob_get_all (height : N) (namespaces : list Namespace) : reply (option (list RpcBlob));
  blob_get_proof (height : N) (namespace : Namespace) (commitment : Commitment)
    : reply (list NamespaceProof);
  blob_included (height : N) (namespace : Namespace) (proof : NamespaceProof)
    (commitment : Commitment) : reply bool;
  blob_submit (blobs : list RpcBlob) (opts : Options) : reply N;
  blob_subscribe (pending : PendingSubscriptionSink) (namespace : Namespace)
    : outcome SubcriptionResult;
}.

(** [trait State]. *)
Record StateServer : Type := {
  state_account_address : reply Address;
  state_balance : reply Balance;
  state_balance_for_address (addr : Address) : reply Balance;
  state_begin_redelegate (src dest : ValAddress) (amount : Uint) (config : Options)
    : reply RawTxResponse;
  state_cancel_unbonding_delegation (addr : ValAddress) (amount height : Uint) (config : Options)
    : reply RawTxResponse;
  state_delegate (addr : ValAddress) (amount : Uint) (config : Options) : reply RawTxResponse;
  state_is_stopped : reply bool;
  state_query_delegation (addr : ValAddress) : reply QueryDelegationResponse;
  state_query_redelegations (src dest : ValAddress) : reply QueryRedelegationsResponse;
  state_query_unbonding (addr : ValAddress) : reply QueryUnbondingDelegationResponse;
  state_submit_pay_for_blob (blobs : list RawBlob) (config : Options) : reply RawTxResponse;
  state_transfer (to : AccAddress) (amount : Uint) (config : Options) : reply RawTxResponse;
  state_undelegate (addr : ValAddress) (amount : Uint) (config : Options) : reply RawTxResponse;
}.

(** [todo!()] and [unimplemented!()]. *)
Definition todo {A} : outcome A := Panicked "not yet implemented".
Definition unimplemented {A} : outcome A := Panicked "not implemented".

(** [impl BlobServer for BlobServerImpl]. *)
Definition BlobServerImpl : BlobServer :=
  {| blob_submit blobs opts := todo;
     blob_get height namespace commitment := todo;
     blob_get_all height namespaces := unimplemented;
     blob_get_proof height namespace commitment := unimplemented;
     blob_included height namespace proof commitment := unimplemented;
     blob_subscribe pending namespace := unimplemented |}.

(** [impl StateServer for StateServerImpl]. *)
Definition StateServerImpl : StateServer :=
  {| state_submit_pay_for_blob blobs config := todo;
     state_account_address := unimplemented;
     state_balance := unimplemented;
     state_balance_for_address addr := unimplemented;
     state_begin_redelegate src dest amount config := unimplemented;
     state_cancel_unbonding_delegation addr amount height config := unimplemented;
     state_delegate addr amount config := unimplemented;
     state_is_stopped := unimplemented;
     state_query_delegation addr := unimplemented;
     state_query_redelegations src dest := unimplemented;
     state_query_unbonding addr := unimplemented;
     state_transfer to amount config := unimplemented;
     state_undelegate addr amount config := unimplemented |}.
End Rpc.
