(* ===== verification/Cli.v ===== *)
(** zkVM/sp1/src/bin/cli.rs: the command-line prover, which runs or proves the
    guest once on an example input and checks the result; and vkey.rs, which
    prints the verifying key. The SP1 clients are classes; a command prints
    lines, exits or panics. *)

From S2P Require Import Prelude Format ZkvmCommon Guest Job Http Effects Environment.

Open Scope pda_scope.
Local Open Scope string_scope.

(** The command's arguments. *)
Record Args : Type := { execute : bool; cli_prove : bool; cli_n : N }.

(** The client [ProverClient::from_env] builds: [execute] with the number of
    instructions of its report, [setup], [prove] with [groth16], [verify]. *)
Class CliClient `{Platform} := {
  client_execute : bytes -> SP1Stdin -> result (bytes * N) string;
  client_setup : bytes -> SP1ProvingKey * SP1VerifyingKey;
  client_prove : SP1ProvingKey -> SP1Stdin -> result SP1ProofWithPublicValues string;
  client_verify : SP1ProofWithPublicValues -> SP1VerifyingKey -> result unit string;
}.

(** The client [ProverClient::builder().cpu().build()] of vkey.rs, and
    [HashableKey::bytes32]. *)
Class VkeyClient `{Platform} := {
  cpu_setup : bytes -> SP1ProvingKey * SP1VerifyingKey;
  bytes32 : SP1VerifyingKey -> string;
}.

(** The client runs the guest, proves its runs, and accepts what it proved. *)
Class CliClientLaws `{Sp1Facts, !CliClient} : Prop := {
  execute_runs stdin pv cycles :
    client_execute CHACHA_ELF stdin = Ok (pv, cycles) -> guest_execute stdin = Returned pv;
  client_setup_of elf : setup_of elf (client_setup elf);
  client_prove_of key stdin p : client_prove key stdin = Ok p -> proof_of key stdin p;
  client_verify_accepts p key : verified p key -> client_verify p key = Ok tt;
}.

(** How the command ends: the lines it printed, or the code it exits with. *)
Inductive CliEnd : Type :=
| Printed (lines : list string)
| Exited (code : Z).

(** [assert_eq!]. *)
Definition assert_eq {A} `{EqDecision A} (left right : A) : outcome unit :=
  if decide (left = right) then Returned tt
  else Panicked "assertion `left == right` failed".

Section Cli.
  Context `{Platform, !CliClient} (INPUT_BYTES : bytes).

(** The key, and the input of the guest. *)
Definition cli_key (env : string -> result string string) : outcome (array KEY_LEN) :=
  letp text := expect id "Missing ENCRYPTION_KEY env var" (env "ENCRYPTION_KEY") in
  match from_hex text with
  | Ok key => Returned key
  | Err _ => Panicked "ENCRYPTION_KEY must be 32 bytes, hex encoded (ex: `1234...abcd`)"
  end.

(** The branch [--execute]. *)
Definition cli_execute (input_key : array KEY_LEN) (input_nonce : array NONCE_LEN) (stdin : SP1Stdin)
    : outcome CliEnd :=
  letp '(output_buffer, cycles) := expect id "called `Result::unwrap()` on an `Err` value"
                                     (client_execute CHACHA_ELF stdin) in
  letp parsed := from_bytes output_buffer in
  letp output := expect id "Failed to parse header" parsed in
  let input_plaintext_digest := sha256 INPUT_BYTES in
  letp _ := assert_eq input_nonce (nonce output) in
  letp output_plaintext := chacha input_key (nonce output) (ciphertext output) in
  letp _ := assert_eq output_plaintext INPUT_BYTES in
  let input_key_hash := sha256 input_key in
  letp _ := assert_eq input_key_hash (privkey_hash output) in
  Returned (Printed
    ["Input -> plaintext hash: 0x" +:+ bytes_to_hex input_plaintext_digest;
     "Decryption of zkVM ciphertext matches input!";
     "Key used matched!";
     "Number of cycles: " +:+ pretty cycles]).

(** The branch [--prove]. *)
Definition cli_prove_branch (stdin : SP1Stdin) : outcome CliEnd :=
  let '(pk, vk) := client_setup CHACHA_ELF in
  letp proof := expect id "failed to generate proof" (client_prove pk stdin) in
  letp _ := expect id "failed to verify proof" (client_verify proof vk) in
  Returned (Printed ["Successfully generated proof!"; "Successfully verified proof!"]).

(** [main]; [env] and [rng] are the process environment and the random number
    generator. *)
Definition cli_main (env : string -> result string string)
    (rng : array NONCE_LEN -> result (array NONCE_LEN) string) (args : Args) : outcome CliEnd :=
  if bool_decide (execute args = cli_prove args) then Returned (Exited 1)
  else
    let stdin := stdin_new in
    letp input_key := cli_key env in
    let stdin := write_slice stdin input_key in
    letp input_nonce := random_nonce rng in
    let stdin := write_slice stdin input_nonce in
    let stdin := write_slice stdin INPUT_BYTES in
    if execute args then cli_execute input_key input_nonce stdin else cli_prove_branch stdin.
End Cli.

(** [main] of zkVM/sp1/src/bin/vkey.rs. *)
Definition vkey_main `{Platform, !VkeyClient} : CliEnd :=
  let '(_, vk) := cpu_setup CHACHA_ELF in Printed [bytes32 vk].

Section Vkey.
  Context `{Sp1Laws, !VkeyClient} (cpu_setup_of : forall elf, setup_of elf (cpu_setup elf)).

(** The printed key is the verifying key of every setup of the guest, so the one
    that the service verifies proofs with. *)
Lemma vkey_is_setup_key keys :
  setup_of CHACHA_ELF keys -> vkey_main = Printed [bytes32 (snd keys)].
Proof.
  intros Hs. pose proof (setup_of_vk _ _ _ (cpu_setup_of CHACHA_ELF) Hs) as Hvk.
  unfold vkey_main. destruct (cpu_setup CHACHA_ELF) as [pk vk]. simpl in Hvk. by rewrite Hvk.
Qed.
End Vkey.

Section CliClaims.
  Context `{Sp1Facts, !CliClient, !CliClientLaws, !ChaCha20Laws, !ZkvmIoLaws} (INPUT_BYTES : bytes).
  Context (env : string -> result string string).
  Context (rng : array NONCE_LEN -> result (array NONCE_LEN) string).
  Context (key : array KEY_LEN) (nonce : array NONCE_LEN).

Lemma assert_eq_refl {A} `{EqDecision A} (a : A) : assert_eq a a = Returned tt.
Proof. unfold assert_eq. by rewrite decide_True. Qed.

Lemma cli_main_run args text :
  execute args <> cli_prove args -> env "ENCRYPTION_KEY" = Ok text -> from_hex text = Ok key ->
  rng (array_zero NONCE_LEN) = Ok nonce ->
  cli_main INPUT_BYTES env rng args =
    if execute args then cli_execute INPUT_BYTES key nonce (guest_stdin key nonce INPUT_BYTES)
    else cli_prove_branch (guest_stdin key nonce INPUT_BYTES).
Proof.
  intros Ha He Hk Hr. unfold cli_main. rewrite bool_decide_false by done.
  unfold cli_key, random_nonce. rewrite He. cbn. by rewrite Hk, Hr.
Qed.

(** C35: the self-check of the command line. Whatever key, nonce and input, when
    the client executes the guest, the output parses and the three assertions
    of [--execute] hold: the nonce is the one given, decryption with the key
    gives the input back, and the committed key hash is that of the key. *)
Theorem cli_execute_passes args text pv cycles :
  execute args = true -> cli_prove args = false ->
  env "ENCRYPTION_KEY" = Ok text -> from_hex text = Ok key ->
  rng (array_zero NONCE_LEN) = Ok nonce ->
  client_execute CHACHA_ELF (guest_stdin key nonce INPUT_BYTES) = Ok (pv, cycles) ->
  cli_main INPUT_BYTES env rng args = Returned (Printed
    ["Input -> plaintext hash: 0x" +:+ bytes_to_hex (sha256 INPUT_BYTES);
     "Decryption of zkVM ciphertext matches input!"; "Key used matched!";
     "Number of cycles: " +:+ pretty cycles]).
Proof.
  intros Hx Hp He Hk Hr Hc. rewrite (cli_main_run _ text); [|congruence|done..].
  rewrite Hx. unfold cli_execute. rewrite Hc. cbn [expect outcome_bind].
  pose proof (execute_runs _ _ _ Hc) as Hg.
  apply guest_output_decrypts in Hg as (k & o & Hkey & Ho & Hph & _ & Hn & Hd).
  apply array_eq in Hkey as ->. apply array_eq in Hn as <-.
  rewrite Ho. cbn [expect outcome_bind]. rewrite assert_eq_refl. cbn [outcome_bind].
  rewrite Hd. cbn [outcome_bind]. rewrite assert_eq_refl, Hph. cbn [outcome_bind].
  by rewrite assert_eq_refl.
Qed.

(** With [--prove], the proof that the client returns is accepted by the
    command's own verification, under the verifying key of the same setup, so
    the command ends by printing both lines: a proof it made is never rejected. *)
Theorem cli_prove_verifies `{!Sp1Laws} args text p :
  execute args = false -> cli_prove args = true ->
  env "ENCRYPTION_KEY" = Ok text -> from_hex text = Ok key ->
  rng (array_zero NONCE_LEN) = Ok nonce ->
  client_prove (fst (client_setup CHACHA_ELF)) (guest_stdin key nonce INPUT_BYTES) = Ok p ->
  cli_main INPUT_BYTES env rng args =
    Returned (Printed ["Successfully generated proof!"; "Successfully verified proof!"]).
Proof.
  intros Hx Hv He Hk Hr Hp. rewrite (cli_main_run _ text); [|congruence|done..].
  rewrite Hx. unfold cli_prove_branch. pose proof (client_setup_of CHACHA_ELF) as Hs.
  destruct (client_setup CHACHA_ELF) as [pk vk]. simpl in Hp. rewrite Hp. cbn [expect outcome_bind].
  apply client_prove_of in Hp.
  by rewrite (client_verify_accepts p vk (proof_of_verified (pk, vk) _ p Hs Hp)).
Qed.
End CliClaims.
