(* ===== verification/Codec.v ===== *)
(** A length-prefixed binary format in the manner of bincode, used by
    Reference.v to instantiate the codecs of the service. Lengths are written in
    unary so that every value has an encoding. *)

From S2P Require Import Prelude Job.

(** A format for [T]: a value is read from the front of a byte string. *)
Record codec (T : Type) : Type := {
  enc : T -> bytes;
  dec : bytes -> option (T * bytes);
}.
Arguments enc {T} _ _.
Arguments dec {T} _ _.

(** What is written is read back, and what is read was written. *)
Class CodecOk {T} (c : codec T) : Prop := {
  dec_enc x r : dec c (enc c x ++ r) = Some (x, r);
}.

Class CodecExact {T} (c : codec T) : Prop := {
  enc_dec b x r : dec c b = Some (x, r) -> b = enc c x ++ r;
}.

(** ** Formats *)

Fixpoint dec_nat (b : bytes) : option (nat * bytes) :=
  match b with
  | x01 :: b' => '(n, r) ← dec_nat b'; Some (S n, r)
  | x00 :: b' => Some (0, b')
  | _ => None
  end.

Definition nat_codec : codec nat := {| enc n := replicate n x01 ++ [x00]; dec := dec_nat |}.

(** [n] bytes. *)
Definition dec_take (n : nat) (b : bytes) : option (bytes * bytes) :=
  if decide (n <= length b) then Some (take n b, drop n b) else None.

Definition bytes_codec : codec bytes :=
  {| enc b := enc nat_codec (length b) ++ b;
     dec b := '(n, r) ← dec nat_codec b; dec_take n r |}.

Definition array_codec (n : nat) : codec (array n) :=
  {| enc a := arr_bytes a;
     dec b := '(v, r) ← dec_take n b; a ← result_ok (array_try_from n v); Some (a, r) |}.

Definition pair_codec {A B} (ca : codec A) (cb : codec B) : codec (A * B) :=
  {| enc x := enc ca (fst x) ++ enc cb (snd x);
     dec b := '(x, r) ← dec ca b; '(y, r') ← dec cb r; Some ((x, y), r') |}.

Definition iso_codec {A B} (f : A -> B) (g : B -> A) (ca : codec A) : codec B :=
  {| enc x := enc ca (g x); dec b := '(x, r) ← dec ca b; Some (f x, r) |}.

Definition string_codec : codec string :=
  iso_codec String.string_of_list_byte String.list_byte_of_string bytes_codec.

Fixpoint dec_times {A} (d : bytes -> option (A * bytes)) (n : nat) (b : bytes)
    : option (list A * bytes) :=
  match n with
  | O => Some ([], b)
  | S m => '(x, r) ← d b; '(l, r') ← dec_times d m r; Some (x :: l, r')
  end.

Definition list_codec {A} (ca : codec A) : codec (list A) :=
  {| enc l := enc nat_codec (length l) ++ concat (enc ca <$> l);
     dec b := '(n, r) ← dec nat_codec b; dec_times (dec ca) n r |}.

(** bincode with a codec. *)
Definition bincode_of {T} (c : codec T) : Bincode T :=
  {| serialize x := Ok (enc c x);
     deserialize b := match dec c b with
                      | Some (x, _) => Ok x
                      | None => Err "io error: unexpected end of file"%string
                      end |}.

(** ** Their laws *)

#[export] Instance nat_codec_ok : CodecOk nat_codec.
Proof.
  split. intros n r. simpl. induction n as [|n IH]; simpl in *; [done|by rewrite IH].
Qed.

#[export] Instance nat_codec_exact : CodecExact nat_codec.
Proof.
  split. simpl. intros b. induction b as [|x b IH]; intros n r; simpl; [done|].
  destruct x; try done; [by intros [= <- <-]|].
  destruct (dec_nat b) as [[m r']|]; simpl; [|done]. intros [= <- <-]. simpl.
  f_equal. by apply IH.
Qed.

Lemma dec_take_app n (v r : bytes) : length v = n -> dec_take n (v ++ r) = Some (v, r).
Proof.
  intros <-. unfold dec_take. rewrite decide_True by (rewrite length_app; lia).
  by rewrite take_app_length, drop_app_length.
Qed.

#[export] Instance bytes_codec_ok : CodecOk bytes_codec.
Proof.
  split. intros b r. cbn [enc dec bytes_codec].
  rewrite <- app_assoc, dec_enc. simpl. by apply dec_take_app.
Qed.

#[export] Instance bytes_codec_exact : CodecExact bytes_codec.
Proof.
  split. intros b x r. cbn [enc dec bytes_codec].
  destruct (dec nat_codec b) as [[n r']|] eqn:Hn; simpl; [|done].
  apply enc_dec in Hn as ->. unfold dec_take. case_decide; [|done]. intros [= <- <-].
  rewrite length_take_le by done. cbn [enc nat_codec]. by rewrite <- !app_assoc, take_drop.
Qed.

#[export] Instance array_codec_ok n : CodecOk (array_codec n).
Proof.
  split. intros a r. cbn [enc dec array_codec].
  rewrite (dec_take_app _ _ _ (array_length a)). simpl.
  by rewrite array_try_from_bytes.
Qed.

#[export] Instance pair_codec_ok {A B} (ca : codec A) (cb : codec B) :
  CodecOk ca -> CodecOk cb -> CodecOk (pair_codec ca cb).
Proof.
  intros Ha Hb. split. intros [x y] r. simpl. rewrite <- app_assoc, dec_enc. simpl.
  by rewrite dec_enc.
Qed.

#[export] Instance pair_codec_exact {A B} (ca : codec A) (cb : codec B) :
  CodecExact ca -> CodecExact cb -> CodecExact (pair_codec ca cb).
Proof.
  intros Ha Hb. split. intros b [x y] r. simpl.
  destruct (dec ca b) as [[x' r']|] eqn:Hx; simpl; [|done].
  destruct (dec cb r') as [[y' r'']|] eqn:Hy; simpl; [|done]. intros [= <- <- <-].
  apply enc_dec in Hx as ->, Hy as ->. by rewrite app_assoc.
Qed.

Lemma iso_codec_ok {A B} (f : A -> B) (g : B -> A) (ca : codec A) :
  (forall x, f (g x) = x) -> CodecOk ca -> CodecOk (iso_codec f g ca).
Proof. intros Hfg Ha. split. intros x r. simpl. rewrite dec_enc. simpl. by rewrite Hfg. Qed.

Lemma iso_codec_exact {A B} (f : A -> B) (g : B -> A) (ca : codec A) :
  (forall x, g (f x) = x) -> CodecExact ca -> CodecExact (iso_codec f g ca).
Proof.
  intros Hgf Ha. split. intros b x r. simpl.
  destruct (dec ca b) as [[y r']|] eqn:Hy; simpl; [|done]. intros [= <- <-].
  rewrite Hgf. by apply enc_dec.
Qed.

#[export] Instance string_codec_ok : CodecOk string_codec.
Proof. apply iso_codec_ok; [apply String.string_of_list_byte_of_string|apply _]. Qed.

#[export] Instance list_codec_ok {A} (ca : codec A) : CodecOk ca -> CodecOk (list_codec ca).
Proof.
  intros Ha. split. intros l r. cbn [enc dec list_codec].
  rewrite <- app_assoc, dec_enc. simpl.
  revert r. induction l as [|x l IH]; intros r; simpl; [done|].
  rewrite <- app_assoc, dec_enc. simpl. by rewrite IH.
Qed.

Lemma bincode_of_laws {T} (c : codec T) : CodecOk c -> @BincodeLaws T (bincode_of c).
Proof.
  intros Hc. split. intros x b [= <-]. simpl.
  rewrite <- (app_nil_r (enc c x)), dec_enc. done.
Qed.

Lemma bincode_of_total {T} (c : codec T) : @BincodeTotal T (bincode_of c).
Proof. split. intros x. by exists (enc c x). Qed.
