(* ===== verification/Reference.v ===== *)
(** Concrete instances of every parameter of the development, which satisfy all
    its laws, so that the theorems can be applied to closed programs: small
    stand-ins for the crates' functions (a toy hash and key stream, the format
    of Codec.v, a proof that carries its input), and a deterministic environment
    whose database never fails and whose prover network may give up on requests.
    They show that the hypotheses can hold together; no theorem depends on them. *)

From S2P Require Import Prelude Format ZkvmCommon Guest Job Http Json Effects.
From S2P Require Import Environment Runner RunnerSafe Liveness Startup Cli Codec.

Local Open Scope string_scope.

(** ** Cryptography and the guest's streams *)

(** A toy hash: the input cut or padded to 32 bytes. *)
Program Definition toy_sha256 (b : bytes) : array HASH_LEN := Array (resize HASH_LEN x00 b) _.
Next Obligation. intros b. rewrite length_resize. apply Nat.eqb_refl. Qed.

#[local] Instance ref_sha2 : Sha2 := {| sha256 := toy_sha256 |}.

(** A toy key stream: key and nonce, repeated. *)
Definition toy_keystream (key : array KEY_LEN) (nonce : array NONCE_LEN) (i : nat) : u8 :=
  byte_xor (default x00 (arr_bytes key !! (i mod KEY_LEN)))
           (default x00 (arr_bytes nonce !! (i mod NONCE_LEN))).

Definition toy_limit : N := 64 * (2 ^ 32 - 1).

Definition toy_apply_keystream (c : array KEY_LEN * array NONCE_LEN) (b : bytes)
    : outcome (bytes * (array KEY_LEN * array NONCE_LEN)) :=
  if decide (N.of_nat (length b) <= toy_limit)%N
  then Returned (imap (fun i x => byte_xor x (toy_keystream (fst c) (snd c) i)) b, c)
  else Panicked "StreamCipherError".

#[local] Instance ref_chacha : ChaCha20 :=
  {| Cipher := array KEY_LEN * array NONCE_LEN; chacha20_new := pair;
     apply_keystream := toy_apply_keystream |}.

#[export] Instance ref_chacha_laws : ChaCha20Laws.
Proof.
  refine {| keystream := toy_keystream; keystream_bytes := toy_limit |}.
  - done.
  - intros key nonce b Hb. eexists. simpl. unfold toy_apply_keystream. by rewrite decide_True.
  - intros key nonce b Hb. eexists. simpl. unfold toy_apply_keystream. rewrite decide_False; [done|lia].
Defined.

#[local] Instance ref_io : ZkvmIo :=
  {| SP1Stdin := list bytes; stdin_new := []; write_slice s b := (s ++ [b])%list;
     Io := list bytes * bytes; io_start s := (s, []);
     read_vec io := match fst io with
                    | [] => Panicked "failed to read from input stream"
                    | v :: rest => Returned (v, (rest, snd io))
                    end;
     commit_slice io b := (fst io, (snd io ++ b)%list);
     io_public_values := snd |}.

#[export] Instance ref_io_laws : ZkvmIoLaws.
Proof.
  refine {| stdin_buffers := fun s => s; pending := fst |}; try done.
  - intros [p v'] v rest Hp. simpl in *. subst. by eexists.
  - intros [p v'] Hp. simpl in *. subst. by eexists.
Defined.

(** ** The SP1 client's data *)

(** A proof is the guest's input with the public values it led to. *)
#[local] Instance ref_sp1 : Sp1Types :=
  {| SP1ProofWithPublicValues := list bytes * bytes; public_values := snd;
     SP1ProvingKey := bytes; SP1VerifyingKey := bytes;
     SP1EnvProver := unit; SP1NetworkProver := unit;
     FulfillmentStrategy := unit;
     from_str_name s := if String.eqb s "reserved" then Some tt else None;
     ErrorFields := string |}.

#[local] Instance ref_display : Sp1Display :=
  {| network_error_display e :=
       match e with
       | SimulationFailed => "Program simulation failed"
       | RequestUnexecutable _ => "Proof request is unexecutable"
       | RequestUnfulfillable _ => "Proof request is unfulfillable"
       | RequestTimedOut _ => "Proof request timed out"
       | RpcError _ => "RPC error"
       | Other s => s
       end |}.

(** ** Messages *)

#[local] Instance ref_http : HttpTypes :=
  {| HeaderMap := gmap string string; header_get h k := h !! k;
     header_remove h k := delete k h; header_empty := ∅;
     Uri := string; path_and_query u := Some u;
     uri_parse s := Ok s;
     RequestRest := unit; ResponseRest := unit; response_rest_new := tt |}.

#[export] Instance ref_http_laws : HttpLaws.
Proof.
  split; simpl; intros.
  - apply lookup_delete_eq.
  - by apply lookup_delete_ne.
  - apply lookup_empty.
Qed.

(** ** Codecs *)

Definition anchor_codec : codec Anchor := iso_codec Build_Anchor anchor_data bytes_codec.

Definition job_codec : codec Job :=
  iso_codec (fun x => {| anchor := fst x; input := {| input_data := snd x |} |})
            (fun j => (anchor j, input_data (input j))) (pair_codec anchor_codec bytes_codec).

Definition setup_codec : codec SP1ProofSetup :=
  iso_codec SP1ProofSetup_from (fun s => (pk s, vk s)) (pair_codec (A := bytes) (B := bytes) bytes_codec bytes_codec).

Definition proof_codec : codec (list bytes * bytes) := pair_codec (list_codec bytes_codec) bytes_codec.

Definition enc_error (e : PdaRunnerError) : bytes :=
  match e with
  | InternalError s => x00 :: enc string_codec s
  | ZkClientError s => x01 :: enc string_codec s
  | DaClientError s => x02 :: enc string_codec s
  | InvalidParameter s => x03 :: enc string_codec s
  end.

Definition dec_error (b : bytes) : option (PdaRunnerError * bytes) :=
  match b with
  | t :: b' =>
      '(s, r) ← dec string_codec b';
      match t with
      | x00 => Some (InternalError s, r)
      | x01 => Some (ZkClientError s, r)
      | x02 => Some (DaClientError s, r)
      | x03 => Some (InvalidParameter s, r)
      | _ => None
      end
  | [] => None
  end.

Fixpoint enc_status (st : JobStatus) : bytes :=
  match st with
  | LocalZkProofPending => [x00]
  | RemoteZkProofRequesting => [x01]
  | RemoteZkProofPending id => x02 :: arr_bytes id
  | ZkProofFinished p => x03 :: enc proof_codec p
  | Failed e None => x04 :: enc_error e
  | Failed e (Some st') => x05 :: enc_error e ++ enc_status st'
  end%list.

Fixpoint dec_status (fuel : nat) (b : bytes) : option (JobStatus * bytes) :=
  match fuel, b with
  | S n, t :: b' =>
      match t with
      | x00 => Some (LocalZkProofPending, b')
      | x01 => Some (RemoteZkProofRequesting, b')
      | x02 => '(id, r) ← dec (array_codec 32) b'; Some (RemoteZkProofPending id, r)
      | x03 => '(p, r) ← dec proof_codec b'; Some (ZkProofFinished p, r)
      | x04 => '(e, r) ← dec_error b'; Some (Failed e None, r)
      | x05 => '(e, r) ← dec_error b'; '(st, r') ← dec_status n r; Some (Failed e (Some st), r')
      | _ => None
      end
  | _, _ => None
  end.

(** Each nested status takes a byte at least, so the length is enough fuel. *)
Definition status_codec : codec JobStatus :=
  {| enc := enc_status; dec b := dec_status (length b) b |}.

#[export] Instance proof_codec_ok : CodecOk proof_codec.
Proof. apply _. Qed.

Lemma dec_enc_error e r : dec_error (enc_error e ++ r)%list = Some (e, r).
Proof.
  destruct e; cbn [enc_error dec_error app];
    by rewrite (dec_enc (c := string_codec) s r).
Qed.

Lemma dec_enc_status st : forall n r, length (enc_status st) <= n ->
  dec_status n (enc_status st ++ r)%list = Some (st, r).
Proof.
  revert st. fix IH 1. intros st n r Hn.
  destruct n as [|n]; [destruct st as [| | | |e [st|]]; simpl in Hn; lia|].
  destruct st as [| |id|p|e [st|]]; cbn [enc_status dec_status app].
  - done.
  - done.
  - change (arr_bytes id) with (enc (array_codec 32) id). by rewrite dec_enc.
  - by rewrite (dec_enc (c := proof_codec) p r).
  - rewrite <- app_assoc, dec_enc_error. simpl. rewrite IH; [done|].
    simpl in Hn. rewrite length_app in Hn. lia.
  - by rewrite dec_enc_error.
Qed.

#[export] Instance status_codec_ok : CodecOk status_codec.
Proof.
  split. intros st r. cbn [enc dec status_codec]. apply dec_enc_status. rewrite length_app. lia.
Qed.

#[export] Instance anchor_codec_ok : CodecOk anchor_codec.
Proof. apply iso_codec_ok; [by intros []|apply _]. Qed.

#[export] Instance anchor_codec_exact : CodecExact anchor_codec.
Proof. apply iso_codec_exact; [done|apply _]. Qed.

#[export] Instance job_codec_ok : CodecOk job_codec.
Proof. apply iso_codec_ok; [by intros [? []]|apply _]. Qed.

#[export] Instance job_codec_exact : CodecExact job_codec.
Proof. apply iso_codec_exact; [by intros []|apply _]. Qed.

#[export] Instance setup_codec_ok : CodecOk setup_codec.
Proof. apply iso_codec_ok; [by intros []|apply _]. Qed.

(** ** The platform *)

#[export] Instance ref_platform : Platform :=
  {| platform_sp1 := ref_sp1; platform_display := ref_display; platform_sha2 := ref_sha2;
     platform_chacha := ref_chacha; platform_io := ref_io; platform_http := ref_http;
     platform_anchor := bincode_of anchor_codec; platform_job := bincode_of job_codec;
     platform_status := bincode_of status_codec; platform_setup := bincode_of setup_codec;
     platform_proof := bincode_of proof_codec;
     CHACHA_ELF := [x7f; x45; x4c; x46];
     from_hex s := match hex_decode s with
                   | Some b => result_map_err (fun _ => "InvalidStringLength") (array_try_from KEY_LEN b)
                   | None => Err "InvalidHexCharacter"
                   end |}.

#[export] Instance ref_anchor_laws : BincodeLaws Anchor.
Proof. apply bincode_of_laws, _. Qed.

#[export] Instance ref_proof_laws : BincodeLaws SP1ProofWithPublicValues.
Proof. apply bincode_of_laws, _. Qed.

#[export] Instance ref_codecs : RunnerCodecs.
Proof. split; apply bincode_of_laws, _. Qed.

#[export] Instance ref_status_total : BincodeTotal JobStatus.
Proof. apply bincode_of_total. Qed.

#[export] Instance ref_setup_total : BincodeTotal SP1ProofSetup.
Proof. apply bincode_of_total. Qed.

Lemma job_encoding_split (j : Job) :
  enc job_codec j = (enc anchor_codec (anchor j) ++ enc bytes_codec (input_data (input j)))%list.
Proof. done. Qed.

#[export] Instance ref_job_format : JobFormat.
Proof.
  split.
  - intros j b [= <-]. exists (enc anchor_codec (anchor j)), (enc bytes_codec (input_data (input j))).
    split; [done|]. split; [done|]. cbn [enc bytes_codec nat_codec].
    intros Hb%(f_equal length). rewrite !length_app in Hb. simpl in Hb. lia.
  - intros k j.
    change (deserialize k) with
      (match dec job_codec k with
       | Some (x, _) => Ok x
       | None => Err "io error: unexpected end of file"
       end). destruct (dec job_codec k) as [[j' r]|] eqn:Hd; [|done]. intros [= <-].
    apply enc_dec in Hd. by exists (enc job_codec j'), r.
  - intros a a' b b' Ha Ha' [r Hr].
    assert (enc anchor_codec a' = enc anchor_codec a ++ r)%list as He by (simpl in *; congruence).
    pose proof (dec_enc (c := anchor_codec) a' []) as Hd. rewrite app_nil_r, He, dec_enc in Hd.
    injection Hd as <- ->. simpl in *. congruence.
Qed.

(** ** The SP1 client *)

(** The key the stand-in provers serve. *)
Definition toy_key : array KEY_LEN := toy_sha256 [x42].

(** The longest plaintext they serve. *)
Definition toy_plaintext : nat := 19.

Definition is_provable (stdin : list bytes) : bool :=
  match stdin with
  | [k; n; d] => bool_decide (k = arr_bytes toy_key) && bool_decide (length n = NONCE_LEN) &&
                 bool_decide (length d <= toy_plaintext)
  | _ => false
  end.

(** A request id holds the nonce, the length of the plaintext and the plaintext. *)
Definition request_bytes (stdin : list bytes) : bytes :=
  match stdin with
  | [_; n; d] => n ++ [default x00 (Byte.of_N (N.of_nat (length d)))] ++ d
  | _ => []
  end%list.

Program Definition request_id (stdin : list bytes) : SuccNetJobId :=
  Array (resize 32 x00 (request_bytes stdin)) _.
Next Obligation. intros stdin. rewrite length_resize. apply Nat.eqb_refl. Qed.

Definition request_stdin (id : SuccNetJobId) : list bytes :=
  let b := arr_bytes id in
  [arr_bytes toy_key; take NONCE_LEN b;
   take (N.to_nat (Byte.to_N (default x00 (b !! NONCE_LEN)))) (drop (S NONCE_LEN) b)].

#[export] Instance ref_facts : Sp1Facts :=
  {| setup_of elf keys := keys = (elf, elf);
     provable _ stdin := is_provable stdin = true;
     proof_of _ stdin p := fst p = stdin /\ guest_execute stdin = Returned (snd p);
     requested id _ stdin := stdin = request_stdin id;
     verified p _ := guest_execute (fst p) = Returned (snd p) |}.

#[export] Instance ref_sp1_laws : Sp1Laws.
Proof.
  split; simpl.
  - by intros keys stdin p _ [_ ?].
  - by intros keys stdin p _ [<- ?].
  - by intros elf keys keys' -> ->.
  - intros keys p _ Hv. by exists (fst p).
Qed.

Lemma provable_form stdin :
  is_provable stdin = true ->
  exists n d, stdin = [arr_bytes toy_key; n; d] /\ length n = NONCE_LEN /\ length d <= toy_plaintext.
Proof.
  destruct stdin as [|k [|n [|d []]]]; try done. unfold is_provable.
  rewrite !andb_true_iff, !bool_decide_eq_true.
  intros [[-> ?] ?]. by exists n, d.
Qed.

Lemma small_byte n : n <= toy_plaintext ->
  N.to_nat (Byte.to_N (default x00 (Byte.of_N (N.of_nat n)))) = n.
Proof.
  intros Hn. unfold toy_plaintext in Hn. do 20 (destruct n as [|n]; [done|]). lia.
Qed.

Lemma request_id_stdin stdin : is_provable stdin = true -> request_stdin (request_id stdin) = stdin.
Proof.
  intros (n & d & -> & Hn & Hd)%provable_form. unfold request_stdin, request_id. cbn [arr_bytes request_bytes].
  rewrite resize_ge by (rewrite !length_app, Hn; simpl; unfold toy_plaintext in *; lia).
  set (x := default x00 _). rewrite <- app_assoc. cbn [app].
  rewrite take_app_length', (list_lookup_middle n _ x NONCE_LEN) by done.
  change (default x00 (Some x)) with x. subst x. rewrite small_byte by done.
  rewrite drop_app_ge by (rewrite Hn; lia). rewrite Hn.
  replace (S NONCE_LEN - NONCE_LEN) with 1 by lia. cbn [drop].
  by rewrite drop_0, take_app_length' by done.
Qed.

(** The guest runs on every input the stand-in provers serve. *)
Lemma guest_served n d :
  length n = NONCE_LEN -> length d <= 32 ->
  exists pv, @guest_execute _ _ ref_io [arr_bytes toy_key; n; d] = Returned pv.
Proof.
  intros Hn Hd. change [arr_bytes toy_key; n; d] with (guest_stdin toy_key n d).
  destruct (array_try_from_ok NONCE_LEN n Hn) as (n' & _ & <-).
  destruct (guest_execute_sealed toy_key n' d) as (ct & _ & Hg); [|by eexists].
  unfold in_keystream. simpl. unfold toy_limit. lia.
Qed.

(** ** JSON *)

Inductive Json : Type :=
| JStr (s : string)
| JNum (n : N)
| JArr (l : list Json)
| JObj (fields : list (string * Json)).

Fixpoint enc_json (v : Json) : bytes :=
  match v with
  | JStr s => x00 :: enc string_codec s
  | JNum n => x01 :: enc nat_codec (N.to_nat n)
  | JArr l => x02 :: enc nat_codec (length l) ++ concat (map enc_json l)
  | JObj fs => x03 :: enc nat_codec (length fs) ++
      concat (map (fun f => enc string_codec (fst f) ++ enc_json (snd f)) fs)
  end%list.

Fixpoint dec_json (fuel : nat) (b : bytes) : option (Json * bytes) :=
  match fuel, b with
  | S n, t :: b' =>
      match t with
      | x00 => '(s, r) ← dec string_codec b'; Some (JStr s, r)
      | x01 => '(m, r) ← dec nat_codec b'; Some (JNum (N.of_nat m), r)
      | x02 => '(m, r) ← dec nat_codec b'; '(l, r') ← dec_times (dec_json n) m r; Some (JArr l, r')
      | x03 =>
          let field b := '(k, r) ← dec string_codec b; '(v, r') ← dec_json n r; Some ((k, v), r') in
          '(m, r) ← dec nat_codec b'; '(fs, r') ← dec_times field m r; Some (JObj fs, r')
      | _ => None
      end
  | _, _ => None
  end.

(** The first field [k] of an object, and its replacement. *)
Fixpoint field_get (fs : list (string * Json)) (k : string) : option Json :=
  match fs with
  | [] => None
  | (k', v) :: fs' => if String.eqb k k' then Some v else field_get fs' k
  end.

Fixpoint field_set (fs : list (string * Json)) (k : string) (x : Json) : list (string * Json) :=
  match fs with
  | [] => []
  | (k', v) :: fs' => if String.eqb k k' then (k', x) :: fs' else (k', v) :: field_set fs' k x
  end.

Definition j_get (v : Json) (k : string) : option Json :=
  match v with JObj fs => field_get fs k | _ => None end.

Definition j_set (v : Json) (k : string) (x : Json) : Json :=
  match v with JObj fs => JObj (field_set fs k x) | v => v end.

(** A blob: namespace and data. Its JSON form holds both as strings. *)
Definition blob_json_of (b : bytes * bytes) : Json :=
  JObj [("namespace", JStr (String.string_of_list_byte (fst b)));
        ("data", JStr (String.string_of_list_byte (snd b)))].

Definition json_blob_of (v : Json) : result (bytes * bytes) string :=
  match v with
  | JObj [("namespace", JStr n); ("data", JStr d)] =>
      Ok (String.list_byte_of_string n, String.list_byte_of_string d)
  | _ => Err "invalid blob"
  end.

Fixpoint json_blobs_of (l : list Json) : result (list (bytes * bytes)) string :=
  match l with
  | [] => Ok []
  | v :: l' =>
      match json_blob_of v, json_blobs_of l' with
      | Ok b, Ok bs => Ok (b :: bs)
      | _, _ => Err "invalid blob"
      end
  end.

#[export] Instance ref_payload : Payload :=
  {| Value := Json;
     from_slice b := match dec_json (length b) b with
                     | Some (v, []) => Ok v
                     | _ => Err "expected value"
                     end;
     to_vec v := Ok (enc_json v);
     json_get := j_get; json_set := j_set;
     as_str v := match v with JStr s => Some s | _ => None end;
     as_array v := match v with JArr l => Some l | _ => None end;
     json_array := JArr; json_object := JObj; json_string := JStr; json_number := JNum;
     Blob := bytes * bytes; Namespace := bytes;
     blob_namespace := fst; blob_data := snd;
     blob_with_data b d := (fst b, d);
     blob_new n d := Ok (n, d);
     blob_from_value := json_blob_of; blob_to_value b := Ok (blob_json_of b);
     blobs_from_value v := match v with JArr l => json_blobs_of l | _ => Err "invalid blobs" end;
     blobs_to_value l := Ok (JArr (blob_json_of <$> l)) |}.

Lemma field_get_set fs k x y :
  field_get fs k = Some x -> field_get (field_set fs k y) k = Some y.
Proof.
  induction fs as [|[k' v] fs IH]; simpl; [done|].
  destruct (String.eqb k k') eqn:Ek; simpl; rewrite Ek; [done|apply IH].
Qed.

Lemma field_get_set_ne fs k k' y :
  k <> k' -> field_get (field_set fs k y) k' = field_get fs k'.
Proof.
  intros Hne. induction fs as [|[k'' v] fs IH]; simpl; [done|].
  destruct (String.eqb_spec k k'') as [<-|Hk]; simpl.
  - by destruct (String.eqb_spec k' k) as [->|_].
  - by rewrite IH.
Qed.

Lemma json_blob_of_blob b : json_blob_of (blob_json_of b) = Ok b.
Proof.
  destruct b as [n d]. simpl. by rewrite !String.list_byte_of_string_of_list_byte.
Qed.

#[export] Instance ref_payload_laws : PayloadLaws.
Proof.
  split; simpl; try done.
  - intros v k x y. destruct v; simpl; try done. apply field_get_set.
  - intros v k k' y. destruct v; simpl; try done. apply field_get_set_ne.
  - by intros n d b [= <-].
  - intros b v [= <-]. apply json_blob_of_blob.
  - intros l v [= <-]. induction l as [|b l IH]; [done|].
    cbn [fmap list_fmap json_blobs_of]. by rewrite json_blob_of_blob, IH.
Qed.

(** ** The environment *)

Section Environment.
  (** The error with which the prover network gives up on accepted requests, if
      it does, and how the Celestia node answers. *)
  Context (gives_up : option SP1NetworkError) (node : Request bytes -> result (Response Incoming) string).

(** What waiting for a proof ends with. *)
Definition wait_answer {A} (r : result A AnyhowError) : result A AnyhowError :=
  match gives_up with Some e => Err (Sp1Network e) | None => r end.

Definition network_faults : Faults :=
  {| io_errors := false; client_errors := false;
     refusals := match gives_up with Some _ => true | None => false end |}.

Definition prove_stdin (stdin : list bytes) : result (list bytes * bytes) AnyhowError :=
  match guest_execute stdin with
  | Returned pv => Ok (stdin, pv)
  | Panicked _ => Err (Sp1Network SimulationFailed)
  end.

Definition verify_proof (p : list bytes * bytes) : result unit string :=
  match @guest_execute _ _ ref_io (fst p) with
  | Returned pv => if decide (pv = snd p) then Ok tt else Err "invalid proof"
  | Panicked _ => Err "invalid proof"
  end.

Definition ref_handle (o : Op) (s : Store) : Store * ans o :=
  match o return Store * ans o with
  | SledGet t k => (s, Ok (tree s t !! k))
  | SledInsert t k v => (set_tree s t (<[k := v]> (tree s t)), Ok tt)
  | SledTransaction body => (tx_apply s body, Ok tt)
  | SledFlush _ => (s, Ok tt)
  | SledIter t => (s, Ok <$> map_to_list (tree s t))
  | ChanSend m =>
      if inbox_open s then (set_tasks s (inbox s ++ [m])%list (spawned s) (exited s), Ok tt)
      else (s, Err "channel closed")
  | ChanRecv =>
      match inbox s with
      | [] => (s, None)
      | x :: rest => (set_tasks s rest (spawned s) (exited s), Some x)
      end
  | SpawnProve job => (set_tasks s (inbox s) (spawned s ++ [job])%list (exited s), tt)
  | ProcessExit code => (set_tasks s (inbox s) (spawned s) (Some code), tt)
  | EnvVar name =>
      (s, match env_vars s !! name with Some v => Ok v | None => Err "environment variable not found" end)
  | OsRngFill _ => (s, Ok (array_zero NONCE_LEN))
  | CellGet c => (s, cell_get s c)
  | CellInit c v => match cell_get s c with Some v0 => (s, v0) | None => (cell_put s c v, v) end
  | BuildLocal => (s, Returned tt)
  | BuildRemote => (s, Returned tt)
  | SetupLocal _ elf => (s, Ok (elf, elf))
  | SetupRemote _ elf => (s, Ok (elf, elf))
  | ProveLocal _ _ stdin =>
      (s, if is_provable stdin then prove_stdin stdin else Err (Sp1Network SimulationFailed))
  | RequestRemote _ _ stdin _ _ _ =>
      (s, if is_provable stdin then Ok (request_id stdin) else Err (Sp1Network SimulationFailed))
  | WaitProof _ id _ => (s, wait_answer (prove_stdin (request_stdin id)))
  | Verify _ p _ => (s, verify_proof p)
  | DaRequest req => (forward s req, node req)
  end.

#[local] Instance ref_env : Env := {| World := Store; handle := ref_handle; view := id |}.

Lemma wait_answer_ok {A} (r : result A AnyhowError) a : wait_answer r = Ok a -> r = Ok a.
Proof. unfold wait_answer. by destruct gives_up. Qed.

(** An operation fails only where the client does not serve. *)
Lemma unserved {A} (r : result A AnyhowError) (served : Prop) :
  (served -> is_ok r = true) -> is_ok r = false -> ~ served.
Proof. intros Hr Hf Hs%Hr. congruence. Qed.

(** Waiting fails only when the network gives up. *)
Lemma wait_answer_err {A} (r : result A AnyhowError) :
  is_ok r = true -> is_ok (wait_answer r) = false -> refusals network_faults = true.
Proof. unfold wait_answer. simpl. destruct gives_up; congruence. Qed.

Lemma prove_stdin_ok stdin p :
  prove_stdin stdin = Ok p -> fst p = stdin /\ @guest_execute _ _ ref_io stdin = Returned (snd p).
Proof. unfold prove_stdin. destruct (@guest_execute _ _ ref_io stdin) eqn:Hg; [|done]. by intros [= <-]. Qed.

Lemma prove_provable stdin : is_provable stdin = true -> is_ok (prove_stdin stdin) = true.
Proof.
  intros (n & d & -> & Hn & Hd)%provable_form. unfold prove_stdin.
  destruct (guest_served n d Hn) as [pv ->]; [unfold toy_plaintext in Hd; lia|done].
Qed.

Lemma prove_request id : is_ok (prove_stdin (request_stdin id)) = true.
Proof.
  unfold prove_stdin, request_stdin.
  destruct (guest_served (take NONCE_LEN id)
    (take (N.to_nat (Byte.to_N (default x00 (arr_bytes id !! NONCE_LEN)))) (drop (S NONCE_LEN) id)))
    as [pv ->]; [| |done].
  - rewrite length_take, array_length. done.
  - rewrite length_take, length_drop, array_length. lia.
Qed.

Lemma omap_ok {A} (l : list A) : omap result_ok (Ok (E := string) <$> l) = l.
Proof. induction l as [|a l IH]; [done|]. cbn. by rewrite IH. Qed.

Lemma ref_env_laws : EnvLaws network_faults.
Proof.
  split. intros o s Ho. destruct o; simpl in *; auto.
  - rewrite omap_ok. split; [done|]. by split.
  - by destruct (inbox_open s).
  - destruct (inbox s) as [|x rest]; [done|]. by exists x, rest.
  - split; [done|]. by destruct (env_vars s !! name).
  - by destruct (cell_get s c).
  - split; [done|]. by eexists.
  - split; [done|]. by eexists.
  - split; [done|]. split; [done|]. by intros keys [= <-].
  - split; [done|]. split; [done|]. by intros keys [= <-].
  - split; [done|]. split.
    + intros Hf. right. right. revert Hf. apply unserved. intros Hp. rewrite Hp. by apply prove_provable.
    + intros p Hp. destruct (is_provable stdin); [|done]. by apply prove_stdin_ok.
  - split; [done|]. split.
    + intros Hf. right. right. revert Hf. apply unserved. intros Hp. by rewrite Hp.
    + intros id Hp. destruct (is_provable stdin) eqn:Hs; [|done].
      injection Hp as <-. by rewrite request_id_stdin.
  - split; [done|]. split.
    + intros Hf. right. left. revert Hf. apply (wait_answer_err (prove_stdin _)), prove_request.
    + intros p key stdin Hp%wait_answer_ok ->. by apply prove_stdin_ok.
  - split; [done|]. unfold verify_proof. split.
    + intros Hf. right. intros Hv. rewrite Hv in Hf. by rewrite decide_True in Hf.
    + destruct (@guest_execute _ _ ref_io (fst proof)) as [pv|msg]; [|done]. by case_decide; subst.
Qed.
End Environment.

(** ** The command-line prover's client *)

#[export] Instance ref_cli : CliClient :=
  {| client_execute _ stdin :=
       match @guest_execute _ _ ref_io stdin with
       | Returned pv => Ok (pv, N.of_nat (length pv))
       | Panicked msg => Err msg
       end;
     client_setup elf := (elf, elf);
     client_prove _ stdin := result_map_err (fun _ => "proof failed") (prove_stdin stdin);
     client_verify p _ := verify_proof p |}.

#[export] Instance ref_cli_laws : CliClientLaws.
Proof.
  split; simpl.
  - intros stdin pv cycles. destruct (@guest_execute _ _ ref_io stdin) eqn:Hg; [|done]. intros Hr. by simplify_eq.
  - done.
  - intros _ stdin p Hp. apply prove_stdin_ok. destruct (prove_stdin stdin); simpl in Hp; congruence.
  - intros p _ Hv. unfold verify_proof. rewrite Hv. by case_decide.
Qed.
