(* ===== verification/Scenario.v ===== *)
(** Closed states of the reference environment for the witnesses: a database
    with a job at each stage of its life, and requests that submit and read
    blobs. *)

From S2P Require Import Prelude Format ZkvmCommon Guest Job Http Json Effects.
From S2P Require Import Environment Runner Invariant RunnerSafe Concurrency.
From S2P Require Import Lifecycle Liveness Proxy ProxyFacts Submit Startup Codec.
From S2P Require Import SocketAddr Boot Traces Nonce Carried Signals Process Reference.

Local Open Scope string_scope.

(** ** States *)

(** The process environment, by the prover. *)
Definition vars (prover : string) : gmap string string :=
  list_to_map [("SP1_PROVER", prover); ("SP1_FULFILLMENT_STRATEGY", "reserved");
               ("ENCRYPTION_KEY", bytes_to_hex (arr_bytes toy_key))].

(** A new database. *)
Definition fresh (prover : string) : Store :=
  {| config_db := ∅; queue_db := ∅; finished_db := ∅; inbox := []; inbox_open := true;
     spawned := []; env_vars := vars prover; cell_id := None; cell_setup := None;
     cell_local := None; cell_remote := None; exited := None; forwarded := [] |}.

(** The node answers every request with an empty result. *)
Definition quiet_node (req : Request bytes) : result (Response Incoming) string :=
  Ok {| resp_status := 200; resp_headers := ∅; resp_rest := tt;
        resp_body := Ok (enc_json (JObj [("result", JStr "ok")])) |}.

#[export] Instance scenario_env : Env := ref_env None quiet_node.

#[export] Instance scenario_laws : EnvLaws no_faults.
Proof. exact (ref_env_laws None quiet_node). Qed.

Definition runner : PdaRunner := PdaRunner_new {| zk_proof_gen_timeout_remote := 3600 |}.

Definition plaintext : bytes := [x68; x65; x6c; x6c; x6f].

Definition the_blob : Blob := ([x6e; x73], plaintext).

Definition the_job : Job := blob_job the_blob.

Definition the_key : bytes := enc anchor_codec (anchor the_job).

(** What is left of a database after requests and worker steps for [the_job]. *)
Definition history (prover : string) (cs : list Command) : Store :=
  foldl (run_command runner) (fresh prover) cs.

Definition queued_store (prover : string) : Store := history prover [Ask the_job].

Definition done_store : Store := history "mock" [Ask the_job; Work the_job].

Lemma the_job_anchored : anchored the_job.
Proof. done. Qed.

Lemma fresh_inv prover : inv (vars prover) (fresh prover).
Proof.
  split; simpl; [done| |done|by intros ? ?%elem_of_nil|by intros ? ?%elem_of_nil].
  intros [] k b; simpl; by rewrite lookup_empty.
Qed.

Lemma fresh_exclusive prover : exclusive (fresh prover).
Proof. intros k. by left. Qed.

Lemma history_ok prover cs :
  Forall (fun c => command_job c = the_job) cs ->
  inv (vars prover) (history prover cs) /\ exclusive (history prover cs).
Proof.
  unfold history. intros Hcs. generalize (fresh_inv prover), (fresh_exclusive prover).
  generalize (fresh prover). induction Hcs as [|c cs Hc Hcs IH]; intros s Hi Hx; [done|].
  simpl. apply IH.
  - apply (run_command_inv (L := scenario_laws) runner (vars prover) s c Hi). by rewrite Hc.
  - assert (serialize (anchor (command_job c)) = Ok the_key) as Hk by (by rewrite Hc).
    by destruct (run_command_moves (L := scenario_laws) runner (vars prover) s c the_key Hi Hx Hk).
Qed.

Lemma queued_healthy prover : inv (vars prover) (queued_store prover) /\ exclusive (queued_store prover).
Proof. apply history_ok. by repeat constructor. Qed.

Lemma done_healthy : inv (vars "mock") done_store /\ exclusive done_store.
Proof. apply history_ok. by repeat constructor. Qed.

(** The proof that [done_store] holds. *)
Definition the_proof : list bytes * bytes :=
  match job_state done_store the_key with JDone p => p | _ => ([], []) end.

(** ** Requests *)

Definition authorized : gmap string string :=
  list_to_map [("authorization", "Bearer token"); ("content-length", "100")].

Definition request_with (headers : gmap string string) (body : Value) : Request Incoming :=
  {| req_uri := "/"; req_headers := headers; req_rest := tt; req_body := Ok (enc_json body) |}.

Definition submit_json : Value :=
  JObj [("method", JStr "blob.Submit"); ("params", JArr [JArr [blob_json_of the_blob]; JNum 1])].

Definition height_json : Value := JObj [("method", JStr "header.LocalHead"); ("params", JArr [])].

Definition submit_request : Request Incoming := request_with authorized submit_json.

Definition height_request : Request Incoming := request_with authorized height_json.

Definition socket : string := "127.0.0.1:26658".

(** The blob that replaces [the_blob]. *)
Definition the_encrypted : Blob := (fst the_blob, enc proof_codec the_proof).

(** The node's answer to [blob.Get]. *)
Definition get_answer : Response Incoming :=
  {| resp_status := 200; resp_headers := ∅; resp_rest := tt;
     resp_body := Ok (enc_json (JObj [("result", blob_json_of the_encrypted)])) |}.

(** ** Checks of the states *)

Definition is_done (js : JobState) : bool := match js with JDone _ => true | _ => false end.

Definition is_queued (js : JobState) (name : string) : bool :=
  match js with JQueued st => String.eqb (JobStatus_fmt st) name | _ => false end.

Example done_store_checked : is_done (job_state done_store the_key) = true.
Proof. vm_compute. reflexivity. Qed.

Example queued_store_checked :
  is_queued (job_state (queued_store "mock") the_key) "LocalZkProofPending" = true.
Proof. vm_compute. reflexivity. Qed.

Lemma done_store_done : job_state done_store the_key = JDone the_proof.
Proof. pose proof done_store_checked. unfold the_proof. by destruct (job_state _ _). Qed.

(** ** The start of the process *)

(** A system whose files, sockets and databases all open: a file is its name. *)
#[export] Instance ref_system : System :=
  {| File := string; open_file := Ok;
     CertificateDer := string; PrivateKeyDer := string;
     pemfile_certs file := [Ok file]; pemfile_private_key file := Ok (Some file);
     Db := string; DbTree := string * string;
     sled_open := Ok; open_tree db name := Ok (db, name);
     TcpListener := SocketAddr; bind_listener := Ok;
     ServerConfig := list string * string * list string;
     with_single_cert certs key := Ok (certs, key, []);
     set_alpn_protocols config protocols := (fst config, protocols);
     with_native_roots := Ok tt |}.

Definition boot_vars : gmap string string :=
  vars "mock" ∪ list_to_map
    [("CELESTIA_NODE_SOCKET", socket); ("PDA_SOCKET", "0.0.0.0:26657"); ("PDA_DB_PATH", "db");
     ("TLS_CERTS_PATH", "cert.pem"); ("TLS_KEY_PATH", "key.pem");
     ("PROOF_GEN_TIMEOUT_SECONDS_REMOTE", "3600")].

Definition var_of (vs : gmap string string) (name : string) : result string string :=
  match vs !! name with Some v => Ok v | None => Err "environment variable not found" end.

Definition booted : Booted :=
  {| da_node_socket := SocketAddrV4 {| octet1 := 127; octet2 := 0; octet3 := 0; octet4 := 1 |} 26658;
     trees := (("db", "config"), ("db", "queue"), ("db", "finished"));
     listener := SocketAddrV4 {| octet1 := 0; octet2 := 0; octet3 := 0; octet4 := 0 |} 26657;
     server_config := (["cert.pem"], "key.pem", ["http/1.1"; "http/1.0"]);
     connector := https_only;
     runner_config := {| zk_proof_gen_timeout_remote := 3600 |} |}.

(** ** The lives of the process *)

#[export] Instance scenario_launch : Launch.
Proof. by refine {| start := id |}. Defined.

(** A first process serves a submit, which queues its job, and is killed before
    the worker takes it; the second finds the database as it was then. *)
Definition two_lives : list ProcessEvent :=
  replicate 4 (Turn 2) ++ [Accept (Ok [submit_request])] ++ replicate 12 (Turn 3) ++
  [Kill; Start 16; Turn 2; Turn 2].

Abbreviation lives :=
  (process_run (Ev := scenario_env) runner (vars "mock") Linux socket 5 two_lives
    (launch (Ev := scenario_env) 5 (reopened (vars "mock") (fresh "mock") []) [] [])).

(** The second process panics at the queued job, before it accepts anything. *)
Example second_life_panics : ended lives = Some MainPanicked /\ length (served lives) = 1.
Proof. split; vm_compute; reflexivity. Qed.

(** A process that serves, with its handlers registered and a job in the channel. *)
Definition registrations : Registrations :=
  {| reg_sigterm := Ok tt; reg_sigint := Ok tt; reg_sighup := Ok tt; reg_ctrl_c := Ok tt |}.

Abbreviation serving :=
  (process_run (Ev := scenario_env) runner (vars "mock") Linux socket 5
    (HookStarts registrations :: replicate 16 (Turn 0) ++ replicate 4 (Turn 2) ++
     [Accept (Ok [submit_request])] ++ replicate 12 (Turn 3))
    (launch (Ev := scenario_env) 5 (reopened (vars "mock") (fresh "mock") []) [] [])).

(** Submits a pay-for-blob transaction, which the proxy does not intercept. *)
Definition pay_json : Value :=
  JObj [("method", JStr "state.SubmitPayForBlob"); ("params", JArr [JArr [blob_json_of the_blob]])].

Definition pay_request : Request Incoming := request_with authorized pay_json.

(** The same environment, but the prover network accepts every request and then
    gives up on it. *)
Definition timeout_env : Env := ref_env (Some (RequestTimedOut "late")) quiet_node.

Lemma timeout_laws : EnvLaws (E := timeout_env) only_refusals.
Proof. exact (ref_env_laws (Some (RequestTimedOut "late")) quiet_node). Qed.

(** Its SP1 client refuses with an error of its own. *)
Lemma timeout_known o w : op_known o (snd (@handle _ timeout_env o w)).
Proof.
  assert (forall stdin e, prove_stdin stdin = Err e -> downcast_ref e <> None) as Hp.
  { intros stdin e. unfold prove_stdin. destruct (@guest_execute _ _ ref_io stdin); [done|].
    by intros [= <-]. }
  destruct o; simpl; try done; intros e.
  - destruct (is_provable stdin); [apply Hp|by intros [= <-]].
  - destruct (is_provable stdin); [done|by intros [= <-]].
  - by intros [= <-].
Qed.
