(* ===== verification/Race.v ===== *)
(** What the invariant does not give: the request handler looks up the finished
    tree and the queue in two steps, and a job can be finished and removed from
    the queue in between. Run alone, a handler keeps a key out of one of the two
    trees (Lifecycle.v); interleaved, it does not. *)

From S2P Require Import Prelude Format ZkvmCommon Guest Job Http Json Effects.
From S2P Require Import Environment Runner Invariant RunnerSafe Concurrency.
From S2P Require Import Lifecycle Liveness Proxy ProxyFacts Submit Startup Codec.
From S2P Require Import Reference Scenario.

Local Open Scope string_scope.

(** Two clients that submit the same blob, and the worker. *)
Definition race_clients : list (Request Incoming) := [submit_request].

Definition race_tasks : list (prog TaskResult) :=
  [connection_task socket submit_request; worker_task 5; connection_task socket submit_request].

(** The first request looks up the finished tree and is suspended; the second
    comes, the worker starts the proof, it is made and stored; the first goes on. *)
Definition race_schedule : list nat :=
  [0; 0] ++ replicate 10 2 ++ replicate 2 1 ++ replicate 40 3 ++ replicate 10 0.

(** The job is finished, queued, and sent to the worker. *)
Definition both (s : Store) : bool :=
  match finished_db s !! the_key, queue_db s !! the_key, inbox s with
  | Some _, Some _, [Some _] => true
  | _, _, _ => false
  end.

Lemma both_spec s : both s = true -> ~ exclusive s /\ exists job, inbox s = [Some job].
Proof.
  unfold both. destruct (finished_db s !! the_key) as [b|] eqn:Hb; [|done].
  destruct (queue_db s !! the_key) as [b'|] eqn:Hb'; [|done].
  destruct (inbox s) as [|[job|] []]; try done. intros _.
  split; [|by exists job]. intros Hx. destruct (Hx the_key); congruence.
Qed.

Lemma race_reached :
  both (view (world (pool_after (Ev := scenario_env) runner (fresh "mock") race_tasks race_schedule)))
  = true.
Proof. vm_compute. reflexivity. Qed.

(** C22: two requests with one new blob can both start its job. From a new
    database, with nothing failing, there is a schedule of two submits and the
    worker after which the job has its proof and is queued again, with a message
    to the worker that has it proved, and paid for, a second time. *)
Theorem requests_race :
  exists ts schedule, Forall (service_task runner socket race_clients) ts /\
    inv (vars "mock") (fresh "mock") /\ exclusive (fresh "mock") /\
    let s := view (world (pool_after (Ev := scenario_env) runner (fresh "mock") ts schedule)) in
    ~ exclusive s /\ exists job, inbox s = [Some job].
Proof.
  exists race_tasks, race_schedule. split.
  { repeat constructor. }
  split; [apply fresh_inv|]. split; [apply fresh_exclusive|].
  exact (both_spec _ race_reached).
Qed.
