(* ===== verification/Witnesses.v ===== *)
(** The theorems at closed inputs: each witness applies its theorem in the
    reference environment, to the states and requests of Scenario.v, with every
    hypothesis discharged. *)

From Stdlib Require Import Arith.Cantor.
From S2P Require Import Prelude Format ZkvmCommon Guest Job Http Json Effects.
From S2P Require Import Environment Runner Invariant RunnerSafe Concurrency.
From S2P Require Import Lifecycle Liveness Proxy ProxyFacts Submit Startup Cli Codec.
From S2P Require Import SocketAddr Boot Traces Nonce Cost Submission Carried Completes.
From S2P Require Import Fair Signals Process Restart Shutdown Reference Scenario.

Local Open Scope string_scope.

(** ** The guest and its output *)

Definition zero_nonce : array NONCE_LEN := array_zero NONCE_LEN.

Lemma plaintext_in_keystream : in_keystream plaintext.
Proof. unfold in_keystream. vm_compute. discriminate. Qed.

Lemma guest_execute_total_witness :
  exists pv, guest_execute (guest_stdin toy_key zero_nonce plaintext) = Returned pv.
Proof.
  apply (guest_execute_total (arr_bytes toy_key) (arr_bytes zero_nonce) plaintext).
  split; [reflexivity|]. split; [reflexivity|]. exact plaintext_in_keystream.
Defined.

Lemma guest_decrypts_witness :
  exists pv o, guest_execute (guest_stdin toy_key zero_nonce plaintext) = Returned pv /\
    from_bytes pv = Returned (Ok o) /\
    nonce o = zero_nonce /\ privkey_hash o = sha256 toy_key /\ plaintext_hash o = sha256 plaintext /\
    chacha toy_key (nonce o) (ciphertext o) = Returned plaintext.
Proof. exact (guest_decrypts toy_key zero_nonce plaintext plaintext_in_keystream). Defined.

Lemma chacha_nonce_reuse_witness :
  exists c1 c2, chacha toy_key zero_nonce plaintext = Returned c1 /\
    chacha toy_key zero_nonce [x01; x02; x03; x04; x05] = Returned c2 /\
    zip_with byte_xor c1 c2 = zip_with byte_xor plaintext [x01; x02; x03; x04; x05].
Proof.
  exists (default [] (match chacha toy_key zero_nonce plaintext with Returned c => Some c | _ => None end)),
    (default [] (match chacha toy_key zero_nonce [x01; x02; x03; x04; x05] with
                 | Returned c => Some c | _ => None end)).
  split; [vm_compute; reflexivity|]. split; [vm_compute; reflexivity|].
  apply (chacha_nonce_reuse toy_key zero_nonce); vm_compute; reflexivity.
Defined.

(** ** The life of a job *)

Lemma request_spec_witness :
  request_post (vars "mock") the_job the_key done_store
    (fst (run (get_verifiable_encryption the_job) done_store))
    (snd (run (get_verifiable_encryption the_job) done_store)).
Proof.
  apply (request_spec (Ev := scenario_env) (f := no_faults) (vars "mock") done_store the_job the_key);
    [reflexivity|vm_compute; reflexivity|apply done_healthy|reflexivity].
Defined.

Lemma request_refines_witness :
  moves the_key (fresh "network") (fst (run (get_verifiable_encryption the_job) (fresh "network"))).
Proof.
  apply (request_refines (Ev := scenario_env) (f := no_faults) (vars "network") (fresh "network") the_job the_key);
    [apply fresh_inv|apply fresh_exclusive|reflexivity].
Defined.

Lemma prove_refines_witness :
  moves the_key (queued_store "mock") (fst (run (prove runner the_job) (queued_store "mock"))).
Proof.
  apply (prove_refines (Ev := scenario_env) (f := no_faults) runner (vars "mock") (queued_store "mock") the_job the_key);
    [apply queued_healthy|apply queued_healthy|reflexivity].
Defined.

Lemma proof_is_final_witness :
  job_state (foldl (run_command runner) done_store [Work the_job; Ask the_job]) the_key = JDone the_proof.
Proof.
  apply (proof_is_final (Ev := scenario_env) (f := no_faults) runner (vars "mock") done_store
           [Work the_job; Ask the_job] the_key the_proof).
  - apply done_healthy.
  - apply done_healthy.
  - repeat constructor; by exists the_key.
  - apply done_store_done.
Defined.

Lemma queued_store_queued : exists st, job_state (queued_store "mock") the_key = JQueued st.
Proof.
  pose proof queued_store_checked as Hq. unfold is_queued in Hq.
  destruct (job_state _ _) as [|st| | |]; try discriminate Hq. by exists st.
Qed.

Lemma queued_job_waits_witness :
  exists st, let r := run (ask_times 5 the_job) (queued_store "mock") in
    snd r = Returned (replicate 5 (Ok None)) /\
    inbox (fst r) = inbox (queued_store "mock") /\ job_state (fst r) the_key = JQueued st.
Proof.
  destruct queued_store_queued as [st Hst]. exists st.
  apply (queued_job_waits (Ev := scenario_env) (f := no_faults) (vars "mock") (queued_store "mock") 5 the_job the_key st);
    [reflexivity|vm_compute; reflexivity|apply queued_healthy|reflexivity|reflexivity|exact Hst].
Defined.

Lemma client_error_stored_witness :
  exists e, snd (run (handle_zk_client_error (RequestTimedOut "late") the_job the_key) (queued_store "mock"))
      = Returned e /\
    finalized the_key (Failed e (Some RemoteZkProofRequesting)) (queued_store "mock")
      (fst (run (handle_zk_client_error (RequestTimedOut "late") the_job the_key) (queued_store "mock"))) /\
    job_state (fst (run (handle_zk_client_error (RequestTimedOut "late") the_job the_key)
      (queued_store "mock"))) the_key = JFailed e (Some RemoteZkProofRequesting).
Proof.
  exact (client_error_stored (Ev := scenario_env) (f := no_faults) (queued_store "mock") (RequestTimedOut "late")
           the_job the_key eq_refl).
Defined.

Lemma toy_key_hex : from_hex (bytes_to_hex (arr_bytes toy_key)) = Ok toy_key.
Proof.
  unfold from_hex, ref_platform. by rewrite bytes_to_hex_decode, array_try_from_bytes.
Qed.

Lemma vars_configured prover : configured (vars prover).
Proof.
  split; [exists (bytes_to_hex (arr_bytes toy_key)), toy_key|exists "reserved", tt];
    (split; [reflexivity|]); [apply toy_key_hex|reflexivity].
Qed.

Lemma vars_key prover : is_key (vars prover) toy_key.
Proof. exists (bytes_to_hex (arr_bytes toy_key)). split; [reflexivity|apply toy_key_hex]. Qed.

Lemma the_job_accepted prover : accepted (vars prover) the_job.
Proof.
  intros s stdin _ (text & key & n & Ht & Hk & ->).
  assert (text = bytes_to_hex (arr_bytes toy_key)) as ->
    by (apply (inj Some); rewrite <- Ht; reflexivity).
  assert (key = toy_key) as -> by (pose proof toy_key_hex; congruence).
  simpl. rewrite !andb_true_iff, !bool_decide_eq_true.
  by split; [exact (array_length n)|].
Qed.

Lemma fresh_healthy prover : healthy (vars prover) (fresh prover).
Proof. split; [apply fresh_inv|apply fresh_exclusive|done]. Qed.

Lemma job_completes_witness :
  exists p, snd (run (ask_again runner 2 the_job) (fresh "network")) = Returned (Ok (Some p)) /\
    seals (vars "network") p (sha256 plaintext).
Proof.
  apply (job_completes (Ev := scenario_env) runner (vars "network") (fresh "network") the_job the_key
           "network" 2);
    [apply vars_configured|apply the_job_accepted|reflexivity|reflexivity|apply fresh_healthy
    |reflexivity|reflexivity|reflexivity].
Defined.

(** ** Interleavings *)

Definition pool_tasks : list (prog TaskResult) :=
  [connection_task socket submit_request; worker_task 3; request_task the_job;
   connection_task socket submit_request].

(** A submit, the worker, the task it starts, and the two other requests. *)
Definition pool_schedule : list nat :=
  replicate 10 0 ++ replicate 2 1 ++ replicate 40 4 ++ replicate 10 2 ++ replicate 10 3.

Lemma pool_tasks_ok : Forall (service_task runner socket [submit_request]) pool_tasks.
Proof. repeat constructor. Qed.

#[local] Abbreviation final_pool :=
  (pool_after (Ev := scenario_env) runner (fresh "mock") pool_tasks pool_schedule).

Definition has_proof (s : Store) : bool :=
  match finished_db s !! the_key with Some _ => true | None => false end.

Lemma has_proof_inv s : has_proof s = true -> exists b, finished_db s !! the_key = Some b.
Proof. unfold has_proof. destruct (_ !! _) as [b|]; [by exists b|done]. Qed.

Example final_pool_finished : has_proof (view (world final_pool)) = true.
Proof. vm_compute. reflexivity. Qed.

Lemma interleaving_statuses_witness :
  exists b, finished_db (view (world final_pool)) !! the_key = Some b /\
    exists st, deserialize b = Ok st /\ is_final st = true.
Proof.
  destruct (has_proof_inv _ final_pool_finished) as [b Hb]. exists b. split; [exact Hb|].
  destruct (interleaving_statuses (Ev := scenario_env) (f := no_faults) runner (vars "mock")
    socket [submit_request] (fresh "mock") pool_tasks pool_schedule the_key b (fresh_inv "mock") pool_tasks_ok) as [_ Hf].
  exact (Hf Hb).
Defined.

Definition answered (t : option (prog TaskResult)) : bool :=
  match t with
  | Some (Ret (Answer job (Ok (Some p)))) =>
      bool_decide (anchor_data (anchor job) = anchor_data (anchor the_job)) &&
      bool_decide (input_data (input job) = input_data (input the_job))
  | _ => false
  end.

Example final_pool_answered : answered (tasks final_pool !! 2) = true.
Proof. vm_compute. reflexivity. Qed.

Lemma answered_inv t : answered t = true -> exists p, t = Some (Ret (Answer the_job (Ok (Some p)))).
Proof.
  destruct t as [[[[[a] [i]] [[p|]|]|r|]| |]|]; simpl; try discriminate.
  rewrite andb_true_iff, !bool_decide_eq_true. intros [-> ->]. by exists p.
Qed.

Lemma interleaving_answers_witness :
  exists p, tasks final_pool !! 2 = Some (Ret (Answer the_job (Ok (Some p)))) /\
    seals (vars "mock") p (sha256 plaintext).
Proof.
  destruct (answered_inv _ final_pool_answered) as [p Hp].
  exists p. split; [exact Hp|].
  exact (interleaving_answers (Ev := scenario_env) (f := no_faults) runner (vars "mock") socket
           [submit_request] (fresh "mock") pool_tasks pool_schedule 2 the_job p (fresh_inv "mock") pool_tasks_ok the_job_anchored Hp).
Defined.

Definition sent_count (s : Store) : nat := length (forwarded s).

Example final_pool_sent : sent_count (view (world final_pool)) = 1.
Proof. vm_compute. reflexivity. Qed.

Lemma sent_one s : sent_count s = 1 -> exists out, forwarded s = [out].
Proof. unfold sent_count. destruct (forwarded s) as [|out []]; try done. by exists out. Qed.

Lemma interleaving_forwards_witness :
  exists out req uri, forwarded (view (world final_pool)) = [out] /\ req ∈ [submit_request] /\
    forwards (sealed_blob (vars "mock")) (with_uri req uri) out.
Proof.
  destruct (sent_one _ final_pool_sent) as [out Hout].
  destruct (interleaving_forwards (Ev := scenario_env) (f := no_faults) runner (vars "mock") socket
    [submit_request] (fresh "mock") pool_tasks pool_schedule out (fresh_inv "mock") pool_tasks_ok)
    as [Hb|(req & uri & Hr & _ & _ & Hf)].
  - rewrite Hout. by left.
  - exfalso. by apply elem_of_nil in Hb.
  - exists out, req, uri. split; [exact Hout|]. split; [exact Hr|exact Hf].
Defined.

Definition closing_store : Store :=
  set_tasks (fresh "mock") [Some the_job; None; Some the_job] [] None.

Lemma worker_drains_witness :
  let r := run (job_worker 2) closing_store in
  trace (job_worker 2) closing_store =
    [ChanRecv; SpawnProve the_job; ChanRecv; SledFlush QueueDb; SledFlush FinishedDb; ProcessExit 0] /\
  snd r = Returned tt /\ spawned (fst r) = [the_job] /\ exited (fst r) = Some 0%Z /\
  inbox (fst r) = [Some the_job] /\ queue_db (fst r) = ∅ /\ finished_db (fst r) = ∅.
Proof.
  exact (worker_drains (Ev := scenario_env) (f := no_faults) closing_store [the_job] [Some the_job] 2
           eq_refl (le_n 2)).
Defined.

(** ** The start of the process *)


Lemma restart_sends_witness :
  let r := run restart_jobs (queued_store "mock") in
  exists entries, entries ⊆+ map_to_list (queue_db (queued_store "mock")) /\
    (io_errors no_faults = false -> entries ≡ₚ map_to_list (queue_db (queued_store "mock"))) /\
    queue_db (fst r) = queue_db (queued_store "mock") /\
    inbox (fst r) = (inbox (queued_store "mock") ++ (Some <$> fst (restart_spec entries)))%list /\
    if snd (restart_spec entries) then snd r = Returned tt else exists msg, snd r = Panicked msg.
Proof.
  apply (restart_sends (Ev := scenario_env) (f := no_faults) (queued_store "mock")).
  vm_compute. reflexivity.
Defined.

Definition queue_is_empty (s : Store) : bool :=
  match queue_db s !! the_key with Some _ => false | None => true end.

Lemma queue_not_empty s : queue_is_empty s = false -> queue_db s <> ∅.
Proof. unfold queue_is_empty. intros Hq He. by rewrite He, lookup_empty in Hq. Qed.

Lemma restart_panics_witness :
  (exists msg, snd (run restart_jobs (queued_store "mock")) = Panicked msg) /\
  inbox (fst (run restart_jobs (queued_store "mock"))) = inbox (queued_store "mock").
Proof.
  apply (restart_panics (Ev := scenario_env) (f := no_faults) (vars "mock") (queued_store "mock")).
  - reflexivity.
  - vm_compute. reflexivity.
  - apply queued_healthy.
  - apply queue_not_empty. vm_compute. reflexivity.
Defined.

(** ** The proxy *)

Definition the_uri : string := "https://127.0.0.1:26658/".

Lemma submit_request_submits s :
  env_vars s !! "UNSAFE_HTTP_UPSTREAM" = None ->
  submits s socket submit_request the_uri submit_json [the_blob] [JNum 1].
Proof.
  intros Hs. split.
  - reflexivity.
  - unfold upstream_uri. rewrite Hs. reflexivity.
  - exists (enc_json submit_json). split; [reflexivity|vm_compute; reflexivity].
  - reflexivity.
  - exists (JArr [blob_json_of the_blob]). split; [reflexivity|vm_compute; reflexivity].
Qed.

Lemma done_store_ready : ready done_store the_blob the_encrypted.
Proof.
  exists the_key, the_proof, (enc proof_codec the_proof).
  split; [reflexivity|]. split; [exact done_store_done|]. by split.
Qed.

Lemma submit_waits_witness :
  let r := run (handle_request socket submit_request) (fresh "mock") in
  snd r = Returned pending_response /\ forwarded (fst r) = [] /\
  queued_first (vars "mock") (fresh "mock") (fst r) the_blob the_key.
Proof.
  apply (submit_waits (Ev := scenario_env) (f := no_faults) (vars "mock") eq_refl (fresh "mock") socket
           submit_request the_uri submit_json [] [] the_blob the_key [] [JNum 1]).
  - apply fresh_inv.
  - reflexivity.
  - apply submit_request_submits. reflexivity.
  - constructor.
  - split; [reflexivity|right]. split; [reflexivity|].
    exists "mock", LocalZkProofPending. split; reflexivity.
Defined.

Lemma submit_forwards_witness :
  exists json, forwarded (fst (run (handle_request socket submit_request) done_store)) =
    (forwarded done_store ++ [rewrite_request (with_uri submit_request the_uri) json])%list.
Proof.
  exists (enc_json (json_set submit_json "params" (JArr [JArr [blob_json_of the_encrypted]; JNum 1]))).
  apply (submit_forwards (Ev := scenario_env) (f := no_faults) (vars "mock") eq_refl done_store socket
           submit_request the_uri submit_json [the_blob] [the_encrypted] [JNum 1]
           (JArr [blob_json_of the_encrypted])).
  - apply done_healthy.
  - vm_compute. reflexivity.
  - apply submit_request_submits. vm_compute. reflexivity.
  - constructor; [exact done_store_ready|constructor].
  - reflexivity.
  - reflexivity.
Defined.

Lemma other_methods_forwarded_witness :
  forwarded (fst (run (handle_request socket height_request) (fresh "mock"))) =
    [rewrite_request (with_uri height_request the_uri) (enc_json height_json)].
Proof.
  apply (other_methods_forwarded (Ev := scenario_env) (f := no_faults) (vars "mock") (fresh "mock") socket
           height_request the_uri (enc_json height_json) height_json (enc_json height_json));
    [reflexivity|reflexivity|reflexivity|vm_compute; reflexivity|reflexivity|reflexivity|apply fresh_inv].
Defined.

Lemma unauthorized_rejected_witness :
  fst (run (handle_request socket (request_with ∅ submit_json)) (fresh "mock")) = fresh "mock" /\
  snd (run (handle_request socket (request_with ∅ submit_json)) (fresh "mock")) = Returned bad_auth_response.
Proof.
  exact (unauthorized_rejected (Ev := scenario_env) (f := no_faults) (fresh "mock") socket
           (request_with ∅ submit_json) eq_refl).
Defined.

Example submit_sent : sent_count (fst (run (handle_request socket submit_request) done_store)) = 1.
Proof. vm_compute. reflexivity. Qed.

Lemma submit_is_encrypted_witness :
  exists uri out, forwards (sealed_blob (vars "mock")) (with_uri submit_request uri) out /\
    forwarded (fst (run (handle_request socket submit_request) done_store)) = (forwarded done_store ++ [out])%list.
Proof.
  destruct (submit_is_encrypted (Ev := scenario_env) (f := no_faults) (vars "mock") done_store socket
    submit_request (proj1 done_healthy)) as [Hs|(uri & out & _ & _ & Hf & Hs & _)].
  - exfalso. assert (sent_count (fst (run (handle_request socket submit_request) done_store))
      = sent_count done_store) as Hc by (unfold sent_count; f_equal; exact Hs).
    rewrite submit_sent in Hc. vm_compute in Hc. discriminate Hc.
  - exists uri, out. split; [exact Hf|exact Hs].
Defined.

Definition is_returned {A} (r : outcome A) : bool := match r with Returned _ => true | _ => false end.

Lemma is_returned_inv {A} (r : outcome A) : is_returned r = true -> exists a, r = Returned a.
Proof. destruct r as [a|msg]; [by exists a|done]. Qed.

(** The proof that is done opens to the plaintext. *)
Lemma the_blob_decrypts : decrypts (vars "mock") the_encrypted the_blob.
Proof.
  assert (match from_bytes (public_values the_proof) with
          | Returned (Ok o) =>
              match chacha toy_key (nonce o) (ciphertext o) with
              | Returned d => bool_decide (d = plaintext)
              | Panicked _ => false
              end
          | _ => false
          end = true) as Ho by (vm_compute; reflexivity).
  destruct (from_bytes _) as [[o|e]|msg] eqn:Hfb; [|discriminate Ho..].
  destruct (chacha _ _ _) as [d|msg] eqn:Hc; [|discriminate Ho].
  apply bool_decide_eq_true in Ho as ->.
  exists toy_key, the_proof, (SP1ProofSetup_from (H := @platform_sp1 ref_platform) (CHACHA_ELF, CHACHA_ELF)), o, plaintext.
  split; [apply vars_key|]. split; [reflexivity|]. split; [reflexivity|].
  split; [vm_compute; reflexivity|]. done.
Qed.

(** The node's answer, and the proxy's. *)
Definition get_sealed : Value := JObj [("result", blob_json_of the_encrypted)].
Definition get_opened : Value := JObj [("result", blob_json_of the_blob)].


Lemma submitted_blob_reads_back_witness :
  exists d, snd (@run _ scenario_env _ (verify_decrypt_blob the_encrypted toy_key) done_store)
      = Returned (Ok (blob_with_data the_encrypted d)) /\
    sha256 d = sha256 plaintext /\ blob_namespace the_encrypted = blob_namespace the_blob.
Proof.
  exact (submitted_blob_reads_back (Ev := scenario_env) (vars "mock") done_store the_blob the_encrypted
           toy_key (proj1 done_healthy) done_store_ready (vars_key "mock")).
Defined.

Lemma verified_proof_opens_witness :
  exists pv key data o, from_bytes pv = Returned (Ok o) /\
    privkey_hash o = sha256 (arr_bytes key) /\ plaintext_hash o = sha256 data /\
    chacha key (nonce o) (ciphertext o) = Returned data.
Proof.
  destruct (guest_served (arr_bytes zero_nonce) plaintext) as [pv Hpv];
    [reflexivity|vm_compute; repeat constructor|].
  exists pv.
  exact (verified_proof_opens (CHACHA_ELF, CHACHA_ELF)
           ([arr_bytes toy_key; arr_bytes zero_nonce; plaintext], pv) eq_refl Hpv).
Defined.

(** The whole way: the answer to [blob.Get] that reaches the client holds the
    plaintext that was submitted. *)
Example get_returns_plaintext :
  match snd (@run _ scenario_env _ (outbound_handler get_answer "blob.Get") done_store) with
  | Returned (Ok r) => bool_decide (resp_body r = enc_json (JObj [("result", blob_json_of the_blob)]))
  | _ => false
  end = true.
Proof. vm_compute. reflexivity. Qed.

(** ** The command line *)

Definition cli_env : string -> result string string := var_of (vars "mock").

(** The public values of the command's run of the guest. *)
Definition cli_values : bytes :=
  match client_execute CHACHA_ELF (guest_stdin toy_key zero_nonce plaintext) with
  | Ok (pv, _) => pv
  | Err _ => []
  end.

Lemma cli_runs :
  client_execute CHACHA_ELF (guest_stdin toy_key zero_nonce plaintext) = Ok (cli_values, 81%N).
Proof. vm_compute. reflexivity. Qed.

Lemma cli_proves :
  client_prove (fst (client_setup CHACHA_ELF)) (guest_stdin toy_key zero_nonce plaintext) =
    Ok ([arr_bytes toy_key; arr_bytes zero_nonce; plaintext], cli_values).
Proof. vm_compute. reflexivity. Qed.

Lemma cli_execute_passes_witness :
  cli_main plaintext cli_env Ok {| execute := true; cli_prove := false; cli_n := 20 |} =
    Returned (Printed
      ["Input -> plaintext hash: 0x" +:+ bytes_to_hex (sha256 plaintext);
       "Decryption of zkVM ciphertext matches input!"; "Key used matched!";
       "Number of cycles: 81"]).
Proof.
  exact (cli_execute_passes plaintext cli_env Ok toy_key zero_nonce
           {| execute := true; cli_prove := false; cli_n := 20 |} (bytes_to_hex (arr_bytes toy_key))
           cli_values 81%N eq_refl eq_refl eq_refl toy_key_hex eq_refl cli_runs).
Defined.

Lemma cli_prove_verifies_witness :
  cli_main plaintext cli_env Ok {| execute := false; cli_prove := true; cli_n := 20 |} =
    Returned (Printed ["Successfully generated proof!"; "Successfully verified proof!"]).
Proof.
  exact (cli_prove_verifies plaintext cli_env Ok toy_key zero_nonce
           {| execute := false; cli_prove := true; cli_n := 20 |} (bytes_to_hex (arr_bytes toy_key))
           ([arr_bytes toy_key; arr_bytes zero_nonce; plaintext], cli_values) eq_refl eq_refl eq_refl toy_key_hex eq_refl cli_proves).
Defined.

(** ** The start of the process *)

Lemma boots : boot (var_of boot_vars) = Returned (Ok booted).
Proof.
  apply bootable_boot. split; by repeat eexists.
Qed.

Lemma boot_serves_witness : bootable (var_of boot_vars) booted.
Proof. exact (proj1 (boot_serves (var_of boot_vars) booted) boots). Defined.

Lemma boot_env_reads name : result_ok (var_of boot_vars name) = boot_vars !! name.
Proof. unfold var_of. by destruct (boot_vars !! name). Qed.

(** A process with these variables, before its first request. *)
Definition boot_store : Store := reopened boot_vars (fresh "mock") [].

Lemma boot_store_inv : inv boot_vars boot_store.
Proof. by destruct (fresh_inv "mock"). Qed.

Lemma boot_configures_witness :
  exists sent, forwarded (fst (run (handle_request socket height_request) boot_store)) = sent /\
    length sent = 1 /\ forall out, out ∈ sent -> req_uri out = "https://127.0.0.1:26658/".
Proof.
  destruct (boot_configures (Ev := scenario_env) (f := no_faults) (var_of boot_vars) boot_vars booted
    boot_store height_request boot_env_reads boots boot_store_inv) as (_ & _ & sent & Hs & Hall).
  exists sent. split; [exact Hs|]. split.
  - transitivity (sent_count (fst (run (handle_request socket height_request) boot_store))); [|vm_compute; reflexivity].
    exact (f_equal length (eq_sym Hs)).
  - intros out Ho. apply Hall in Ho. vm_compute in Ho. by injection Ho.
Defined.

(** ** Schedules, nonces and lives *)

Lemma nonces_are_drawn_witness :
  let es := log (Ev := scenario_env) runner pool_schedule
              {| world := fresh "mock"; tasks := pool_tasks |} in
  length (submissions es) = 1 /\
  exists used, Forall2 input_with used (submissions es) /\ used ⊆+ draws es /\
    (NoDup (draws es) -> NoDup used).
Proof.
  split; [vm_compute; reflexivity|].
  exact (nonces_are_drawn (Ev := scenario_env) runner socket [submit_request] (fresh "mock") pool_tasks
           pool_schedule pool_tasks_ok).
Defined.

(** The prover network gives up on every request it accepted. After the first
    request, before the worker turns: *)
Definition early_schedule : list nat := replicate 10 0.

#[local] Abbreviation early_pool :=
  (pool_after (Ev := timeout_env) runner (fresh "mock") pool_tasks early_schedule).

Lemma early_queued :
  is_Some (queue_db (view (world early_pool)) !! the_key).
Proof.
  assert (bool_decide (is_Some (queue_db (view (world early_pool)) !! the_key)) = true) as Hb
    by (vm_compute; reflexivity).
  by apply bool_decide_eq_true in Hb.
Qed.

Lemma no_job_lost_witness : covered (vars "mock") early_pool the_key.
Proof.
  destruct early_queued as [b Hb].
  refine (no_job_lost (Ev := timeout_env) (L := timeout_laws) runner (vars "mock") (vars_configured "mock") timeout_known
            socket [submit_request] (fresh "mock") pool_tasks early_schedule the_key b
            (fresh_inv "mock") eq_refl pool_tasks_ok _ _ Hb).
  - intros k b' Hk. simpl in Hk. discriminate Hk.
  - vm_compute. reflexivity.
Defined.

(** A pool of the network prover that nobody shuts down. *)
Definition working_tasks : list (prog TaskResult) :=
  [connection_task socket submit_request; worker_task 20; request_task the_job; prepare_task].

#[local] Abbreviation working_pool :=
  (pool_after (Ev := timeout_env) runner (fresh "network") working_tasks early_schedule).

Lemma working_queued : is_Some (queue_db (view (world working_pool)) !! the_key).
Proof.
  assert (bool_decide (is_Some (queue_db (view (world working_pool)) !! the_key)) = true) as Hb
    by (vm_compute; reflexivity).
  by apply bool_decide_eq_true in Hb.
Qed.

Lemma working_tasks_ok j t :
  j <> 1 -> working_tasks !! j = Some t -> working_task runner socket [submit_request] t.
Proof.
  intros Hj Ht. destruct j as [|[|[|[|j]]]].
  - apply Some_inj in Ht as <-. constructor. left.
  - by destruct Hj.
  - apply Some_inj in Ht as <-. constructor. exact the_job_anchored.
  - apply Some_inj in Ht as <-. constructor.
  - discriminate Ht.
Qed.

Lemma queued_job_can_complete_witness :
  exists more, let s := view (world (run_schedule (Ev := timeout_env) runner more working_pool)) in
    queue_db s !! the_key = None /\
    exists v st, finished_db s !! the_key = Some v /\ deserialize v = Ok st /\ is_final st = true.
Proof.
  destruct working_queued as [b Hb].
  refine (queued_job_can_complete (Ev := timeout_env) (L := timeout_laws) runner (vars "network") (vars_configured "network")
            timeout_known socket [submit_request] (fresh "network") working_tasks 1 20 early_schedule the_key b
            (fresh_inv "network") eq_refl eq_refl _ eq_refl _ _ _ Hb).
  - by apply not_elem_of_nil.
  - exact working_tasks_ok.
  - intros k b' Hk. simpl in Hk. discriminate Hk.
  - simpl. lia.
Defined.

(** Every task has its turn in the diagonal enumeration of pairs. *)
Definition diagonal (n : nat) : nat := fst (Cantor.of_nat n).

Lemma diagonal_fair : fair diagonal.
Proof.
  intros i n. exists (Cantor.to_nat (i, n)). split.
  - pose proof (Cantor.to_nat_non_decreasing i n). lia.
  - unfold diagonal. by rewrite Cantor.cancel_of_to.
Qed.

Definition fair_tasks : list (prog TaskResult) :=
  [connection_task socket submit_request; request_task the_job; prepare_task].

Lemma fair_ready : ready_to_run (Ev := timeout_env) runner (vars "network") socket [submit_request] fair_tasks (fresh "network").
Proof.
  split; [apply fresh_inv|reflexivity|reflexivity|by apply not_elem_of_nil| |].
  - repeat constructor.
  - intros k b Hk. simpl in Hk. discriminate Hk.
Qed.

(** The request's turns are rare; by the time of the 80th it has queued its job. *)
#[local] Abbreviation fair_pool :=
  (pool_at (Ev := timeout_env) runner fair_tasks (fresh "network") diagonal 80).

Lemma fair_queued : is_Some (queue_db (view (world fair_pool)) !! the_key).
Proof.
  assert (bool_decide (is_Some (queue_db (view (world fair_pool)) !! the_key)) = true) as Hb
    by (vm_compute; reflexivity).
  by apply bool_decide_eq_true in Hb.
Qed.

Lemma fair_completes_witness :
  exists m v st, 80 <= m /\ deserialize v = Ok st /\ is_final st = true /\
    forall fuel, enough (Ev := timeout_env) (fresh "network") m <= fuel ->
      let s := view (world (after (Ev := timeout_env) runner diagonal m
                 (service (Ev := timeout_env) fuel fair_tasks (fresh "network")))) in
      queue_db s !! the_key = None /\ finished_db s !! the_key = Some v.
Proof.
  destruct fair_queued as [b Hb].
  exact (fair_completes (Ev := timeout_env) (L := timeout_laws) runner (vars "network") (vars_configured "network") timeout_known
           socket [submit_request] fair_tasks (fresh "network") diagonal 80 the_key b fair_ready diagonal_fair Hb).
Defined.

(** ** Costs, a whole submit, and a crash loop *)

Lemma work_is_bounded_witness :
  let es := log (Ev := scenario_env) runner pool_schedule {| world := fresh "mock"; tasks :=
    (connection_task socket <$> [submit_request]) ++ (request_task <$> [the_job]) ++
    (prove_task runner <$> []) ++ [worker_task 3; shutdown_task] |} in
  submissions_in es <= starts_in es /\ starts_in es <= sends_in es.
Proof.
  destruct (work_is_bounded (Ev := scenario_env) (f := no_faults) runner socket (fresh "mock") [submit_request]
    [the_job] [] [worker_task 3; shutdown_task] pool_schedule) as (Hw & Hj & _).
  - constructor; [left; by exists 3|]. constructor; [right; by left|constructor].
  - split; [exact Hw|exact Hj].
Defined.

(** Two blobs, and the prover network. *)
Definition two_blobs : list Blob := [the_blob; ([x6e; x73], [x01])].

Definition two_json : Value :=
  JObj [("method", JStr "blob.Submit"); ("params", JArr [JArr (blob_json_of <$> two_blobs)])].

Definition two_request : Request Incoming := request_with authorized two_json.

Lemma two_accepted prover : Forall (fun b => accepted (vars prover) (blob_job b)) two_blobs.
Proof.
  repeat constructor; intros s stdin _ (text & key & n & Ht & Hk & ->).
  all: assert (text = bytes_to_hex (arr_bytes toy_key)) as ->
    by (apply (inj Some); rewrite <- Ht; reflexivity).
  all: assert (key = toy_key) as -> by (pose proof toy_key_hex; congruence).
  all: simpl; rewrite !andb_true_iff, !bool_decide_eq_true; by split; [exact (array_length n)|].
Qed.

Lemma submit_completes_witness :
  length (forwarded (fst (@run _ scenario_env _ (rounds runner socket two_request 2 two_blobs) (fresh "network")))) = 1.
Proof.
  destruct (submit_completes (Ev := scenario_env) runner (vars "network") (fresh "network") socket two_request
    the_uri two_json two_blobs [] ((fun b => enc anchor_codec (anchor (blob_job b))) <$> two_blobs) "network" 2)
    as (l & v & json & _ & _ & _ & Hs).
  - apply vars_configured.
  - reflexivity.
  - reflexivity.
  - apply fresh_healthy.
  - split; [reflexivity|reflexivity|exists (enc_json two_json); split; [reflexivity|vm_compute; reflexivity]|reflexivity|].
    exists (JArr (blob_json_of <$> two_blobs)). split; [reflexivity|vm_compute; reflexivity].
  - split; [intros b p _ _; by eexists _, _|intros l _; by eexists _, _].
  - pose proof (two_accepted "network") as Ha. inversion Ha as [|? ? Ha1 Ha']. inversion Ha' as [|? ? Ha2 _].
    repeat constructor; assumption.
  - apply (bool_decide_unpack _). vm_compute. reflexivity.
  - exact (f_equal length Hs).
Defined.

(** The first process of [two_lives] is killed; what follows is restarts, turns
    of the tasks and signals. *)
Definition first_life : list ProcessEvent :=
  replicate 4 (Turn 2) ++ [Accept (Ok [submit_request])] ++ replicate 12 (Turn 3) ++ [Kill].

Definition restarts : list ProcessEvent :=
  [Start 16; Turn 0; Turn 1; Turn 2; Start 18; HookStarts registrations; Signalled SIGTERM; Turn 2;
   Start 16; Turn 0; Accept (Ok [submit_request]); Turn 0].

#[local] Abbreviation life_run := (process_run (Ev := scenario_env) runner (vars "mock") Linux socket 5).
#[local] Abbreviation killed_life :=
  (life_run first_life (launch (Ev := scenario_env) 5 (reopened (vars "mock") (fresh "mock") []) [] [])).

Lemma killed_queue s : s ∈ drop 16 (disk killed_life) -> queue_db s <> ∅.
Proof.
  assert (forallb (fun s => negb (queue_is_empty s)) (drop 16 (disk killed_life)) = true) as Hall
    by (vm_compute; reflexivity).
  rewrite forallb_forall in Hall. intros Hs%list_elem_of_In%Hall. apply queue_not_empty.
  by apply negb_true_iff.
Qed.

Lemma crash_loop_witness :
  served (life_run restarts killed_life) = served killed_life /\
  ended (process_step (Ev := scenario_env) runner (vars "mock") Linux socket 5
    (life_run restarts killed_life) (Turn MAIN)) = Some MainPanicked.
Proof.
  destruct (crash_loop (Ev := scenario_env) (f := no_faults) runner (vars "mock") Linux socket 5 (fresh "mock") []
    first_life restarts 16 eq_refl) as (Hs & _ & _ & He).
  - intros [] k b Hb; simpl in Hb; discriminate Hb.
  - vm_compute. discriminate.
  - exact killed_queue.
  - reflexivity.
  - split; [exact Hs|]. apply He. vm_compute. reflexivity.
Defined.

Lemma process_sends_witness :
  length (forwarded (view (world (pool lives)))) <= length (A := Request bytes) [] + length (served lives) /\
  forall s t k b, s ∈ disk lives -> tree s t !! k = Some b -> entry_ok (vars "mock") t k b.
Proof.
  refine (proj2 (process_sends (Ev := scenario_env) (f := no_faults) runner (vars "mock") Linux socket 5 []
    (fresh "mock") two_lives _)).
  intros [] k b Hb; simpl in Hb; discriminate Hb.
Defined.

Lemma serving_inbox : inbox (view (world (pool serving))) = Some <$> [the_job].
Proof. vm_compute. reflexivity. Qed.

(** Its other tasks have ended. *)
Definition is_over (t : prog TaskResult) : bool := match t with Vis _ _ => false | _ => true end.

Lemma over_quiet ok (l : list (prog TaskResult)) j t :
  forallb is_over (take 1 l ++ drop 2 l)%list = true -> j <> 1 -> l !! j = Some t -> only ok t.
Proof.
  intros Hall Hj Ht. assert (t ∈ (take 1 l ++ drop 2 l)%list) as Hin%list_elem_of_In.
  { apply elem_of_app. destruct j as [|[|j]]; [left|by destruct Hj|right].
    - apply list_elem_of_lookup_2 with 0. by rewrite lookup_take by lia.
    - apply list_elem_of_lookup_2 with j. by rewrite lookup_drop. }
  rewrite forallb_forall in Hall. specialize (Hall t Hin). by destruct t.
Qed.

Lemma serving_others : others calm_op serving.
Proof. intros j t. apply over_quiet. vm_compute. reflexivity. Qed.

Lemma serving_serves : serves 5 serving.
Proof.
  split; [..|exact serving_others].
  - vm_compute; reflexivity.
  - vm_compute; reflexivity.
  - vm_compute; reflexivity.
  - vm_compute; reflexivity.
  - rewrite serving_inbox. by intros (? & ? & ?)%list_elem_of_fmap.
  - exists (worker_task 5). split; [reflexivity|by left].
Qed.

Lemma serving_hook : hook serving = hook_starts Linux registrations new_hook.
Proof. vm_compute. reflexivity. Qed.

(** After the signal another client connects and is served, the hook has its
    turn, and the worker's turns alternate with those of the new connection. *)
Definition late_events : list ProcessEvent :=
  [Accept (Ok [height_request]); Turn 5; Signalled SIGINT].

Definition last_events : list ProcessEvent := mjoin (replicate 6 [Turn 1; Turn 5; Accept (Ok [])]).

#[local] Abbreviation scenario_run :=
  (process_run (Ev := scenario_env) runner (vars "mock") Linux socket 5).

#[local] Abbreviation woken := (scenario_run (Signalled SIGTERM :: late_events) serving).

#[local] Abbreviation hook_done :=
  (process_step (Ev := scenario_env) runner (vars "mock") Linux socket 5 woken
    (Turn (length (tasks (pool serving))))).

